(** * A shallow embedding of the OSRM query-time engine and extractor

    The development follows the C++ sources of the repository:

    - [Typedefs]     constants of util/typedefs.hpp that the sources use;
    - [Layout]       the object layout of [PhantomNode] (engine/phantom_node.hpp)
                     and of the hint record built in engine/api/base_api.hpp;
    - [Routed]       option handling and exit codes of src/tools/routed.cpp;
    - [StaticGraph]  the adjacency array behind the data facade
                     (engine/datafacade/shared_datafacade.hpp);
    - [QueryHeap]    the addressable priority queue of the searches;
    - [ManyToMany]   engine/routing_algorithms/many_to_many.hpp;
    - [SweepInvariant] the invariant of its two sweeps;
    - [Guidance]     src/engine/guidance/post_processing.cpp;
    - [TableEntries] what the sweeps of many_to_many.hpp offer to a cell;
    - [ExtractionContainers], [MultiEdges]
                     src/extractor/extraction_containers.cpp: the numbering
                     of the nodes, the files of nodes, edges and names, the
                     order of the edges and the removal of parallel edges;
    - [Extractor], [DataFacade]
                     src/extractor/extractor.cpp (the r-tree of the start
                     points, the arrays of the lane descriptions) and the
                     reader of these arrays in shared_datafacade.hpp;
    - [GuidanceLegs] legs to run the passes over the intersections with;
    - [ParametersGrammar] the policy of server/api/base_parameters_grammar.hpp;
    - [Tools]        src/tools/contract.cpp and src/tools/extract.cpp;
    - [Json], [JsonFactory], [RelativeLocations]
                     src/engine/api/json_factory.cpp and
                     [assignRelativeLocations] of post_processing.cpp;
    - [TurnDiscovery] src/extractor/guidance/turn_discovery.cpp.

    Integers of the program are modelled as [Z] or [N]; 32-bit unsigned
    arithmetic is reduced modulo [2^32] where the source can wrap.  Signed
    overflow is undefined behaviour in C++ and lies outside the model: signed
    weights are unbounded integers.  C++ [double]s are binary64 floats. *)

From Stdlib Require Import ZArith NArith List Lia Bool String Ascii Floats.
From stdpp Require Import base option list gmap sorting strings.

Local Open Scope Z_scope.

(* ===================================================================== *)
(** * Part I: the program                                                *)
(* ===================================================================== *)

Module Typedefs.

(** [std::numeric_limits<unsigned>::max()] *)
Definition UINT_MAX : N := 4294967295%N.

(** [std::numeric_limits<int>::max()] *)
Definition INT_MAX : Z := 2147483647.

Definition SPECIAL_NODEID : N := UINT_MAX.
Definition SPECIAL_EDGEID : N := UINT_MAX.
Definition INVALID_EDGE_WEIGHT : Z := INT_MAX.

(** Reduction of an unsigned 32-bit value. *)
Definition wrap32 (n : N) : N := (n mod 4294967296)%N.

End Typedefs.

(* --------------------------------------------------------------------- *)
(** ** Object layout (engine/phantom_node.hpp)                           *)
(* --------------------------------------------------------------------- *)

Module Layout.

#[local] Unset Elimination Schemes.

(** The C++ types that occur as members of [PhantomNode], on the LP64
    targets the program is built for.  A run of bit-fields is given with the
    widths of its fields and is packed into 32-bit storage units. *)
Inductive ctype : Type :=
| UInt8
| UInt16
| UInt32
| Int32
| Bits32 (widths : list nat)
| Struct (members : list ctype).

#[local] Set Elimination Schemes.

Definition align_up (offset alignment : nat) : nat :=
  ((offset + alignment - 1) / alignment * alignment)%nat.

(** Number of 32-bit units taken by consecutive bit-fields: a field that
    does not fit into what is left of the current unit starts a new one. *)
Fixpoint bit_units (used : nat) (widths : list nat) : nat :=
  match widths with
  | [] => if Nat.eqb used 0 then 0%nat else 1%nat
  | w :: ws =>
      if Nat.leb (used + w) 32 then bit_units (used + w) ws
      else S (bit_units w ws)
  end.

Fixpoint alignof (t : ctype) : nat :=
  match t with
  | UInt8 => 1
  | UInt16 => 2
  | UInt32 | Int32 | Bits32 _ => 4
  | Struct ms => fold_right (fun m a => Nat.max (alignof m) a) 1%nat ms
  end.

Fixpoint sizeof (t : ctype) : nat :=
  match t with
  | UInt8 => 1
  | UInt16 => 2
  | UInt32 | Int32 => 4
  | Bits32 ws => (4 * bit_units 0 ws)%nat
  | Struct ms =>
      align_up
        ((fix place (ms : list ctype) (offset : nat) : nat :=
            match ms with
            | [] => offset
            | m :: ms' => place ms' (align_up offset (alignof m) + sizeof m)%nat
            end) ms 0%nat)
        (fold_right (fun m a => Nat.max (alignof m) a) 1%nat ms)
  end.

(** [struct SegmentID { NodeID id : 31; std::uint32_t enabled : 1; }] *)
Definition SegmentID : ctype := Struct [Bits32 [31; 1]%nat].

(** [struct ComponentType { std::uint32_t id : 31; std::uint32_t is_tiny : 1; }] *)
Definition ComponentType : ctype := Struct [Bits32 [31; 1]%nat].

(** [util::Coordinate]: fixed-point longitude and latitude, 32 bits each. *)
Definition Coordinate : ctype := Struct [Int32; Int32].

(** [extractor::TravelMode] is one byte. *)
Definition TravelMode : ctype := UInt8.

(** The data members of [struct PhantomNode], in declaration order. *)
Definition PhantomNode : ctype :=
  Struct
    [ SegmentID      (* forward_segment_id *)
    ; SegmentID      (* reverse_segment_id *)
    ; UInt32         (* name_id *)
    ; Int32          (* forward_weight *)
    ; Int32          (* reverse_weight *)
    ; Int32          (* forward_offset *)
    ; Int32          (* reverse_offset *)
    ; UInt32         (* forward_packed_geometry_id *)
    ; UInt32         (* reverse_packed_geometry_id *)
    ; ComponentType  (* component *)
    ; Coordinate     (* location *)
    ; Coordinate     (* input_location *)
    ; UInt16         (* fwd_segment_position *)
    ; TravelMode     (* forward_travel_mode *)
    ; TravelMode     (* backward_travel_mode *)
    ].

(** Modelled from the spec: engine/hint.hpp is not among the sources.  The
    hint is "a PhantomEndpoint plus facade checksum"; base_api.hpp builds it
    as [Hint{phantom, facade.GetCheckSum()}], and [GetCheckSum] returns
    [unsigned]. *)
Definition Hint : ctype :=
  Struct
    [ PhantomNode    (* phantom *)
    ; UInt32         (* data_checksum *)
    ].

(** Number of bytes a base-64 text decodes to: three bytes for every four
    characters, less one byte for each trailing padding character. *)
Fixpoint count_padding (s : string) : nat :=
  match s with
  | EmptyString => 0
  | String c rest =>
      if Ascii.eqb c "="%char then S (count_padding rest) else count_padding rest
  end.

Definition base64_decoded_length (s : string) : nat :=
  (String.length s / 4 * 3 - count_padding s)%nat.

(** The first hint of unit_tests/server/parameters_parser.cpp. *)
Definition test_hint : string :=
  "DAIAgP___38AAAAAAAAAAAIAAAAAAAAAEAAAAOgDAAD0AwAAGwAAAOUacQBQP5sCshpxAB0_mwIAAAEBl-Umfg==".

End Layout.

(* --------------------------------------------------------------------- *)
(** ** The router's command line (src/tools/routed.cpp)                  *)
(* --------------------------------------------------------------------- *)

Module Routed.

(** What [boost::program_options] hands back for a command line: whether
    parsing threw, which options were seen, and the values it stored. *)
Record CommandLine : Type := {
  parse_throws : bool;          (* boost::program_options::error *)
  has_version : bool;           (* option_variables.count("version") *)
  has_help : bool;              (* option_variables.count("help") *)
  use_shared_memory : bool;     (* --shared-memory, default false *)
  base : option string;         (* positional <base>, count("base") *)
  trial : bool                  (* --trial *)
}.

(** [const static unsigned] results of option handling; [INIT_FAILED] is
    [-1] converted to [unsigned]. *)
Definition INIT_OK_START_ENGINE : N := 0%N.
Definition INIT_OK_DO_NOT_START_ENGINE : N := 1%N.
Definition INIT_FAILED : N := Typedefs.wrap32 (4294967296 - 1)%N.

Definition EXIT_SUCCESS : Z := 0.
Definition EXIT_FAILURE : Z := 1.

Definition count_base (cl : CommandLine) : bool :=
  match base cl with Some _ => true | None => false end.

Definition generateServerProgramOptions (cl : CommandLine) : N :=
  if parse_throws cl then INIT_FAILED
  else if has_version cl then INIT_OK_DO_NOT_START_ENGINE
  else if has_help cl then INIT_OK_DO_NOT_START_ENGINE
  else if negb (use_shared_memory cl) && count_base cl then INIT_OK_START_ENGINE
  else if use_shared_memory cl && negb (count_base cl) then INIT_OK_START_ENGINE
  else (* the conflict is logged, then the usage text is printed *)
    INIT_OK_DO_NOT_START_ENGINE.

(** What [main] meets after option handling: whether the engine
    configuration is valid ([EngineConfig::IsValid], not among the sources)
    and whether running the server ends in [std::bad_alloc]. *)
Record Environment : Type := {
  config_is_valid : bool;
  server_bad_alloc : bool
}.

Definition main (cl : CommandLine) (env : Environment) : Z :=
  let init_result := generateServerProgramOptions cl in
  if N.eqb init_result INIT_OK_DO_NOT_START_ENGINE then EXIT_SUCCESS
  else if N.eqb init_result INIT_FAILED then EXIT_FAILURE
  else if negb (config_is_valid env) then EXIT_FAILURE
  else if server_bad_alloc env then EXIT_FAILURE
  else 0.

(** The two command lines of the usage rule: neither a base path nor
    shared memory, and both. *)
Definition neither : CommandLine :=
  {| parse_throws := false; has_version := false; has_help := false;
     use_shared_memory := false; base := None; trial := false |}.

Definition both : CommandLine :=
  {| parse_throws := false; has_version := false; has_help := false;
     use_shared_memory := true; base := Some "map.osrm"%string; trial := false |}.

End Routed.

(* --------------------------------------------------------------------- *)
(** ** The search graph behind the data facade                           *)
(* --------------------------------------------------------------------- *)

Module StaticGraph.
Import Typedefs.

(** The payload of a query edge: weight in deci-seconds, the shortcut flag
    with the id the edge unpacks through, and the two direction flags. *)
Record EdgeData : Type := {
  id : N;
  shortcut : bool;
  distance : Z;
  forward : bool;
  backward : bool
}.

Record EdgeArrayEntry : Type := {
  target : N;
  data : EdgeData
}.

(** Modelled from the spec: util/static_graph.hpp is not among the sources;
    the facade of shared_datafacade.hpp forwards every graph accessor to it.
    The storage is the adjacency array of the data model: [node_array] holds
    the offset of the first edge of every node, followed by one sentinel, and
    the edges of node [n] occupy [[offset(n), offset(n+1))] of [edge_array]. *)
Record Graph : Type := {
  node_array : list N;
  edge_array : list EdgeArrayEntry
}.

Definition GetNumberOfNodes (g : Graph) : N :=
  N.of_nat (length (node_array g) - 1).

Definition GetNumberOfEdges (g : Graph) : N :=
  N.of_nat (length (edge_array g)).

(** Reading past the end of an array is undefined in the source; the model
    reads a zero offset, a zero target and a dead edge there. *)
Definition first_edge (g : Graph) (n : N) : N :=
  default 0%N (node_array g !! N.to_nat n).

Definition BeginEdges (g : Graph) (n : N) : N := first_edge g n.

Definition EndEdges (g : Graph) (n : N) : N := first_edge g (n + 1).

Definition GetOutDegree (g : Graph) (n : N) : N :=
  (EndEdges g n - BeginEdges g n)%N.

Definition dead_edge : EdgeArrayEntry :=
  {| target := 0%N;
     data := {| id := 0%N; shortcut := false; distance := 0;
                forward := false; backward := false |} |}.

Definition edge_at (g : Graph) (e : N) : EdgeArrayEntry :=
  default dead_edge (edge_array g !! N.to_nat e).

Definition GetTarget (g : Graph) (e : N) : N := target (edge_at g e).

Definition GetEdgeData (g : Graph) (e : N) : EdgeData := data (edge_at g e).

(** [irange(first, last)]: the ids [first, first + 1, ..., last - 1]. *)
Definition irange (first last : N) : list N :=
  map N.of_nat (seq (N.to_nat first) (N.to_nat last - N.to_nat first)).

Definition GetAdjacentEdgeRange (g : Graph) (n : N) : list N :=
  irange (BeginEdges g n) (EndEdges g n).

(** Modelled from the spec: [FindEdge(u,v)] scans the edge range of [u]
    and returns the first edge whose target is [v], or the sentinel. *)
Definition FindEdge (g : Graph) (from to : N) : N :=
  match find (fun e => N.eqb to (GetTarget g e)) (GetAdjacentEdgeRange g from) with
  | Some e => e
  | None => SPECIAL_EDGEID
  end.

(** A valid graph: the offsets are non-decreasing and stay within the edge
    array, edge ids stay below the sentinel, and every target is a node. *)
Fixpoint non_decreasing (l : list N) : bool :=
  match l with
  | a :: ((b :: _) as rest) => N.leb a b && non_decreasing rest
  | _ => true
  end.

Definition valid (g : Graph) : bool :=
  Nat.ltb 0 (length (node_array g)) &&
  non_decreasing (node_array g) &&
  forallb (fun off => N.leb off (GetNumberOfEdges g)) (node_array g) &&
  N.ltb (GetNumberOfEdges g) SPECIAL_EDGEID &&
  forallb (fun e => N.ltb (target e) (GetNumberOfNodes g)) (edge_array g).

(** The graph of [find_test] in unit_tests/util/static_graph.cpp, built from
    the sorted input edges (0,1), (3,0), (3,0), (3,4), (4,3); the edge data
    carries the test's ids 1, 2, 5, 3, 4. *)
Definition test_edge (t i : N) : EdgeArrayEntry :=
  {| target := t;
     data := {| id := i; shortcut := false; distance := 1;
                forward := true; backward := false |} |}.

Definition simple_graph : Graph :=
  {| node_array := [0; 1; 1; 1; 4; 5]%N;
     edge_array := [test_edge 1 1; test_edge 0 2; test_edge 0 5;
                    test_edge 4 3; test_edge 3 4]%N |}.

End StaticGraph.

(* --------------------------------------------------------------------- *)
(** ** The query heap                                                    *)
(* --------------------------------------------------------------------- *)

Module QueryHeap.
Import Typedefs.

Record HeapNode : Type := {
  key : Z;
  parent : N
}.

(** Modelled from the spec: util/binary_heap.hpp is not among the sources.
    The heap is addressable by node id: [nodes] keeps key and parent of
    every node inserted since the last [Clear], and [queue] lists the nodes
    that were inserted and not yet removed by [DeleteMin], in insertion
    order. *)
Record t : Type := {
  queue : list N;
  nodes : gmap N HeapNode
}.

Definition Clear (_ : t) : t := {| queue := []; nodes := ∅ |}.

Definition Empty (h : t) : bool :=
  match queue h with [] => true | _ => false end.

Definition WasInserted (h : t) (n : N) : bool :=
  match nodes h !! n with Some _ => true | None => false end.

Definition GetKey (h : t) (n : N) : Z :=
  match nodes h !! n with Some d => key d | None => 0 end.

Definition GetParent (h : t) (n : N) : N :=
  match nodes h !! n with Some d => parent d | None => SPECIAL_NODEID end.

Definition Insert (h : t) (n : N) (k : Z) (p : N) : t :=
  {| queue := queue h ++ [n];
     nodes := <[n := {| key := k; parent := p |}]> (nodes h) |}.

Definition DecreaseKey (h : t) (n : N) (k : Z) : t :=
  {| queue := queue h;
     nodes := alter (fun d => {| key := k; parent := parent d |}) n (nodes h) |}.

(** [GetData(n).parent = p] *)
Definition SetParent (h : t) (n : N) (p : N) : t :=
  {| queue := queue h;
     nodes := alter (fun d => {| key := key d; parent := p |}) n (nodes h) |}.

(** The queued node of least key; among equal keys the one queued first. *)
Fixpoint min_from (h : t) (best : N) (l : list N) : N :=
  match l with
  | [] => best
  | n :: l' => min_from h (if Z.ltb (GetKey h n) (GetKey h best) then n else best) l'
  end.

Definition Min (h : t) : N :=
  match queue h with
  | [] => SPECIAL_NODEID
  | n :: l => min_from h n l
  end.

Fixpoint remove_first (n : N) (l : list N) : list N :=
  match l with
  | [] => []
  | x :: l' => if N.eqb x n then l' else x :: remove_first n l'
  end.

(** [DeleteMin] takes the least node off the queue; the node stays inserted
    and keeps its key. *)
Definition DeleteMin (h : t) : N * t :=
  let n := Min h in
  (n, {| queue := remove_first n (queue h); nodes := nodes h |}).

End QueryHeap.

(* --------------------------------------------------------------------- *)
(** ** Many-to-many routing (engine/routing_algorithms/many_to_many.hpp)  *)
(* --------------------------------------------------------------------- *)

Module ManyToMany.
Import Typedefs StaticGraph.

Record SegmentID : Type := {
  seg_id : N;
  enabled : bool
}.

(** The members of [PhantomNode] that the table computation reads. *)
Record PhantomNode : Type := {
  forward_segment_id : SegmentID;
  reverse_segment_id : SegmentID;
  forward_weight : Z;
  reverse_weight : Z;
  forward_offset : Z;
  reverse_offset : Z
}.

(** The default-constructed phantom node: no segment is enabled. *)
Definition invalid_phantom : PhantomNode :=
  {| forward_segment_id := {| seg_id := SPECIAL_NODEID; enabled := false |};
     reverse_segment_id := {| seg_id := SPECIAL_NODEID; enabled := false |};
     forward_weight := INVALID_EDGE_WEIGHT;
     reverse_weight := INVALID_EDGE_WEIGHT;
     forward_offset := 0;
     reverse_offset := 0 |}.

Definition GetForwardWeightPlusOffset (p : PhantomNode) : Z :=
  forward_offset p + forward_weight p.

Definition GetReverseWeightPlusOffset (p : PhantomNode) : Z :=
  reverse_offset p + reverse_weight p.

Record NodeBucket : Type := {
  target_id : N;
  bucket_distance : Z
}.

(** [std::unordered_map<NodeID, std::vector<NodeBucket>>] *)
Abbreviation SearchSpaceWithBuckets := (gmap N (list NodeBucket)).

Section Search.
Variable facade : Graph.

(** Modelled from the spec: [GetLoopWeight] lives in routing_base.hpp, which
    is not among the sources: the least weight of a self-loop of the node
    that keeps the forward direction, or [INVALID_EDGE_WEIGHT]. *)
Definition GetLoopWeight (node : N) : Z :=
  fold_left
    (fun loop_weight edge =>
       let data := GetEdgeData facade edge in
       if forward data && N.eqb (GetTarget facade edge) node
       then Z.min loop_weight (distance data)
       else loop_weight)
    (GetAdjacentEdgeRange facade node) INVALID_EDGE_WEIGHT.

(** One iteration of the loop of [RelaxOutgoingEdges]. *)
Definition relax_edge (forward_direction : bool) (node : N) (dist : Z)
    (query_heap : QueryHeap.t) (edge : N) : QueryHeap.t :=
  let data := GetEdgeData facade edge in
  let direction_flag := if forward_direction then forward data else backward data in
  if direction_flag then
    let to := GetTarget facade edge in
    let edge_weight := distance data in
    let to_distance := dist + edge_weight in
    if negb (QueryHeap.WasInserted query_heap to) then
      QueryHeap.Insert query_heap to to_distance node
    else if Z.ltb to_distance (QueryHeap.GetKey query_heap to) then
      QueryHeap.DecreaseKey (QueryHeap.SetParent query_heap to node) to to_distance
    else query_heap
  else query_heap.

Definition RelaxOutgoingEdges (forward_direction : bool) (node : N) (dist : Z)
    (query_heap : QueryHeap.t) : QueryHeap.t :=
  fold_left (relax_edge forward_direction node dist)
    (GetAdjacentEdgeRange facade node) query_heap.

(** The test made for one edge by [StallAtNode]. *)
Definition stalls_through (forward_direction : bool) (dist : Z)
    (query_heap : QueryHeap.t) (edge : N) : bool :=
  let data := GetEdgeData facade edge in
  let reverse_flag := if negb forward_direction then forward data else backward data in
  reverse_flag &&
  (let to := GetTarget facade edge in
   let edge_weight := distance data in
   QueryHeap.WasInserted query_heap to &&
   Z.ltb (QueryHeap.GetKey query_heap to + edge_weight) dist).

Definition StallAtNode (forward_direction : bool) (node : N) (dist : Z)
    (query_heap : QueryHeap.t) : bool :=
  existsb (stalls_through forward_direction dist query_heap)
    (GetAdjacentEdgeRange facade node).

(** [result_table[row_idx * number_of_targets + column_idx]]: the index is
    computed in [unsigned]. *)
Definition cell (row_idx number_of_targets column_idx : N) : nat :=
  N.to_nat (wrap32 (row_idx * number_of_targets + column_idx)).

(** The body of the loop over the bucket list in [ForwardRoutingStep].
    Writing to a cell outside the table is undefined in the source; the
    model leaves the table as it is. *)
Definition update_cell (row_idx number_of_targets : N) (node : N) (source_distance : Z)
    (result_table : list Z) (current_bucket : NodeBucket) : list Z :=
  let column_idx := target_id current_bucket in
  let target_distance := bucket_distance current_bucket in
  let i := cell row_idx number_of_targets column_idx in
  let current_distance := default 0 (result_table !! i) in
  let new_distance := source_distance + target_distance in
  if Z.ltb new_distance 0 then
    let loop_weight := GetLoopWeight node in
    let new_distance_with_loop := new_distance + loop_weight in
    if negb (Z.eqb loop_weight INVALID_EDGE_WEIGHT) && Z.leb 0 new_distance_with_loop
    then <[i := Z.min current_distance new_distance_with_loop]> result_table
    else result_table
  else if Z.ltb new_distance current_distance then
    <[i := new_distance]> result_table
  else result_table.

Definition ForwardRoutingStep (row_idx number_of_targets : N)
    (query_heap : QueryHeap.t) (search_space_with_buckets : SearchSpaceWithBuckets)
    (result_table : list Z) : QueryHeap.t * list Z :=
  let '(node, query_heap) := QueryHeap.DeleteMin query_heap in
  let source_distance := QueryHeap.GetKey query_heap node in
  let result_table :=
    match search_space_with_buckets !! node with
    | Some bucket_list =>
        fold_left (update_cell row_idx number_of_targets node source_distance)
          bucket_list result_table
    | None => result_table
    end in
  if StallAtNode true node source_distance query_heap
  then (query_heap, result_table)
  else (RelaxOutgoingEdges true node source_distance query_heap, result_table).

(** [search_space_with_buckets[node].emplace_back(column_idx, distance)] *)
Definition add_bucket (search_space_with_buckets : SearchSpaceWithBuckets)
    (node : N) (column_idx : N) (dist : Z) : SearchSpaceWithBuckets :=
  <[node := default [] (search_space_with_buckets !! node)
            ++ [{| target_id := column_idx; bucket_distance := dist |}]]>
    search_space_with_buckets.

Definition BackwardRoutingStep (column_idx : N)
    (query_heap : QueryHeap.t) (search_space_with_buckets : SearchSpaceWithBuckets)
    : QueryHeap.t * SearchSpaceWithBuckets :=
  let '(node, query_heap) := QueryHeap.DeleteMin query_heap in
  let target_distance := QueryHeap.GetKey query_heap node in
  let search_space_with_buckets :=
    add_bucket search_space_with_buckets node column_idx target_distance in
  if StallAtNode false node target_distance query_heap
  then (query_heap, search_space_with_buckets)
  else (RelaxOutgoingEdges false node target_distance query_heap,
        search_space_with_buckets).

(** [while (!query_heap.Empty()) BackwardRoutingStep(...)], run for at most
    [fuel] iterations. *)
Fixpoint explore_backward (fuel : nat) (column_idx : N)
    (query_heap : QueryHeap.t) (search_space_with_buckets : SearchSpaceWithBuckets)
    : QueryHeap.t * SearchSpaceWithBuckets :=
  match fuel with
  | O => (query_heap, search_space_with_buckets)
  | S fuel' =>
      if QueryHeap.Empty query_heap then (query_heap, search_space_with_buckets)
      else
        let '(query_heap, search_space_with_buckets) :=
          BackwardRoutingStep column_idx query_heap search_space_with_buckets in
        explore_backward fuel' column_idx query_heap search_space_with_buckets
  end.

Fixpoint explore_forward (fuel : nat) (row_idx number_of_targets : N)
    (query_heap : QueryHeap.t) (search_space_with_buckets : SearchSpaceWithBuckets)
    (result_table : list Z) : QueryHeap.t * list Z :=
  match fuel with
  | O => (query_heap, result_table)
  | S fuel' =>
      if QueryHeap.Empty query_heap then (query_heap, result_table)
      else
        let '(query_heap, result_table) :=
          ForwardRoutingStep row_idx number_of_targets query_heap
            search_space_with_buckets result_table in
        explore_forward fuel' row_idx number_of_targets query_heap
          search_space_with_buckets result_table
  end.

(** Every pass of a search loop takes one node off the queue, and a node is
    queued once: as one of the two seeds or as the target of an edge.  This
    many iterations exhaust every search (see [explore_backward_exhausts]
    and [explore_forward_exhausts]). *)
Definition search_fuel : nat := 2 + length (edge_array facade).

(** The heap of [search_target_phantom] after its insertions. *)
Definition seed_target (phantom : PhantomNode) : QueryHeap.t :=
  let query_heap := QueryHeap.Clear {| QueryHeap.queue := []; QueryHeap.nodes := ∅ |} in
  let query_heap :=
    if enabled (forward_segment_id phantom)
    then QueryHeap.Insert query_heap (seg_id (forward_segment_id phantom))
           (GetForwardWeightPlusOffset phantom) (seg_id (forward_segment_id phantom))
    else query_heap in
  if enabled (reverse_segment_id phantom)
  then QueryHeap.Insert query_heap (seg_id (reverse_segment_id phantom))
         (GetReverseWeightPlusOffset phantom) (seg_id (reverse_segment_id phantom))
  else query_heap.

(** The heap of [search_source_phantom] after its insertions. *)
Definition seed_source (phantom : PhantomNode) : QueryHeap.t :=
  let query_heap := QueryHeap.Clear {| QueryHeap.queue := []; QueryHeap.nodes := ∅ |} in
  let query_heap :=
    if enabled (forward_segment_id phantom)
    then QueryHeap.Insert query_heap (seg_id (forward_segment_id phantom))
           (- GetForwardWeightPlusOffset phantom) (seg_id (forward_segment_id phantom))
    else query_heap in
  if enabled (reverse_segment_id phantom)
  then QueryHeap.Insert query_heap (seg_id (reverse_segment_id phantom))
         (- GetReverseWeightPlusOffset phantom) (seg_id (reverse_segment_id phantom))
  else query_heap.

Definition search_target_phantom (column_idx : N) (phantom : PhantomNode)
    (search_space_with_buckets : SearchSpaceWithBuckets) : SearchSpaceWithBuckets :=
  snd (explore_backward search_fuel column_idx (seed_target phantom)
         search_space_with_buckets).

Definition search_source_phantom (row_idx number_of_targets : N) (phantom : PhantomNode)
    (search_space_with_buckets : SearchSpaceWithBuckets) (result_table : list Z)
    : list Z :=
  snd (explore_forward search_fuel row_idx number_of_targets (seed_source phantom)
         search_space_with_buckets result_table).

(** The loops over the targets and over the sources; the counters
    [column_idx] and [row_idx] are [unsigned]. *)
Fixpoint search_targets (column_idx : N) (phantoms : list PhantomNode)
    (search_space_with_buckets : SearchSpaceWithBuckets) : SearchSpaceWithBuckets :=
  match phantoms with
  | [] => search_space_with_buckets
  | phantom :: rest =>
      search_targets (wrap32 (column_idx + 1)) rest
        (search_target_phantom column_idx phantom search_space_with_buckets)
  end.

Fixpoint search_sources (row_idx number_of_targets : N) (phantoms : list PhantomNode)
    (search_space_with_buckets : SearchSpaceWithBuckets) (result_table : list Z)
    : list Z :=
  match phantoms with
  | [] => result_table
  | phantom :: rest =>
      search_sources (wrap32 (row_idx + 1)) number_of_targets rest
        search_space_with_buckets
        (search_source_phantom row_idx number_of_targets phantom
           search_space_with_buckets result_table)
  end.

(** The value of the [unsigned] counter [row_idx] (or [column_idx]) when
    the loop reaches its [j]-th phantom, counting from [start]. *)
Fixpoint row_index (start : N) (j : nat) : N :=
  match j with
  | O => start
  | S j' => row_index (wrap32 (start + 1)) j'
  end.

(** The phantoms a list of indices selects: all of them when the list is
    empty.  [phantom_nodes[index]] past the end is undefined in the source;
    the model reads a phantom without enabled segments. *)
Definition selected (phantom_nodes : list PhantomNode) (indices : list nat)
    : list PhantomNode :=
  match indices with
  | [] => phantom_nodes
  | _ => map (fun index => default invalid_phantom (phantom_nodes !! index)) indices
  end.

Definition number_selected (phantom_nodes : list PhantomNode) (indices : list nat)
    : nat :=
  match indices with
  | [] => length phantom_nodes
  | _ => length indices
  end.

(** [ManyToManyRouting::operator()] *)
Definition many_to_many (phantom_nodes : list PhantomNode)
    (source_indices target_indices : list nat) : list Z :=
  let number_of_sources := number_selected phantom_nodes source_indices in
  let number_of_targets := number_selected phantom_nodes target_indices in
  let number_of_entries := (number_of_sources * number_of_targets)%nat in
  let result_table := replicate number_of_entries INT_MAX in
  let search_space_with_buckets : SearchSpaceWithBuckets :=
    search_targets 0%N (selected phantom_nodes target_indices) ∅ in
  search_sources 0%N (wrap32 (N.of_nat number_of_targets))
    (selected phantom_nodes source_indices) search_space_with_buckets result_table.

(** The settling of one node, as the routing steps do it: take the least
    node off the queue and relax its edges unless the test [stalled] holds
    of it.  The searches of the source test with [StallAtNode]; the
    reference sweep never stalls. *)
Definition settle_with (stalled : N -> Z -> QueryHeap.t -> bool)
    (forward_direction : bool) (query_heap : QueryHeap.t) : QueryHeap.t :=
  let '(node, query_heap) := QueryHeap.DeleteMin query_heap in
  let dist := QueryHeap.GetKey query_heap node in
  if stalled node dist query_heap
  then query_heap
  else RelaxOutgoingEdges forward_direction node dist query_heap.

Definition settle (forward_direction : bool) (query_heap : QueryHeap.t) : QueryHeap.t :=
  settle_with (StallAtNode forward_direction) forward_direction query_heap.

Definition never_stalled (node : N) (dist : Z) (query_heap : QueryHeap.t) : bool :=
  false.

(** The reference of the testable property: a plain Dijkstra sweep over the
    same edges, which is [BackwardRoutingStep] without the stalling test. *)
Definition ReferenceBackwardStep (column_idx : N)
    (query_heap : QueryHeap.t) (search_space_with_buckets : SearchSpaceWithBuckets)
    : QueryHeap.t * SearchSpaceWithBuckets :=
  let '(node, query_heap) := QueryHeap.DeleteMin query_heap in
  let target_distance := QueryHeap.GetKey query_heap node in
  (RelaxOutgoingEdges false node target_distance query_heap,
   add_bucket search_space_with_buckets node column_idx target_distance).

Fixpoint reference_backward (fuel : nat) (column_idx : N)
    (query_heap : QueryHeap.t) (search_space_with_buckets : SearchSpaceWithBuckets)
    : QueryHeap.t * SearchSpaceWithBuckets :=
  match fuel with
  | O => (query_heap, search_space_with_buckets)
  | S fuel' =>
      if QueryHeap.Empty query_heap then (query_heap, search_space_with_buckets)
      else
        let '(query_heap, search_space_with_buckets) :=
          ReferenceBackwardStep column_idx query_heap search_space_with_buckets in
        reference_backward fuel' column_idx query_heap search_space_with_buckets
  end.

Definition reference_target_phantom (column_idx : N) (phantom : PhantomNode)
    (search_space_with_buckets : SearchSpaceWithBuckets) : SearchSpaceWithBuckets :=
  snd (reference_backward search_fuel column_idx (seed_target phantom)
         search_space_with_buckets).

(** The view of the graph a search climbs: [arc u v w] is an edge of the
    range of [u] that carries the flag of the direction, leads to [v] and
    weighs [w]; a path chains such edges and adds their weights. *)
Definition arc (forward_direction : bool) (u v : N) (w : Z) : Prop :=
  exists edge,
    In edge (GetAdjacentEdgeRange facade u) /\
    (if forward_direction
     then forward (GetEdgeData facade edge)
     else backward (GetEdgeData facade edge)) = true /\
    GetTarget facade edge = v /\
    distance (GetEdgeData facade edge) = w.

Inductive path (forward_direction : bool) : N -> N -> Z -> Prop :=
| path_here (u : N) : path forward_direction u u 0
| path_arc (u x v : N) (W w : Z) :
    path forward_direction u x W ->
    arc forward_direction x v w ->
    path forward_direction u v (W + w).

(** [n] can carry the key [k]: a path leads to it from a node that the heap
    [seeds] holds, and [k] is the key of that seed plus the weight of the
    path. *)
Definition reached_from (forward_direction : bool) (seeds : QueryHeap.t)
    (n : N) (k : Z) : Prop :=
  exists s W,
    QueryHeap.WasInserted seeds s = true /\
    path forward_direction s n W /\
    k = QueryHeap.GetKey seeds s + W.

(** The bucket map holds the entry [(column_idx, w)] at node [n]. *)
Definition recorded (search_space_with_buckets : SearchSpaceWithBuckets)
    (n column_idx : N) (w : Z) : Prop :=
  exists bucket_list,
    search_space_with_buckets !! n = Some bucket_list /\
    In {| target_id := column_idx; bucket_distance := w |} bucket_list.

(** The test [stalled] holds at no node of a path before its end. *)
Inductive clear_path (stalled : N -> Z -> QueryHeap.t -> bool)
    (forward_direction : bool) (query_heap : QueryHeap.t) : N -> N -> Z -> Prop :=
| clear_here (u : N) : clear_path stalled forward_direction query_heap u u 0
| clear_arc (u x v : N) (W w : Z) :
    clear_path stalled forward_direction query_heap u x W ->
    stalled x (QueryHeap.GetKey query_heap x) query_heap = false ->
    arc forward_direction x v w ->
    clear_path stalled forward_direction query_heap u v (W + w).

(** The stalling test of the source holds at no node of a path before its
    end. *)
Definition unstalled_path (forward_direction : bool) (query_heap : QueryHeap.t)
    : N -> N -> Z -> Prop :=
  clear_path (StallAtNode forward_direction) forward_direction query_heap.

(** The edge weights the searches assert: [edge_weight > 0]. *)
Definition positive_weights : bool :=
  forallb (fun e => Z.ltb 0 (distance (data e))) (edge_array facade).

End Search.

(** A contracted graph on which stalling shows: node 0 is the target, the
    backward search climbs the edges 0-1 (10), 0-2 (1), 0-3 (100) and
    1-3 (1), and node 1 has the forward edge 1-2 (2) that stalls it. *)
Definition query_edge (t : N) (w : Z) (f b : bool) : EdgeArrayEntry :=
  {| target := t;
     data := {| id := 0%N; shortcut := false; distance := w;
                forward := f; backward := b |} |}.

Definition stall_graph : Graph :=
  {| node_array := [0; 3; 5; 5; 5]%N;
     edge_array := [query_edge 1 10 false true; query_edge 2 1 false true;
                    query_edge 3 100 false true;
                    query_edge 3 1 false true; query_edge 2 2 true false] |}.

Definition stall_target : PhantomNode :=
  {| forward_segment_id := {| seg_id := 0%N; enabled := true |};
     reverse_segment_id := {| seg_id := SPECIAL_NODEID; enabled := false |};
     forward_weight := 5;
     reverse_weight := INVALID_EDGE_WEIGHT;
     forward_offset := 0;
     reverse_offset := 0 |}.

(** Three nodes A = 0, B = 1, C = 2 in a line, A-B = 5 and B-C = 5 in both
    directions, contracted with B on top: A and C each keep one edge to B
    that is open in both directions. *)
Definition line_graph : Graph :=
  {| node_array := [0; 1; 1; 2]%N;
     edge_array := [query_edge 1 5 true true; query_edge 1 5 true true] |}.

(** One node with a loop of weight 20 back to itself, and a source and a
    target on its segment, the source 7 and the target 3 deci-seconds from
    its start. *)
Definition loop_graph : Graph :=
  {| node_array := [0; 1]%N;
     edge_array := [query_edge 0 20 true true] |}.

(** One node without any edge. *)
Definition isolated_graph : Graph :=
  {| node_array := [0; 0]%N; edge_array := [] |}.

Definition phantom_on (n : N) (weight : Z) : PhantomNode :=
  {| forward_segment_id := {| seg_id := n; enabled := true |};
     reverse_segment_id := {| seg_id := SPECIAL_NODEID; enabled := false |};
     forward_weight := weight;
     reverse_weight := INVALID_EDGE_WEIGHT;
     forward_offset := 0;
     reverse_offset := 0 |}.

(** A phantom node that sits on node [n] itself. *)
Definition phantom_at (n : N) : PhantomNode :=
  {| forward_segment_id := {| seg_id := n; enabled := true |};
     reverse_segment_id := {| seg_id := SPECIAL_NODEID; enabled := false |};
     forward_weight := 0;
     reverse_weight := INVALID_EDGE_WEIGHT;
     forward_offset := 0;
     reverse_offset := 0 |}.

End ManyToMany.

(* --------------------------------------------------------------------- *)
(** ** The invariant of a sweep                                          *)
(* --------------------------------------------------------------------- *)

Module SweepInvariant.
Import Typedefs StaticGraph QueryHeap ManyToMany.

(** [GetData(to).parent = node; DecreaseKey(to, k)] *)
Definition lower (h : t) (n : N) (k : Z) (p : N) : t :=
  DecreaseKey (SetParent h n p) n k.

(** Every node of [Q] is a node of [Q'], with a key that is not larger. *)
Definition heap_le (Q Q' : t) : Prop :=
  forall n, WasInserted Q n = true ->
            WasInserted Q' n = true /\ GetKey Q' n <= GetKey Q n.

(** A seeded heap: its queue holds exactly the inserted nodes. *)
Definition seeded (Q : t) : Prop :=
  forall n, WasInserted Q n = true <-> In n (queue Q).

Section Invariant.
Variable g : Graph.
Variable fwd : bool.
Variable stalled : N -> Z -> QueryHeap.t -> bool.
Variable Q0 : QueryHeap.t.

Definition flag (e : N) : bool :=
  if fwd then forward (GetEdgeData g e) else backward (GetEdgeData g e).

(** What holds of the heap [Q] of a sweep that started from the seeds [Q0]
    and stalls by the test [stalled]: [S] are the nodes settled so far, [X]
    those among them whose edges were relaxed, and [R] the edges relaxed so
    far. *)
Record Core (Q : t) (S X : N -> Prop) (R : N -> N -> Z -> Prop) : Prop := {
  core_sound : forall n, WasInserted Q n = true -> reached_from g fwd Q0 n (GetKey Q n);
  core_queue : forall n, In n (queue Q) -> WasInserted Q n = true;
  core_cover : forall n, WasInserted Q n = true -> In n (queue Q) \/ S n;
  core_settled : forall n, S n -> WasInserted Q n = true;
  core_order : forall n h, S n -> In h (queue Q) -> GetKey Q n <= GetKey Q h;
  core_expanded : forall n, X n -> S n;
  core_stalled : forall n, S n -> X n \/ stalled n (GetKey Q n) Q = true;
  core_relaxed : forall n t w, R n t w ->
      S n /\ WasInserted Q t = true /\ GetKey Q t <= GetKey Q n + w;
  core_seeds : heap_le Q0 Q
}.

Definition Inv (Q : t) (S X : N -> Prop) : Prop :=
  Core Q S X (fun n t w => X n /\ arc g fwd n t w).

(** The loop of a search, on the heap alone. *)
Fixpoint settle_loop (fuel : nat) (Q : t) : t :=
  match fuel with
  | O => Q
  | Datatypes.S fuel' =>
      if Empty Q then Q else settle_loop fuel' (settle_with g stalled fwd Q)
  end.

(** The loop of a search from a target, on the heap and the buckets: every
    settled node is recorded with its key. *)
Fixpoint record_loop (fuel : nat) (c : N) (Q : t) (B : SearchSpaceWithBuckets)
    : t * SearchSpaceWithBuckets :=
  match fuel with
  | O => (Q, B)
  | Datatypes.S fuel' =>
      if Empty Q then (Q, B)
      else record_loop fuel' c (settle_with g stalled fwd Q)
             (add_bucket B (Min Q) c (GetKey Q (Min Q)))
  end.

(** The measure of a search: the queued nodes, and the edge targets that
    were not inserted yet. *)
Definition potential (Q : t) : nat :=
  length (queue Q) +
  length (List.filter (fun x => negb (WasInserted Q x)) (map target (edge_array g))).

End Invariant.

End SweepInvariant.

(* --------------------------------------------------------------------- *)
(** ** Guidance post-processing (src/engine/guidance/post_processing.cpp) *)
(* --------------------------------------------------------------------- *)

Module Guidance.
Import Typedefs.

(** [extractor::guidance::TurnType::Enum], in the order of the names that
    json_factory.cpp lists for it. *)
Inductive TurnType : Set :=
| Invalid | NewName | Continue | Turn | Merge | OnRamp | OffRamp | Fork
| EndOfRoad | Notification | EnterRoundabout | EnterAndExitRoundabout
| EnterRotary | EnterAndExitRotary | EnterRoundaboutIntersection
| EnterAndExitRoundaboutIntersection | UseLane | NoTurn | Suppressed
| EnterRoundaboutAtExit | ExitRoundabout | EnterRotaryAtExit | ExitRotary
| EnterRoundaboutIntersectionAtExit | ExitRoundaboutIntersection
| StayOnRoundabout | Sliproad.

(** [extractor::guidance::DirectionModifier::Enum] *)
Inductive DirectionModifier : Set :=
| UTurn | SharpRight | Right | SlightRight | Straight | SlightLeft | Left | SharpLeft.

(** [engine::guidance::WaypointType] *)
Inductive WaypointType : Set := None' | Arrive | Depart.

#[export] Instance TurnType_eq_dec : EqDecision TurnType.
Proof. solve_decision. Defined.

#[export] Instance DirectionModifier_eq_dec : EqDecision DirectionModifier.
Proof. solve_decision. Defined.

#[export] Instance WaypointType_eq_dec : EqDecision WaypointType.
Proof. solve_decision. Defined.

Record TurnInstruction : Set := {
  type : TurnType;
  direction_modifier : DirectionModifier
}.

(** [TurnInstruction::NO_TURN()] *)
Definition NO_TURN : TurnInstruction :=
  {| type := NoTurn; direction_modifier := UTurn |}.

(** [operator==] on turn instructions compares both members. *)
Definition TurnInstruction_eqb (a b : TurnInstruction) : bool :=
  bool_decide (type a = type b) &&
  bool_decide (direction_modifier a = direction_modifier b).

Record Coordinate : Set := {
  lon : Z;
  lat : Z
}.

(** [util::guidance::LaneTupel] *)
Record LaneTupel : Set := {
  lanes_in_turn : N;
  first_lane_from_the_right : N
}.

Definition LaneTupel_eqb (a b : LaneTupel) : bool :=
  N.eqb (lanes_in_turn a) (lanes_in_turn b) &&
  N.eqb (first_lane_from_the_right a) (first_lane_from_the_right b).

(** [LaneTupel()]: no lane, counted from [INVALID_LANEID]. *)
Definition no_lanes : LaneTupel :=
  {| lanes_in_turn := 0%N; first_lane_from_the_right := 255%N |}.

(** [std::numeric_limits<std::size_t>::max()] *)
Definition NO_INDEX : N := 18446744073709551615%N.

(** Reduction of a [std::size_t] value. *)
Definition wrap64 (n : Z) : N := Z.to_N (n mod 18446744073709551616).

Record Intersection : Type := {
  location : Coordinate;
  bearings : list Z;                (* std::vector<short> *)
  entry : list bool;
  in_ : N;
  out : N;
  lanes : LaneTupel;
  lane_description : list N         (* masks of turn lane types *)
}.

Definition getInvalidIntersection : Intersection :=
  {| location := {| lon := 0; lat := 0 |};
     bearings := [];
     entry := [];
     in_ := NO_INDEX;
     out := NO_INDEX;
     lanes := no_lanes;
     lane_description := [] |}.

(** [engine::guidance::StepManeuver] *)
Record StepManeuver : Set := {
  maneuver_location : Coordinate;
  bearing_before : Z;
  bearing_after : Z;
  instruction : TurnInstruction;
  waypoint_type : WaypointType;
  exit : N
}.

Definition getInvalidStepManeuver : StepManeuver :=
  {| maneuver_location := {| lon := 0; lat := 0 |};
     bearing_before := 0;
     bearing_after := 0;
     instruction := NO_TURN;
     waypoint_type := None';
     exit := 0%N |}.

Record RouteStep : Type := {
  name_id : N;
  name : string;
  ref : string;
  pronunciation : string;
  destinations : string;
  rotary_name : string;
  rotary_pronunciation : string;
  duration : float;
  distance : float;
  mode : N;                         (* extractor::TravelMode *)
  maneuver : StepManeuver;
  geometry_begin : N;
  geometry_end : N;
  intersections : list Intersection
}.

Definition TRAVEL_MODE_INACCESSIBLE : N := 0%N.

Definition getInvalidRouteStep : RouteStep :=
  {| name_id := 0%N;
     name := "";
     ref := "";
     pronunciation := "";
     destinations := "";
     rotary_name := "";
     rotary_pronunciation := "";
     duration := 0%float;
     distance := 0%float;
     mode := TRAVEL_MODE_INACCESSIBLE;
     maneuver := getInvalidStepManeuver;
     geometry_begin := 0%N;
     geometry_end := 0%N;
     intersections := [getInvalidIntersection] |}.

(** The members of [LegGeometry] that the passes below read or write. *)
Record LegGeometry : Type := {
  locations : list Coordinate;
  segment_offsets : list N;         (* std::vector<std::size_t> *)
  segment_distances : list float
}.

(** *** Member updates *)

Definition with_instruction (m : StepManeuver) (i : TurnInstruction) : StepManeuver :=
  {| maneuver_location := maneuver_location m;
     bearing_before := bearing_before m;
     bearing_after := bearing_after m;
     instruction := i;
     waypoint_type := waypoint_type m;
     exit := exit m |}.

Definition with_exit (m : StepManeuver) (e : N) : StepManeuver :=
  {| maneuver_location := maneuver_location m;
     bearing_before := bearing_before m;
     bearing_after := bearing_after m;
     instruction := instruction m;
     waypoint_type := waypoint_type m;
     exit := e |}.

Definition with_maneuver (s : RouteStep) (m : StepManeuver) : RouteStep :=
  {| name_id := name_id s; name := name s; ref := ref s;
     pronunciation := pronunciation s; destinations := destinations s;
     rotary_name := rotary_name s; rotary_pronunciation := rotary_pronunciation s;
     duration := duration s; distance := distance s; mode := mode s;
     maneuver := m;
     geometry_begin := geometry_begin s; geometry_end := geometry_end s;
     intersections := intersections s |}.

(** [step.maneuver.instruction.type = t] *)
Definition set_type (s : RouteStep) (t : TurnType) : RouteStep :=
  with_maneuver s
    (with_instruction (maneuver s)
       {| type := t;
          direction_modifier := direction_modifier (instruction (maneuver s)) |}).

(** [step.maneuver.instruction.direction_modifier = d] *)
Definition set_modifier (s : RouteStep) (d : DirectionModifier) : RouteStep :=
  with_maneuver s
    (with_instruction (maneuver s)
       {| type := type (instruction (maneuver s)); direction_modifier := d |}).

(** [step.maneuver.instruction = i] *)
Definition set_instruction (s : RouteStep) (i : TurnInstruction) : RouteStep :=
  with_maneuver s (with_instruction (maneuver s) i).

(** [step.maneuver.exit = e] *)
Definition set_exit (s : RouteStep) (e : N) : RouteStep :=
  with_maneuver s (with_exit (maneuver s) e).

Definition with_intersections (s : RouteStep) (l : list Intersection) : RouteStep :=
  {| name_id := name_id s; name := name s; ref := ref s;
     pronunciation := pronunciation s; destinations := destinations s;
     rotary_name := rotary_name s; rotary_pronunciation := rotary_pronunciation s;
     duration := duration s; distance := distance s; mode := mode s;
     maneuver := maneuver s;
     geometry_begin := geometry_begin s; geometry_end := geometry_end s;
     intersections := l |}.

Definition with_geometry (s : RouteStep) (b e : N) : RouteStep :=
  {| name_id := name_id s; name := name s; ref := ref s;
     pronunciation := pronunciation s; destinations := destinations s;
     rotary_name := rotary_name s; rotary_pronunciation := rotary_pronunciation s;
     duration := duration s; distance := distance s; mode := mode s;
     maneuver := maneuver s;
     geometry_begin := b; geometry_end := e;
     intersections := intersections s |}.

Definition with_duration_distance (s : RouteStep) (t d : float) : RouteStep :=
  {| name_id := name_id s; name := name s; ref := ref s;
     pronunciation := pronunciation s; destinations := destinations s;
     rotary_name := rotary_name s; rotary_pronunciation := rotary_pronunciation s;
     duration := t; distance := d; mode := mode s;
     maneuver := maneuver s;
     geometry_begin := geometry_begin s; geometry_end := geometry_end s;
     intersections := intersections s |}.

Definition with_rotary (s : RouteStep) (n p : string) : RouteStep :=
  {| name_id := name_id s; name := name s; ref := ref s;
     pronunciation := pronunciation s; destinations := destinations s;
     rotary_name := n; rotary_pronunciation := p;
     duration := duration s; distance := distance s; mode := mode s;
     maneuver := maneuver s;
     geometry_begin := geometry_begin s; geometry_end := geometry_end s;
     intersections := intersections s |}.

Definition with_lanes (i : Intersection) (l : LaneTupel) (d : list N) : Intersection :=
  {| location := location i; bearings := bearings i; entry := entry i;
     in_ := in_ i; out := out i; lanes := l; lane_description := d |}.

(** *** Reading vectors

    Reading [v[i]], [v.front()] or [v.back()] outside a vector is undefined
    in the source; the model reads the invalid step, the invalid
    intersection and bearing 0 there. *)

Definition step_at (steps : list RouteStep) (i : nat) : RouteStep :=
  default getInvalidRouteStep (steps !! i).

Definition front (l : list Intersection) : Intersection :=
  default getInvalidIntersection (head l).

Fixpoint element_at {A : Type} (l : list A) (index : N) : option A :=
  match l with
  | [] => Datatypes.None
  | x :: rest => if N.eqb index 0 then Some x else element_at rest (index - 1)
  end.

Definition bearing_at (i : Intersection) (index : N) : Z :=
  default 0 (element_at (bearings i) index).

(** [steps[i] = f(steps[i])] *)
Definition update_step (steps : list RouteStep) (i : nat)
    (f : RouteStep -> RouteStep) : list RouteStep :=
  <[i := f (step_at steps i)]> steps.

(** [steps[i].intersections.front() = f(...)] *)
Definition update_front (s : RouteStep) (f : Intersection -> Intersection) : RouteStep :=
  with_intersections s
    (match intersections s with
     | [] => []
     | i :: rest => f i :: rest
     end).

(** Conversion of a [short] bearing to [double]. *)
Definition to_double (z : Z) : float :=
  if Z.ltb z 0
  then PrimFloat.opp (PrimFloat.of_uint63 (Uint63.of_Z (- z)))
  else PrimFloat.of_uint63 (Uint63.of_Z z).

(** The helpers of engine/guidance/toolkit.hpp, util/guidance/toolkit.hpp
    and util/bearing.hpp, none of which is among the sources. *)
Class Toolkit : Type := {
  entersRoundabout : TurnInstruction -> bool;
  leavesRoundabout : TurnInstruction -> bool;
  isSilent : TurnInstruction -> bool;
  requiresNameAnnounced : string -> string -> string -> string -> bool;
  angularDeviation : float -> float -> float;
  getTurnDirection : float -> DirectionModifier;
  mirrorDirectionModifier : DirectionModifier -> DirectionModifier;
  reverseBearing : float -> float
}.

Definition EMPTY_NAMEID : N := 0%N.

Definition MIN_END_OF_ROAD_INTERSECTIONS : nat := 2.
Definition MAX_COLLAPSE_DISTANCE : float := 30%float.

Definition is_type (s : RouteStep) (t : TurnType) : bool :=
  bool_decide (type (instruction (maneuver s)) = t).

Definition is_modifier (s : RouteStep) (d : DirectionModifier) : bool :=
  bool_decide (direction_modifier (instruction (maneuver s)) = d).

Section WithToolkit.
Context {toolkit : Toolkit}.

Definition hasManeuver (first second : RouteStep) : bool :=
  negb (is_type first Suppressed) || negb (is_type second Suppressed).

Definition forwardStepSignage (destination origin : RouteStep) : RouteStep :=
  {| name_id := name_id origin; name := name origin; ref := ref origin;
     pronunciation := pronunciation origin; destinations := destinations origin;
     rotary_name := rotary_name destination;
     rotary_pronunciation := rotary_pronunciation destination;
     duration := duration destination; distance := distance destination;
     mode := mode destination;
     maneuver := maneuver destination;
     geometry_begin := geometry_begin destination;
     geometry_end := geometry_end destination;
     intersections := intersections destination |}.

Definition count_true (l : list bool) : nat :=
  length (List.filter (fun b => b) l).

Definition choiceless (step previous : RouteStep) : bool :=
  PrimFloat.ltb (distance previous) (PrimFloat.mul 4 MAX_COLLAPSE_DISTANCE) &&
  Nat.leb (count_true (entry (front (intersections step)))) 1.

Definition isCollapsableInstruction (i : TurnInstruction) : bool :=
  bool_decide (type i = NewName) ||
  (bool_decide (type i = Suppressed) && bool_decide (direction_modifier i = Straight)) ||
  (bool_decide (type i = Turn) && bool_decide (direction_modifier i = Straight)) ||
  (bool_decide (type i = Continue) && bool_decide (direction_modifier i = Straight)) ||
  bool_decide (type i = Merge).

Definition compatible (lhs rhs : RouteStep) : bool := N.eqb (mode lhs) (mode rhs).

Definition turn_angle (entry_bearing exit_bearing : float) : float :=
  let offset := PrimFloat.sub 360 entry_bearing in
  let rotated_exit :=
    let bearing := PrimFloat.add exit_bearing offset in
    if PrimFloat.ltb 360 bearing then PrimFloat.sub bearing 360 else bearing in
  let angle := PrimFloat.sub 540 rotated_exit in
  if PrimFloat.ltb 360 angle then PrimFloat.sub angle 360 else angle.

Definition isNoticeableNameChange (lhs rhs : RouteStep) : bool :=
  requiresNameAnnounced (name lhs) (ref lhs) (name rhs) (ref rhs).

(** [nameSegmentLength]: the loop advances [at] while the next step exists
    and its name change is not noticeable; [rest] bounds its iterations by
    the number of steps. *)
Fixpoint nameSegmentLength_from (rest : nat) (at_ : nat) (steps : list RouteStep)
    (result : float) : float :=
  match rest with
  | O => result
  | S rest' =>
      if Nat.ltb (at_ + 1) (length steps) &&
         negb (isNoticeableNameChange (step_at steps at_) (step_at steps (at_ + 1)))
      then nameSegmentLength_from rest' (at_ + 1) steps
             (PrimFloat.add result (distance (step_at steps (at_ + 1))))
      else result
  end.

Definition nameSegmentLength (at_ : nat) (steps : list RouteStep) : float :=
  nameSegmentLength_from (length steps) at_ steps (distance (step_at steps at_)).

Definition forwardInto (destination source : RouteStep) : RouteStep :=
  {| name_id := name_id destination; name := name destination; ref := ref destination;
     pronunciation := pronunciation destination;
     destinations := destinations destination;
     rotary_name := rotary_name destination;
     rotary_pronunciation := rotary_pronunciation destination;
     duration := PrimFloat.add (duration destination) (duration source);
     distance := PrimFloat.add (distance destination) (distance source);
     mode := mode destination;
     maneuver := with_exit (maneuver destination) (exit (maneuver source));
     geometry_begin := N.min (geometry_begin destination) (geometry_begin source);
     geometry_end := N.max (geometry_end destination) (geometry_end source);
     intersections :=
       if N.ltb (geometry_begin destination) (geometry_begin source)
       then intersections destination ++ intersections source
       else intersections source ++ intersections destination |}.

(** [elongate]: the data of [by_step] is added at the back when it follows
    [step], and at the front otherwise. *)
Definition elongate (step by_step : RouteStep) : RouteStep :=
  if N.eqb (geometry_end step) (wrap64 (Z.of_N (geometry_begin by_step) + 1))
  then
    {| name_id := name_id step; name := name step; ref := ref step;
       pronunciation := pronunciation step; destinations := destinations step;
       rotary_name := rotary_name step;
       rotary_pronunciation := rotary_pronunciation step;
       duration := PrimFloat.add (duration step) (duration by_step);
       distance := PrimFloat.add (distance step) (distance by_step);
       mode := mode step;
       maneuver := maneuver step;
       geometry_begin := geometry_begin step;
       geometry_end := geometry_end by_step;
       intersections := intersections step ++ intersections by_step |}
  else
    {| name_id := name_id step; name := name step; ref := ref step;
       pronunciation := pronunciation step; destinations := destinations step;
       rotary_name := rotary_name step;
       rotary_pronunciation := rotary_pronunciation step;
       duration := PrimFloat.add (duration step) (duration by_step);
       distance := PrimFloat.add (distance step) (distance by_step);
       mode := mode step;
       maneuver := maneuver by_step;
       geometry_begin := geometry_begin by_step;
       geometry_end := geometry_end step;
       intersections := intersections by_step ++ intersections step |}.

Definition collapsable (step next : RouteStep) : bool :=
  let is_short_step := PrimFloat.ltb (distance step) MAX_COLLAPSE_DISTANCE in
  let instruction_can_be_collapsed :=
    isCollapsableInstruction (instruction (maneuver step)) in
  let is_use_lane := is_type step UseLane in
  let lanes_dont_change :=
    LaneTupel_eqb (lanes (front (intersections step)))
                  (lanes (front (intersections next))) in
  if is_short_step && instruction_can_be_collapsed then true
  else if is_short_step && is_use_lane && lanes_dont_change then true
  else false.

(** The predicate of the sweep: an instruction is invalid if it is
    [NO_TURN] and has [WaypointType::None]. *)
Definition not_is_valid (step : RouteStep) : bool :=
  TurnInstruction_eqb (instruction (maneuver step)) NO_TURN &&
  bool_decide (waypoint_type (maneuver step) = None').

(** [boost::remove_erase_if(steps, not_is_valid)] *)
Definition removeNoTurnInstructions (steps : list RouteStep) : list RouteStep :=
  List.filter (fun step => negb (not_is_valid step)) steps.

(** [getPreviousIndex]: the previous step that is not [NoTurn], or 0. *)
Fixpoint skip_NoTurn (steps : list RouteStep) (index : nat) : nat :=
  match index with
  | O => O
  | S index' =>
      if is_type (step_at steps index) NoTurn then skip_NoTurn steps index' else index
  end.

Definition getPreviousIndex (steps : list RouteStep) (index : nat) : nat :=
  skip_NoTurn steps (index - 1).

Fixpoint skip_unnamed (steps : list RouteStep) (index : nat) : nat :=
  match index with
  | O => O
  | S index' =>
      if N.eqb (name_id (step_at steps index)) EMPTY_NAMEID
      then skip_unnamed steps index' else index
  end.

Definition getPreviousNameIndex (steps : list RouteStep) (index : nat) : nat :=
  skip_unnamed steps (index - 1).

(** [canCollapseAll(index, end_index)], with [count = end_index - index]. *)
Fixpoint canCollapseAll_from (steps : list RouteStep) (count index end_index : nat)
    : bool :=
  match count with
  | O => true
  | S count' =>
      if negb (is_type (step_at steps index) Suppressed) &&
         negb (is_type (step_at steps index) NewName)
      then false
      else if Nat.ltb (index + 1) end_index &&
              negb (compatible (step_at steps index) (step_at steps (index + 1)))
      then false
      else canCollapseAll_from steps count' (index + 1) end_index
  end.

Definition canCollapseAll (steps : list RouteStep) (index end_index : nat) : bool :=
  canCollapseAll_from steps (end_index - index) index end_index.

(** [invalidateStep(steps[i])] *)
Definition invalidate (steps : list RouteStep) (i : nat) : list RouteStep :=
  update_step steps i (fun _ => getInvalidRouteStep).

Definition modifier_of (s : RouteStep) : DirectionModifier :=
  direction_modifier (instruction (maneuver s)).

(** The lambda [bearingsAreReversed] of [collapseTurnAt]. *)
Definition bearingsAreReversed (bearing_in bearing_out : float) : bool :=
  let left_turn_angle :=
    if PrimFloat.leb 0 bearing_out && PrimFloat.leb bearing_out bearing_in
    then PrimFloat.sub bearing_in bearing_out
    else PrimFloat.sub (PrimFloat.add bearing_in 360) bearing_out in
  PrimFloat.leb (angularDeviation left_turn_angle 180) 35.

(** The lambda [getBearing] of [collapseTurnAt]. *)
Definition getBearing (in_bearing : bool) (step : RouteStep) : Z :=
  let first := front (intersections step) in
  bearing_at first (if in_bearing then in_ first else out first).

Definition collapseTurnAt (steps : list RouteStep)
    (two_back_index one_back_index step_index : nat) : list RouteStep :=
  let current_step := step_at steps step_index in
  let one_back_step := step_at steps one_back_index in
  if negb (hasManeuver one_back_step current_step) then steps
  else if (collapsable one_back_step current_step ||
           (isCollapsableInstruction (instruction (maneuver one_back_step)) &&
            choiceless current_step one_back_step)) &&
          negb (is_type one_back_step Merge)
  then (* very short new name *)
    if compatible one_back_step (step_at steps two_back_index) then
      let steps :=
        if is_type current_step Continue ||
           (is_type current_step Suppressed && negb (is_modifier current_step Straight))
        then update_step steps step_index (fun s => set_type s Turn)
        else if is_type current_step Merge
        then update_step steps step_index
               (fun s => set_type (set_modifier s (mirrorDirectionModifier (modifier_of s))) Turn)
        else if is_type current_step NewName &&
                negb (is_modifier current_step Straight) &&
                Nat.ltb 2 (length (bearings (front (intersections one_back_step))))
        then update_step steps step_index (fun s => set_type s Turn)
        else if is_type current_step UseLane &&
                negb (is_modifier current_step Straight) &&
                Nat.ltb 2 (length (bearings (front (intersections one_back_step))))
        then update_step steps step_index (fun s => set_type s Turn)
        else steps in
      let steps :=
        update_step steps two_back_index
          (fun s => elongate s (step_at steps one_back_index)) in
      invalidate steps one_back_index
    else steps
  else if PrimFloat.leb (distance one_back_step) MAX_COLLAPSE_DISTANCE &&
          isCollapsableInstruction (instruction (maneuver current_step))
  then (* very short segment after turn *)
    if compatible one_back_step current_step then
      let steps :=
        update_step steps one_back_index
          (fun s => elongate s (step_at steps step_index)) in
      (* [one_back_step] and [current_step] are references into [steps] *)
      let one_back_step := step_at steps one_back_index in
      let current_step := step_at steps step_index in
      let steps :=
        if (is_type one_back_step Continue || is_type one_back_step Suppressed) &&
           isNoticeableNameChange (step_at steps two_back_index) current_step
        then update_step steps one_back_index (fun s => set_type s Turn)
        else if is_type one_back_step Turn &&
                negb (isNoticeableNameChange (step_at steps two_back_index) current_step)
        then
          let steps := update_step steps one_back_index (fun s => set_type s Continue) in
          if bearingsAreReversed
               (reverseBearing (to_double (getBearing true (step_at steps one_back_index))))
               (to_double (getBearing false (step_at steps step_index)))
          then update_step steps one_back_index
                 (fun s => set_modifier (set_type s Continue) UTurn)
          else steps
        else if is_type one_back_step Merge && negb (is_type current_step Suppressed)
        then update_step steps one_back_index
               (fun s => set_modifier s (mirrorDirectionModifier (modifier_of s)))
        else steps in
      let steps :=
        update_step steps one_back_index
          (fun s => forwardStepSignage s (step_at steps step_index)) in
      invalidate steps step_index
    else steps
  else if (PrimFloat.leb (distance one_back_step) MAX_COLLAPSE_DISTANCE ||
           choiceless current_step one_back_step) &&
          bearingsAreReversed
            (reverseBearing (to_double (getBearing true one_back_step)))
            (to_double (getBearing false current_step)) &&
          compatible one_back_step current_step
  then (* potential u-turn *)
    let direct_u_turn :=
      negb (isNoticeableNameChange (step_at steps two_back_index) current_step) in
    let next_step_index := (step_index + 1)%nat in
    let continues_with_name_change :=
      Nat.ltb next_step_index (length steps) &&
      (is_type (step_at steps next_step_index) UseLane ||
       isCollapsableInstruction (instruction (maneuver (step_at steps next_step_index)))) in
    let u_turn_with_name_change :=
      continues_with_name_change &&
      negb (isNoticeableNameChange (step_at steps two_back_index)
              (step_at steps next_step_index)) in
    if direct_u_turn || u_turn_with_name_change then
      let steps :=
        update_step steps one_back_index
          (fun s => elongate s (step_at steps step_index)) in
      let steps := invalidate steps step_index in
      let steps :=
        if u_turn_with_name_change &&
           compatible (step_at steps one_back_index) (step_at steps next_step_index)
        then
          let steps :=
            update_step steps one_back_index
              (fun s => elongate s (step_at steps next_step_index)) in
          let steps := invalidate steps next_step_index in
          update_step steps one_back_index
            (fun s => forwardStepSignage s (step_at steps two_back_index))
        else steps in
      let steps :=
        if direct_u_turn
        then update_step steps one_back_index
               (fun s => forwardStepSignage s (step_at steps two_back_index))
        else steps in
      update_step steps one_back_index
        (fun s => set_modifier (set_type s Continue) UTurn)
    else steps
  else steps.

Definition isStaggeredIntersection (previous current : RouteStep) : bool :=
  let angle := fun step : RouteStep =>
    let intersection := front (intersections step) in
    turn_angle (to_double (bearing_at intersection (in_ intersection)))
               (to_double (bearing_at intersection (out intersection))) in
  let is_right := fun a : float => PrimFloat.ltb 45 a && PrimFloat.ltb a 135 in
  let is_left := fun a : float => PrimFloat.ltb 225 a && PrimFloat.ltb a 315 in
  let left_right := is_left (angle previous) && is_right (angle current) in
  let right_left := is_right (angle previous) && is_left (angle current) in
  let is_short := PrimFloat.ltb (distance previous) 3 in
  is_short && (left_right || right_left).

(** The lambda [isBasicNameChange] of [collapseTurns]. *)
Definition isBasicNameChange (step : RouteStep) : bool :=
  Nat.eqb (length (intersections step)) 1 &&
  Nat.eqb (length (bearings (front (intersections step)))) 2 &&
  is_modifier step Straight.

Definition name_segment_cutoff_length : float := 100%float.

(** The body of the loop of [collapseTurns], at [step_index]. *)
Definition collapse_at (steps : list RouteStep) (step_index : nat) : list RouteStep :=
  let current_step := step_at steps step_index in
  let next_step_index := (step_index + 1)%nat in
  if is_type current_step NoTurn then steps
  else
    let one_back_index := getPreviousIndex steps step_index in
    let one_back_step := step_at steps one_back_index in
    if negb (hasManeuver one_back_step current_step) then steps
    else if is_type one_back_step Sliproad then
      if is_type current_step Suppressed && compatible one_back_step current_step then
        let steps :=
          update_step steps one_back_index
            (fun s => elongate s (step_at steps step_index)) in
        invalidate steps step_index
      else if compatible one_back_step current_step then
        let steps :=
          if negb (isNoticeableNameChange
                     (step_at steps (getPreviousIndex steps one_back_index))
                     (step_at steps step_index))
          then update_step steps one_back_index (fun s => set_type s Continue)
          else update_step steps one_back_index (fun s => set_type s Turn) in
        let steps :=
          update_step steps one_back_index
            (fun s => elongate s (step_at steps step_index)) in
        let steps :=
          update_step steps one_back_index
            (fun s => forwardStepSignage s (step_at steps step_index)) in
        let steps :=
          update_step steps one_back_index
            (fun s => update_front s (fun i =>
               with_lanes i
                 (lanes (front (intersections (step_at steps step_index))))
                 (lane_description (front (intersections (step_at steps step_index)))))) in
        let exit_intersection := front (intersections (step_at steps step_index)) in
        let exit_bearing := bearing_at exit_intersection (out exit_intersection) in
        let entry_intersection := front (intersections (step_at steps one_back_index)) in
        let entry_bearing := bearing_at entry_intersection (in_ entry_intersection) in
        let angle :=
          turn_angle (reverseBearing (to_double entry_bearing)) (to_double exit_bearing) in
        let steps :=
          update_step steps one_back_index
            (fun s => set_modifier s (getTurnDirection angle)) in
        invalidate steps step_index
      else update_step steps one_back_index (fun s => set_type s Turn)
    else if isCollapsableInstruction (instruction (maneuver current_step)) &&
            negb (is_type current_step Suppressed) &&
            negb (isNoticeableNameChange
                    (step_at steps (getPreviousNameIndex steps step_index)) current_step) &&
            canCollapseAll steps (getPreviousNameIndex steps step_index + 1) next_step_index
    then
      let last_available_name_index := getPreviousNameIndex steps step_index in
      fold_left
        (fun steps index =>
           invalidate
             (update_step steps last_available_name_index
                (fun s => elongate s (step_at steps index)))
             index)
        (seq (last_available_name_index + 1) (step_index - last_available_name_index))
        steps
    else if Nat.ltb 0 one_back_index && compatible current_step one_back_step &&
            ((isCollapsableInstruction (instruction (maneuver current_step)) &&
              isCollapsableInstruction (instruction (maneuver one_back_step))) ||
             isStaggeredIntersection one_back_step current_step)
    then
      let two_back_index := getPreviousIndex steps one_back_index in
      if negb (isNoticeableNameChange (step_at steps two_back_index) current_step) then
        if compatible one_back_step (step_at steps two_back_index) then
          let steps :=
            update_step steps two_back_index
              (fun s => elongate (elongate s (step_at steps one_back_index))
                          (step_at steps step_index)) in
          invalidate (invalidate steps one_back_index) step_index
        else steps
      else if PrimFloat.ltb (nameSegmentLength one_back_index steps)
                name_segment_cutoff_length &&
              isBasicNameChange one_back_step && isBasicNameChange current_step
      then
        if compatible (step_at steps two_back_index) (step_at steps one_back_index) then
          let steps :=
            update_step steps two_back_index
              (fun s => elongate s (step_at steps one_back_index)) in
          let steps := invalidate steps one_back_index in
          if PrimFloat.ltb (nameSegmentLength step_index steps) name_segment_cutoff_length
          then
            let steps :=
              update_step steps two_back_index
                (fun s => elongate s (step_at steps step_index)) in
            invalidate steps step_index
          else steps
        else steps
      else if Nat.ltb (step_index + 2) (length steps) &&
              is_type current_step NewName &&
              is_type (step_at steps next_step_index) NewName &&
              negb (isNoticeableNameChange one_back_step (step_at steps next_step_index))
      then
        if compatible (step_at steps step_index) (step_at steps next_step_index) then
          let steps :=
            update_step steps one_back_index
              (fun s => elongate s
                 (elongate (step_at steps step_index) (step_at steps next_step_index))) in
          invalidate (invalidate steps step_index) next_step_index
        else steps
      else if choiceless current_step one_back_step ||
              PrimFloat.leb (distance one_back_step) MAX_COLLAPSE_DISTANCE
      then
        collapseTurnAt steps (getPreviousIndex steps one_back_index)
          one_back_index step_index
      else steps
    else if Nat.ltb 0 one_back_index &&
            (PrimFloat.leb (distance one_back_step) MAX_COLLAPSE_DISTANCE ||
             choiceless current_step one_back_step)
    then
      collapseTurnAt steps (getPreviousIndex steps one_back_index)
        one_back_index step_index
    else steps.

(** The final Sliproad of [collapseTurns]. *)
Definition handle_final_sliproad (steps : list RouteStep) : list RouteStep :=
  if Nat.leb 3 (length steps) &&
     is_type (step_at steps (getPreviousIndex steps (length steps - 1))) Sliproad
  then update_step steps (getPreviousIndex steps (length steps - 1))
         (fun s => set_type s Turn)
  else steps.

(** The steps of [collapseTurns] before its closing sweep: the loop runs
    over [step_index = 1, ..., steps.size() - 2]. *)
Definition collapseTurns_in_place (steps : list RouteStep) : list RouteStep :=
  handle_final_sliproad
    (fold_left collapse_at (seq 1 (length steps - 2)) steps).

Definition collapseTurns (steps : list RouteStep) : list RouteStep :=
  if Nat.leb (length steps) 2 then steps
  else removeNoTurnInstructions (collapseTurns_in_place steps).

(** *** Roundabouts *)

Definition type_of (s : RouteStep) : TurnType := type (instruction (maneuver s)).

(** [fixFinalRoundabout]: [propagation_index] runs from [steps.size() - 1]
    down to 1. *)
Fixpoint fixFinalRoundabout_from (steps : list RouteStep) (propagation_index : nat)
    : list RouteStep :=
  match propagation_index with
  | O => steps
  | S previous =>
      let propagation_step := step_at steps propagation_index in
      if entersRoundabout (instruction (maneuver propagation_step)) then
        let steps := update_step steps propagation_index (fun s => set_exit s 0%N) in
        if is_type propagation_step EnterRotary || is_type propagation_step EnterRotaryAtExit
        then update_step steps propagation_index
               (fun s => with_rotary s (name s) (pronunciation s))
        else if is_type propagation_step EnterRoundaboutIntersection ||
                is_type propagation_step EnterRoundaboutIntersectionAtExit
        then update_step steps propagation_index (fun s => set_type s EnterRoundabout)
        else steps
      else if is_type propagation_step StayOnRoundabout then
        let steps :=
          update_step steps previous
            (fun s => forwardInto s (step_at steps propagation_index)) in
        fixFinalRoundabout_from (invalidate steps propagation_index) previous
      else fixFinalRoundabout_from steps previous
  end.

Definition fixFinalRoundabout (steps : list RouteStep) : list RouteStep :=
  fixFinalRoundabout_from steps (length steps - 1).

(** [setUpRoundabout]: the step as it is left, and the result. *)
Definition setUpRoundabout (step : RouteStep) : RouteStep * bool :=
  let instruction := instruction (maneuver step) in
  let step :=
    if bool_decide (type instruction = EnterRotaryAtExit) ||
       bool_decide (type instruction = EnterRoundaboutAtExit) ||
       bool_decide (type instruction = EnterRoundaboutIntersectionAtExit)
    then
      let step := set_exit step 1%N in
      if bool_decide (type instruction = EnterRotaryAtExit)
      then set_type step EnterRotary
      else if bool_decide (type instruction = EnterRoundaboutAtExit)
      then set_type step EnterRoundabout
      else set_type step EnterRoundaboutIntersection
    else step in
  if leavesRoundabout instruction then
    let step := set_exit step 1%N in
    (if bool_decide (type instruction = EnterAndExitRotary)
     then set_type step EnterRotary
     else if bool_decide (type instruction = EnterAndExitRoundabout)
     then set_type step EnterRoundabout
     else set_type step EnterRoundaboutIntersection,
     false)
  else (step, true).

(** The lambda [exitToEnter] of [closeOffRoundabout]. *)
Definition exitToEnter (t : TurnType) : TurnType :=
  if bool_decide (ExitRotary = t) then EnterRotary
  else if bool_decide (t = ExitRoundaboutIntersection) then EnterRoundabout
  else EnterRoundabout.

(** The loop of [closeOffRoundabout]: [propagation_index] runs from
    [step_index - 1] down to 1 and stops at the entering step. *)
Fixpoint propagate_exit (steps : list RouteStep) (destination_copy : RouteStep)
    (exit_bearing : Z) (propagation_index : nat) : list RouteStep :=
  match propagation_index with
  | O => steps
  | S previous =>
      let steps :=
        update_step steps propagation_index
          (fun s => forwardInto s (step_at steps (propagation_index + 1))) in
      let propagation_step := step_at steps propagation_index in
      if entersRoundabout (instruction (maneuver propagation_step)) then
        let entry_intersection := front (intersections propagation_step) in
        let steps :=
          if is_type propagation_step EnterRotary ||
             is_type propagation_step EnterRotaryAtExit
          then update_step steps propagation_index
                 (fun s => with_rotary s (name s) (pronunciation s))
          else if is_type propagation_step EnterRoundaboutIntersection ||
                  is_type propagation_step EnterRoundaboutIntersectionAtExit
          then
            let angle :=
              turn_angle
                (reverseBearing
                   (to_double (bearing_at entry_intersection (in_ entry_intersection))))
                (to_double exit_bearing) in
            update_step steps propagation_index
              (fun s => set_modifier s (getTurnDirection angle))
          else steps in
        let steps :=
          update_step steps propagation_index
            (fun s => forwardStepSignage s destination_copy) in
        invalidate steps (propagation_index + 1)
      else
        propagate_exit (invalidate steps (propagation_index + 1))
          destination_copy exit_bearing previous
  end.

Definition closeOffRoundabout (on_roundabout : bool) (steps : list RouteStep)
    (step_index : nat) : list RouteStep :=
  let steps :=
    update_step steps step_index
      (fun s => set_exit s (wrap32 (exit (maneuver s) + 1))) in
  let steps :=
    if negb on_roundabout then
      let steps :=
        update_step steps 0 (fun s => with_geometry s (geometry_begin s) 1%N) in
      let steps :=
        update_step steps 1 (fun s => with_geometry s 0%N (geometry_end s)) in
      let steps := update_step steps 1 (fun s => forwardInto s (step_at steps 0)) in
      let steps :=
        update_step steps 1 (fun s => with_intersections s (tail (intersections s))) in
      let steps :=
        if leavesRoundabout (instruction (maneuver (step_at steps 1)))
        then update_step steps 1 (fun s => set_exit s 1%N)
        else steps in
      let steps :=
        update_step steps 0 (fun s => with_duration_distance s 0%float 0%float) in
      let steps :=
        update_step steps 1
          (fun s => set_type s (exitToEnter (type_of (step_at steps step_index)))) in
      if is_type (step_at steps 1) EnterRotary
      then update_step steps 1
             (fun s => with_rotary s (name (step_at steps 0))
                         (pronunciation (step_at steps 0)))
      else steps
    else steps in
  let exit_intersection := front (intersections (step_at steps step_index)) in
  let exit_bearing := bearing_at exit_intersection (out exit_intersection) in
  let destination_copy := step_at steps step_index in
  if Nat.ltb 1 step_index
  then propagate_exit steps destination_copy exit_bearing (step_index - 1)
  else steps.

(** The state of the forward scan of [postProcess]. *)
Record Scan : Type := {
  scan_steps : list RouteStep;
  on_roundabout : bool;
  has_entered_roundabout : bool
}.

(** The body of the loop of [postProcess], at [step_index]. *)
Definition scan_at (st : Scan) (step_index : nat) : Scan :=
  let steps := scan_steps st in
  let next_step_index := (step_index + 1)%nat in
  let instruction := instruction (maneuver (step_at steps step_index)) in
  if entersRoundabout instruction then
    let '(step, entered) := setUpRoundabout (step_at steps step_index) in
    let steps := update_step steps step_index (fun _ => step) in
    let steps :=
      if entered && Nat.ltb next_step_index (length steps)
      then update_step steps next_step_index
             (fun s => set_exit s (exit (maneuver (step_at steps step_index))))
      else steps in
    {| scan_steps := steps; on_roundabout := on_roundabout st;
       has_entered_roundabout := entered |}
  else if bool_decide (type instruction = StayOnRoundabout) then
    let steps :=
      update_step steps step_index
        (fun s => set_exit s (wrap32 (exit (maneuver s) + 1))) in
    let steps :=
      if Nat.ltb next_step_index (length steps)
      then update_step steps next_step_index
             (fun s => set_exit s (exit (maneuver (step_at steps step_index))))
      else steps in
    {| scan_steps := steps; on_roundabout := true;
       has_entered_roundabout := has_entered_roundabout st |}
  else if leavesRoundabout instruction then
    {| scan_steps := closeOffRoundabout (has_entered_roundabout st) steps step_index;
       on_roundabout := false;
       has_entered_roundabout := false |}
  else if on_roundabout st && Nat.ltb next_step_index (length steps) then
    {| scan_steps :=
         update_step steps next_step_index
           (fun s => set_exit s (exit (maneuver (step_at steps step_index))));
       on_roundabout := on_roundabout st;
       has_entered_roundabout := has_entered_roundabout st |}
  else st.

(** The steps of [postProcess] before its closing sweep. *)
Definition postProcess_in_place (steps : list RouteStep) : list RouteStep :=
  let st :=
    fold_left scan_at (seq 0 (length steps))
      {| scan_steps := steps; on_roundabout := false;
         has_entered_roundabout := false |} in
  if has_entered_roundabout st || on_roundabout st
  then fixFinalRoundabout (scan_steps st)
  else scan_steps st.

Definition postProcess (steps : list RouteStep) : list RouteStep :=
  if Nat.eqb (length steps) 2 then steps
  else removeNoTurnInstructions (postProcess_in_place steps).

(** *** Geometry *)

(** [resyncGeometry].  [pop_back] on an empty vector is undefined in the
    source; the model leaves the vector empty. *)
Definition resyncGeometry (leg_geometry : LegGeometry) (steps : list RouteStep)
    : LegGeometry :=
  {| locations := locations leg_geometry;
     segment_offsets :=
       removelast
         (0%N :: map (fun step => wrap64 (Z.of_N (geometry_end step) - 1)) steps);
     segment_distances := removelast (map distance steps) |}.

(** *** Intersections and lanes *)

(** The body of the loop of [buildIntersections]: the steps and
    [last_valid_instruction]. *)
Definition build_at (st : list RouteStep * nat) (step_index : nat)
    : list RouteStep * nat :=
  let '(steps, last_valid_instruction) := st in
  let instruction := instruction (maneuver (step_at steps step_index)) in
  if bool_decide (type instruction = Suppressed) then
    let steps :=
      update_step steps last_valid_instruction
        (fun s => elongate s (step_at steps step_index)) in
    (update_step steps step_index (fun s => set_instruction s NO_TURN),
     last_valid_instruction)
  else if negb (isSilent instruction) then
    let steps :=
      if bool_decide (type instruction = EndOfRoad) &&
         Nat.ltb (length (intersections (step_at steps last_valid_instruction)))
           MIN_END_OF_ROAD_INTERSECTIONS
      then update_step steps step_index (fun s => set_type s Turn)
      else steps in
    (steps, step_index)
  else st.

Definition buildIntersections_in_place (steps : list RouteStep) : list RouteStep :=
  fst (fold_left build_at (seq 0 (length steps)) (steps, 0%nat)).

Definition buildIntersections (steps : list RouteStep) : list RouteStep :=
  removeNoTurnInstructions (buildIntersections_in_place steps).

(** [TurnLaneType::empty], [none] and [straight]. *)
Definition lane_empty : N := 0%N.
Definition lane_none : N := 1%N.
Definition lane_straight : N := 2%N.

Definition containsTag (mask tag : N) : bool :=
  negb (N.eqb (N.land mask tag) lane_empty).

(** [*(lane_description.rbegin() + k)] *)
Definition from_the_right (lane_description : list N) (k : N) : N :=
  default 0%N (element_at (rev lane_description) k).

Definition canCollapeUseLane (lanes : LaneTupel) (lane_description : list N) : bool :=
  if N.ltb 0 (first_lane_from_the_right lanes) &&
     containsTag
       (from_the_right lane_description (first_lane_from_the_right lanes - 1))
       (N.lor lane_straight lane_none)
  then false
  else
    let lane_to_the_right :=
      (first_lane_from_the_right lanes + lanes_in_turn lanes)%N in
    if N.ltb lane_to_the_right (N.of_nat (length lane_description)) &&
       containsTag (from_the_right lane_description lane_to_the_right)
         (N.lor lane_straight lane_none)
    then false
    else true.

Definition use_lane_at (steps : list RouteStep) (step_index : nat) : list RouteStep :=
  let step := step_at steps step_index in
  if is_type step UseLane &&
     canCollapeUseLane (lanes (front (intersections step)))
       (lane_description (front (intersections step)))
  then
    let previous := getPreviousIndex steps step_index in
    let steps :=
      update_step steps previous (fun s => elongate s (step_at steps step_index)) in
    invalidate steps step_index
  else steps.

Definition collapseUseLane_in_place (steps : list RouteStep) : list RouteStep :=
  fold_left use_lane_at (seq 1 (length steps - 1)) steps.

Definition collapseUseLane (steps : list RouteStep) : list RouteStep :=
  removeNoTurnInstructions (collapseUseLane_in_place steps).

(** *** The shape of a leg's steps

    The assertions that every pass repeats: at least the two waypoints, the
    first step departs and the last arrives, each with a single bearing and
    a single entry flag in its first intersection. *)
Definition is_depart (step : RouteStep) : bool :=
  Nat.leb 1 (length (intersections step)) &&
  Nat.eqb (length (bearings (front (intersections step)))) 1 &&
  Nat.eqb (length (entry (front (intersections step)))) 1 &&
  bool_decide (waypoint_type (maneuver step) = Depart).

Definition is_arrive (step : RouteStep) : bool :=
  Nat.eqb (length (intersections step)) 1 &&
  Nat.eqb (length (bearings (front (intersections step)))) 1 &&
  Nat.eqb (length (entry (front (intersections step)))) 1 &&
  bool_decide (waypoint_type (maneuver step) = Arrive).

Definition leg_shape (steps : list RouteStep) : bool :=
  Nat.leb 2 (length steps) &&
  is_depart (step_at steps 0) &&
  is_arrive (step_at steps (length steps - 1)).

(** What step assembly hands to the passes: the steps of a leg have the
    shape above, every step between the two waypoints has
    [WaypointType::None] and a single intersection, and each step begins
    at the location before the end of its predecessor. *)
Fixpoint chained (steps : list RouteStep) : bool :=
  match steps with
  | a :: ((b :: _) as rest) =>
      N.eqb (geometry_end a) (wrap64 (Z.of_N (geometry_begin b) + 1)) && chained rest
  | _ => true
  end.

Definition is_interior (step : RouteStep) : bool :=
  bool_decide (waypoint_type (maneuver step) = None') &&
  Nat.eqb (length (intersections step)) 1.

Definition assembled (steps : list RouteStep) : bool :=
  leg_shape steps &&
  N.eqb (geometry_begin (step_at steps 0)) 0 &&
  chained steps &&
  forallb is_interior (removelast (tail steps)).

(** [geometry_end - geometry_begin] of a step. *)
Definition geometry_span (step : RouteStep) : Z :=
  Z.of_N (geometry_end step) - Z.of_N (geometry_begin step).

Definition no_geometry : LegGeometry :=
  {| locations := []; segment_offsets := []; segment_distances := [] |}.

(** The geometry indices are [std::size_t] values and every step covers at
    least one location. *)
Definition covers (step : RouteStep) : bool :=
  N.ltb (geometry_begin step) (geometry_end step) &&
  N.ltb (geometry_end step) 18446744073709551616.

End WithToolkit.

(** [sub] occurs in [s]. *)
Definition contains (s sub : string) : bool :=
  match String.index 0 sub s with Some _ => true | Datatypes.None => false end.

Definition is_empty (s : string) : bool :=
  match s with EmptyString => true | _ => false end.

(** Modelled from the spec: engine/guidance/toolkit.hpp,
    util/guidance/toolkit.hpp and util/bearing.hpp are not among the
    sources.  The definitions below, down to [reference_toolkit], follow the
    names of the instruction types (an instruction enters a roundabout if it
    is one of the [Enter...] types, leaves it if it is one of the [Exit...]
    or [EnterAndExit...] types, and is silent if it is [NoTurn],
    [Suppressed] or [StayOnRoundabout]), the rule of
    [isNoticeableNameChange] that a name which only gains or loses its
    reference is the same name, and the turn circle drawn above
    [turn_angle]. *)
Definition reference_requiresNameAnnounced (from_name from_ref to_name to_ref : string)
    : bool :=
  if is_empty from_name && is_empty from_ref &&
     negb (is_empty to_name && is_empty to_ref)
  then true
  else
    let names_are_empty := is_empty from_name && is_empty to_name in
    let names_are_equal :=
      String.eqb from_name to_name ||
      String.prefix to_name from_name || String.prefix from_name to_name in
    let name_is_removed := negb (is_empty from_name) && is_empty to_name in
    let refs_are_empty := is_empty from_ref && is_empty to_ref in
    let ref_is_contained :=
      is_empty from_ref || is_empty to_ref ||
      contains from_ref to_ref || contains to_ref from_ref in
    let ref_is_removed := negb (is_empty from_ref) && is_empty to_ref in
    let obvious_change :=
      (names_are_empty && refs_are_empty) ||
      (names_are_equal && ref_is_contained) ||
      (names_are_equal && refs_are_empty) ||
      (ref_is_contained && name_is_removed) ||
      (names_are_equal && ref_is_removed) in
    negb obvious_change.

Definition reference_getTurnDirection (angle : float) : DirectionModifier :=
  if PrimFloat.ltb 0 angle && PrimFloat.ltb angle 60 then SharpRight
  else if PrimFloat.leb 60 angle && PrimFloat.ltb angle 140 then Right
  else if PrimFloat.leb 140 angle && PrimFloat.ltb angle 170 then SlightRight
  else if PrimFloat.leb 170 angle && PrimFloat.leb angle 190 then Straight
  else if PrimFloat.ltb 190 angle && PrimFloat.leb angle 220 then SlightLeft
  else if PrimFloat.ltb 220 angle && PrimFloat.leb angle 300 then Left
  else if PrimFloat.ltb 300 angle && PrimFloat.ltb angle 360 then SharpLeft
  else UTurn.

Definition reference_mirror (d : DirectionModifier) : DirectionModifier :=
  match d with
  | UTurn => UTurn
  | SharpRight => SharpLeft
  | Right => Left
  | SlightRight => SlightLeft
  | Straight => Straight
  | SlightLeft => SlightRight
  | Left => Right
  | SharpLeft => SharpRight
  end.

Definition reference_toolkit : Toolkit :=
  {| entersRoundabout := fun i =>
       match type i with
       | EnterRoundabout | EnterRotary | EnterRoundaboutIntersection
       | EnterRoundaboutAtExit | EnterRotaryAtExit | EnterRoundaboutIntersectionAtExit
       | EnterAndExitRoundabout | EnterAndExitRotary
       | EnterAndExitRoundaboutIntersection => true
       | _ => false
       end;
     leavesRoundabout := fun i =>
       match type i with
       | ExitRoundabout | ExitRotary | ExitRoundaboutIntersection
       | EnterAndExitRoundabout | EnterAndExitRotary
       | EnterAndExitRoundaboutIntersection => true
       | _ => false
       end;
     isSilent := fun i =>
       match type i with
       | NoTurn | Suppressed | StayOnRoundabout => true
       | _ => false
       end;
     requiresNameAnnounced := reference_requiresNameAnnounced;
     angularDeviation := fun angle from =>
       let deviation := PrimFloat.abs (PrimFloat.sub angle from) in
       if PrimFloat.ltb (PrimFloat.sub 360 deviation) deviation
       then PrimFloat.sub 360 deviation else deviation;
     getTurnDirection := reference_getTurnDirection;
     mirrorDirectionModifier := reference_mirror;
     reverseBearing := fun bearing =>
       if PrimFloat.leb 180 bearing
       then PrimFloat.sub bearing 180 else PrimFloat.add bearing 180 |}.

(** *** A leg with a name oscillation behind a slip road

    Depart on Main Street, cross the Bridge (a new name, straight on, 100 m)
    and come back to Main Street over a slip road (50 m), then arrive. *)
Definition waypoint_step (w : WaypointType) (street : string) (id : N)
    (length_m : float) (from_location to_location : N) (bearing : Z) : RouteStep :=
  {| name_id := id; name := street; ref := ""; pronunciation := "";
     destinations := ""; rotary_name := ""; rotary_pronunciation := "";
     duration := PrimFloat.div length_m 10; distance := length_m; mode := 1%N;
     maneuver :=
       {| maneuver_location := {| lon := 0; lat := 0 |};
          bearing_before := 0; bearing_after := 0;
          instruction := NO_TURN; waypoint_type := w; exit := 0%N |};
     geometry_begin := from_location; geometry_end := to_location;
     intersections :=
       [{| location := {| lon := 0; lat := 0 |};
           bearings := [bearing]; entry := [true];
           in_ := match w with Depart => NO_INDEX | _ => 0%N end;
           out := match w with Depart => 0%N | _ => NO_INDEX end;
           lanes := no_lanes; lane_description := [] |}] |}.

Definition turn_step (i : TurnInstruction) (street : string) (id : N)
    (length_m : float) (from_location to_location : N)
    (roads : list Z) (open : list bool) (from_road to_road : N) : RouteStep :=
  {| name_id := id; name := street; ref := ""; pronunciation := "";
     destinations := ""; rotary_name := ""; rotary_pronunciation := "";
     duration := PrimFloat.div length_m 10; distance := length_m; mode := 1%N;
     maneuver :=
       {| maneuver_location := {| lon := 0; lat := 0 |};
          bearing_before := 0; bearing_after := 0;
          instruction := i; waypoint_type := None'; exit := 0%N |};
     geometry_begin := from_location; geometry_end := to_location;
     intersections :=
       [{| location := {| lon := 0; lat := 0 |};
           bearings := roads; entry := open;
           in_ := from_road; out := to_road;
           lanes := no_lanes; lane_description := [] |}] |}.

Definition oscillation_leg : list RouteStep :=
  [ waypoint_step Depart "Main Street" 1 200 0 2 90;
    turn_step {| type := NewName; direction_modifier := Straight |}
      "Bridge" 2 100 1 3 [90; 270] [true; false] 1 0;
    turn_step {| type := Sliproad; direction_modifier := Straight |}
      "Main Street" 1 50 2 4 [0; 90; 270] [true; true; false] 2 1;
    waypoint_step Arrive "Main Street" 1 0 3 4 270 ].

(** [oscillation_leg] with its slip road promoted to a turn, and with both
    name changes folded into the departure. *)
Definition promoted_leg : list RouteStep :=
  update_step oscillation_leg 2 (fun s => set_type s Turn).

Definition folded_leg : list RouteStep :=
  [ elongate (elongate (step_at promoted_leg 0) (step_at promoted_leg 1))
      (step_at promoted_leg 2);
    step_at promoted_leg 3 ].

(** The leg of a route between two points of one road: depart and arrive. *)
Definition direct_leg : list RouteStep :=
  [ waypoint_step Depart "Main Street" 1 200 0 2 90;
    waypoint_step Arrive "Main Street" 1 0 1 2 270 ].

End Guidance.

(* --------------------------------------------------------------------- *)
(** ** The entries of the table (include/engine/routing_algorithms/many_to_many.hpp) *)
(* --------------------------------------------------------------------- *)

Module TableEntries.
Import Typedefs StaticGraph QueryHeap ManyToMany.

(** What the loop body of [ForwardRoutingStep] offers to the cell of a
    bucket entry: [new_distance] when it is not negative, else
    [new_distance_with_loop] when the node has a loop and that sum is not
    negative, else nothing. *)
Definition offered (facade : Graph) (node : N) (source_distance target_distance : Z)
    : option Z :=
  let new_distance := source_distance + target_distance in
  if Z.ltb new_distance 0 then
    let loop_weight := GetLoopWeight facade node in
    let new_distance_with_loop := new_distance + loop_weight in
    if negb (Z.eqb loop_weight INVALID_EDGE_WEIGHT) && Z.leb 0 new_distance_with_loop
    then Some new_distance_with_loop
    else Datatypes.None
  else Some new_distance.

(** The heaps that the sweeps from a phantom end with. *)
Definition forward_heap (facade : Graph) (phantom : PhantomNode) : QueryHeap.t :=
  fst (explore_forward facade (search_fuel facade) 0 0 (seed_source phantom) ∅ []).

Definition backward_heap (facade : Graph) (phantom : PhantomNode) : QueryHeap.t :=
  fst (explore_backward facade (search_fuel facade) 0 (seed_target phantom) ∅).

(** [result_table[i]], read as the source reads a cell of the table. *)
Definition entry (result_table : list Z) (i : nat) : Z := default 0 (result_table !! i).

(** A weight of the table: not negative and at most the initial maximum. *)
Definition in_range (x : Z) : Prop := 0 <= x <= INT_MAX.

(** The queue holds every node once, only inserted nodes, and none of the
    settled nodes [S]. *)
Definition fresh_queue (Q : QueryHeap.t) (S : N -> Prop) : Prop :=
  NoDup (queue Q) /\
  (forall n, In n (queue Q) -> WasInserted Q n = true) /\
  (forall n, S n -> WasInserted Q n = true /\ ~ In n (queue Q)).

(** The two seeds of a phantom are different nodes. *)
Definition distinct_segments (phantom : PhantomNode) : Prop :=
  enabled (forward_segment_id phantom) = true ->
  enabled (reverse_segment_id phantom) = true ->
  seg_id (forward_segment_id phantom) <> seg_id (reverse_segment_id phantom).

End TableEntries.

(* --------------------------------------------------------------------- *)
(** ** The containers of the extractor (src/extractor/extraction_containers.cpp) *)
(* --------------------------------------------------------------------- *)

Module Exceptions.

(** What a function that can throw ends with: its value, or the exception
    with its message. *)
Inductive result (A : Type) : Type :=
| Ok (value : A)
| Throw (message : string).
Arguments Ok {A} value.
Arguments Throw {A} message.

End Exceptions.

Module ExtractionContainers.
Import Typedefs Exceptions.

(** [ExternalMemoryNode]: the members that the merges read. *)
Record ExternalMemoryNode : Type := {
  node_id : N;                      (* OSMNodeID, 64 bits *)
  lat : Z;
  lon : Z
}.

(** The members of [ExtractionContainers] that [PrepareNodes] and
    [WriteNodes] work on. *)
Record NodeData : Type := {
  used_node_id_list : list N;
  all_nodes_list : list ExternalMemoryNode;
  external_to_internal_node_id_map : gmap N N;
  max_internal_node_id : N
}.

(** [std::unique]: of every run of equal neighbours the first is kept. *)
Fixpoint unique_from (previous : N) (l : list N) : list N :=
  match l with
  | [] => []
  | x :: rest =>
      if N.eqb x previous then unique_from previous rest else x :: unique_from x rest
  end.

Definition unique (l : list N) : list N :=
  match l with
  | [] => []
  | x :: rest => x :: unique_from x rest
  end.

(** The loop of [PrepareNodes] that computes the intersection of the nodes
    that were referenced and the nodes there are: [node_iter] runs over
    [nodes], [ref_iter] over [refs].  The counter [internal_id] has 64
    bits and is stored as a [NodeID] of 32. *)
Fixpoint number_nodes (nodes : list ExternalMemoryNode)
    : list N -> N -> gmap N N -> gmap N N * N :=
  fix over_refs (refs : list N) (internal_id : N) (id_map : gmap N N) : gmap N N * N :=
    match nodes, refs with
    | node :: nodes', ref :: refs' =>
        if N.ltb (node_id node) ref then number_nodes nodes' refs internal_id id_map
        else if N.ltb ref (node_id node) then over_refs refs' internal_id id_map
        else number_nodes nodes' refs' (internal_id + 1)
               (<[ref := wrap32 internal_id]> id_map)
    | _, _ => (id_map, internal_id)
    end.

(** [PrepareNodes]; [sort_ids] and [sort_nodes] stand for the two calls of
    [stxxl::sort]. *)
Definition PrepareNodes (sort_ids : list N -> list N)
    (sort_nodes : list ExternalMemoryNode -> list ExternalMemoryNode)
    (data : NodeData) : result NodeData :=
  let used := unique (sort_ids (used_node_id_list data)) in
  let all := sort_nodes (all_nodes_list data) in
  let '(id_map, internal_id) :=
    number_nodes all used 0%N (external_to_internal_node_id_map data) in
  if N.ltb UINT_MAX internal_id
  then Throw "There are too many nodes remaining after filtering, OSRM only supports 2^32 unique nodes"
  else Ok {| used_node_id_list := used;
             all_nodes_list := all;
             external_to_internal_node_id_map := id_map;
             max_internal_node_id := internal_id |}.

(** The loop of [WriteNodes]: the nodes it writes, in order. *)
Fixpoint used_nodes (nodes : list ExternalMemoryNode)
    : list N -> list ExternalMemoryNode :=
  fix over_refs (refs : list N) : list ExternalMemoryNode :=
    match nodes, refs with
    | node :: nodes', ref :: refs' =>
        if N.ltb ref (node_id node) then over_refs refs'
        else if N.ltb (node_id node) ref then used_nodes nodes' refs
        else node :: used_nodes nodes' refs'
    | _, _ => []
    end.

(** [WriteNodes]: the count written first, and the nodes after it. *)
Definition WriteNodes (data : NodeData) : N * list ExternalMemoryNode :=
  (max_internal_node_id data,
   used_nodes (all_nodes_list data) (used_node_id_list data)).

(** Sorting by node id, and a sort to run the methods with. *)
Definition by_id (a b : ExternalMemoryNode) : Prop := (node_id a <= node_id b)%N.

#[export] Instance by_id_dec (a b : ExternalMemoryNode) : Decision (by_id a b).
Proof. unfold by_id. apply _. Defined.

Definition sort_ids : list N -> list N := merge_sort N.le.

Definition sort_nodes : list ExternalMemoryNode -> list ExternalMemoryNode :=
  merge_sort by_id.

(** Numbering the ids of a list from [internal_id] on. *)
Fixpoint assign_ids (ids : list N) (internal_id : N) (id_map : gmap N N)
    : gmap N N * N :=
  match ids with
  | [] => (id_map, internal_id)
  | id :: rest => assign_ids rest (internal_id + 1) (<[id := wrap32 internal_id]> id_map)
  end.

(** *** Edges *)

(** [NodeBasedEdge] and [NodeBasedEdgeWithOSM], the [result] of an
    [InternalExtractorEdge]: the members that the methods read or write. *)
Record NodeBasedEdge : Type := {
  source : N;
  target : N;
  name_id : N;
  weight : Z;
  forward : bool;
  backward : bool;
  is_split : bool
}.

Record Edge : Type := {
  base :> NodeBasedEdge;
  osm_source_id : N;
  osm_target_id : N
}.

Definition EMPTY_NAMEID : N := Guidance.EMPTY_NAMEID.

(** [std::lexicographical_compare] *)
Fixpoint lexicographical_compare (a b : list N) : bool :=
  match a, b with
  | _, [] => false
  | [], _ :: _ => true
  | x :: a', y :: b' =>
      if N.ltb x y then true
      else if N.ltb y x then false
      else lexicographical_compare a' b'
  end.

(** The characters of a name: [name_data] from [name_offsets[id]] up to
    [name_offsets[id + 1]]. *)
Definition name_chars (name_data name_offsets : list N) (id : N) : list N :=
  let first := default 0%N (name_offsets !! N.to_nat id) in
  let last := default 0%N (name_offsets !! N.to_nat (wrap32 (id + 1))) in
  take (N.to_nat last - N.to_nat first) (drop (N.to_nat first) name_data).

(** [CmpEdgeByInternalSourceTargetAndName::operator()] *)
Definition CmpEdgeByInternalSourceTargetAndName (name_data name_offsets : list N)
    (lhs rhs : Edge) : bool :=
  if negb (N.eqb (source lhs) (source rhs)) then N.ltb (source lhs) (source rhs)
  else if negb (N.eqb (target lhs) (target rhs)) then N.ltb (target lhs) (target rhs)
  else if N.eqb (source lhs) SPECIAL_NODEID then false
  else if N.eqb (name_id lhs) (name_id rhs) then false
  else if N.eqb (name_id lhs) EMPTY_NAMEID then false
  else if N.eqb (name_id rhs) EMPTY_NAMEID then true
  else lexicographical_compare (name_chars name_data name_offsets (name_id lhs))
         (name_chars name_data name_offsets (name_id rhs)).

(** The part of the comparator that looks at the names. *)
Definition name_before (name_data name_offsets : list N) (n1 n2 : N) : Prop :=
  n1 <> n2 /\ n1 <> EMPTY_NAMEID /\
  (n2 = EMPTY_NAMEID \/
   lexicographical_compare (name_chars name_data name_offsets n1)
     (name_chars name_data name_offsets n2) = true).

(** *** Names *)

Definition WRITE_BLOCK_BUFFER_SIZE : N := 8000%N.

(** What [WriteCharData] hands to the file stream, in order. *)
Inductive Written : Type :=
| IndexRange (lengths : list N)     (* file_stream << index_range *)
| TotalLength (total_length : N)
| Chars (block : list N).

(** The loop that turns the name offsets into name lengths in place:
    [*curr = *next - *curr], in [unsigned]. *)
Fixpoint offsets_to_lengths (name_offsets : list N) : list N :=
  match name_offsets with
  | curr :: ((next :: _) as rest) =>
      wrap32 (next + 4294967296 - curr) :: offsets_to_lengths rest
  | _ => name_offsets
  end.

(** The loop over [name_char_data]: [buffer] is the part of [write_buffer]
    before [buffer_len], [blocks] what was written so far. *)
Fixpoint write_chars (name_char_data : list N) (buffer : list N) (blocks : list Written)
    : list N * list Written :=
  match name_char_data with
  | [] => (buffer, blocks)
  | c :: rest =>
      let buffer := buffer ++ [c] in
      if N.leb WRITE_BLOCK_BUFFER_SIZE (N.of_nat (length buffer))
      then write_chars rest []
             (blocks ++ [Chars (take (N.to_nat WRITE_BLOCK_BUFFER_SIZE) buffer)])
      else write_chars rest buffer blocks
  end.

(** [WriteCharData]: the offsets as it leaves them, and what it writes.
    The offsets are not empty. *)
Definition WriteCharData (name_offsets name_char_data : list N)
    : list N * list Written :=
  let name_offsets := offsets_to_lengths name_offsets in
  let total_length := List.last name_offsets 0%N in
  let name_offsets := removelast name_offsets in
  let '(buffer, blocks) := write_chars name_char_data [] [] in
  (name_offsets,
   [IndexRange name_offsets; TotalLength total_length] ++ blocks ++ [Chars buffer]).

(** The characters of the blocks of a stream. *)
Fixpoint written_chars (stream : list Written) : list N :=
  match stream with
  | [] => []
  | Chars block :: rest => block ++ written_chars rest
  | _ :: rest => written_chars rest
  end.

(** A block of the size of the buffer. *)
Definition full_block (w : Written) : Prop :=
  match w with
  | Chars block => N.of_nat (length block) = WRITE_BLOCK_BUFFER_SIZE
  | _ => False
  end.

(** The offsets that a table of lengths stands for, from [start] on. *)
Fixpoint prefix_sums (start : N) (lengths : list N) : list N :=
  match lengths with
  | [] => [start]
  | n :: rest => start :: prefix_sums (start + n) rest
  end.

(** *** Writing the edges *)

(** What [WriteEdges] hands to the file stream. *)
Inductive Item : Type :=
| Count (n : N)
| EdgeRecord (edge : NodeBasedEdge).

(** The loop of [WriteEdges]: the stream and [used_edges_counter]. *)
Definition write_edge (st : list Item * N) (edge : Edge) : list Item * N :=
  let '(stream, used_edges_counter) := st in
  if N.eqb (source edge) SPECIAL_NODEID || N.eqb (target edge) SPECIAL_NODEID
  then st
  else (stream ++ [EdgeRecord (base edge)], (used_edges_counter + 1)%N).

(** [WriteEdges], on a stream that stands at its end: the stream as it is
    left, also when the method throws. *)
Definition WriteEdges (stream : list Item) (all_edges_list : list Edge)
    : list Item * result unit :=
  let start_position := length stream in
  let stream := stream ++ [Count 0%N] in
  let '(stream, used_edges_counter) :=
    fold_left write_edge all_edges_list (stream, 0%N) in
  if N.ltb UINT_MAX used_edges_counter
  then (stream, Throw "There are too many edges, OSRM only supports 2^32")
  else (<[start_position := Count (wrap32 used_edges_counter)]> stream, Ok tt).

(** An edge with both ends. *)
Definition is_used (edge : Edge) : bool :=
  negb (N.eqb (source edge) SPECIAL_NODEID || N.eqb (target edge) SPECIAL_NODEID).

(** The referenced ids for which there is a node, in the order of [refs]. *)
Definition common_ids (nodes : list ExternalMemoryNode) (refs : list N) : list N :=
  List.filter (fun ref => bool_decide (ref ∈ map node_id nodes)) refs.

End ExtractionContainers.

(* --------------------------------------------------------------------- *)
(** ** The parallel edges (src/extractor/extraction_containers.cpp, PrepareEdges) *)
(* --------------------------------------------------------------------- *)

Module MultiEdges.
Import Typedefs ExtractionContainers.

(** How a loop over [all_edges_list] ends: with its value, or with an
    access to an element that the list does not have, which the vector
    does not check. *)
Inductive Outcome (A : Type) : Type :=
| Done (value : A)
| OutOfRange (index : N)
| OutOfFuel.
Arguments Done {A} value.
Arguments OutOfRange {A} index.
Arguments OutOfFuel {A}.

(** The four minima of a run of parallel edges. *)
Record Minima : Type := {
  min_forward_weight : Z;
  min_backward_weight : Z;
  min_forward_idx : N;
  min_backward_idx : N
}.

Definition no_minima : Minima :=
  {| min_forward_weight := INT_MAX; min_backward_weight := INT_MAX;
     min_forward_idx := UINT_MAX; min_backward_idx := UINT_MAX |}.

(** The body of the loop that finds the minimal edge in both directions. *)
Definition note_minimal (edge : Edge) (i : N) (m : Minima) : Minima :=
  let m :=
    if forward edge && Z.ltb (weight edge) (min_forward_weight m)
    then {| min_forward_weight := weight edge;
            min_backward_weight := min_backward_weight m;
            min_forward_idx := i; min_backward_idx := min_backward_idx m |}
    else m in
  if backward edge && Z.ltb (weight edge) (min_backward_weight m)
  then {| min_forward_weight := min_forward_weight m;
          min_backward_weight := weight edge;
          min_forward_idx := min_forward_idx m; min_backward_idx := i |}
  else m.

(** The test of that loop. *)
Definition parallel (source_id target_id : N) (edge : Edge) : bool :=
  N.eqb (source edge) source_id && N.eqb (target edge) target_id.

(** The loop that finds the minimal edge in both directions:
    [from_i] is the list from [all_edges_list[i]] on.  The loop has no
    test of [i] against the size of the list. *)
Fixpoint find_minimal (from_i : list Edge) (i : N) (source_id target_id : N) (m : Minima)
    : Outcome (N * Minima) :=
  match from_i with
  | [] => OutOfRange i
  | edge :: rest =>
      if parallel source_id target_id edge
      then find_minimal rest (wrap32 (i + 1)) source_id target_id (note_minimal edge i m)
      else Done (i, m)
  end.

(** [all_edges_list[idx]], if the list has it. *)
Definition at_index (edges : list Edge) (idx : N) : option Edge :=
  if N.ltb idx (N.of_nat (length edges)) then edges !! N.to_nat idx else Datatypes.None.

(** [all_edges_list[idx].result = f(all_edges_list[idx].result)] *)
Definition update_edge (edges : list Edge) (idx : N) (f : NodeBasedEdge -> NodeBasedEdge)
    : Outcome (list Edge) :=
  match at_index edges idx with
  | Some edge =>
      Done (<[N.to_nat idx :=
               {| base := f (base edge); osm_source_id := osm_source_id edge;
                  osm_target_id := osm_target_id edge |}]> edges)
  | Datatypes.None => OutOfRange idx
  end.

Definition set_directions (source_id target_id : N) (forward backward is_split : bool)
    (edge : NodeBasedEdge) : NodeBasedEdge :=
  {| source := source_id; target := target_id; name_id := name_id edge;
     weight := weight edge; forward := forward; backward := backward;
     is_split := is_split |}.

(** What the loop does with the minimal edges of a run. *)
Definition keep_minimal (edges : list Edge) (m : Minima) : Outcome (list Edge) :=
  if N.eqb (min_backward_idx m) (min_forward_idx m)
  then update_edge edges (min_forward_idx m)
         (fun edge => set_directions (source edge) (target edge) true true false edge)
  else
    let has_forward := negb (N.eqb (min_forward_idx m) UINT_MAX) in
    let has_backward := negb (N.eqb (min_backward_idx m) UINT_MAX) in
    let kept :=
      if has_forward
      then update_edge edges (min_forward_idx m)
             (fun edge =>
                set_directions (source edge) (target edge) true false has_backward edge)
      else Done edges in
    match kept with
    | Done edges =>
        if has_backward
        then update_edge edges (min_backward_idx m)
               (fun edge =>
                  set_directions (target edge) (source edge) true false has_forward edge)
        else Done edges
    | other => other
    end.

(** The loop that invalidates the unused edges of a run, from [start_idx]
    up to [i]. *)
Definition invalidate_unused (edges : list Edge) (start_idx i : N) (m : Minima)
    : list Edge :=
  fold_left
    (fun (edges : list Edge) (j : nat) =>
       if N.eqb (N.of_nat j) (min_forward_idx m) || N.eqb (N.of_nat j) (min_backward_idx m)
       then edges
       else
         match (edges !! j : option Edge) with
         | Some edge =>
             <[j := {| base :=
                         set_directions SPECIAL_NODEID SPECIAL_NODEID (forward edge)
                           (backward edge) (is_split edge) edge;
                       osm_source_id := osm_source_id edge;
                       osm_target_id := osm_target_id edge |}]> edges
         | Datatypes.None => edges
         end)
    (seq (N.to_nat start_idx) (N.to_nat i - N.to_nat start_idx)) edges.

(** The loop of [PrepareEdges] that removes the parallel edges, from [i]
    on; every round takes [i] further. *)
Fixpoint remove_from (fuel : nat) (edges : list Edge) (i : N) : Outcome (list Edge) :=
  match fuel with
  | O => OutOfFuel
  | S fuel =>
      if negb (N.ltb i (N.of_nat (length edges))) then Done edges
      else
        match (edges !! N.to_nat i : option Edge) with
        | Datatypes.None => OutOfRange i
        | Some edge =>
            if N.eqb (source edge) SPECIAL_NODEID then Done edges
            else if N.eqb (target edge) SPECIAL_NODEID
            then remove_from fuel edges (wrap32 (i + 1))
            else
              let start_idx := i in
              match find_minimal (drop (N.to_nat i) edges) i (source edge) (target edge)
                      no_minima with
              | Done (i, m) =>
                  match keep_minimal edges m with
                  | Done edges => remove_from fuel (invalidate_unused edges start_idx i m) i
                  | other => other
                  end
              | OutOfRange index => OutOfRange index
              | OutOfFuel => OutOfFuel
              end
        end
  end.

(** The loop from its start.  No round leaves [i] where it was, so that
    one round for every edge, and the last test, are all there is. *)
Definition remove_parallel_edges (all_edges_list : list Edge) : Outcome (list Edge) :=
  remove_from (S (length all_edges_list)) all_edges_list 0.

(** An edge that is kept serves a direction of an edge of the input: it
    runs the same way, or the other way round when it was turned, and is
    not heavier. *)
Definition serves_forward (kept edge : Edge) : Prop :=
  source kept = source edge /\ target kept = target edge /\
  forward kept = true /\ weight kept <= weight edge.

Definition serves_backward (kept edge : Edge) : Prop :=
  weight kept <= weight edge /\
  ((source kept = source edge /\ target kept = target edge /\ backward kept = true) \/
   (source kept = target edge /\ target kept = source edge /\ forward kept = true)).

(** What the minima are for the edges of a run that were looked at, the
    run beginning at [start_idx]. *)
Definition minima_of (m : Minima) (start_idx : N) (run : list Edge) : Prop :=
  (forall edge : Edge,
     edge ∈ run -> forward edge = true -> min_forward_weight m <= weight edge) /\
  (forall edge : Edge,
     edge ∈ run -> backward edge = true -> min_backward_weight m <= weight edge) /\
  ((min_forward_idx m = UINT_MAX /\ min_forward_weight m = INT_MAX) \/
   exists (j : nat) (edge : Edge),
     min_forward_idx m = (start_idx + N.of_nat j)%N /\ run !! j = Some edge /\
     forward edge = true /\ weight edge = min_forward_weight m) /\
  ((min_backward_idx m = UINT_MAX /\ min_backward_weight m = INT_MAX) \/
   exists (j : nat) (edge : Edge),
     min_backward_idx m = (start_idx + N.of_nat j)%N /\ run !! j = Some edge /\
     backward edge = true /\ weight edge = min_backward_weight m).

(** Edges to run the loop with: three between the nodes 1 and 2, one
    from 1 to 3, and one that has lost its nodes. *)
Definition example_edge (source_id target_id : N) (weight : Z) (forward backward : bool)
    : Edge :=
  {| base := {| source := source_id; target := target_id; name_id := 0%N;
                weight := weight; forward := forward; backward := backward;
                is_split := false |};
     osm_source_id := 0%N; osm_target_id := 0%N |}.

Definition parallel_edges : list Edge :=
  [ example_edge 1 2 10 true true;
    example_edge 1 2 7 true false;
    example_edge 1 2 5 false true;
    example_edge 1 3 4 true true;
    example_edge SPECIAL_NODEID SPECIAL_NODEID 1 true true ].

End MultiEdges.

(* --------------------------------------------------------------------- *)
(** ** The extractor and the arrays it leaves to the facade (src/extractor/extractor.cpp) *)
(* --------------------------------------------------------------------- *)

Module Extractor.
Import Typedefs Exceptions.

(** *** The r-tree of the start points (Extractor::BuildRTree) *)

Section Startpoints.
Context {EdgeBasedNode : Type}.

(** One round of the loop that filters the node based edges in place: the
    vector, and [out_iter] and [in_iter] as positions in it.  The source
    asserts that [in_iter] is not at the end. *)
Definition filter_step (node_is_startpoint : list bool)
    (st : list EdgeBasedNode * nat * nat) (index : nat)
    : list EdgeBasedNode * nat * nat :=
  let '(node_based_edge_list, out_iter, in_iter) := st in
  if default false (node_is_startpoint !! index)
  then (match node_based_edge_list !! in_iter with
        | Some edge => <[out_iter := edge]> node_based_edge_list
        | Datatypes.None => node_based_edge_list
        end, S out_iter, S in_iter)
  else (node_based_edge_list, out_iter, S in_iter).

(** [BuildRTree], up to the vector that the r-tree is built of. *)
Definition BuildRTree (node_based_edge_list : list EdgeBasedNode)
    (node_is_startpoint : list bool) : result (list EdgeBasedNode) :=
  let '(node_based_edge_list, out_iter, _) :=
    fold_left (filter_step node_is_startpoint)
      (seq 0 (length node_is_startpoint)) (node_based_edge_list, 0%nat, 0%nat) in
  let new_size := out_iter in
  if Nat.eqb new_size 0
  then Throw "There are no snappable edges left after processing.  Are you setting travel modes correctly in the profile?  Cannot continue."
  else Ok (take new_size node_based_edge_list).

(** The edges whose flag is set, in their order. *)
Fixpoint startpoints (edges : list EdgeBasedNode) (flags : list bool) : list EdgeBasedNode :=
  match edges, flags with
  | edge :: edges', flag :: flags' =>
      if flag then edge :: startpoints edges' flags' else startpoints edges' flags'
  | _, _ => []
  end.

End Startpoints.

(** *** The arrays of the turn lane descriptions *)

(** [guidance::LaneDescriptionMap]: from a description, the masks of its
    lanes, to its id. *)
Definition LaneDescriptionMap : Type := gmap (list N) N.

(** [std::partial_sum] over [std::uint32_t], after the first element. *)
Fixpoint partial_sum_from (sum : N) (values : list N) : list N :=
  match values with
  | [] => []
  | value :: rest =>
      let sum := wrap32 (sum + value) in sum :: partial_sum_from sum rest
  end.

Definition partial_sum (values : list N) : list N :=
  match values with
  | [] => []
  | first :: rest => first :: partial_sum_from first rest
  end.

(** [std::copy] of [from] to the positions of [to] from [position] on. *)
Fixpoint copy (from to : list N) (position : nat) : list N :=
  match from with
  | [] => to
  | mask :: rest => copy rest (<[position := mask]> to) (S position)
  end.

(** [transformTurnLaneMapIntoArrays]: the offsets and the masks.  The
    entries are visited in the order of the map's iteration. *)
Definition transformTurnLaneMapIntoArrays (turn_lane_map : LaneDescriptionMap)
    : list N * list N :=
  let entries := map_to_list turn_lane_map in
  let turn_lane_offsets :=
    fold_left
      (fun offsets (entry : list N * N) =>
         <[N.to_nat (snd entry + 1) := wrap32 (N.of_nat (length (fst entry)))]> offsets)
      entries (replicate (size turn_lane_map + 2) 0%N) in
  let turn_lane_offsets := partial_sum turn_lane_offsets in
  let turn_lane_masks := replicate (N.to_nat (default 0%N (last turn_lane_offsets))) 0%N in
  let turn_lane_masks :=
    fold_left
      (fun masks (entry : list N * N) =>
         copy (fst entry) masks
           (N.to_nat (default 0%N (turn_lane_offsets !! N.to_nat (snd entry)))))
      entries turn_lane_masks in
  (turn_lane_offsets, turn_lane_masks).

(** The sum of a list of numbers. *)
Definition sumN (l : list N) : N := fold_right N.add 0%N l.

(** The number of masks of all the descriptions of a map. *)
Definition number_of_masks (turn_lane_map : LaneDescriptionMap) : N :=
  sumN (map (fun entry : list N * N => N.of_nat (length (fst entry)))
          (map_to_list turn_lane_map)).

End Extractor.

Module DataFacade.

(** [std::numeric_limits<LaneDescriptionID>::max()], of 16 bits
    (util/typedefs.hpp). *)
Definition INVALID_LANE_DESCRIPTIONID : N := 65535%N.

(** [SharedDataFacade::GetTurnDescription] over the two arrays of the
    facade. *)
Definition GetTurnDescription (m_lane_description_offsets m_lane_description_masks : list N)
    (lane_description_id : N) : list N :=
  if N.eqb lane_description_id INVALID_LANE_DESCRIPTIONID then []
  else
    let first :=
      N.to_nat (default 0%N (m_lane_description_offsets !! N.to_nat lane_description_id)) in
    let last :=
      N.to_nat (default 0%N
                  (m_lane_description_offsets !! N.to_nat (lane_description_id + 1))) in
    take (last - first) (drop first m_lane_description_masks).

End DataFacade.

(* --------------------------------------------------------------------- *)
(** ** Legs for the passes over the intersections (src/engine/guidance/post_processing.cpp) *)
(* --------------------------------------------------------------------- *)

Module GuidanceLegs.
Import Guidance.

(** A leg that passes a crossing without an instruction: depart on Main
    Street, pass the crossing (suppressed), turn into Side Street and
    arrive. *)
Definition crossing_leg : list RouteStep :=
  [ waypoint_step Depart "Main Street" 1 200 0 2 90;
    turn_step {| type := Suppressed; direction_modifier := Straight |}
      "Main Street" 1 100 1 3 [90; 180; 270] [true; true; false] 2 0;
    turn_step {| type := Turn; direction_modifier := Right |}
      "Side Street" 2 50 2 4 [0; 90; 270] [true; true; false] 2 1;
    waypoint_step Arrive "Side Street" 2 0 3 4 270 ].

(** A leg with a lane to use before the turn: the first intersection of
    the step has two lanes, neither of them straight or without an
    indication, of which the left one is to be taken. *)
Definition lane_leg : list RouteStep :=
  [ waypoint_step Depart "Main Street" 1 200 0 2 90;
    update_front
      (turn_step {| type := UseLane; direction_modifier := Straight |}
         "Main Street" 1 100 1 3 [90; 270] [true; false] 1 0)
      (fun i => with_lanes i {| lanes_in_turn := 1; first_lane_from_the_right := 1 |}
                  [64; 16]%N);
    turn_step {| type := Turn; direction_modifier := Left |}
      "Side Street" 2 50 2 4 [0; 90; 270] [true; true; false] 2 1;
    waypoint_step Arrive "Side Street" 2 0 3 4 270 ].


End GuidanceLegs.

(* --------------------------------------------------------------------- *)
(** ** The grammar of the parameters (server/api/base_parameters_grammar.hpp)
       and the tools (src/tools/contract.cpp, src/tools/extract.cpp) *)
(* --------------------------------------------------------------------- *)

Module ParametersGrammar.

(** [std::equal(fmt, fmt + sizeof(fmt), first + 1u)]: the characters of
    [range] against those from [other] on.  Reading behind the end of the
    input is excluded by the test that guards the call. *)
Fixpoint equal (range other : list ascii) : bool :=
  match range, other with
  | [], _ => true
  | c :: range', d :: other' => Ascii.eqb c d && equal range' other'
  | _ :: _, [] => false
  end.

(** [no_trailing_dot_policy<T, Fmt...>::parse_dot]: [input] is what lies
    between [first] and [last]; the result and what lies between them
    afterwards. *)
Definition parse_dot (fmt : list ascii) (input : list ascii) : bool * list ascii :=
  match input with
  | [] => (false, input)
  | c :: rest =>
      if negb (Ascii.eqb c ".") then (false, input)
      else if Nat.ltb (length fmt) (length input) && equal fmt rest then (false, input)
      else (true, rest)
  end.

(** The policy of the grammar of the parameters, which has the format
    [json] for [Fmt]. *)
Definition json_policy_parse_dot : list ascii -> bool * list ascii :=
  parse_dot (list_ascii_of_string "json").

End ParametersGrammar.

Module Tools.

(** [enum class return_code] of src/tools/contract.cpp and
    src/tools/extract.cpp. *)
Inductive return_code : Set := ok | fail | exit.

(** What [boost::program_options] hands back for a command line of one of
    the two tools: whether [store] threw, which options were seen, and the
    values it stored.  [profile_path] is read by osrm-extract only and has
    a default value. *)
Record CommandLine : Type := {
  parse_throws : bool;              (* boost::program_options::error *)
  has_version : bool;               (* option_variables.count("version") *)
  has_help : bool;                  (* option_variables.count("help") *)
  input : option string;            (* positional, count("input") *)
  requested_num_threads : N;        (* --threads, unsigned *)
  profile_path : string             (* --profile *)
}.

(** What [main] meets: which paths are regular files. *)
Record Environment : Type := {
  is_regular_file : string -> bool
}.

(** How [main] ends: with an exit code of its own, or by returning what
    the contractor or the extractor returns for the configuration, which
    is [EXIT_FAILURE] when that ends in [std::bad_alloc]. *)
Inductive Outcome : Type :=
| Returns (code : Z)
| Runs (input_path : string) (threads : N).

Definition EXIT_SUCCESS : Z := Routed.EXIT_SUCCESS.
Definition EXIT_FAILURE : Z := Routed.EXIT_FAILURE.

(** [osrm_input_path] and [input_path] are default-constructed paths when
    no input is given. *)
Definition input_path (cl : CommandLine) : string :=
  match input cl with Some path => path | Datatypes.None => "" end.

Definition count_input (cl : CommandLine) : bool :=
  match input cl with Some _ => true | Datatypes.None => false end.

(** [parseArguments] of src/tools/contract.cpp *)
Definition contract_parseArguments (cl : CommandLine) : return_code :=
  if parse_throws cl then fail
  else if has_version cl then exit
  else if has_help cl then exit
  else if negb (count_input cl) then fail
  else ok.

(** [main] of src/tools/contract.cpp *)
Definition contract_main (cl : CommandLine) (env : Environment) : Outcome :=
  match contract_parseArguments cl with
  | fail => Returns EXIT_FAILURE
  | exit => Returns EXIT_SUCCESS
  | ok =>
      if N.ltb (requested_num_threads cl) 1 then Returns EXIT_FAILURE
      else if negb (is_regular_file env (input_path cl)) then Returns EXIT_FAILURE
      else Runs (input_path cl) (requested_num_threads cl)
  end.

(** [parseArguments] of src/tools/extract.cpp *)
Definition extract_parseArguments (cl : CommandLine) : return_code :=
  if parse_throws cl then fail
  else if has_version cl then exit
  else if has_help cl then exit
  else if negb (count_input cl) then exit
  else ok.

(** [main] of src/tools/extract.cpp *)
Definition extract_main (cl : CommandLine) (env : Environment) : Outcome :=
  match extract_parseArguments cl with
  | fail => Returns EXIT_FAILURE
  | exit => Returns EXIT_SUCCESS
  | ok =>
      if N.ltb (requested_num_threads cl) 1 then Returns EXIT_FAILURE
      else if negb (is_regular_file env (input_path cl)) then Returns EXIT_FAILURE
      else if negb (is_regular_file env (profile_path cl)) then Returns EXIT_FAILURE
      else Runs (input_path cl) (requested_num_threads cl)
  end.

End Tools.

(* --------------------------------------------------------------------- *)
(** ** The answer in JSON (src/engine/api/json_factory.cpp) *)
(* --------------------------------------------------------------------- *)

Module Json.

(** [util::json::Value]; an object holds its members by key. *)
#[warnings="-register-all"] Inductive Value : Type :=
| String (value : string)
| Number (value : float)
| Object (values : gmap string Value)
| Array (values : list Value)
| True'
| False'
| Null.

End Json.

Module JsonFactory.
Import Typedefs Guidance Json.

(** What the factory takes from headers that are not among the sources:
    the values of the enumerations, by which the arrays of names are
    indexed, the conversion of a fixed-point coordinate, the names of the
    travel modes, the indications of a lane and [std::round]. *)
Class Helpers : Type := {
  TurnType_value : TurnType -> nat;
  DirectionModifier_value : DirectionModifier -> nat;
  WaypointType_value : WaypointType -> nat;
  coordinateToLonLat : Coordinate -> Value;
  modeToString : N -> string;
  toJsonArray : N -> Value;
  round : float -> float
}.

Definition modifier_names : list string :=
  ["uturn"; "sharp right"; "right"; "slight right"; "straight"; "slight left"; "left";
   "sharp left"]%string.

Definition turn_type_names : list string :=
  ["invalid"; "new name"; "continue"; "turn"; "merge";
   "on ramp"; "off ramp"; "fork"; "end of road"; "notification";
   "roundabout"; "roundabout"; "rotary"; "rotary"; "roundabout turn";
   "roundabout turn"; "use lane"; "invalid"; "invalid"; "invalid";
   "invalid"; "invalid"; "invalid"; "invalid"; "invalid";
   "invalid"; "invalid"]%string.

Definition waypoint_type_names : list string := ["invalid"; "arrive"; "depart"]%string.

(** [LaneID] has 8 bits (util/typedefs.hpp). *)
Definition wrap8 (n : N) : N := (n mod 256)%N.

(** [guidance::RouteLeg]: the members that the factory reads. *)
Record RouteLeg : Type := {
  leg_distance : float;
  leg_duration : float;
  summary : string;
  steps : list RouteStep
}.

Section WithHelpers.
Context {helpers : Helpers}.

Definition isValidModifier (maneuver : StepManeuver) : bool :=
  bool_decide (waypoint_type maneuver = None') ||
  negb (bool_decide (direction_modifier (instruction maneuver) = UTurn)).

Definition hasValidLanes (intersection : Intersection) : bool :=
  N.ltb 0 (lanes_in_turn (lanes intersection)).

Definition instructionTypeToString (type : TurnType) : string :=
  nth (TurnType_value type) turn_type_names "".

Definition instructionModifierToString (modifier : DirectionModifier) : string :=
  nth (DirectionModifier_value modifier) modifier_names "".

Definition waypointTypeToString (waypoint_type : WaypointType) : string :=
  nth (WaypointType_value waypoint_type) waypoint_type_names "".

(** The object that [lanesFromIntersection] makes of a lane, for the value
    that [lane_id] has in the round. *)
Definition lane_object (intersection : Intersection) (lane_desc lane_id : N)
    : gmap string Value :=
  let lane : gmap string Value := <["indications" := toJsonArray lane_desc]> ∅ in
  if N.leb (first_lane_from_the_right (lanes intersection)) lane_id &&
     N.ltb lane_id
       (first_lane_from_the_right (lanes intersection) +
        lanes_in_turn (lanes intersection))
  then <["valid" := True']> lane
  else <["valid" := False']> lane.

(** One round of the loop of [lanesFromIntersection]: the lanes so far and
    [lane_id]. *)
Definition lane_at (intersection : Intersection) (st : list Value * N) (lane_desc : N)
    : list Value * N :=
  let '(result, lane_id) := st in
  let lane_id := wrap8 (lane_id + 255) in
  (result ++ [Object (lane_object intersection lane_desc lane_id)], lane_id).

Definition lanesFromIntersection (intersection : Intersection) : list Value :=
  fst (fold_left (lane_at intersection) (lane_description intersection)
         ([], wrap8 (N.of_nat (length (lane_description intersection))))).

Definition makeStepManeuver (maneuver : StepManeuver) : gmap string Value :=
  let step_maneuver : gmap string Value :=
    if bool_decide (waypoint_type maneuver = None')
    then <["type" := String (instructionTypeToString (type (instruction maneuver)))]> ∅
    else <["type" := String (waypointTypeToString (waypoint_type maneuver))]> ∅ in
  let step_maneuver :=
    if isValidModifier maneuver
    then <["modifier" :=
             String (instructionModifierToString
                       (direction_modifier (instruction maneuver)))]> step_maneuver
    else step_maneuver in
  let step_maneuver :=
    <["location" := coordinateToLonLat (maneuver_location maneuver)]> step_maneuver in
  let step_maneuver :=
    <["bearing_before" := Number (round (to_double (bearing_before maneuver)))]>
      step_maneuver in
  let step_maneuver :=
    <["bearing_after" := Number (round (to_double (bearing_after maneuver)))]>
      step_maneuver in
  if negb (N.eqb (Guidance.exit maneuver) 0)
  then <["exit" := Number (to_double (Z.of_N (Guidance.exit maneuver)))]> step_maneuver
  else step_maneuver.

Definition makeIntersection (intersection : Intersection) : gmap string Value :=
  let bearings := map (fun bearing => Number (to_double bearing)) (bearings intersection) in
  let entry :=
    map (fun has_entry : bool => if has_entry then True' else False')
      (Guidance.entry intersection) in
  let result : gmap string Value :=
    <["location" := coordinateToLonLat (location intersection)]> ∅ in
  let result := <["bearings" := Array bearings]> result in
  let result := <["entry" := Array entry]> result in
  let result :=
    if negb (N.eqb (in_ intersection) NO_INDEX)
    then <["in" := Number (to_double (Z.of_N (in_ intersection)))]> result
    else result in
  let result :=
    if negb (N.eqb (out intersection) NO_INDEX)
    then <["out" := Number (to_double (Z.of_N (out intersection)))]> result
    else result in
  if hasValidLanes intersection
  then <["lanes" := Array (lanesFromIntersection intersection)]> result
  else result.

(** [std::round(x * 10) / 10.] *)
Definition round_to_tenth (x : float) : float :=
  PrimFloat.div (round (PrimFloat.mul x 10)) 10.

Definition is_empty (s : string) : bool := bool_decide (s = ""%string).

Definition makeRouteStep (step : RouteStep) (geometry : Value) : gmap string Value :=
  let route_step : gmap string Value :=
    <["distance" := Number (round_to_tenth (distance step))]> ∅ in
  let route_step := <["duration" := Number (round_to_tenth (duration step))]> route_step in
  let route_step := <["name" := String (name step)]> route_step in
  let route_step :=
    if negb (is_empty (ref step)) then <["ref" := String (ref step)]> route_step
    else route_step in
  let route_step :=
    if negb (is_empty (pronunciation step))
    then <["pronunciation" := String (pronunciation step)]> route_step
    else route_step in
  let route_step :=
    if negb (is_empty (destinations step))
    then <["destinations" := String (destinations step)]> route_step
    else route_step in
  let route_step :=
    if negb (is_empty (rotary_name step))
    then
      let route_step := <["rotary_name" := String (rotary_name step)]> route_step in
      if negb (is_empty (rotary_pronunciation step))
      then <["rotary_pronunciation" := String (rotary_pronunciation step)]> route_step
      else route_step
    else route_step in
  let route_step := <["mode" := String (modeToString (mode step))]> route_step in
  let route_step := <["maneuver" := Object (makeStepManeuver (maneuver step))]> route_step in
  let route_step := <["geometry" := geometry]> route_step in
  <["intersections" :=
      Array (map (fun i => Object (makeIntersection i)) (intersections step))]> route_step.

Definition makeRouteLeg (leg : RouteLeg) (steps : list Value) : gmap string Value :=
  let route_leg : gmap string Value :=
    <["distance" := Number (round_to_tenth (leg_distance leg))]> ∅ in
  let route_leg := <["duration" := Number (round_to_tenth (leg_duration leg))]> route_leg in
  let route_leg := <["summary" := String (summary leg)]> route_leg in
  <["steps" := Array steps]> route_leg.

Definition makeRouteLeg_annotated (leg : RouteLeg) (steps : list Value)
    (annotation : gmap string Value) : gmap string Value :=
  <["annotation" := Object annotation]> (makeRouteLeg leg steps).

(** The lambda of [makeRouteLegs]: the steps so far and what is left of
    the geometries behind [step_geometry_iter].  The iterator is not
    checked against the end: the model puts [Null] there. *)
Definition step_with_geometry (st : list Value * list Value) (step : RouteStep)
    : list Value * list Value :=
  let '(json_steps, step_geometries) := st in
  (json_steps ++ [Object (makeRouteStep step (default Null (head step_geometries)))],
   tail step_geometries).

(** One round of the loop of [makeRouteLegs], at [idx]. *)
Definition leg_at (legs : list RouteLeg) (annotations : list (gmap string Value))
    (st : list Value * list Value) (idx : nat) : list Value * list Value :=
  let '(json_legs, step_geometries) := st in
  match legs !! idx with
  | Some leg =>
      let '(json_steps, step_geometries) :=
        fold_left step_with_geometry (steps leg) ([], step_geometries) in
      if Nat.ltb 0 (length annotations)
      then (json_legs ++
              [Object (makeRouteLeg_annotated leg json_steps
                         (default ∅ (annotations !! idx)))],
            step_geometries)
      else (json_legs ++ [Object (makeRouteLeg leg json_steps)], step_geometries)
  | Datatypes.None => st
  end.

Definition makeRouteLegs (legs : list RouteLeg) (step_geometries : list Value)
    (annotations : list (gmap string Value)) : list Value :=
  fst (fold_left (leg_at legs annotations) (seq 0 (length legs)) ([], step_geometries)).

End WithHelpers.

(** The member of an object, and of an object among values. *)
Definition member (key : string) (value : Value) : option Value :=
  match value with
  | Object values => values !! key
  | _ => Datatypes.None
  end.

(** The number of steps of the legs before the one at [idx]. *)
Definition steps_before (legs : list RouteLeg) (idx : nat) : nat :=
  length (concat (map steps (take idx legs))).

(** The steps of a leg in the answer. *)
Definition steps_of (leg : Value) : list Value :=
  match member "steps" leg with
  | Some (Array values) => values
  | _ => []
  end.

Section Legs.
Context {helpers : Helpers}.

(** The leg that [makeRouteLegs] is to make at [idx]: every step with the
    geometry at its number among the steps of all the legs. *)
Definition json_leg (legs : list RouteLeg) (step_geometries : list Value)
    (annotations : list (gmap string Value)) (idx : nat) (leg : RouteLeg) : Value :=
  let json_steps :=
    imap (fun j step =>
            Object (makeRouteStep step
                      (default Null (step_geometries !! (steps_before legs idx + j)%nat))))
      (steps leg) in
  if Nat.ltb 0 (length annotations)
  then Object (makeRouteLeg_annotated leg json_steps (default ∅ (annotations !! idx)))
  else Object (makeRouteLeg leg json_steps).

End Legs.

End JsonFactory.

Module RelativeLocations.
Import Typedefs Guidance.

(** The helpers of util/coordinate_calculation.hpp and of
    engine/guidance/toolkit.hpp that [assignRelativeLocations] calls, none
    of which is among the sources. *)
Class Geodesy : Type := {
  haversineDistance : Coordinate -> Coordinate -> float;
  computeAngle : Coordinate -> Coordinate -> Coordinate -> float;
  angleToDirectionModifier : float -> DirectionModifier
}.

Definition MINIMAL_RELATIVE_DISTANCE : float := 5%float.
Definition MAXIMAL_RELATIVE_DISTANCE : float := 300%float.

Definition location_at (leg_geometry : LegGeometry) (i : nat) : Coordinate :=
  default {| lon := 0; lat := 0 |} (locations leg_geometry !! i).

Section WithGeodesy.
Context {geodesy : Geodesy}.

(** [assignRelativeLocations]; of the two phantom nodes it reads the input
    locations.  The source asserts two steps and two locations at least. *)
Definition assignRelativeLocations (steps : list RouteStep) (leg_geometry : LegGeometry)
    (source_input_location target_input_location : Coordinate) : list RouteStep :=
  let size := length (locations leg_geometry) in
  let distance_to_start :=
    haversineDistance source_input_location (location_at leg_geometry 0) in
  let initial_modifier :=
    if PrimFloat.leb MINIMAL_RELATIVE_DISTANCE distance_to_start &&
       PrimFloat.leb distance_to_start MAXIMAL_RELATIVE_DISTANCE
    then angleToDirectionModifier
           (computeAngle source_input_location (location_at leg_geometry 0)
              (location_at leg_geometry 1))
    else UTurn in
  let steps := update_step steps 0 (fun s => set_modifier s initial_modifier) in
  let distance_from_end :=
    haversineDistance target_input_location (location_at leg_geometry (size - 1)) in
  let final_modifier :=
    if PrimFloat.leb MINIMAL_RELATIVE_DISTANCE distance_from_end &&
       PrimFloat.leb distance_from_end MAXIMAL_RELATIVE_DISTANCE
    then angleToDirectionModifier
           (computeAngle (location_at leg_geometry (size - 2))
              (location_at leg_geometry (size - 1)) target_input_location)
    else UTurn in
  update_step steps (length steps - 1) (fun s => set_modifier s final_modifier).

End WithGeodesy.

End RelativeLocations.

Module FactoryExamples.
Import Typedefs Guidance GuidanceLegs Json JsonFactory RelativeLocations.

(** Helpers to run the factory with: the enumerations are numbered in
    the order of the arrays of names, a coordinate is given in fixed
    point, every travel mode is driving, a lane has no indication and
    the numbers of the examples need no rounding. *)
Definition example_helpers : Helpers :=
  {| TurnType_value := fun type =>
       match type with
       | Invalid => 0 | NewName => 1 | Continue => 2 | Turn => 3 | Merge => 4
       | OnRamp => 5 | OffRamp => 6 | Fork => 7 | EndOfRoad => 8 | Notification => 9
       | EnterRoundabout => 10 | EnterAndExitRoundabout => 11 | EnterRotary => 12
       | EnterAndExitRotary => 13 | EnterRoundaboutIntersection => 14
       | EnterAndExitRoundaboutIntersection => 15 | UseLane => 16 | NoTurn => 17
       | Suppressed => 18 | EnterRoundaboutAtExit => 19 | ExitRoundabout => 20
       | EnterRotaryAtExit => 21 | ExitRotary => 22
       | EnterRoundaboutIntersectionAtExit => 23 | ExitRoundaboutIntersection => 24
       | StayOnRoundabout => 25 | Sliproad => 26
       end%nat;
     DirectionModifier_value := fun modifier =>
       match modifier with
       | UTurn => 0 | SharpRight => 1 | Right => 2 | SlightRight => 3 | Straight => 4
       | SlightLeft => 5 | Left => 6 | SharpLeft => 7
       end%nat;
     WaypointType_value := fun waypoint_type =>
       match waypoint_type with None' => 0 | Arrive => 1 | Depart => 2 end%nat;
     coordinateToLonLat := fun c => Array [Number (to_double (lon c)); Number (to_double (lat c))];
     modeToString := fun _ => "driving"%string;
     toJsonArray := fun _ => Array [];
     round := fun x => x |}.

(** A measure to run [assignRelativeLocations] with: every input location
    is 2 m from the road. *)
Definition example_geodesy : Geodesy :=
  {| haversineDistance := fun _ _ => 2%float;
     computeAngle := fun _ _ _ => 90%float;
     angleToDirectionModifier := fun _ => Right |}.

(** A road of three lanes, of which the two on the left are those of the
    turn. *)
Definition three_lanes : Intersection :=
  with_lanes getInvalidIntersection
    {| lanes_in_turn := 2; first_lane_from_the_right := 1 |} [64; 64; 16]%N.

(** Two legs, of four steps and of two, and their geometries. *)
Definition two_legs : list RouteLeg :=
  [ {| leg_distance := 350; leg_duration := 35; summary := "Main Street";
       steps := oscillation_leg |};
    {| leg_distance := 200; leg_duration := 20; summary := "Main Street";
       steps := direct_leg |} ].

Definition six_geometries : list Value :=
  map (fun name => String name) ["a"; "b"; "c"; "d"; "e"; "f"]%string.

Definition leg_locations : LegGeometry :=
  {| locations := [ {| lon := 0; lat := 0 |}; {| lon := 10; lat := 0 |} ];
     segment_offsets := [0%N]; segment_distances := [200%float] |}.

End FactoryExamples.

(* --------------------------------------------------------------------- *)
(** ** The intersection before a turn (src/extractor/guidance/turn_discovery.cpp) *)
(* --------------------------------------------------------------------- *)

Module TurnDiscovery.
Import Typedefs.

(** [ConnectedRoad]: the members of its turn that the search reads. *)
Record ConnectedRoad : Type := {
  eid : N;
  angle : float
}.

(** What the search calls: the node based graph, the turn analysis and the
    helpers and constants of extractor/guidance/toolkit.hpp and
    extractor/guidance/constants.hpp, none of which is among the
    sources.  [findClosestTurn] stands for the road its iterator points
    at. *)
Class Surroundings : Type := {
  distance : N -> float;                        (* GetEdgeData(edge).distance *)
  reversed : N -> bool;                         (* GetEdgeData(edge).reversed *)
  GetTarget : N -> N;
  getIntersection : N -> N -> list ConnectedRoad;
  assignTurnTypes : N -> N -> list ConnectedRoad -> list ConnectedRoad;
  findClosestTurn : list ConnectedRoad -> float -> ConnectedRoad;
  angularDeviation : float -> float -> float;
  STRAIGHT_ANGLE : float;
  GROUP_ANGLE : float
}.

(** The output parameters. *)
Record Result : Type := {
  result_node : N;
  result_via_edge : N;
  result_intersection : list ConnectedRoad
}.

Definition COMBINE_DISTANCE_CUTOFF : float := 30%float.

Definition road_at (intersection : list ConnectedRoad) (i : nat) : ConnectedRoad :=
  default {| eid := SPECIAL_EDGEID; angle := 0%float |} (intersection !! i).

Section WithSurroundings.
Context {surroundings : Surroundings}.

(** [lanes::findPreviousIntersection]: what it returns, and the output
    parameters as it leaves them. *)
Definition findPreviousIntersection (node_v via_edge : N)
    (intersection : list ConnectedRoad) (outputs : Result) : bool * Result :=
  if PrimFloat.ltb COMBINE_DISTANCE_CUTOFF (distance via_edge) then (false, outputs)
  else
    let node_w := GetTarget via_edge in
    let u_turn_at_node_w := eid (road_at intersection 0) in
    let node_v_reverse_intersection := getIntersection node_w u_turn_at_node_w in
    let straightmost_at_v_in_reverse :=
      findClosestTurn node_v_reverse_intersection STRAIGHT_ANGLE in
    if PrimFloat.ltb GROUP_ANGLE
         (angularDeviation (angle straightmost_at_v_in_reverse) STRAIGHT_ANGLE)
    then (false, outputs)
    else
      let node_u := GetTarget (eid straightmost_at_v_in_reverse) in
      let node_u_reverse_intersection :=
        getIntersection node_v (eid straightmost_at_v_in_reverse) in
      let via := eid (road_at node_u_reverse_intersection 0) in
      if reversed via
      then (false,
            {| result_node := SPECIAL_NODEID; result_via_edge := SPECIAL_EDGEID;
               result_intersection := result_intersection outputs |})
      else
        let found := getIntersection node_u via in
        let check_via_edge := existsb (fun road => N.eqb (eid road) via_edge) found in
        if negb check_via_edge
        then (false,
              {| result_node := SPECIAL_NODEID; result_via_edge := SPECIAL_EDGEID;
                 result_intersection := found |})
        else (true,
              {| result_node := node_u; result_via_edge := via;
                 result_intersection := assignTurnTypes node_u via found |}).

End WithSurroundings.

End TurnDiscovery.

(* ===================================================================== *)
(** * Part II: properties                                                *)
(* ===================================================================== *)

Section LayoutFacts.
Import Layout.

Lemma sizeof_SegmentID : sizeof SegmentID = 4%nat.
Proof. reflexivity. Qed.

(** [static_assert(sizeof(ComponentType) == 4, ...)] *)
Lemma sizeof_ComponentType : sizeof ComponentType = 4%nat.
Proof. reflexivity. Qed.

(** [static_assert(sizeof(PhantomNode) == 60, ...)] *)
Lemma sizeof_PhantomNode : sizeof PhantomNode = 60%nat.
Proof. reflexivity. Qed.

(** C7, as stated, fails: the hint record (phantom node together with the
    facade checksum) does not occupy 60 bytes. *)
Lemma hint_record_is_not_60_bytes : sizeof Hint <> 60%nat.
Proof. vm_compute. discriminate. Qed.

(** C7 (amended): the phantom node alone occupies exactly 60 bytes, as the
    source asserts; the hint record, which adds the 4-byte facade checksum,
    occupies 64 bytes before base-64 encoding, and the 88-character hints of
    the parameter-parser test decode to exactly that many bytes. *)
Theorem hint_record_layout :
  sizeof PhantomNode = 60%nat /\
  sizeof Hint = (sizeof PhantomNode + sizeof UInt32)%nat /\
  sizeof Hint = 64%nat /\
  String.length test_hint = 88%nat /\
  base64_decoded_length test_hint = sizeof Hint.
Proof. repeat split; vm_compute; reflexivity. Qed.

End LayoutFacts.

Section RoutedFacts.
Import Routed.

Lemma INIT_FAILED_value : INIT_FAILED = 4294967295%N.
Proof. reflexivity. Qed.

(** Option handling starts the engine exactly when one of the base path and
    the shared-memory switch is given, parsing succeeded and neither the
    version nor the help text was asked for. *)
Lemma generateServerProgramOptions_start (cl : CommandLine) :
  generateServerProgramOptions cl = INIT_OK_START_ENGINE <->
  parse_throws cl = false /\ has_version cl = false /\ has_help cl = false /\
  xorb (use_shared_memory cl) (count_base cl) = true.
Proof.
  unfold generateServerProgramOptions.
  destruct (parse_throws cl), (has_version cl), (has_help cl),
    (use_shared_memory cl), (count_base cl); cbn; intuition discriminate.
Qed.

(** C6: when parsing succeeds and the command line gives neither a base
    path nor the shared-memory switch, or gives both, [main] returns
    [EXIT_SUCCESS], whatever else it finds: the usage error is not reported
    through the exit code. *)
Theorem main_usage_error_exits_with_success (cl : CommandLine) (env : Environment) :
  parse_throws cl = false ->
  use_shared_memory cl = count_base cl ->
  generateServerProgramOptions cl = INIT_OK_DO_NOT_START_ENGINE /\
  main cl env = EXIT_SUCCESS /\ main cl env <> EXIT_FAILURE.
Proof.
  intros Hparse Husage.
  assert (generateServerProgramOptions cl = INIT_OK_DO_NOT_START_ENGINE) as Hinit.
  { unfold generateServerProgramOptions. rewrite Hparse, Husage.
    destruct (has_version cl), (has_help cl), (count_base cl); reflexivity. }
  split; [exact Hinit|]. unfold main. rewrite Hinit. cbn.
  split; [reflexivity|discriminate].
Qed.

(** The theorem at the two command lines of the usage rule. *)
Lemma main_usage_error_exits_with_success_witness :
  let env := {| config_is_valid := true; server_bad_alloc := false |} in
  (parse_throws neither = false /\ use_shared_memory neither = count_base neither /\
   main neither env = EXIT_SUCCESS) /\
  (parse_throws both = false /\ use_shared_memory both = count_base both /\
   main both env = EXIT_SUCCESS).
Proof.
  intros env. split; (split; [reflexivity|split; [reflexivity|]]).
  - apply (main_usage_error_exits_with_success neither env); reflexivity.
  - apply (main_usage_error_exits_with_success both env); reflexivity.
Defined.

End RoutedFacts.

Section StaticGraphFacts.
Import Typedefs StaticGraph.

Lemma elem_of_irange (first last e : N) :
  e ∈ irange first last <-> (first <= e < last)%N.
Proof.
  unfold irange. rewrite list_elem_of_fmap. split.
  - intros (n & -> & Hn). apply list_elem_of_In, in_seq in Hn. lia.
  - intros He. exists (N.to_nat e). split; [now rewrite N2Nat.id|].
    apply list_elem_of_In, in_seq. lia.
Qed.

Lemma non_decreasing_lookup (l : list N) (i : nat) (a b : N) :
  non_decreasing l = true -> l !! i = Some a -> l !! S i = Some b -> (a <= b)%N.
Proof.
  revert i. induction l as [|x [|y l'] IH]; intros i Hs Ha Hb.
  - discriminate.
  - destruct i; discriminate.
  - cbn [non_decreasing] in Hs. apply andb_true_iff in Hs as [Hxy Hs].
    destruct i as [|i].
    + cbn in Ha, Hb. injection Ha as <-. injection Hb as <-. now apply N.leb_le.
    + apply (IH i); assumption.
Qed.

(** In a valid graph the edge range of a node lies inside the edge array. *)
Lemma valid_EndEdges (g : Graph) (u : N) :
  valid g = true -> (EndEdges g u <= GetNumberOfEdges g)%N.
Proof.
  unfold valid. rewrite !andb_true_iff. intros [[[[_ _] Hoff] _] _].
  unfold EndEdges, first_edge.
  destruct (node_array g !! N.to_nat (u + 1)) as [off|] eqn:Hl; cbn.
  - rewrite forallb_forall in Hoff. apply N.leb_le, Hoff.
    apply list_elem_of_In. eapply list_elem_of_lookup_2; eassumption.
  - lia.
Qed.

Lemma valid_Begin_le_End (g : Graph) (u : N) :
  valid g = true -> (u < GetNumberOfNodes g)%N -> (BeginEdges g u <= EndEdges g u)%N.
Proof.
  intros Hv Hu. pose proof Hv as Hv'. unfold valid in Hv'.
  rewrite !andb_true_iff in Hv'. destruct Hv' as [[[[_ Hs] _] _] _].
  unfold GetNumberOfNodes in Hu.
  unfold BeginEdges, EndEdges, first_edge.
  replace (N.to_nat (u + 1)) with (S (N.to_nat u)) by lia.
  destruct (lookup_lt_is_Some_2 (node_array g) (N.to_nat u)) as [a Ha]; [lia|].
  destruct (lookup_lt_is_Some_2 (node_array g) (S (N.to_nat u))) as [b Hb]; [lia|].
  rewrite Ha, Hb. cbn. eapply non_decreasing_lookup; eassumption.
Qed.

(** C4: on a valid graph, [FindEdge(u,v)] returns an edge of the range of
    [u] whose target is [v], or the sentinel [SPECIAL_EDGEID], the latter
    exactly when the range of [u] holds no edge to [v]. *)
Theorem FindEdge_spec (g : Graph) (u v : N) :
  valid g = true ->
  (u < GetNumberOfNodes g)%N ->
  (FindEdge g u v <> SPECIAL_EDGEID /\
   GetTarget g (FindEdge g u v) = v /\
   (BeginEdges g u <= FindEdge g u v < EndEdges g u)%N /\
   (FindEdge g u v < GetNumberOfEdges g)%N)
  \/
  (FindEdge g u v = SPECIAL_EDGEID /\
   forall e, (BeginEdges g u <= e < EndEdges g u)%N -> GetTarget g e <> v).
Proof.
  intros Hv Hu. unfold FindEdge.
  destruct (find _ _) as [e|] eqn:Hf.
  - left. apply find_some in Hf as [Hin Ht].
    apply list_elem_of_In, elem_of_irange in Hin. apply N.eqb_eq in Ht.
    pose proof (valid_EndEdges g u Hv) as Hend.
    assert (GetNumberOfEdges g < SPECIAL_EDGEID)%N as Hlt.
    { unfold valid in Hv. rewrite !andb_true_iff in Hv.
      destruct Hv as [[[_ _] Hlt] _]. now apply N.ltb_lt. }
    repeat split; lia.
  - right. split; [reflexivity|]. intros e He Ht.
    pose proof (find_none _ _ Hf e) as Hn. cbn in Hn.
    rewrite Ht, N.eqb_refl in Hn. discriminate Hn.
    apply list_elem_of_In, elem_of_irange. exact He.
Qed.

(** The theorem at the graph of [find_test], for the edge from 3 to 0. *)
Lemma FindEdge_spec_witness :
  valid simple_graph = true /\ (3 < GetNumberOfNodes simple_graph)%N /\
  ((FindEdge simple_graph 3 0 <> SPECIAL_EDGEID /\
    GetTarget simple_graph (FindEdge simple_graph 3 0) = 0%N /\
    (BeginEdges simple_graph 3 <= FindEdge simple_graph 3 0 < EndEdges simple_graph 3)%N /\
    (FindEdge simple_graph 3 0 < GetNumberOfEdges simple_graph)%N)
   \/
   (FindEdge simple_graph 3 0 = SPECIAL_EDGEID /\
    forall e, (BeginEdges simple_graph 3 <= e < EndEdges simple_graph 3)%N ->
              GetTarget simple_graph e <> 0%N)).
Proof.
  split; [reflexivity|]. split; [reflexivity|].
  apply (FindEdge_spec simple_graph 3 0); reflexivity.
Defined.

(** The expectations of [find_test] and [target_test]. *)
Example find_test :
  id (GetEdgeData simple_graph (FindEdge simple_graph 0 1)) = 1%N /\
  FindEdge simple_graph 1 0 = SPECIAL_EDGEID /\
  FindEdge simple_graph 3 1 = SPECIAL_EDGEID /\
  FindEdge simple_graph 0 4 = SPECIAL_EDGEID /\
  id (GetEdgeData simple_graph (FindEdge simple_graph 3 4)) = 3%N /\
  id (GetEdgeData simple_graph (FindEdge simple_graph 3 0)) = 2%N /\
  GetTarget simple_graph (FindEdge simple_graph 3 0) = 0%N.
Proof. repeat split. Qed.

End StaticGraphFacts.

Section QueryHeapFacts.
Import QueryHeap.

Lemma min_from_in (h : t) (l : list N) (best : N) :
  min_from h best l = best \/ In (min_from h best l) l.
Proof.
  revert best. induction l as [|n l IH]; intros best; cbn; [now left|].
  destruct (IH (if GetKey h n <? GetKey h best then n else best)) as [E|HIn].
  - rewrite E. destruct (GetKey h n <? GetKey h best); auto.
  - auto.
Qed.

Lemma min_from_le (h : t) (l : list N) (best : N) :
  GetKey h (min_from h best l) <= GetKey h best /\
  forall x, In x l -> GetKey h (min_from h best l) <= GetKey h x.
Proof.
  revert best. induction l as [|n l IH]; intros best; cbn; [split; [lia|tauto]|].
  destruct (IH (if GetKey h n <? GetKey h best then n else best)) as [Hb Hl].
  destruct (Z.ltb_spec (GetKey h n) (GetKey h best)).
  - split; [lia|]. intros x [<-|Hx]; [lia|auto].
  - split; [lia|]. intros x [<-|Hx]; [lia|auto].
Qed.

Lemma Min_in (h : t) : Empty h = false -> In (Min h) (queue h).
Proof.
  unfold Empty, Min. destruct (queue h) as [|n l]; [discriminate|]. intros _.
  destruct (min_from_in h l n) as [->|H]; [now left|now right].
Qed.

Lemma Min_le (h : t) (x : N) : In x (queue h) -> GetKey h (Min h) <= GetKey h x.
Proof.
  unfold Min. destruct (queue h) as [|n l]; [intros []|].
  destruct (min_from_le h l n) as [Hb Hl]. intros [<-|Hx]; auto.
Qed.

Lemma remove_first_incl (n x : N) (l : list N) :
  In x (remove_first n l) -> In x l.
Proof.
  induction l as [|y l IH]; cbn; [tauto|].
  destruct (N.eqb_spec y n); cbn; intuition.
Qed.

Lemma remove_first_other (n x : N) (l : list N) :
  In x l -> x <> n -> In x (remove_first n l).
Proof.
  induction l as [|y l IH]; cbn; [tauto|].
  destruct (N.eqb_spec y n); cbn; intros [->|H] Hne; intuition congruence.
Qed.

Lemma remove_first_length (n : N) (l : list N) :
  In n l -> S (length (remove_first n l)) = length l.
Proof.
  induction l as [|y l IH]; cbn; [tauto|].
  destruct (N.eqb_spec y n); cbn; [reflexivity|].
  intros [->|H]; [congruence|]. now rewrite IH.
Qed.

Lemma DeleteMin_node (h : t) : fst (DeleteMin h) = Min h.
Proof. reflexivity. Qed.

Lemma DeleteMin_nodes (h : t) : nodes (snd (DeleteMin h)) = nodes h.
Proof. reflexivity. Qed.

Lemma DeleteMin_queue (h : t) : queue (snd (DeleteMin h)) = remove_first (Min h) (queue h).
Proof. reflexivity. Qed.

Lemma WasInserted_true (h : t) (n : N) :
  WasInserted h n = true <-> is_Some (nodes h !! n).
Proof.
  unfold WasInserted. destruct (nodes h !! n); split; intros H;
    try reflexivity; try discriminate; eauto. destruct H; discriminate.
Qed.

End QueryHeapFacts.

Section HeapUpdates.
Import QueryHeap SweepInvariant.

Lemma WasInserted_Insert (h : t) (n : N) (k : Z) (p x : N) :
  WasInserted (Insert h n k p) x = N.eqb x n || WasInserted h x.
Proof.
  unfold WasInserted, Insert; cbn. destruct (N.eqb_spec x n) as [->|Hne].
  - now rewrite lookup_insert_eq.
  - rewrite lookup_insert_ne by congruence. reflexivity.
Qed.

Lemma GetKey_Insert (h : t) (n : N) (k : Z) (p x : N) :
  GetKey (Insert h n k p) x = if N.eqb x n then k else GetKey h x.
Proof.
  unfold GetKey, Insert; cbn. destruct (N.eqb_spec x n) as [->|Hne].
  - now rewrite lookup_insert_eq.
  - rewrite lookup_insert_ne by congruence. reflexivity.
Qed.

Lemma WasInserted_lower (h : t) (n : N) (k : Z) (p x : N) :
  WasInserted (lower h n k p) x = WasInserted h x.
Proof.
  unfold WasInserted, lower, DecreaseKey, SetParent; cbn.
  destruct (N.eqb_spec x n) as [->|Hne].
  - rewrite !lookup_alter_eq. destruct (nodes h !! n); reflexivity.
  - rewrite !lookup_alter_ne by congruence. reflexivity.
Qed.

Lemma GetKey_lower (h : t) (n : N) (k : Z) (p x : N) :
  WasInserted h n = true ->
  GetKey (lower h n k p) x = if N.eqb x n then k else GetKey h x.
Proof.
  unfold WasInserted, GetKey, lower, DecreaseKey, SetParent; cbn. intros Hn.
  destruct (N.eqb_spec x n) as [->|Hne].
  - rewrite !lookup_alter_eq. destruct (nodes h !! n); [reflexivity|discriminate].
  - rewrite !lookup_alter_ne by congruence. reflexivity.
Qed.

Lemma queue_lower (h : t) (n : N) (k : Z) (p : N) : queue (lower h n k p) = queue h.
Proof. reflexivity. Qed.

End HeapUpdates.

Section SearchInvariants.
Import Typedefs StaticGraph QueryHeap ManyToMany SweepInvariant.
Variable g : Graph.
Variable fwd : bool.
Variable stalled : N -> Z -> QueryHeap.t -> bool.
Variable Q0 : QueryHeap.t.

Lemma heap_le_refl (Q : t) : heap_le Q Q.
Proof. intros n Hn. split; [assumption|lia]. Qed.

Lemma heap_le_trans (Q1 Q2 Q3 : t) : heap_le Q1 Q2 -> heap_le Q2 Q3 -> heap_le Q1 Q3.
Proof.
  intros H12 H23 n Hn. destruct (H12 n Hn) as [H2 Hk2].
  destruct (H23 n H2) as [H3 Hk3]. split; [assumption|lia].
Qed.

Lemma Core_weaken (Q : t) (S X : N -> Prop) (R R' : N -> N -> Z -> Prop) :
  Core g fwd stalled Q0 Q S X R -> (forall n t w, R' n t w -> R n t w) ->
  Core g fwd stalled Q0 Q S X R'.
Proof. intros [] HR. constructor; auto. Qed.

Hypothesis Hpos : positive_weights g = true.

(** The test only grows when keys sink, as [StallAtNode] does. *)
Hypothesis stalled_mono :
  forall (Q Q' : t) (n : N) (k : Z),
    heap_le Q Q' -> stalled n k Q = true -> stalled n k Q' = true.

Lemma flagged_positive (e : N) :
  flag g fwd e = true -> 0 < distance (GetEdgeData g e).
Proof.
  unfold flag, GetEdgeData, edge_at.
  destruct (edge_array g !! N.to_nat e) as [x|] eqn:Hl; cbn.
  - intros _. unfold positive_weights in Hpos. rewrite forallb_forall in Hpos.
    apply Z.ltb_lt, Hpos, list_elem_of_In. eapply list_elem_of_lookup_2; eassumption.
  - destruct fwd; discriminate.
Qed.

Lemma StallAtNode_mono (Q Q' : t) (n : N) (k : Z) :
  heap_le Q Q' ->
  StallAtNode g fwd n k Q = true -> StallAtNode g fwd n k Q' = true.
Proof.
  intros Hle. unfold StallAtNode. rewrite !existsb_exists.
  intros (e & He & Hs). exists e. split; [assumption|].
  unfold stalls_through in *. rewrite !andb_true_iff in *.
  destruct Hs as (Hf & Hi & Hk). destruct (Hle _ Hi) as [Hi' Hk'].
  repeat split; try assumption. apply Z.ltb_lt in Hk. apply Z.ltb_lt. lia.
Qed.

Lemma relax_edge_cases (m : N) (k : Z) (Q : t) (e : N) :
  let to := GetTarget g e in
  let w := distance (GetEdgeData g e) in
  (flag g fwd e = false /\ relax_edge g fwd m k Q e = Q) \/
  (flag g fwd e = true /\ WasInserted Q to = false /\
   relax_edge g fwd m k Q e = Insert Q to (k + w) m) \/
  (flag g fwd e = true /\ WasInserted Q to = true /\ k + w < GetKey Q to /\
   relax_edge g fwd m k Q e = lower Q to (k + w) m) \/
  (flag g fwd e = true /\ WasInserted Q to = true /\ GetKey Q to <= k + w /\
   relax_edge g fwd m k Q e = Q).
Proof.
  cbn. unfold relax_edge, flag.
  destruct (if fwd then forward (GetEdgeData g e) else backward (GetEdgeData g e));
    [|now left].
  right. destruct (WasInserted Q (GetTarget g e)) eqn:Hi; cbn.
  - right. destruct (Z.ltb_spec (k + distance (GetEdgeData g e)) (GetKey Q (GetTarget g e))).
    + left. auto.
    + right. auto.
  - left. auto.
Qed.

Section Relax.
Variables (m : N) (k : Z) (S X : N -> Prop).
Hypothesis HSm : S m.
Hypothesis Hreach : reached_from g fwd Q0 m k.

Lemma relax_edge_core (Q : t) (R : N -> N -> Z -> Prop) (e : N) :
  Core g fwd stalled Q0 Q S X R ->
  GetKey Q m = k ->
  (forall n, S n -> GetKey Q n <= k) ->
  In e (GetAdjacentEdgeRange g m) ->
  Core g fwd stalled Q0 (relax_edge g fwd m k Q e) S X
    (fun n t w => R n t w \/
       (n = m /\ flag g fwd e = true /\ t = GetTarget g e /\ w = distance (GetEdgeData g e))) /\
  (forall n, S n -> GetKey (relax_edge g fwd m k Q e) n = GetKey Q n) /\
  heap_le Q (relax_edge g fwd m k Q e).
Proof.
  intros HC Hkm Htop He.
  pose proof (core_settled _ _ _ _ _ _ _ _ HC) as Hset.
  destruct (relax_edge_cases m k Q e) as
    [[Hf ->]|[(Hf & Hi & ->)|[(Hf & Hi & Hlt & ->)|(Hf & Hi & Hle & ->)]]].
  - split; [|split; [reflexivity|apply heap_le_refl]].
    eapply Core_weaken; [exact HC|]. intros n t w [H|(_ & Hf' & _)]; [assumption|congruence].
  - (* a new node is queued *)
    pose proof (flagged_positive e Hf) as Hw.
    set (to := GetTarget g e) in *. set (w := distance (GetEdgeData g e)) in *.
    assert (forall n, WasInserted Q n = true -> n <> to) as Hne by (intros n Hn ->; congruence).
    assert (forall n, WasInserted Q n = true ->
              GetKey (Insert Q to (k + w) m) n = GetKey Q n) as Hsame.
    { intros n Hn. rewrite GetKey_Insert. destruct (N.eqb_spec n to); [|reflexivity].
      exfalso. eapply Hne; eassumption. }
    assert (heap_le Q (Insert Q to (k + w) m)) as Hhl.
    { intros n Hn. rewrite WasInserted_Insert, Hn, orb_true_r, Hsame by assumption.
      split; [reflexivity|lia]. }
    split; [|split; [intros n Hn; apply Hsame; auto|exact Hhl]].
    destruct HC as [Hsound Hqueue Hcover _ Horder Hexp Hstall Hrel Hseeds].
    constructor.
    + intros n. rewrite WasInserted_Insert, GetKey_Insert.
      destruct (N.eqb_spec n to) as [->|Hn]; cbn.
      * intros _. destruct Hreach as (s & W & Hs & Hp & ->).
        exists s, (W + w). split; [assumption|]. split; [|lia].
        eapply path_arc; [exact Hp|]. exists e. unfold flag in Hf. auto.
      * apply Hsound.
    + intros n. cbn. rewrite in_app_iff, WasInserted_Insert. intros [Hn|[<-|[]]].
      * rewrite (Hqueue _ Hn). apply orb_true_r.
      * now rewrite N.eqb_refl.
    + intros n. cbn. rewrite WasInserted_Insert, in_app_iff.
      destruct (N.eqb_spec n to) as [->|Hn]; cbn.
      * intros _. left. right. now left.
      * intros Hi'. destruct (Hcover _ Hi'); auto.
    + intros n Hn. rewrite WasInserted_Insert, (Hset _ Hn). apply orb_true_r.
    + intros n h Hn. cbn. rewrite in_app_iff. intros [Hh|[<-|[]]].
      * rewrite !Hsame by auto. auto.
      * rewrite Hsame by auto. rewrite GetKey_Insert, N.eqb_refl.
        specialize (Htop _ Hn). lia.
    + exact Hexp.
    + intros n Hn. destruct (Hstall _ Hn) as [HX|Hst]; [now left|right].
      rewrite Hsame by auto. eapply stalled_mono; eassumption.
    + intros n t w' [HR|(-> & _ & -> & ->)].
      * destruct (Hrel _ _ _ HR) as (HSn & Hit & Hkt).
        split; [assumption|]. destruct (Hhl _ Hit) as [Hit' Hkt'].
        split; [assumption|]. rewrite (Hsame n) by auto. lia.
      * split; [assumption|]. rewrite WasInserted_Insert, N.eqb_refl. split; [reflexivity|].
        rewrite GetKey_Insert, N.eqb_refl, (Hsame m) by auto. fold to. lia.
    + eapply heap_le_trans; eassumption.
  - (* the key of a queued node is lowered *)
    pose proof (flagged_positive e Hf) as Hw.
    set (to := GetTarget g e) in *. set (w := distance (GetEdgeData g e)) in *.
    assert (~ S to) as HnS by (intros HS; specialize (Htop _ HS); lia).
    assert (forall n, S n -> GetKey (lower Q to (k + w) m) n = GetKey Q n) as Hsame.
    { intros n Hn. rewrite GetKey_lower by assumption.
      destruct (N.eqb_spec n to) as [->|]; [contradiction|reflexivity]. }
    assert (heap_le Q (lower Q to (k + w) m)) as Hhl.
    { intros n Hn. rewrite WasInserted_lower, GetKey_lower by assumption.
      split; [assumption|]. destruct (N.eqb_spec n to) as [->|]; lia. }
    split; [|split; [exact Hsame|exact Hhl]].
    destruct HC as [Hsound Hqueue Hcover _ Horder Hexp Hstall Hrel Hseeds].
    constructor.
    + intros n. rewrite WasInserted_lower, GetKey_lower by assumption.
      destruct (N.eqb_spec n to) as [->|Hn]; cbn.
      * intros _. destruct Hreach as (s & W & Hs & Hp & ->).
        exists s, (W + w). split; [assumption|]. split; [|lia].
        eapply path_arc; [exact Hp|]. exists e. unfold flag in Hf. auto.
      * apply Hsound.
    + intros n. rewrite queue_lower, WasInserted_lower. apply Hqueue.
    + intros n. rewrite queue_lower, WasInserted_lower. apply Hcover.
    + intros n Hn. rewrite WasInserted_lower. auto.
    + intros n h Hn. rewrite queue_lower. intros Hh. rewrite Hsame by assumption.
      rewrite GetKey_lower by assumption.
      destruct (N.eqb_spec h to) as [->|]; [specialize (Htop _ Hn); lia|auto].
    + exact Hexp.
    + intros n Hn. destruct (Hstall _ Hn) as [HX|Hst]; [now left|right].
      rewrite Hsame by auto. eapply stalled_mono; eassumption.
    + intros n t w' [HR|(-> & _ & -> & ->)].
      * destruct (Hrel _ _ _ HR) as (HSn & Hit & Hkt).
        split; [assumption|]. destruct (Hhl _ Hit) as [Hit' Hkt'].
        split; [assumption|]. rewrite (Hsame n) by auto. lia.
      * split; [assumption|]. rewrite WasInserted_lower. split; [assumption|].
        rewrite GetKey_lower, N.eqb_refl, (Hsame m) by auto. fold to. lia.
    + eapply heap_le_trans; eassumption.
  - split; [|split; [reflexivity|apply heap_le_refl]].
    destruct HC as [Hsound Hqueue Hcover _ Horder Hexp Hstall Hrel Hseeds].
    constructor; auto.
    intros n t w' [HR|(-> & _ & -> & ->)]; [auto|].
    split; [assumption|]. split; [assumption|]. lia.
Qed.

Lemma relax_fold_core (es : list N) :
  forall (Q : t) (R : N -> N -> Z -> Prop),
  Core g fwd stalled Q0 Q S X R ->
  GetKey Q m = k ->
  (forall n, S n -> GetKey Q n <= k) ->
  (forall e, In e es -> In e (GetAdjacentEdgeRange g m)) ->
  exists R',
    Core g fwd stalled Q0 (fold_left (relax_edge g fwd m k) es Q) S X R' /\
    (forall n t w, R n t w -> R' n t w) /\
    (forall e, In e es -> flag g fwd e = true ->
               R' m (GetTarget g e) (distance (GetEdgeData g e))) /\
    (forall n, S n -> GetKey (fold_left (relax_edge g fwd m k) es Q) n = GetKey Q n) /\
    heap_le Q (fold_left (relax_edge g fwd m k) es Q).
Proof.
  induction es as [|e es IH]; intros Q R HC Hkm Htop Hes; cbn [fold_left].
  - exists R. split; [exact HC|]. split; [auto|]. split; [intros ? []|].
    split; [reflexivity|apply heap_le_refl].
  - destruct (relax_edge_core Q R e HC Hkm Htop) as (HC' & Hst & Hle);
      [apply Hes; now left|].
    destruct (IH _ _ HC') as (R' & HC'' & HRR & Hdone & Hst' & Hle').
    + rewrite Hst; auto.
    + intros n Hn. rewrite Hst; auto.
    + intros e' He'. apply Hes. now right.
    + exists R'. split; [exact HC''|]. split; [intros; apply HRR; now left|].
      split; [|split].
      * intros e' [<-|He'] Hf; [apply HRR; right; auto|auto].
      * intros n Hn. rewrite Hst', Hst; auto.
      * eapply heap_le_trans; eassumption.
Qed.

End Relax.

Lemma settle_unfold (Q : t) :
  settle_with g stalled fwd Q =
  if stalled (Min Q) (GetKey Q (Min Q)) (snd (DeleteMin Q))
  then snd (DeleteMin Q)
  else RelaxOutgoingEdges g fwd (Min Q) (GetKey Q (Min Q)) (snd (DeleteMin Q)).
Proof. reflexivity. Qed.

Lemma arc_flag (m t : N) (w : Z) :
  arc g fwd m t w <->
  exists e, In e (GetAdjacentEdgeRange g m) /\ flag g fwd e = true /\
            t = GetTarget g e /\ w = distance (GetEdgeData g e).
Proof.
  unfold arc, flag. split; intros (e & He & Hf & Ht & Hw); exists e; auto.
Qed.

Lemma settle_inv (Q : t) (S X : N -> Prop) :
  Inv g fwd stalled Q0 Q S X -> Empty Q = false ->
  Inv g fwd stalled Q0 (settle_with g stalled fwd Q)
    (fun n => S n \/ n = Min Q)
    (fun n => X n \/
       (n = Min Q /\
        stalled (Min Q) (GetKey Q (Min Q)) (snd (DeleteMin Q)) = false)) /\
  (forall n, S n \/ n = Min Q -> GetKey (settle_with g stalled fwd Q) n = GetKey Q n) /\
  heap_le Q (settle_with g stalled fwd Q).
Proof.
  intros HI Hne. pose proof (Min_in Q Hne) as Hmin.
  set (m := Min Q) in *. set (Q1 := snd (DeleteMin Q)).
  set (S' := fun n => S n \/ n = m).
  set (X' := fun n => X n \/ (n = m /\ stalled m (GetKey Q m) Q1 = false)).
  destruct HI as [Hsound Hqueue Hcover Hset Horder Hexp Hstall Hrel Hseeds].
  assert (Core g fwd stalled Q0 Q1 S' X' (fun n t w => X n /\ arc g fwd n t w)) as HC1.
  { constructor.
    - exact Hsound.
    - intros n Hn. apply Hqueue. eapply remove_first_incl. exact Hn.
    - intros n Hn. destruct (N.eq_dec n m) as [->|Hnm]; [right; now right|].
      destruct (Hcover n Hn) as [Hq|HS]; [left|right; now left].
      apply remove_first_other; assumption.
    - intros n [HS| ->]; [apply Hset; assumption|apply Hqueue; assumption].
    - intros n h [HS| ->] Hh; apply remove_first_incl in Hh.
      + apply Horder; assumption.
      + change (GetKey Q (Min Q) <= GetKey Q h). apply Min_le; assumption.
    - intros n [HX|[-> _]]; [left; auto|now right].
    - intros n [HS| ->].
      + destruct (Hstall n HS) as [HX|Hst]; [left; now left|right].
        apply (stalled_mono Q Q1); [|exact Hst].
        intros x Hx. split; [exact Hx|apply Z.le_refl].
      + destruct (stalled m (GetKey Q m) Q1) eqn:Hst.
        * right. exact Hst.
        * left. right. auto.
    - intros n t w [HX Harc]. destruct (Hrel n t w (conj HX Harc)) as (HS & Hi & Hk).
      split; [now left|]. split; assumption.
    - exact Hseeds. }
  assert (forall n, S' n -> GetKey Q1 n <= GetKey Q m) as Htop.
  { intros n [HS| ->]; [apply Horder; assumption|apply Z.le_refl]. }
  rewrite settle_unfold. fold m Q1.
  destruct (stalled m (GetKey Q m) Q1) eqn:Hst.
  - split; [|split; [reflexivity|intros n Hn; split; [exact Hn|apply Z.le_refl]]].
    eapply Core_weaken; [exact HC1|].
    intros n t w [[HX|[_ Hf]] Harc]; [auto|discriminate].
  - unfold RelaxOutgoingEdges.
    destruct (relax_fold_core m (GetKey Q m) S' X' (or_intror eq_refl)
                (Hsound m (Hqueue m Hmin)) (GetAdjacentEdgeRange g m) Q1 _ HC1
                eq_refl Htop (fun e He => He))
      as (R' & HC' & HRR & Hdone & Hstable & Hle).
    split; [|split; [exact Hstable|exact Hle]].
    eapply Core_weaken; [exact HC'|].
    intros n t w [[HX|[-> _]] Harc].
    + apply HRR. auto.
    + apply arc_flag in Harc as (e & He & Hf & -> & ->). apply Hdone; assumption.
Qed.

Lemma settle_loop_inv (fuel : nat) :
  forall (Q : t) (S X : N -> Prop),
  Inv g fwd stalled Q0 Q S X ->
  exists S' X',
    Inv g fwd stalled Q0 (settle_loop g fwd stalled fuel Q) S' X' /\
    (forall n, S n -> S' n /\ GetKey (settle_loop g fwd stalled fuel Q) n = GetKey Q n) /\
    heap_le Q (settle_loop g fwd stalled fuel Q).
Proof.
  induction fuel as [|fuel IH]; intros Q S X HI; cbn [settle_loop].
  - exists S, X. split; [exact HI|]. split; [auto|apply heap_le_refl].
  - destruct (Empty Q) eqn:He.
    + exists S, X. split; [exact HI|]. split; [auto|apply heap_le_refl].
    + destruct (settle_inv Q S X HI He) as (HI' & Hst & Hle).
      destruct (IH _ _ _ HI') as (S' & X' & HI'' & Hst' & Hle').
      exists S', X'. split; [exact HI''|]. split.
      * intros n Hn. destruct (Hst' n (or_introl Hn)) as [HS' Hk].
        split; [exact HS'|]. rewrite Hk. apply Hst. now left.
      * eapply heap_le_trans; eassumption.
Qed.

Lemma Inv_initial : seeded Q0 -> Inv g fwd stalled Q0 Q0 (fun _ => False) (fun _ => False).
Proof.
  intros Hs. constructor.
  - intros n Hn. exists n, 0. split; [assumption|]. split; [constructor|lia].
  - intros n Hn. now apply Hs.
  - intros n Hn. left. now apply Hs.
  - intros n [].
  - intros n h [].
  - intros n [].
  - intros n [].
  - intros n t w [[] _].
  - apply heap_le_refl.
Qed.

(** When the queue is empty, every path from a seed along which no node
    meets the test bounds the key of its end. *)
Lemma exhausted_complete (Q : t) (S X : N -> Prop) :
  Inv g fwd stalled Q0 Q S X -> Empty Q = true ->
  forall s n W,
    WasInserted Q0 s = true ->
    clear_path g stalled fwd Q s n W ->
    WasInserted Q n = true /\ S n /\ GetKey Q n <= GetKey Q0 s + W.
Proof.
  intros HI He s n W Hs Hp.
  assert (forall x, WasInserted Q x = true -> S x) as Hall.
  { intros x Hx. destruct (core_cover _ _ _ _ _ _ _ _ HI x Hx) as [Hq|HS]; [|exact HS].
    unfold Empty in He. destruct (queue Q); [destruct Hq|discriminate]. }
  induction Hp as [u|u x v W w Hp IH Hst Harc].
  - destruct (core_seeds _ _ _ _ _ _ _ _ HI u Hs) as [Hi Hk].
    split; [exact Hi|]. split; [auto|lia].
  - destruct (IH Hs) as (Hix & HSx & Hkx).
    destruct (core_stalled _ _ _ _ _ _ _ _ HI x HSx) as [HX|Hst']; [|congruence].
    destruct (core_relaxed _ _ _ _ _ _ _ _ HI x v w (conj HX Harc)) as (_ & Hiv & Hkv).
    split; [exact Hiv|]. split; [auto|lia].
Qed.

End SearchInvariants.

Section Termination.
Import Typedefs StaticGraph QueryHeap ManyToMany SweepInvariant.
Variable g : Graph.
Variable fwd : bool.
Variable stalled : N -> Z -> QueryHeap.t -> bool.

Lemma filter_length_le {A : Type} (f f' : A -> bool) (l : list A) :
  (forall x, In x l -> f' x = true -> f x = true) ->
  (length (List.filter f' l) <= length (List.filter f l))%nat.
Proof.
  induction l as [|a l IH]; intros H; cbn; [lia|].
  assert (length (List.filter f' l) <= length (List.filter f l))%nat as Hl
    by (apply IH; intros x Hx; apply H; now right).
  destruct (f' a) eqn:Ha.
  - rewrite (H a (or_introl eq_refl) Ha). cbn. lia.
  - destruct (f a); cbn; lia.
Qed.

Lemma filter_length_lt {A : Type} (f f' : A -> bool) (l : list A) (x : A) :
  (forall y, In y l -> f' y = true -> f y = true) ->
  In x l -> f x = true -> f' x = false ->
  (length (List.filter f' l) < length (List.filter f l))%nat.
Proof.
  induction l as [|a l IH]; intros H Hx Hfx Hf'x; [destruct Hx|].
  assert (length (List.filter f' l) <= length (List.filter f l))%nat as Hl
    by (apply filter_length_le; intros y Hy; apply H; now right).
  cbn. destruct Hx as [->|Hx].
  - rewrite Hfx, Hf'x. cbn. lia.
  - assert (length (List.filter f' l) < length (List.filter f l))%nat as Hlt
      by (apply IH; auto; intros y Hy; apply H; now right).
    destruct (f' a) eqn:Ha.
    + rewrite (H a (or_introl eq_refl) Ha). cbn. lia.
    + destruct (f a); cbn; lia.
Qed.

Lemma flagged_target (e : N) :
  flag g fwd e = true -> In (GetTarget g e) (map target (edge_array g)).
Proof.
  unfold flag, GetEdgeData, GetTarget, edge_at.
  destruct (edge_array g !! N.to_nat e) as [x|] eqn:Hl; cbn.
  - intros _. apply in_map, list_elem_of_In. eapply list_elem_of_lookup_2; eassumption.
  - destruct fwd; discriminate.
Qed.

Lemma relax_edge_potential (m : N) (k : Z) (Q : t) (e : N) :
  (potential g (relax_edge g fwd m k Q e) <= potential g Q)%nat.
Proof.
  destruct (relax_edge_cases g fwd m k Q e) as
    [[Hf ->]|[(Hf & Hi & ->)|[(Hf & Hi & Hlt & ->)|(Hf & Hi & Hle & ->)]]]; try lia.
  - set (Q' := Insert Q (GetTarget g e) (k + distance (GetEdgeData g e)) m).
    assert (length (queue Q') = Datatypes.S (length (queue Q))) as Hq
      by (unfold Q', Insert; cbn [queue]; rewrite length_app; cbn; lia).
    pose proof (filter_length_lt
      (fun x => negb (WasInserted Q x)) (fun x => negb (WasInserted Q' x))
      (map target (edge_array g)) (GetTarget g e)) as H.
    cbn beta in H. unfold Q' in H at 2. rewrite WasInserted_Insert, N.eqb_refl, Hi in H.
    assert (forall y, In y (map target (edge_array g)) ->
              negb (WasInserted Q' y) = true -> negb (WasInserted Q y) = true) as Hmono.
    { intros y _. unfold Q'. rewrite WasInserted_Insert.
      destruct (WasInserted Q y); [|reflexivity]. now rewrite orb_true_r. }
    specialize (H Hmono (flagged_target e Hf) eq_refl eq_refl).
    unfold potential. lia.
  - unfold potential. rewrite queue_lower.
    pose proof (filter_length_le
      (fun x => negb (WasInserted Q x))
      (fun x => negb (WasInserted
         (lower Q (GetTarget g e) (k + distance (GetEdgeData g e)) m) x))
      (map target (edge_array g))) as H.
    cbn beta in H.
    assert (forall x, In x (map target (edge_array g)) ->
              negb (WasInserted
                (lower Q (GetTarget g e) (k + distance (GetEdgeData g e)) m) x) = true ->
              negb (WasInserted Q x) = true) as Hmono
      by (intros x _; now rewrite WasInserted_lower).
    specialize (H Hmono). lia.
Qed.

Lemma relax_fold_potential (m : N) (k : Z) (es : list N) (Q : t) :
  (potential g (fold_left (relax_edge g fwd m k) es Q) <= potential g Q)%nat.
Proof.
  revert Q. induction es as [|e es IH]; intros Q; cbn [fold_left]; [lia|].
  etransitivity; [apply IH|apply relax_edge_potential].
Qed.

Lemma settle_potential (Q : t) :
  Empty Q = false -> (potential g (settle_with g stalled fwd Q) < potential g Q)%nat.
Proof.
  intros Hne. pose proof (Min_in Q Hne) as Hmin.
  assert (Datatypes.S (potential g (snd (DeleteMin Q))) = potential g Q) as H1.
  { unfold potential. rewrite DeleteMin_queue.
    rewrite <- (remove_first_length (Min Q) (queue Q) Hmin). reflexivity. }
  rewrite settle_unfold.
  destruct (stalled (Min Q) (GetKey Q (Min Q)) (snd (DeleteMin Q))); [lia|].
  unfold RelaxOutgoingEdges.
  pose proof (relax_fold_potential (Min Q) (GetKey Q (Min Q))
                (GetAdjacentEdgeRange g (Min Q)) (snd (DeleteMin Q))).
  lia.
Qed.

Lemma settle_loop_exhausts (fuel : nat) :
  forall Q, (potential g Q <= fuel)%nat -> Empty (settle_loop g fwd stalled fuel Q) = true.
Proof.
  induction fuel as [|fuel IH]; intros Q HQ; cbn [settle_loop].
  - unfold potential in HQ. unfold Empty. destruct (queue Q); [reflexivity|cbn in HQ; lia].
  - destruct (Empty Q) eqn:He; [exact He|].
    apply IH. pose proof (settle_potential Q He). lia.
Qed.

Lemma potential_bound (Q : t) :
  (length (queue Q) <= 2)%nat -> (potential g Q <= search_fuel g)%nat.
Proof.
  intros Hq. unfold potential, search_fuel.
  pose proof (List.filter_length_le (fun x => negb (WasInserted Q x))
                (map target (edge_array g))) as H.
  rewrite length_map in H. lia.
Qed.

End Termination.

Section Sweeps.
Import Typedefs StaticGraph QueryHeap ManyToMany SweepInvariant.
Variable g : Graph.

Lemma BackwardRoutingStep_settle (c : N) (Q : t) (B : SearchSpaceWithBuckets) :
  BackwardRoutingStep g c Q B =
  (settle g false Q, add_bucket B (Min Q) c (GetKey Q (Min Q))).
Proof.
  unfold BackwardRoutingStep, settle. rewrite settle_unfold. cbn.
  destruct (StallAtNode g false (Min Q) _ _); reflexivity.
Qed.

Lemma ForwardRoutingStep_settle (r nt : N) (Q : t) (B : SearchSpaceWithBuckets)
    (T : list Z) :
  ForwardRoutingStep g r nt Q B T =
  (settle g true Q,
   match B !! Min Q with
   | Some bucket_list =>
       fold_left (update_cell g r nt (Min Q) (GetKey Q (Min Q))) bucket_list T
   | None => T
   end).
Proof.
  unfold ForwardRoutingStep, settle. rewrite settle_unfold. cbn.
  destruct (StallAtNode g true (Min Q) _ _); reflexivity.
Qed.

Lemma ReferenceBackwardStep_settle (c : N) (Q : t) (B : SearchSpaceWithBuckets) :
  ReferenceBackwardStep g c Q B =
  (settle_with g never_stalled false Q, add_bucket B (Min Q) c (GetKey Q (Min Q))).
Proof. reflexivity. Qed.

Lemma explore_backward_record (fuel : nat) (c : N) :
  forall Q B,
    explore_backward g fuel c Q B = record_loop g false (StallAtNode g false) fuel c Q B.
Proof.
  induction fuel as [|fuel IH]; intros Q B; cbn [explore_backward record_loop];
    [reflexivity|].
  destruct (Empty Q); [reflexivity|].
  rewrite BackwardRoutingStep_settle. apply IH.
Qed.

Lemma reference_backward_record (fuel : nat) (c : N) :
  forall Q B,
    reference_backward g fuel c Q B = record_loop g false never_stalled fuel c Q B.
Proof.
  induction fuel as [|fuel IH]; intros Q B; cbn [reference_backward record_loop];
    [reflexivity|].
  destruct (Empty Q); [reflexivity|].
  rewrite ReferenceBackwardStep_settle. apply IH.
Qed.

Lemma record_loop_heap (stalled : N -> Z -> t -> bool) (fwd : bool) (fuel : nat) (c : N) :
  forall Q B, fst (record_loop g fwd stalled fuel c Q B) = settle_loop g fwd stalled fuel Q.
Proof.
  induction fuel as [|fuel IH]; intros Q B; cbn [record_loop settle_loop];
    [reflexivity|].
  destruct (Empty Q); [reflexivity|apply IH].
Qed.

Lemma explore_backward_heap (fuel : nat) (c : N) (Q : t) (B : SearchSpaceWithBuckets) :
  fst (explore_backward g fuel c Q B) = settle_loop g false (StallAtNode g false) fuel Q.
Proof. rewrite explore_backward_record. apply record_loop_heap. Qed.

Lemma explore_forward_heap (fuel : nat) (r nt : N) (B : SearchSpaceWithBuckets) :
  forall Q T,
    fst (explore_forward g fuel r nt Q B T) = settle_loop g true (StallAtNode g true) fuel Q.
Proof.
  induction fuel as [|fuel IH]; intros Q T; cbn [explore_forward settle_loop];
    [reflexivity|].
  destruct (Empty Q); [reflexivity|].
  rewrite ForwardRoutingStep_settle. apply IH.
Qed.

Lemma seed_target_queue (p : PhantomNode) : (length (queue (seed_target p)) <= 2)%nat.
Proof.
  unfold seed_target. destruct (enabled (forward_segment_id p)),
    (enabled (reverse_segment_id p)); cbn; lia.
Qed.

Lemma seed_source_queue (p : PhantomNode) : (length (queue (seed_source p)) <= 2)%nat.
Proof.
  unfold seed_source. destruct (enabled (forward_segment_id p)),
    (enabled (reverse_segment_id p)); cbn; lia.
Qed.

Lemma seeded_Insert (Q : t) (n : N) (k : Z) (p : N) :
  seeded Q -> seeded (Insert Q n k p).
Proof.
  intros H x. rewrite WasInserted_Insert. cbn [queue Insert].
  rewrite in_app_iff, orb_true_iff, N.eqb_eq, (H x). cbn. intuition.
Qed.

Lemma seeded_Clear (Q : t) : seeded (Clear Q).
Proof. intros x. cbn. split; [discriminate|tauto]. Qed.

Lemma seeded_seed_target (p : PhantomNode) : seeded (seed_target p).
Proof.
  unfold seed_target.
  destruct (enabled (forward_segment_id p)), (enabled (reverse_segment_id p));
    repeat apply seeded_Insert; apply seeded_Clear.
Qed.

Lemma seeded_seed_source (p : PhantomNode) : seeded (seed_source p).
Proof.
  unfold seed_source.
  destruct (enabled (forward_segment_id p)), (enabled (reverse_segment_id p));
    repeat apply seeded_Insert; apply seeded_Clear.
Qed.

(** Both sweeps exhaust their queue within [search_fuel] iterations. *)
Lemma explore_backward_exhausts (c : N) (p : PhantomNode) (B : SearchSpaceWithBuckets) :
  Empty (fst (explore_backward g (search_fuel g) c (seed_target p) B)) = true.
Proof.
  rewrite explore_backward_heap. apply settle_loop_exhausts, potential_bound,
    seed_target_queue.
Qed.

Lemma reference_backward_exhausts (c : N) (p : PhantomNode) (B : SearchSpaceWithBuckets) :
  Empty (fst (reference_backward g (search_fuel g) c (seed_target p) B)) = true.
Proof.
  rewrite reference_backward_record, record_loop_heap.
  apply settle_loop_exhausts, potential_bound, seed_target_queue.
Qed.

Lemma explore_forward_exhausts (r nt : N) (p : PhantomNode)
    (B : SearchSpaceWithBuckets) (T : list Z) :
  Empty (fst (explore_forward g (search_fuel g) r nt (seed_source p) B T)) = true.
Proof.
  rewrite explore_forward_heap. apply settle_loop_exhausts, potential_bound,
    seed_source_queue.
Qed.

Lemma recorded_add_bucket (B : SearchSpaceWithBuckets) (m c : N) (k : Z)
    (n c' : N) (w : Z) :
  recorded (add_bucket B m c k) n c' w <->
  recorded B n c' w \/ (n = m /\ c' = c /\ w = k).
Proof.
  unfold recorded, add_bucket. destruct (N.eq_dec n m) as [->|Hne].
  - rewrite lookup_insert_eq. split.
    + intros (l & [= <-] & Hin). apply in_app_iff in Hin as [Hin|[[= -> ->]|[]]].
      * left. destruct (B !! m) as [l|]; [|destruct Hin]. eauto.
      * right. auto.
    + intros [(l & Hl & Hin)|(_ & -> & ->)]; eexists; (split; [reflexivity|]);
        apply in_app_iff.
      * left. now rewrite Hl.
      * right. now left.
  - rewrite lookup_insert_ne by congruence. split; [auto|].
    intros [H|(-> & _)]; [exact H|congruence].
Qed.

Lemma never_stalled_mono (Q Q' : t) (n : N) (k : Z) :
  heap_le Q Q' -> never_stalled n k Q = true -> never_stalled n k Q' = true.
Proof. intros _ H. exact H. Qed.

(** Every path is clear of a test that never holds. *)
Lemma path_clear (fwd : bool) (Q : t) (s n : N) (W : Z) :
  path g fwd s n W -> clear_path g never_stalled fwd Q s n W.
Proof.
  induction 1 as [u|u x v W w Hp IH Harc]; [constructor|].
  eapply clear_arc; [exact IH|reflexivity|exact Harc].
Qed.

Lemma clear_path_path (stalled : N -> Z -> t -> bool) (fwd : bool) (Q : t)
    (s n : N) (W : Z) :
  clear_path g stalled fwd Q s n W -> path g fwd s n W.
Proof.
  induction 1 as [u|u x v W w Hp IH Hst Harc]; [constructor|].
  eapply path_arc; eassumption.
Qed.

Section Recording.
Variable fwd : bool.
Variable stalled : N -> Z -> t -> bool.
Variable Q0 : QueryHeap.t.
Hypothesis Hpos : positive_weights g = true.
Hypothesis stalled_mono :
  forall (Q Q' : t) (n : N) (k : Z),
    heap_le Q Q' -> stalled n k Q = true -> stalled n k Q' = true.

Lemma record_loop_inv (fuel : nat) (c : N) :
  forall (Q : t) (B : SearchSpaceWithBuckets) (S X : N -> Prop),
  Inv g fwd stalled Q0 Q S X ->
  (forall n, S n -> recorded B n c (GetKey Q n)) ->
  exists S' X',
    Inv g fwd stalled Q0 (fst (record_loop g fwd stalled fuel c Q B)) S' X' /\
    (forall n, S' n ->
       recorded (snd (record_loop g fwd stalled fuel c Q B)) n c
         (GetKey (fst (record_loop g fwd stalled fuel c Q B)) n)) /\
    (forall n c' w,
       recorded (snd (record_loop g fwd stalled fuel c Q B)) n c' w ->
       recorded B n c' w \/ (c' = c /\ reached_from g fwd Q0 n w)).
Proof.
  induction fuel as [|fuel IH]; intros Q B S X HI HB; cbn [record_loop].
  - exists S, X. cbn. auto.
  - destruct (Empty Q) eqn:He; [exists S, X; cbn; auto|].
    destruct (settle_inv g fwd stalled Q0 Hpos stalled_mono Q S X HI He)
      as (HI' & Hst & Hle).
    pose proof (Min_in Q He) as Hmin.
    destruct (IH (settle_with g stalled fwd Q)
                (add_bucket B (Min Q) c (GetKey Q (Min Q))) _ _ HI')
      as (S' & X' & HI'' & HB' & Hsound).
    + intros n Hn. rewrite (Hst n Hn). apply recorded_add_bucket.
      destruct Hn as [Hn| ->]; [left; auto|right; auto].
    + exists S', X'. split; [exact HI''|]. split; [exact HB'|].
      intros n c' w Hr. destruct (Hsound n c' w Hr) as [Hr'|Hr']; [|now right].
      apply recorded_add_bucket in Hr' as [Hr'|(-> & -> & ->)]; [now left|right].
      split; [reflexivity|].
      apply (core_sound _ _ _ _ _ _ _ _ HI), (core_queue _ _ _ _ _ _ _ _ HI), Hmin.
Qed.

(** A recording sweep that exhausts its queue: what it records are keys of
    paths from the seeds, every inserted node is recorded with its key, and
    the key of a node is at most the weight of every clear path to it. *)
Lemma record_loop_exhausted (fuel : nat) (c : N) (B : SearchSpaceWithBuckets) :
  seeded Q0 ->
  let Q := fst (record_loop g fwd stalled fuel c Q0 B) in
  let B' := snd (record_loop g fwd stalled fuel c Q0 B) in
  Empty Q = true ->
  (forall n w, recorded B' n c w -> recorded B n c w \/ reached_from g fwd Q0 n w) /\
  (forall n, WasInserted Q n = true ->
     recorded B' n c (GetKey Q n) /\ reached_from g fwd Q0 n (GetKey Q n)) /\
  (forall s n W,
     WasInserted Q0 s = true -> clear_path g stalled fwd Q s n W ->
     WasInserted Q n = true /\ GetKey Q n <= GetKey Q0 s + W).
Proof.
  intros Hseeded Q B' Hempty.
  destruct (record_loop_inv fuel c Q0 B (fun _ => False) (fun _ => False)
              (Inv_initial g fwd stalled Q0 Hseeded)
              (fun n (H : False) => match H with end))
    as (S' & X' & HI & Hrec & Hsound).
  fold Q in HI, Hrec. fold B' in Hrec, Hsound.
  assert (forall n, WasInserted Q n = true -> S' n) as Hall.
  { intros n Hn. destruct (core_cover _ _ _ _ _ _ _ _ HI n Hn) as [Hq|HS]; [|exact HS].
    unfold Empty in Hempty. destruct (queue Q); [destruct Hq|discriminate]. }
  split; [|split].
  - intros n w Hr. destruct (Hsound n c w Hr) as [H|[_ H]]; auto.
  - intros n Hn. split; [apply Hrec, Hall, Hn|apply (core_sound _ _ _ _ _ _ _ _ HI n Hn)].
  - intros s n W Hs Hp.
    destruct (exhausted_complete g fwd stalled Q0 Q S' X' HI Hempty s n W Hs Hp)
      as (Hi & _ & Hk).
    auto.
Qed.

End Recording.

End Sweeps.

Section StallingFacts.
Import Typedefs StaticGraph QueryHeap ManyToMany SweepInvariant.

(** C1, as stated, fails: on [stall_graph] the backward sweep from node 0
    settles node 1 with key 15 and stalls it through the edge to node 2
    (key 6, weight 2), so node 3 is settled and recorded with weight 105,
    although the path 0 - 1 - 3 gives it weight 16, which is what the
    reference Dijkstra over the same edges records. *)
Lemma stalling_records_above_reference :
  exists n w w_ref,
    recorded (search_target_phantom stall_graph 0 stall_target ∅) n 0 w /\
    recorded (reference_target_phantom stall_graph 0 stall_target ∅) n 0 w_ref /\
    reached_from stall_graph false (seed_target stall_target) n w_ref /\
    w_ref < w.
Proof.
  exists 3%N, 105, 16. split; [|split; [|split; [|lia]]].
  - eexists. split; [vm_compute; reflexivity|]. now left.
  - eexists. split; [vm_compute; reflexivity|]. now left.
  - exists 0%N, 11. split; [reflexivity|]. split; [|reflexivity].
    change 11 with (0 + 10 + 1).
    eapply path_arc; [eapply path_arc; [apply path_here|]|].
    + exists 0%N. repeat split. now left.
    + exists 3%N. repeat split. now left.
Qed.

(** C1 (amended): with positive edge weights, each sweep exhausts its queue,
    and so does the reference Dijkstra, which is the backward sweep without
    the stalling test.  The reference records every node that a path from a
    seed reaches, with the least weight of such a path.  The backward sweep
    records every node it settles with the key of a seed plus the weight of
    a path from that seed in the upward view, so never with less than the
    reference records; and it records a node with exactly the reference
    weight whenever a path of that least weight reaches it along which no
    node meets the stalling test.  The same holds of the keys of the forward
    sweep.  Nothing is promised for the nodes behind a stalled node. *)
Theorem sweep_keys_are_path_weights (g : Graph) (c r nt : N)
    (target source : PhantomNode) (B : SearchSpaceWithBuckets) (T : list Z) :
  positive_weights g = true ->
  let Qb := fst (explore_backward g (search_fuel g) c (seed_target target) B) in
  let Bb := search_target_phantom g c target B in
  let Qref := fst (reference_backward g (search_fuel g) c (seed_target target) B) in
  let Bref := reference_target_phantom g c target B in
  let Qf := fst (explore_forward g (search_fuel g) r nt (seed_source source) B T) in
  (Empty Qb = true /\ Empty Qref = true /\
   (forall n k, reached_from g false (seed_target target) n k ->
      exists w_ref,
        recorded Bref n c w_ref /\
        reached_from g false (seed_target target) n w_ref /\
        (forall k', reached_from g false (seed_target target) n k' -> w_ref <= k')) /\
   (forall n w, recorded Bb n c w ->
      recorded B n c w \/
      (reached_from g false (seed_target target) n w /\
       exists w_ref, recorded Bref n c w_ref /\ w_ref <= w)) /\
   (forall n, WasInserted Qb n = true -> recorded Bb n c (GetKey Qb n)) /\
   (forall s n W,
      WasInserted (seed_target target) s = true ->
      unstalled_path g false Qb s n W ->
      (forall k, reached_from g false (seed_target target) n k ->
                 GetKey (seed_target target) s + W <= k) ->
      recorded Bb n c (GetKey (seed_target target) s + W) /\
      recorded Bref n c (GetKey (seed_target target) s + W)))
  /\
  (Empty Qf = true /\
   (forall n, WasInserted Qf n = true ->
      reached_from g true (seed_source source) n (GetKey Qf n)) /\
   (forall s n W,
      WasInserted (seed_source source) s = true ->
      unstalled_path g true Qf s n W ->
      (forall k, reached_from g true (seed_source source) n k ->
                 GetKey (seed_source source) s + W <= k) ->
      WasInserted Qf n = true /\ GetKey Qf n = GetKey (seed_source source) s + W)).
Proof.
  intros Hpos Qb Bb Qref Bref Qf. split.
  - pose proof (explore_backward_exhausts g c target B) as Hempty. fold Qb in Hempty.
    pose proof (reference_backward_exhausts g c target B) as Href. fold Qref in Href.
    destruct (record_loop_exhausted g false (StallAtNode g false) (seed_target target)
                Hpos (StallAtNode_mono g false) (search_fuel g) c B
                (seeded_seed_target target))
      as (Hsound & Hrec & Hcomplete).
    { rewrite <- explore_backward_record. exact Hempty. }
    destruct (record_loop_exhausted g false never_stalled (seed_target target)
                Hpos never_stalled_mono (search_fuel g) c B
                (seeded_seed_target target))
      as (_ & Hrec' & Hcomplete').
    { rewrite <- reference_backward_record. exact Href. }
    rewrite <- explore_backward_record in Hsound, Hrec, Hcomplete.
    rewrite <- reference_backward_record in Hrec', Hcomplete'.
    fold Qb in Hrec, Hcomplete. change (snd _) with Bb in Hsound, Hrec.
    fold Qref in Hrec', Hcomplete'. change (snd _) with Bref in Hrec'.
    assert (forall n k, reached_from g false (seed_target target) n k ->
              WasInserted Qref n = true /\ GetKey Qref n <= k) as Hleast.
    { intros n k (s & W & Hs & Hp & ->).
      apply Hcomplete'; [exact Hs|]. now apply path_clear. }
    assert (forall n k, reached_from g false (seed_target target) n k ->
              exists w_ref,
                recorded Bref n c w_ref /\
                reached_from g false (seed_target target) n w_ref /\
                (forall k', reached_from g false (seed_target target) n k' ->
                            w_ref <= k')) as Hreference.
    { intros n k Hk. destruct (Hleast n k Hk) as [Hi _].
      exists (GetKey Qref n). destruct (Hrec' n Hi) as [Hr Hreach].
      split; [exact Hr|]. split; [exact Hreach|].
      intros k' Hk'. apply (Hleast n k' Hk'). }
    split; [exact Hempty|]. split; [exact Href|]. split; [exact Hreference|].
    split; [|split].
    + intros n w Hr. destruct (Hsound n w Hr) as [H|H]; [now left|right].
      split; [exact H|]. destruct (Hreference n w H) as (w_ref & Hr' & _ & Hmin).
      exists w_ref. split; [exact Hr'|]. now apply Hmin.
    + intros n Hn. apply (Hrec n Hn).
    + intros s n W Hs Hp Hmin.
      destruct (Hcomplete s n W Hs Hp) as [Hi Hk].
      destruct (Hrec n Hi) as [Hr Hreach].
      pose proof (Hmin _ Hreach) as Hge.
      assert (reached_from g false (seed_target target) n
                (GetKey (seed_target target) s + W)) as Hthis.
      { exists s, W. split; [exact Hs|]. split; [|reflexivity].
        eapply clear_path_path. exact Hp. }
      destruct (Hleast n _ Hthis) as [Hi' Hk'].
      destruct (Hrec' n Hi') as [Hr' Hreach'].
      pose proof (Hmin _ Hreach') as Hge'.
      split.
      * replace (GetKey (seed_target target) s + W) with (GetKey Qb n) by lia.
        exact Hr.
      * replace (GetKey (seed_target target) s + W) with (GetKey Qref n) by lia.
        exact Hr'.
  - pose proof (explore_forward_exhausts g r nt source B T) as Hempty. fold Qf in Hempty.
    destruct (settle_loop_inv g true (StallAtNode g true) (seed_source source) Hpos
                (StallAtNode_mono g true) (search_fuel g)
                (seed_source source) (fun _ => False) (fun _ => False)
                (Inv_initial g true _ _ (seeded_seed_source source)))
      as (S' & X' & HI & _ & _).
    rewrite <- (explore_forward_heap g (search_fuel g) r nt B (seed_source source) T) in HI.
    fold Qf in HI.
    split; [exact Hempty|]. split.
    + intros n Hn. apply (core_sound _ _ _ _ _ _ _ _ HI n Hn).
    + intros s n W Hs Hp Hmin.
      destruct (exhausted_complete g true _ _ Qf S' X' HI Hempty s n W Hs Hp)
        as (Hi & HS & Hk).
      pose proof (Hmin _ (core_sound _ _ _ _ _ _ _ _ HI n Hi)) as Hge.
      split; [exact Hi|lia].
Qed.

(** The theorem at [stall_graph], for the sweeps from [stall_target]. *)
Lemma sweep_keys_are_path_weights_witness :
  positive_weights stall_graph = true /\
  let g := stall_graph in
  let seeds := seed_target stall_target in
  let Qb := fst (explore_backward g (search_fuel g) 0 seeds ∅) in
  let Bb := search_target_phantom g 0 stall_target ∅ in
  let Qref := fst (reference_backward g (search_fuel g) 0 seeds ∅) in
  let Bref := reference_target_phantom g 0 stall_target ∅ in
  let Qf := fst (explore_forward g (search_fuel g) 0 1 (seed_source stall_target) ∅ []) in
  (Empty Qb = true /\ Empty Qref = true /\
   (forall n k, reached_from g false seeds n k ->
      exists w_ref,
        recorded Bref n 0 w_ref /\
        reached_from g false seeds n w_ref /\
        (forall k', reached_from g false seeds n k' -> w_ref <= k')) /\
   (forall n w, recorded Bb n 0 w ->
      recorded ∅ n 0 w \/
      (reached_from g false seeds n w /\
       exists w_ref, recorded Bref n 0 w_ref /\ w_ref <= w)) /\
   (forall n, WasInserted Qb n = true -> recorded Bb n 0 (GetKey Qb n)) /\
   (forall s n W,
      WasInserted seeds s = true ->
      unstalled_path g false Qb s n W ->
      (forall k, reached_from g false seeds n k -> GetKey seeds s + W <= k) ->
      recorded Bb n 0 (GetKey seeds s + W) /\
      recorded Bref n 0 (GetKey seeds s + W)))
  /\
  (Empty Qf = true /\
   (forall n, WasInserted Qf n = true ->
      reached_from g true (seed_source stall_target) n (GetKey Qf n)) /\
   (forall s n W,
      WasInserted (seed_source stall_target) s = true ->
      unstalled_path g true Qf s n W ->
      (forall k, reached_from g true (seed_source stall_target) n k ->
                 GetKey (seed_source stall_target) s + W <= k) ->
      WasInserted Qf n = true /\ GetKey Qf n = GetKey (seed_source stall_target) s + W)).
Proof.
  split; [reflexivity|].
  apply (sweep_keys_are_path_weights stall_graph 0 0 1 stall_target stall_target ∅ []).
  reflexivity.
Defined.

End StallingFacts.

Section TableFacts.
Import Typedefs StaticGraph QueryHeap ManyToMany SweepInvariant.
Variable g : Graph.

Lemma update_cell_length (r nt n : N) (k : Z) (T : list Z) (b : NodeBucket) :
  length (update_cell g r nt n k T b) = length T.
Proof.
  unfold update_cell.
  repeat match goal with |- context [if ?c then _ else _] => destruct c end;
    rewrite ?length_insert; reflexivity.
Qed.

Lemma update_cell_other (r nt n : N) (k : Z) (T : list Z) (b : NodeBucket) (i : nat) :
  i <> cell r nt (target_id b) ->
  update_cell g r nt n k T b !! i = T !! i.
Proof.
  intros Hi. unfold update_cell.
  repeat match goal with |- context [if ?c then _ else _] => destruct c end;
    rewrite ?list_lookup_insert_ne by congruence; reflexivity.
Qed.

Lemma fold_update_cell_length (r nt n : N) (k : Z) (bs : list NodeBucket) :
  forall T, length (fold_left (update_cell g r nt n k) bs T) = length T.
Proof.
  induction bs as [|b bs IH]; intros T; cbn [fold_left]; [reflexivity|].
  rewrite IH. apply update_cell_length.
Qed.

Lemma fold_update_cell_other (r nt n : N) (k : Z) (bs : list NodeBucket) (i : nat) :
  (forall b, In b bs -> i <> cell r nt (target_id b)) ->
  forall T, fold_left (update_cell g r nt n k) bs T !! i = T !! i.
Proof.
  induction bs as [|b bs IH]; intros Hbs T; cbn [fold_left]; [reflexivity|].
  rewrite IH by (intros b' Hb'; apply Hbs; now right).
  apply update_cell_other, Hbs. now left.
Qed.

Lemma explore_forward_length (fuel : nat) (r nt : N) (B : SearchSpaceWithBuckets) :
  forall Q T, length (snd (explore_forward g fuel r nt Q B T)) = length T.
Proof.
  induction fuel as [|fuel IH]; intros Q T; cbn [explore_forward]; [reflexivity|].
  destruct (Empty Q); [reflexivity|].
  rewrite ForwardRoutingStep_settle, IH.
  destruct (B !! Min Q); [apply fold_update_cell_length|reflexivity].
Qed.

Lemma search_sources_length (nt : N) (B : SearchSpaceWithBuckets) (ps : list PhantomNode) :
  forall r T, length (search_sources g r nt ps B T) = length T.
Proof.
  induction ps as [|p ps IH]; intros r T; cbn [search_sources]; [reflexivity|].
  rewrite IH. unfold search_source_phantom. apply explore_forward_length.
Qed.

(** Insertions are never undone. *)
Lemma relax_edge_inserted (fwd : bool) (m : N) (k : Z) (Q : t) (e n : N) :
  WasInserted Q n = true -> WasInserted (relax_edge g fwd m k Q e) n = true.
Proof.
  intros Hn.
  destruct (relax_edge_cases g fwd m k Q e) as
    [[Hf ->]|[(Hf & Hi & ->)|[(Hf & Hi & Hlt & ->)|(Hf & Hi & Hle & ->)]]]; auto.
  - rewrite WasInserted_Insert, Hn. apply orb_true_r.
  - now rewrite WasInserted_lower.
Qed.

Lemma settle_inserted (fwd : bool) (Q : t) (n : N) :
  WasInserted Q n = true -> WasInserted (settle g fwd Q) n = true.
Proof.
  intros Hn. unfold settle. rewrite settle_unfold.
  destruct (StallAtNode g fwd (Min Q) _ _); [exact Hn|].
  unfold RelaxOutgoingEdges.
  assert (WasInserted (snd (DeleteMin Q)) n = true) as Hn1 by exact Hn.
  revert Hn1. generalize (snd (DeleteMin Q)).
  induction (GetAdjacentEdgeRange g (Min Q)) as [|e es IH]; intros Q1 H1;
    cbn [fold_left]; [exact H1|].
  apply IH, relax_edge_inserted, H1.
Qed.

Lemma settle_loop_inserted (fwd : bool) (fuel : nat) (n : N) :
  forall Q, WasInserted Q n = true ->
            WasInserted (settle_loop g fwd (StallAtNode g fwd) fuel Q) n = true.
Proof.
  induction fuel as [|fuel IH]; intros Q Hn; cbn [settle_loop]; [exact Hn|].
  destruct (Empty Q); [exact Hn|]. apply IH, settle_inserted, Hn.
Qed.

Lemma relax_edge_queue (fwd : bool) (m : N) (k : Z) (Q : t) (e : N) :
  (forall n, In n (queue Q) -> WasInserted Q n = true) ->
  forall n, In n (queue (relax_edge g fwd m k Q e)) ->
            WasInserted (relax_edge g fwd m k Q e) n = true.
Proof.
  intros HQ n.
  destruct (relax_edge_cases g fwd m k Q e) as
    [[Hf ->]|[(Hf & Hi & ->)|[(Hf & Hi & Hlt & ->)|(Hf & Hi & Hle & ->)]]]; auto.
  - cbn [queue Insert]. rewrite in_app_iff, WasInserted_Insert.
    intros [Hn|[<-|[]]]; [rewrite (HQ _ Hn); apply orb_true_r|now rewrite N.eqb_refl].
  - rewrite queue_lower, WasInserted_lower. apply HQ.
Qed.

Lemma settle_queue (fwd : bool) (Q : t) :
  (forall n, In n (queue Q) -> WasInserted Q n = true) ->
  forall n, In n (queue (settle g fwd Q)) -> WasInserted (settle g fwd Q) n = true.
Proof.
  intros HQ. unfold settle. rewrite settle_unfold.
  assert (forall n, In n (queue (snd (DeleteMin Q))) ->
                    WasInserted (snd (DeleteMin Q)) n = true) as H1.
  { intros n Hn. apply HQ. eapply remove_first_incl. exact Hn. }
  destruct (StallAtNode g fwd (Min Q) _ _); [exact H1|].
  unfold RelaxOutgoingEdges. revert H1. generalize (snd (DeleteMin Q)).
  induction (GetAdjacentEdgeRange g (Min Q)) as [|e es IH]; intros Q1 H1;
    cbn [fold_left]; [exact H1|].
  apply IH, relax_edge_queue, H1.
Qed.

(** A cell changes in a forward sweep only through a bucket of a node that
    the sweep settles. *)
Lemma explore_forward_untouched (fuel : nat) (r nt : N) (B : SearchSpaceWithBuckets)
    (i : nat) :
  forall Q T,
  (forall n, In n (queue Q) -> WasInserted Q n = true) ->
  (forall n c w, recorded B n c w ->
     WasInserted (settle_loop g true (StallAtNode g true) fuel Q) n = true -> cell r nt c <> i) ->
  snd (explore_forward g fuel r nt Q B T) !! i = T !! i.
Proof.
  induction fuel as [|fuel IH]; intros Q T HQ Hun; cbn [explore_forward]; [reflexivity|].
  cbn [settle_loop] in Hun.
  destruct (Empty Q) eqn:He; [reflexivity|].
  rewrite ForwardRoutingStep_settle.
  rewrite IH; [|apply settle_queue, HQ|exact Hun].
  destruct (B !! Min Q) as [bs|] eqn:HB; [|reflexivity].
  apply fold_update_cell_other. intros [c w] Hb Hc. cbn in Hc.
  apply (Hun (Min Q) c w); [exists bs; auto| |congruence].
  apply settle_loop_inserted, settle_inserted, HQ, Min_in, He.
Qed.

Lemma row_index_wrap (start : N) (j : nat) :
  (start < 4294967296)%N ->
  row_index start j = wrap32 (start + N.of_nat j).
Proof.
  revert start. induction j as [|j IH]; intros start Hs; cbn [row_index].
  - unfold wrap32. rewrite N.add_0_r, N.mod_small; [reflexivity|exact Hs].
  - rewrite IH by (unfold wrap32; apply N.mod_upper_bound; discriminate).
    unfold wrap32. rewrite Nnat.Nat2N.inj_succ.
    rewrite N.Div0.add_mod_idemp_l. f_equal. lia.
Qed.

Lemma search_sources_untouched (nt : N) (B : SearchSpaceWithBuckets) (i : nat)
    (ps : list PhantomNode) :
  forall r T,
  (forall j p n c w,
     ps !! j = Some p -> recorded B n c w ->
     WasInserted
       (settle_loop g true (StallAtNode g true) (search_fuel g) (seed_source p)) n = true ->
     cell (row_index r j) nt c <> i) ->
  search_sources g r nt ps B T !! i = T !! i.
Proof.
  induction ps as [|p ps IH]; intros r T Hun; cbn [search_sources]; [reflexivity|].
  rewrite IH.
  - unfold search_source_phantom. apply explore_forward_untouched.
    + intros n Hn. now apply seeded_seed_source.
    + intros n c w. apply (Hun 0%nat p n c w). reflexivity.
  - intros j p' n c w Hj. apply (Hun (Datatypes.S j) p' n c w). exact Hj.
Qed.

Lemma selected_all (ps : list PhantomNode) :
  selected ps (seq 0 (length ps)) = selected ps [] /\
  number_selected ps (seq 0 (length ps)) = number_selected ps [].
Proof.
  destruct ps as [|p ps]; [split; reflexivity|].
  split; [|cbn; now rewrite length_seq].
  cbn [selected length seq].
  change (map (fun index => default invalid_phantom ((p :: ps) !! index))
            (seq 0 (length (p :: ps))) = p :: ps).
  generalize (p :: ps). intros l.
  assert (forall pre, map (fun index => default invalid_phantom ((pre ++ l) !! index))
                        (seq (length pre) (length l)) = l) as H.
  { induction l as [|x l IH]; intros pre; [reflexivity|].
    cbn [length seq map]. rewrite list_lookup_middle by reflexivity. cbn. f_equal.
    specialize (IH (pre ++ [x])). rewrite <- app_assoc, length_app in IH. cbn in IH.
    rewrite Nat.add_1_r in IH. exact IH. }
  apply (H []).
Qed.


End TableFacts.

Section TableScenario.
Import Typedefs StaticGraph QueryHeap ManyToMany.

(** The 3x3 table of the specification: A, B, C in a line, A-B = 5 and
    B-C = 5, contracted with B on top. *)
Example table_3x3 :
  many_to_many line_graph [phantom_at 0; phantom_at 1; phantom_at 2] [] [] =
  [0; 5; 10; 5; 0; 5; 10; 5; 0].
Proof. vm_compute. reflexivity. Qed.

(** A target behind the source on the same segment: the sum of the two keys
    is [-7 + 3 < 0], and the loop of weight 20 makes it 16; without a loop
    the cell keeps the maximal weight. *)
Example same_segment_loop :
  search_target_phantom loop_graph 0 (phantom_on 0 3) ∅ !! 0%N =
    Some [{| target_id := 0; bucket_distance := 3 |}] /\
  GetLoopWeight loop_graph 0 = 20 /\
  many_to_many loop_graph [phantom_on 0 7; phantom_on 0 3] [0%nat] [1%nat] = [16] /\
  GetLoopWeight isolated_graph 0 = INVALID_EDGE_WEIGHT /\
  many_to_many isolated_graph [phantom_on 0 7; phantom_on 0 3] [0%nat] [1%nat] = [INT_MAX].
Proof. repeat split; vm_compute; reflexivity. Qed.

End TableScenario.

Section GuidanceFacts.
Import Typedefs Guidance.
Context {toolkit : Toolkit}.

(** *** In-place updates keep the number of steps *)

Lemma length_update_step (steps : list RouteStep) (i : nat) (f : RouteStep -> RouteStep) :
  length (update_step steps i f) = length steps.
Proof. apply length_insert. Qed.

Lemma length_invalidate (steps : list RouteStep) (i : nat) :
  length (invalidate steps i) = length steps.
Proof. apply length_update_step. Qed.

Lemma fold_left_length {A B : Type} (f : list A -> B -> list A) (l : list B) :
  (forall st i, length (f st i) = length st) ->
  forall st, length (fold_left f l st) = length st.
Proof.
  intros Hf. induction l as [|i l IH]; intros st; cbn [fold_left]; [reflexivity|].
  now rewrite IH, Hf.
Qed.

Ltac split_ifs :=
  repeat match goal with
         | |- context [if ?c then _ else _] => destruct c
         end.

Ltac lengths :=
  repeat (rewrite length_update_step || rewrite length_invalidate); try reflexivity.

Lemma length_collapseTurnAt (steps : list RouteStep) (two_back one_back step_index : nat) :
  length (collapseTurnAt steps two_back one_back step_index) = length steps.
Proof. unfold collapseTurnAt. cbv zeta. split_ifs; lengths. Qed.

Lemma length_collapse_at (steps : list RouteStep) (step_index : nat) :
  length (collapse_at steps step_index) = length steps.
Proof.
  unfold collapse_at. cbv zeta.
  split_ifs; lengths; try apply length_collapseTurnAt.
  apply fold_left_length. intros st i. lengths.
Qed.

Lemma length_collapseTurns_in_place (steps : list RouteStep) :
  length (collapseTurns_in_place steps) = length steps.
Proof.
  unfold collapseTurns_in_place, handle_final_sliproad.
  split_ifs; lengths; apply fold_left_length, length_collapse_at.
Qed.









(** *** The sweep *)

Lemma not_is_valid_spec (step : RouteStep) :
  not_is_valid step = true <->
  instruction (maneuver step) = NO_TURN /\ waypoint_type (maneuver step) = None'.
Proof.
  unfold not_is_valid, TurnInstruction_eqb.
  rewrite !andb_true_iff, !bool_decide_eq_true.
  destruct (instruction (maneuver step)) as [t d]. cbn.
  split.
  - intros [[-> ->] Hw]. auto.
  - intros [[= -> ->] Hw]. auto.
Qed.



Lemma removeNoTurnInstructions_idempotent (steps : list RouteStep) :
  removeNoTurnInstructions (removeNoTurnInstructions steps) =
  removeNoTurnInstructions steps.
Proof.
  unfold removeNoTurnInstructions. induction steps as [|s steps IH]; [reflexivity|].
  cbn. destruct (not_is_valid s) eqn:Hs; cbn; [exact IH|].
  rewrite Hs. cbn. now rewrite IH.
Qed.

Lemma removeNoTurnInstructions_length (steps : list RouteStep) :
  (length (removeNoTurnInstructions steps) <= length steps)%nat.
Proof. apply List.filter_length_le. Qed.








(** C10: [postProcess] returns a list of exactly two steps unchanged, and
    [collapseTurns] returns a list of at most two steps unchanged. *)
Theorem short_legs_unchanged (steps : list RouteStep) :
  (length steps = 2%nat -> postProcess steps = steps) /\
  ((length steps <= 2)%nat -> collapseTurns steps = steps).
Proof.
  split; intros H.
  - unfold postProcess. now rewrite H.
  - unfold collapseTurns. apply Nat.leb_le in H. now rewrite H.
Qed.

(** *** Geometry *)

Lemma removelast_length {A : Type} (l : list A) :
  length (removelast l) = (length l - 1)%nat.
Proof.
  induction l as [|x [|y l] IH]; [reflexivity|reflexivity|].
  change (removelast (x :: y :: l)) with (x :: removelast (y :: l)).
  cbn [length] in *. rewrite IH. lia.
Qed.

Lemma removelast_lookup {A : Type} (l : list A) (i : nat) :
  (Datatypes.S i < length l)%nat -> removelast l !! i = l !! i.
Proof.
  revert i. induction l as [|x [|y l] IH]; intros i Hi; [cbn in Hi; lia|cbn in Hi; lia|].
  change (removelast (x :: y :: l)) with (x :: removelast (y :: l)).
  destruct i as [|i]; [reflexivity|]. cbn [lookup list_lookup].
  apply IH. cbn [length] in *. lia.
Qed.

Lemma lookup_map {A B : Type} (f : A -> B) (l : list A) (i : nat) (x : A) :
  l !! i = Some x -> map f l !! i = Some (f x).
Proof.
  revert i. induction l as [|y l IH]; intros i H; [discriminate|].
  destruct i as [|i]; cbn in *; [congruence|auto].
Qed.

(** C5, as stated, fails: for the four steps of [oscillation_leg] the
    rebuilt geometry has four offsets, not five, and its first interval has
    size 1 where the first step covers [geometry_end - geometry_begin = 2]
    locations. *)
Lemma resync_offsets_differ_from_claim :
  let geometry := resyncGeometry no_geometry oscillation_leg in
  (length (segment_offsets geometry) - 1)%nat <> length oscillation_leg /\
  exists a b step,
    segment_offsets geometry !! 0%nat = Some a /\
    segment_offsets geometry !! 1%nat = Some b /\
    oscillation_leg !! 0%nat = Some step /\
    Z.of_N b - Z.of_N a <> geometry_span step.
Proof.
  split; [vm_compute; discriminate|].
  eexists _, _, _. repeat split; try reflexivity. vm_compute. discriminate.
Qed.

Lemma wrap64_small (n : Z) : 0 <= n < 18446744073709551616 -> wrap64 n = Z.to_N n.
Proof. intros H. unfold wrap64. now rewrite Z.mod_small. Qed.

Lemma chained_lookup (steps : list RouteStep) (i : nat) (a b : RouteStep) :
  chained steps = true -> steps !! i = Some a -> steps !! Datatypes.S i = Some b ->
  geometry_end a = wrap64 (Z.of_N (geometry_begin b) + 1).
Proof.
  revert i. induction steps as [|x [|y l] IH]; intros i Hc Ha Hb.
  - discriminate.
  - destruct i; discriminate.
  - cbn [chained] in Hc. apply andb_true_iff in Hc as [Hxy Hc].
    destruct i as [|i].
    + cbn in Ha, Hb. injection Ha as <-. injection Hb as <-. now apply N.eqb_eq.
    + apply (IH i); assumption.
Qed.

(** C5 (amended): the rebuilt geometry has one offset per step, that is one
    interval for every step but the arriving one, whose data is removed
    again; the offsets start at 0 and the offset after step [i] is
    [steps[i].geometry_end - 1]; the distances are those of all steps but
    the last.  When the first step begins at location 0 and every step
    begins at the location before the end of its predecessor, the interval
    of step [i] has size [geometry_end - geometry_begin - 1]. *)
Theorem resyncGeometry_spec (leg_geometry : LegGeometry) (steps : list RouteStep) :
  steps <> [] ->
  let geometry := resyncGeometry leg_geometry steps in
  length (segment_offsets geometry) = length steps /\
  length (segment_distances geometry) = (length steps - 1)%nat /\
  segment_offsets geometry !! 0%nat = Some 0%N /\
  (forall i step,
     (Datatypes.S i < length steps)%nat -> steps !! i = Some step ->
     segment_offsets geometry !! Datatypes.S i =
       Some (wrap64 (Z.of_N (geometry_end step) - 1)) /\
     segment_distances geometry !! i = Some (distance step)) /\
  (geometry_begin (step_at steps 0) = 0%N ->
   chained steps = true ->
   forallb covers steps = true ->
   forall i step a b,
     (Datatypes.S i < length steps)%nat -> steps !! i = Some step ->
     segment_offsets geometry !! i = Some a ->
     segment_offsets geometry !! Datatypes.S i = Some b ->
     Z.of_N a = Z.of_N (geometry_begin step) /\
     Z.of_N b - Z.of_N a = geometry_span step - 1).
Proof.
  intros Hne geometry.
  set (ends := map (fun step => wrap64 (Z.of_N (geometry_end step) - 1)) steps).
  assert (length ends = length steps) as Hends by apply length_map.
  assert (0 < length steps)%nat as Hpos by (destruct steps; [contradiction|cbn; lia]).
  assert (forall i step, (Datatypes.S i < length steps)%nat -> steps !! i = Some step ->
            segment_offsets geometry !! Datatypes.S i =
              Some (wrap64 (Z.of_N (geometry_end step) - 1))) as Hoff.
  { intros i step Hi Hs. cbn [geometry resyncGeometry segment_offsets]. fold ends.
    rewrite removelast_lookup by (cbn [length]; lia).
    cbn [lookup list_lookup]. unfold ends.
    now apply (lookup_map (fun step => wrap64 (Z.of_N (geometry_end step) - 1))). }
  split; [|split; [|split; [|split]]].
  - cbn [geometry resyncGeometry segment_offsets]. fold ends.
    rewrite removelast_length. cbn [length]. lia.
  - cbn [geometry resyncGeometry segment_distances].
    now rewrite removelast_length, length_map.
  - cbn [geometry resyncGeometry segment_offsets]. fold ends.
    rewrite removelast_lookup by (cbn [length]; lia). reflexivity.
  - intros i step Hi Hs. split; [now apply Hoff|].
    cbn [geometry resyncGeometry segment_distances].
    rewrite removelast_lookup by (rewrite length_map; lia).
    now apply (lookup_map distance).
  - intros Hzero Hchain Hcov i step a b Hi Hs Ha Hb.
    assert (forall s, In s steps ->
              (geometry_begin s < geometry_end s)%N /\
              (geometry_end s < 18446744073709551616)%N) as Hc.
    { intros s Hin. rewrite forallb_forall in Hcov. specialize (Hcov s Hin).
      unfold covers in Hcov. rewrite andb_true_iff, !N.ltb_lt in Hcov. exact Hcov. }
    destruct (Hc step) as [Hlt Hmax];
      [apply list_elem_of_In; eapply list_elem_of_lookup_2; eassumption|].
    rewrite (Hoff i step Hi Hs) in Hb. injection Hb as <-.
    rewrite wrap64_small by lia.
    assert (Z.of_N a = Z.of_N (geometry_begin step)) as Hbegin.
    { destruct i as [|i].
      - cbn [geometry resyncGeometry segment_offsets] in Ha. fold ends in Ha.
        rewrite removelast_lookup in Ha by (cbn [length]; lia).
        injection Ha as <-. unfold step_at in Hzero. rewrite Hs in Hzero.
        cbn in Hzero. now rewrite Hzero.
      - destruct (lookup_lt_is_Some_2 steps i) as [prev Hprev]; [lia|].
        rewrite (Hoff i prev) in Ha by (assumption || lia). injection Ha as <-.
        rewrite (chained_lookup steps i prev step Hchain Hprev Hs).
        rewrite (wrap64_small (Z.of_N (geometry_begin step) + 1)) by lia.
        rewrite Z2N.id by lia. rewrite wrap64_small by lia. lia. }
    split; [exact Hbegin|]. unfold geometry_span. lia.
Qed.

(** *** Running the collapse stage twice *)

Lemma collapseTurns_four (steps : list RouteStep) :
  length steps = 4%nat ->
  collapseTurns steps =
  removeNoTurnInstructions (handle_final_sliproad (collapse_at (collapse_at steps 1) 2)).
Proof.
  intros H. unfold collapseTurns, collapseTurns_in_place. rewrite H. reflexivity.
Qed.

(** On [oscillation_leg] the first run of [collapseTurns] only promotes the
    final Sliproad to a Turn; the second run then finds the name oscillation
    Main Street - Bridge - Main Street and folds both name changes into the
    departure.  This holds with any helpers that announce the change
    between the two names and do not announce a change from Main Street to
    Main Street. *)
Lemma collapseTurns_oscillation :
  requiresNameAnnounced "Main Street" "" "Bridge" "" = true ->
  requiresNameAnnounced "Bridge" "" "Main Street" "" = true ->
  requiresNameAnnounced "Main Street" "" "Main Street" "" = false ->
  collapseTurns oscillation_leg = promoted_leg /\
  collapseTurns promoted_leg = folded_leg /\
  length promoted_leg = 4%nat /\ length folded_leg = 2%nat.
Proof.
  intros H1 H2 H3. vm_compute in H1, H2, H3.
  assert (collapse_at oscillation_leg 1 = oscillation_leg) as A1
    by (vm_compute; rewrite H1; vm_compute; reflexivity).
  assert (collapse_at oscillation_leg 2 = oscillation_leg) as A2
    by (vm_compute; reflexivity).
  assert (collapse_at promoted_leg 1 = promoted_leg) as B1
    by (vm_compute; rewrite H1; vm_compute; reflexivity).
  assert (collapse_at promoted_leg 2 =
          invalidate
            (invalidate
               (update_step promoted_leg 0
                  (fun _ => elongate (elongate (step_at promoted_leg 0)
                                        (step_at promoted_leg 1))
                              (step_at promoted_leg 2))) 1) 2) as B2
    by (vm_compute; rewrite H2; vm_compute; rewrite H3; vm_compute; reflexivity).
  split; [|split; [|split; reflexivity]].
  - rewrite collapseTurns_four by reflexivity. rewrite A1, A2. vm_compute. reflexivity.
  - rewrite collapseTurns_four by reflexivity. rewrite B1, B2. vm_compute. reflexivity.
Qed.

(** C3 (amended): a second run of the collapse stage never has more steps
    than the first, and it returns the output of the first run unchanged
    whenever that output has at most two steps, in particular on every
    input of at most two steps; the closing sweep is idempotent, so the
    output of a run on more than two steps holds no step that a sweep would
    remove. *)
Theorem collapseTurns_second_run (steps : list RouteStep) :
  (length (collapseTurns (collapseTurns steps)) <= length (collapseTurns steps))%nat /\
  (length (collapseTurns steps) <= length steps)%nat /\
  ((length (collapseTurns steps) <= 2)%nat ->
     collapseTurns (collapseTurns steps) = collapseTurns steps) /\
  ((length steps <= 2)%nat ->
     collapseTurns (collapseTurns steps) = collapseTurns steps) /\
  removeNoTurnInstructions (removeNoTurnInstructions steps) =
    removeNoTurnInstructions steps /\
  ((2 < length steps)%nat ->
     removeNoTurnInstructions (collapseTurns steps) = collapseTurns steps).
Proof.
  assert (forall l, length (collapseTurns l) <= length l)%nat as Hle.
  { intros l. unfold collapseTurns. destruct (Nat.leb (length l) 2); [lia|].
    etransitivity; [apply removeNoTurnInstructions_length|].
    now rewrite length_collapseTurns_in_place. }
  split; [apply Hle|]. split; [apply Hle|]. split; [|split; [|split]].
  - intros H. now apply short_legs_unchanged.
  - intros H. apply short_legs_unchanged. specialize (Hle steps). lia.
  - apply removeNoTurnInstructions_idempotent.
  - intros H. unfold collapseTurns. apply Nat.leb_gt in H. rewrite H.
    apply removeNoTurnInstructions_idempotent.
Qed.

End GuidanceFacts.

Section GuidanceScenarios.
Import Typedefs Guidance.
#[local] Existing Instance reference_toolkit.

(** C3, as stated, fails: [oscillation_leg] is a list of steps as step
    assembly produces them, and running [collapseTurns] on the output of
    [collapseTurns] does not give that output again: the first run returns
    four steps, the second two. *)
Lemma collapseTurns_is_not_idempotent :
  assembled oscillation_leg = true /\
  length (collapseTurns oscillation_leg) = 4%nat /\
  length (collapseTurns (collapseTurns oscillation_leg)) = 2%nat /\
  collapseTurns (collapseTurns oscillation_leg) <> collapseTurns oscillation_leg.
Proof.
  split; [vm_compute; reflexivity|]. split; [vm_compute; reflexivity|].
  split; [vm_compute; reflexivity|].
  intros H. apply (f_equal (@length RouteStep)) in H. vm_compute in H. discriminate H.
Qed.

(** The theorem at the output of the second run on [oscillation_leg]. *)
Lemma collapseTurns_second_run_witness :
  (length (collapseTurns (collapseTurns oscillation_leg)) <= 2)%nat /\
  collapseTurns (collapseTurns (collapseTurns oscillation_leg)) =
    collapseTurns (collapseTurns oscillation_leg).
Proof.
  split; [vm_compute; lia|].
  destruct (collapseTurns_second_run (collapseTurns oscillation_leg)) as (_ & _ & H & _).
  apply H. vm_compute. lia.
Defined.

(** The theorem at [direct_leg]. *)
Lemma short_legs_unchanged_witness :
  length direct_leg = 2%nat /\
  postProcess direct_leg = direct_leg /\ collapseTurns direct_leg = direct_leg.
Proof.
  split; [reflexivity|].
  destruct (short_legs_unchanged direct_leg) as [H1 H2].
  split; [apply H1; reflexivity|apply H2; cbn; lia].
Defined.

(** The theorem at [oscillation_leg]: four offsets for four steps, and
    intervals of size [geometry_end - geometry_begin - 1]. *)
Lemma resyncGeometry_spec_witness :
  oscillation_leg <> [] /\
  geometry_begin (step_at oscillation_leg 0) = 0%N /\
  chained oscillation_leg = true /\
  forallb covers oscillation_leg = true /\
  length (segment_offsets (resyncGeometry no_geometry oscillation_leg)) =
    length oscillation_leg /\
  forall i step a b,
    (Datatypes.S i < length oscillation_leg)%nat -> oscillation_leg !! i = Some step ->
    segment_offsets (resyncGeometry no_geometry oscillation_leg) !! i = Some a ->
    segment_offsets (resyncGeometry no_geometry oscillation_leg) !! Datatypes.S i = Some b ->
    Z.of_N a = Z.of_N (geometry_begin step) /\
    Z.of_N b - Z.of_N a = geometry_span step - 1.
Proof.
  assert (oscillation_leg <> []) as Hne by discriminate.
  split; [exact Hne|]. split; [reflexivity|]. split; [reflexivity|].
  split; [reflexivity|].
  destruct (resyncGeometry_spec no_geometry oscillation_leg Hne) as (H1 & _ & _ & _ & H5).
  split; [exact H1|]. apply H5; reflexivity.
Defined.

(** The passes of a leg in order, on [oscillation_leg]: nothing is on a
    roundabout, the collapse stage promotes the slip road, and the rebuilt
    geometry has one interval per step but the last. *)
Example oscillation_leg_passes :
  map type_of (postProcess oscillation_leg) = [NoTurn; NewName; Sliproad; NoTurn] /\
  map type_of (collapseTurns (postProcess oscillation_leg)) =
    [NoTurn; NewName; Turn; NoTurn] /\
  segment_offsets (resyncGeometry no_geometry oscillation_leg) = [0; 1; 2; 3]%N.
Proof. repeat split; vm_compute; reflexivity. Qed.

End GuidanceScenarios.

Section TableBounds.
Import Typedefs StaticGraph QueryHeap ManyToMany SweepInvariant TableEntries.
Variable g : Graph.

Lemma update_cell_offered (r nt n : N) (k : Z) (T : list Z) (b : NodeBucket) :
  update_cell g r nt n k T b =
  match offered g n k (bucket_distance b) with
  | Some v =>
      <[cell r nt (target_id b) := Z.min (entry T (cell r nt (target_id b))) v]> T
  | Datatypes.None => T
  end.
Proof.
  unfold update_cell, offered, entry.
  destruct (Z.ltb_spec (k + bucket_distance b) 0) as [Hneg|Hpos].
  - destruct (negb _ && _); reflexivity.
  - destruct (Z.ltb_spec (k + bucket_distance b)
                (default 0 (T !! cell r nt (target_id b)))) as [Hlt|Hge].
    + f_equal. lia.
    + rewrite Z.min_l by lia.
      destruct (T !! cell r nt (target_id b)) as [x|] eqn:Hx; cbn.
      * symmetry. apply list_insert_id. exact Hx.
      * symmetry. apply list_insert_ge. now apply lookup_ge_None.
Qed.

Lemma offered_nonneg (n : N) (k w v : Z) : offered g n k w = Some v -> 0 <= v.
Proof.
  unfold offered. destruct (Z.ltb_spec (k + w) 0).
  - destruct (negb _) ; cbn; [|discriminate].
    destruct (Z.leb_spec 0 (k + w + GetLoopWeight g n)); [|discriminate].
    intros [= <-]. assumption.
  - intros [= <-]. assumption.
Qed.

Lemma entry_update_cell (r nt n : N) (k : Z) (T : list Z) (b : NodeBucket) (i : nat) :
  (i < length T)%nat ->
  entry (update_cell g r nt n k T b) i =
  match offered g n k (bucket_distance b) with
  | Some v => if decide (cell r nt (target_id b) = i) then Z.min (entry T i) v else entry T i
  | Datatypes.None => entry T i
  end.
Proof.
  intros Hi. rewrite update_cell_offered.
  destruct (offered g n k (bucket_distance b)) as [v|]; [|reflexivity].
  unfold entry. destruct (decide (cell r nt (target_id b) = i)) as [->|Hne].
  - now rewrite list_lookup_insert_eq by exact Hi.
  - now rewrite list_lookup_insert_ne by exact Hne.
Qed.

Lemma update_cell_in_range (r nt n : N) (k : Z) (T : list Z) (b : NodeBucket) :
  Forall in_range T -> Forall in_range (update_cell g r nt n k T b).
Proof.
  intros HT. rewrite update_cell_offered.
  destruct (offered g n k (bucket_distance b)) as [v|] eqn:Hv; [|exact HT].
  pose proof (offered_nonneg _ _ _ _ Hv) as Hpos.
  set (i := cell r nt (target_id b)).
  destruct (T !! i) as [x|] eqn:Hx.
  - apply Forall_insert; [exact HT|].
    unfold entry. rewrite Hx. cbn.
    pose proof (Forall_lookup_1 _ _ _ _ HT Hx) as Hr. unfold in_range in *. lia.
  - rewrite list_insert_ge; [exact HT|]. now apply lookup_ge_None.
Qed.

(** The walk over the bucket list of a settled node, at one cell. *)
Lemma fold_update_cell_entry (r nt n : N) (k : Z) (i : nat) (bs : list NodeBucket) :
  forall T, (i < length T)%nat ->
  let T' := fold_left (update_cell g r nt n k) bs T in
  entry T' i <= entry T i /\
  (forall b v, In b bs -> cell r nt (target_id b) = i ->
     offered g n k (bucket_distance b) = Some v -> entry T' i <= v) /\
  (entry T' i = entry T i \/
   exists b v, In b bs /\ cell r nt (target_id b) = i /\
     offered g n k (bucket_distance b) = Some v /\ entry T' i = v).
Proof.
  induction bs as [|b bs IH]; intros T Hi; cbn [fold_left].
  - cbn. split; [lia|]. split; [intros ? ? []|now left].
  - destruct (IH (update_cell g r nt n k T b)) as (Hle & Hub & Hat);
      [now rewrite update_cell_length|].
    cbn zeta in *. rewrite entry_update_cell in Hle, Hat by exact Hi.
    set (T' := fold_left (update_cell g r nt n k) bs (update_cell g r nt n k T b)) in *.
    split; [|split].
    + destruct (offered g n k (bucket_distance b)); [|exact Hle].
      destruct (decide _); lia.
    + intros b' v [<-|Hb'] Hc Hv.
      * rewrite Hv in Hle. rewrite decide_True in Hle by exact Hc. lia.
      * eapply Hub; eassumption.
    + destruct Hat as [Heq|(b' & v & Hb' & Hc & Hv & Heq)].
      * destruct (offered g n k (bucket_distance b)) as [v|] eqn:Hv; [|now left].
        destruct (decide (cell r nt (target_id b) = i)) as [Hc|Hc]; [|now left].
        destruct (Z.min_spec (entry T i) v) as [[_ Hm]|[_ Hm]]; rewrite Hm in Heq.
        -- now left.
        -- right. exists b, v. split; [now left|]. auto.
      * right. exists b', v. split; [now right|]. auto.
Qed.

Lemma fold_update_cell_in_range (r nt n : N) (k : Z) (bs : list NodeBucket) :
  forall T, Forall in_range T -> Forall in_range (fold_left (update_cell g r nt n k) bs T).
Proof.
  induction bs as [|b bs IH]; intros T HT; cbn [fold_left]; [exact HT|].
  apply IH, update_cell_in_range, HT.
Qed.

Lemma explore_forward_in_range (fuel : nat) (r nt : N) (B : SearchSpaceWithBuckets) :
  forall Q T, Forall in_range T -> Forall in_range (snd (explore_forward g fuel r nt Q B T)).
Proof.
  induction fuel as [|fuel IH]; intros Q T HT; cbn [explore_forward]; [exact HT|].
  destruct (Empty Q); [exact HT|].
  rewrite ForwardRoutingStep_settle. apply IH.
  destruct (B !! Min Q); [|exact HT]. now apply fold_update_cell_in_range.
Qed.

Lemma search_sources_in_range (nt : N) (B : SearchSpaceWithBuckets) (ps : list PhantomNode) :
  forall r T, Forall in_range T -> Forall in_range (search_sources g r nt ps B T).
Proof.
  induction ps as [|p ps IH]; intros r T HT; cbn [search_sources]; [exact HT|].
  apply IH. unfold search_source_phantom. now apply explore_forward_in_range.
Qed.

(** X1: The table never holds a negative weight, and never more than the
    maximum it is initialised with. *)
Theorem table_entries_in_range (ps : list PhantomNode)
    (source_indices target_indices : list nat) :
  Forall (fun weight => 0 <= weight <= INT_MAX)
    (many_to_many g ps source_indices target_indices).
Proof.
  unfold many_to_many. apply (search_sources_in_range _ _ _ _ _).
  apply Forall_replicate. unfold in_range, INT_MAX. lia.
Qed.

End TableBounds.

Section SettledOnce.
Import Typedefs StaticGraph QueryHeap ManyToMany SweepInvariant TableEntries.
Variable g : Graph.

Lemma remove_first_NoDup (n : N) (l : list N) :
  NoDup l -> NoDup (remove_first n l) /\ ~ In n (remove_first n l).
Proof.
  induction 1 as [|x l Hx Hl IH]; cbn [remove_first]; [split; [constructor|intros []]|].
  destruct (N.eqb_spec x n) as [->|Hne].
  - split; [exact Hl|]. now rewrite <- list_elem_of_In.
  - destruct IH as [IH1 IH2]. split.
    + constructor; [|exact IH1]. rewrite list_elem_of_In. intros Hin.
      apply Hx, list_elem_of_In. eapply remove_first_incl. exact Hin.
    + intros [E|Hin]; [congruence|contradiction].
Qed.

Lemma relax_edge_fresh (fwd : bool) (m : N) (k : Z) (Q : t) (e : N) (S : N -> Prop) :
  fresh_queue Q S -> fresh_queue (relax_edge g fwd m k Q e) S.
Proof.
  intros (Hnd & Hq & HS).
  destruct (relax_edge_cases g fwd m k Q e) as
    [[Hf ->]|[(Hf & Hi & ->)|[(Hf & Hi & Hlt & ->)|(Hf & Hi & Hle & ->)]]];
    try (split; [exact Hnd|split; [exact Hq|exact HS]]).
  - set (to := GetTarget g e) in *.
    assert (~ In to (queue Q)) as Hnq by (intros H; apply Hq in H; congruence).
    split; [|split].
    + cbn [queue Insert]. apply NoDup_app. split; [exact Hnd|]. split.
      * intros x Hx Hx'. apply list_elem_of_In in Hx. apply list_elem_of_In in Hx'.
        destruct Hx' as [<-|[]]. contradiction.
      * apply NoDup_singleton.
    + intros n. cbn [queue Insert]. rewrite in_app_iff, WasInserted_Insert.
      intros [Hn|[<-|[]]]; [rewrite (Hq _ Hn); apply orb_true_r|now rewrite N.eqb_refl].
    + intros n Hn. destruct (HS n Hn) as [Hin Hnot]. split.
      * rewrite WasInserted_Insert, Hin. apply orb_true_r.
      * cbn [queue Insert]. rewrite in_app_iff. intros [H|[<-|[]]]; [contradiction|congruence].
  - split; [now rewrite queue_lower|]. split.
    + intros n. rewrite queue_lower, WasInserted_lower. apply Hq.
    + intros n Hn. rewrite queue_lower, WasInserted_lower. apply HS, Hn.
Qed.

Lemma settle_fresh (stalled : N -> Z -> t -> bool) (fwd : bool) (Q : t) (S : N -> Prop) :
  fresh_queue Q S -> Empty Q = false ->
  fresh_queue (settle_with g stalled fwd Q) (fun n => S n \/ n = Min Q) /\ ~ S (Min Q).
Proof.
  intros (Hnd & Hq & HS) He. pose proof (Min_in Q He) as Hmin.
  split; [|intros H; apply HS in H as [_ H]; contradiction].
  rewrite settle_unfold.
  assert (fresh_queue (snd (DeleteMin Q)) (fun n => S n \/ n = Min Q)) as H1.
  { destruct (remove_first_NoDup (Min Q) (queue Q) Hnd) as [H1 H2].
    split; [exact H1|]. split.
    - intros n Hn. apply Hq. eapply remove_first_incl. exact Hn.
    - intros n [Hn| ->].
      + destruct (HS n Hn) as [Hi Hnot]. split; [exact Hi|].
        intros Hin. apply Hnot. eapply remove_first_incl. exact Hin.
      + split; [apply Hq, Hmin|exact H2]. }
  destruct (stalled (Min Q) _ _); [exact H1|].
  unfold RelaxOutgoingEdges. revert H1. generalize (snd (DeleteMin Q)).
  induction (GetAdjacentEdgeRange g (Min Q)) as [|e es IH]; intros Q1 H1;
    cbn [fold_left]; [exact H1|].
  apply IH, relax_edge_fresh, H1.
Qed.

Lemma fresh_seed_target (p : PhantomNode) :
  distinct_segments p -> fresh_queue (seed_target p) (fun _ => False).
Proof.
  intros Hd. split; [|split; [intros n Hn; now apply seeded_seed_target|intros n []]].
  unfold seed_target, distinct_segments in *.
  destruct (enabled (forward_segment_id p)), (enabled (reverse_segment_id p)); cbn.
  - apply NoDup_cons. split; [|apply NoDup_singleton].
    rewrite list_elem_of_singleton. now apply Hd.
  - apply NoDup_singleton.
  - apply NoDup_singleton.
  - constructor.
Qed.

Lemma fresh_seed_source (p : PhantomNode) :
  distinct_segments p -> fresh_queue (seed_source p) (fun _ => False).
Proof.
  intros Hd. split; [|split; [intros n Hn; now apply seeded_seed_source|intros n []]].
  unfold seed_source, distinct_segments in *.
  destruct (enabled (forward_segment_id p)), (enabled (reverse_segment_id p)); cbn.
  - apply NoDup_cons. split; [|apply NoDup_singleton].
    rewrite list_elem_of_singleton. now apply Hd.
  - apply NoDup_singleton.
  - apply NoDup_singleton.
  - constructor.
Qed.

End SettledOnce.

Section Buckets.
Import Typedefs StaticGraph QueryHeap ManyToMany SweepInvariant TableEntries.
Variable g : Graph.
Variable stalled : N -> Z -> t -> bool.
Variable Q0 : t.
Hypothesis Hpos : positive_weights g = true.
Hypothesis stalled_mono :
  forall (Q Q' : t) (n : N) (k : Z),
    heap_le Q Q' -> stalled n k Q = true -> stalled n k Q' = true.

Lemma add_bucket_lookup (B : SearchSpaceWithBuckets) (m c : N) (k : Z) (n : N) :
  add_bucket B m c k !! n =
  if decide (n = m)
  then Some (default [] (B !! m) ++ [{| target_id := c; bucket_distance := k |}])
  else B !! n.
Proof.
  unfold add_bucket. destruct (decide (n = m)) as [->|Hne].
  - apply lookup_insert_eq.
  - apply lookup_insert_ne. congruence.
Qed.

Lemma settled_key (fwd : bool) (Q : t) (S X : N -> Prop) (fuel : nat) :
  Inv g fwd stalled Q0 Q S X -> Empty Q = false ->
  let Qf := settle_loop g fwd stalled fuel (settle_with g stalled fwd Q) in
  WasInserted Qf (Min Q) = true /\ GetKey Qf (Min Q) = GetKey Q (Min Q).
Proof.
  intros HI He Qf.
  destruct (settle_inv g fwd _ Q0 Hpos stalled_mono Q S X HI He) as (HI' & Hst & Hle).
  destruct (settle_loop_inv g fwd _ Q0 Hpos stalled_mono fuel _ _ _ HI')
    as (S' & X' & HI'' & Hst' & Hle').
  destruct (Hst' (Min Q) (or_intror eq_refl)) as [HS' Hk].
  split.
  - apply (core_settled _ _ _ _ _ _ _ _ HI''), HS'.
  - unfold Qf. rewrite Hk. apply Hst. now right.
Qed.

(** What a recording sweep leaves in the buckets: every node it settles
    gets one entry, its final key, behind the entries it had. *)
Lemma record_loop_buckets (fwd : bool) (fuel : nat) (c : N) :
  forall (Q : t) (B : SearchSpaceWithBuckets) (S X : N -> Prop),
  Inv g fwd stalled Q0 Q S X ->
  fresh_queue Q S ->
  Empty (settle_loop g fwd stalled fuel Q) = true ->
  let Qf := settle_loop g fwd stalled fuel Q in
  let B' := snd (record_loop g fwd stalled fuel c Q B) in
  (forall n, WasInserted Qf n = true -> ~ S n ->
     B' !! n = Some (default [] (B !! n) ++
                     [{| target_id := c; bucket_distance := GetKey Qf n |}])) /\
  (forall n, WasInserted Qf n = false \/ S n -> B' !! n = B !! n).
Proof.
  induction fuel as [|fuel IH]; intros Q B S X HI HF Hempty;
    cbn [record_loop settle_loop] in *.
  - cbn. split; [|reflexivity].
    intros n Hn HS. exfalso.
    destruct (core_cover _ _ _ _ _ _ _ _ HI n Hn) as [Hq|HS']; [|contradiction].
    unfold Empty in Hempty. destruct (queue Q); [destruct Hq|discriminate].
  - destruct (Empty Q) eqn:He.
    + cbn. split; [|reflexivity].
      intros n Hn HS. exfalso.
      destruct (core_cover _ _ _ _ _ _ _ _ HI n Hn) as [Hq|HS']; [|contradiction].
      unfold Empty in He. destruct (queue Q); [destruct Hq|discriminate].
    + destruct (settled_key fwd Q S X fuel HI He) as [Hmi Hmk].
      destruct (settle_inv g fwd _ Q0 Hpos stalled_mono Q S X HI He) as (HI' & _ & _).
      destruct (settle_fresh g stalled fwd Q S HF He) as [HF' HnS].
      destruct (IH _ (add_bucket B (Min Q) c (GetKey Q (Min Q))) _ _ HI' HF' Hempty)
        as [IH1 IH2].
      cbn zeta in *. split.
      * intros n Hn HS. destruct (N.eq_dec n (Min Q)) as [->|Hne].
        -- rewrite IH2 by (right; now right).
           rewrite add_bucket_lookup, decide_True by reflexivity. now rewrite Hmk.
        -- rewrite IH1; [|exact Hn|intros [H|H]; contradiction].
           now rewrite add_bucket_lookup, decide_False by exact Hne.
      * intros n Hn. rewrite IH2.
        -- rewrite add_bucket_lookup, decide_False; [reflexivity|].
           intros ->. destruct Hn as [Hn|Hn]; [congruence|contradiction].
        -- destruct Hn as [Hn|Hn]; [now left|right; now left].
Qed.

(** The same at the level of entries, whatever the queue starts with. *)
Lemma record_loop_recorded (fwd : bool) (fuel : nat) (c : N) :
  forall (Q : t) (B : SearchSpaceWithBuckets) (S X : N -> Prop),
  Inv g fwd stalled Q0 Q S X ->
  Empty (settle_loop g fwd stalled fuel Q) = true ->
  let Qf := settle_loop g fwd stalled fuel Q in
  let B' := snd (record_loop g fwd stalled fuel c Q B) in
  (forall n c' w, recorded B n c' w -> recorded B' n c' w) /\
  (forall n, WasInserted Qf n = true -> ~ S n -> recorded B' n c (GetKey Qf n)) /\
  (forall n c' w, recorded B' n c' w ->
     recorded B n c' w \/ (c' = c /\ WasInserted Qf n = true /\ w = GetKey Qf n)).
Proof.
  induction fuel as [|fuel IH]; intros Q B S X HI Hempty;
    cbn [record_loop settle_loop] in *.
  - cbn. split; [auto|]. split; [|auto].
    intros n Hn HS. exfalso.
    destruct (core_cover _ _ _ _ _ _ _ _ HI n Hn) as [Hq|HS']; [|contradiction].
    unfold Empty in Hempty. destruct (queue Q); [destruct Hq|discriminate].
  - destruct (Empty Q) eqn:He.
    + cbn. split; [auto|]. split; [|auto].
      intros n Hn HS. exfalso.
      destruct (core_cover _ _ _ _ _ _ _ _ HI n Hn) as [Hq|HS']; [|contradiction].
      unfold Empty in He. destruct (queue Q); [destruct Hq|discriminate].
    + destruct (settled_key fwd Q S X fuel HI He) as [Hmi Hmk].
      destruct (settle_inv g fwd _ Q0 Hpos stalled_mono Q S X HI He) as (HI' & _ & _).
      destruct (IH _ (add_bucket B (Min Q) c (GetKey Q (Min Q))) _ _ HI' Hempty)
        as (IH1 & IH2 & IH3).
      cbn zeta in *. split; [|split].
      * intros n c' w Hr. apply IH1, recorded_add_bucket. now left.
      * intros n Hn HS. destruct (N.eq_dec n (Min Q)) as [->|Hne].
        -- apply IH1, recorded_add_bucket. right. rewrite Hmk. auto.
        -- apply IH2; [exact Hn|]. intros [H|H]; contradiction.
      * intros n c' w Hr. destruct (IH3 n c' w Hr) as [Hr'|Hr']; [|now right].
        apply recorded_add_bucket in Hr' as [Hr'|(-> & -> & ->)]; [now left|right].
        rewrite Hmk. auto.
Qed.

End Buckets.

Section SweepCells.
Import Typedefs StaticGraph QueryHeap ManyToMany SweepInvariant TableEntries.
Variable g : Graph.
Hypothesis Hpos : positive_weights g = true.

Lemma explore_forward_cell (Q0 : t) (fuel : nat) (r nt : N) (B : SearchSpaceWithBuckets)
    (i : nat) :
  forall (Q : t) (T : list Z) (S X : N -> Prop),
  Inv g true (StallAtNode g true) Q0 Q S X ->
  (i < length T)%nat ->
  Empty (settle_loop g true (StallAtNode g true) fuel Q) = true ->
  let Qf := settle_loop g true (StallAtNode g true) fuel Q in
  let T' := snd (explore_forward g fuel r nt Q B T) in
  entry T' i <= entry T i /\
  (forall n c w v,
     recorded B n c w -> cell r nt c = i -> WasInserted Qf n = true -> ~ S n ->
     offered g n (GetKey Qf n) w = Some v -> entry T' i <= v) /\
  (entry T' i = entry T i \/
   exists n c w v,
     recorded B n c w /\ cell r nt c = i /\ WasInserted Qf n = true /\
     offered g n (GetKey Qf n) w = Some v /\ entry T' i = v).
Proof.
  induction fuel as [|fuel IH]; intros Q T S X HI Hi Hempty;
    cbn [explore_forward settle_loop] in *.
  - cbn. split; [lia|]. split; [|now left].
    intros n c w v _ _ Hn HS _. exfalso.
    destruct (core_cover _ _ _ _ _ _ _ _ HI n Hn) as [Hq|HS']; [|contradiction].
    unfold Empty in Hempty. destruct (queue Q); [destruct Hq|discriminate].
  - destruct (Empty Q) eqn:He.
    + cbn. split; [lia|]. split; [|now left].
      intros n c w v _ _ Hn HS _. exfalso.
      destruct (core_cover _ _ _ _ _ _ _ _ HI n Hn) as [Hq|HS']; [|contradiction].
      unfold Empty in He. destruct (queue Q); [destruct Hq|discriminate].
    + rewrite ForwardRoutingStep_settle.
      destruct (settled_key g (StallAtNode g true) Q0 Hpos (StallAtNode_mono g true) true
                  Q S X fuel HI He) as [Hmi Hmk].
      change (settle_with g (StallAtNode g true) true Q) with (settle g true Q) in *.
      destruct (settle_inv g true _ Q0 Hpos (StallAtNode_mono g true) Q S X HI He)
        as (HI' & _ & _).
      set (m := Min Q) in *. set (k := GetKey Q m) in *.
      set (T1 := match B !! m with
                 | Some bucket_list => fold_left (update_cell g r nt m k) bucket_list T
                 | Datatypes.None => T
                 end).
      assert (length T1 = length T) as Hlen.
      { unfold T1. destruct (B !! m); [apply fold_update_cell_length|reflexivity]. }
      destruct (IH (settle g true Q) T1 _ _ HI') as (Hle & Hub & Hat);
        [lia|exact Hempty|].
      cbn zeta in *.
      set (Qf := settle_loop g true (StallAtNode g true) fuel (settle g true Q)) in *.
      set (T' := snd (explore_forward g fuel r nt (settle g true Q) B T1)) in *.
      assert (entry T1 i <= entry T i /\
              (forall c w v, recorded B m c w -> cell r nt c = i ->
                 offered g m k w = Some v -> entry T1 i <= v) /\
              (entry T1 i = entry T i \/
               exists c w v, recorded B m c w /\ cell r nt c = i /\
                 offered g m k w = Some v /\ entry T1 i = v)) as (Hle1 & Hub1 & Hat1).
      { unfold T1. destruct (B !! m) as [bs|] eqn:HB.
        - destruct (fold_update_cell_entry g r nt m k i bs T Hi) as (H1 & H2 & H3).
          split; [exact H1|]. split.
          + intros c w v (bs' & Hbs' & Hin) Hc Hv. rewrite HB in Hbs'.
            injection Hbs' as <-. apply (H2 _ v Hin); assumption.
          + destruct H3 as [H3|([c w] & v & Hin & Hc & Hv & Heq)]; [now left|right].
            exists c, w, v. split; [exists bs; auto|auto].
        - split; [lia|]. split; [|now left].
          intros c w v (bs' & Hbs' & _). rewrite HB in Hbs'. discriminate. }
      split; [lia|]. split.
      * intros n c w v Hr Hc Hn HS Hv.
        destruct (N.eq_dec n m) as [->|Hnm].
        -- rewrite Hmk in Hv. specialize (Hub1 c w v Hr Hc Hv). lia.
        -- apply (Hub n c w v Hr Hc Hn); [|exact Hv]. intros [HS'|E]; auto.
      * destruct Hat as [Heq|(n & c & w & v & Hr & Hc & Hn & Hv & Heq)].
        -- rewrite Heq. destruct Hat1 as [Heq1|(c & w & v & Hr & Hc & Hv & Heq1)];
             [now left|right].
           exists m, c, w, v. rewrite Hmk. auto.
        -- right. exists n, c, w, v. auto.
Qed.

End SweepCells.

Section BackwardSweep.
Import Typedefs StaticGraph QueryHeap ManyToMany SweepInvariant TableEntries.
Variable g : Graph.

(** X2: After the backward sweep from a target, the bucket of every node the
    sweep reached holds one more entry, behind those it had: the column of
    the target with the key the node was settled with.  All other buckets
    are as they were. *)
Theorem backward_sweep_buckets (c : N) (p : PhantomNode) (B : SearchSpaceWithBuckets)
    (n : N) :
  positive_weights g = true ->
  distinct_segments p ->
  let Qb := fst (explore_backward g (search_fuel g) c (seed_target p) B) in
  search_target_phantom g c p B !! n =
  if WasInserted Qb n
  then Some (default [] (B !! n) ++
             [{| target_id := c; bucket_distance := GetKey Qb n |}])
  else B !! n.
Proof.
  intros Hpos Hd Qb.
  pose proof (explore_backward_exhausts g c p B) as Hempty. fold Qb in Hempty.
  unfold Qb in *. unfold search_target_phantom.
  rewrite explore_backward_record in *. rewrite record_loop_heap in *.
  destruct (record_loop_buckets g (StallAtNode g false) (seed_target p) Hpos
              (StallAtNode_mono g false) false (search_fuel g) c (seed_target p) B
              (fun _ => False) (fun _ => False)
              (Inv_initial g false _ _ (seeded_seed_target p))
              (fresh_seed_target p Hd) Hempty) as [H1 H2].
  cbn zeta in *.
  destruct (WasInserted _ n) eqn:Hn.
  - apply H1; [exact Hn|tauto].
  - apply H2. now left.
Qed.

End BackwardSweep.

Section TableCells.
Import Typedefs StaticGraph QueryHeap ManyToMany SweepInvariant TableEntries.
Variable g : Graph.
Hypothesis Hpos : positive_weights g = true.

Lemma forward_heap_loop (p : PhantomNode) :
  forward_heap g p = settle_loop g true (StallAtNode g true) (search_fuel g) (seed_source p).
Proof. apply explore_forward_heap. Qed.

Lemma backward_heap_loop (p : PhantomNode) :
  backward_heap g p =
  settle_loop g false (StallAtNode g false) (search_fuel g) (seed_target p).
Proof. apply explore_backward_heap. Qed.

Lemma search_target_phantom_recorded (c : N) (p : PhantomNode)
    (B : SearchSpaceWithBuckets) (n c' : N) (w : Z) :
  recorded (search_target_phantom g c p B) n c' w <->
  recorded B n c' w \/
  (c' = c /\ WasInserted (backward_heap g p) n = true /\ w = GetKey (backward_heap g p) n).
Proof.
  pose proof (explore_backward_exhausts g c p B) as Hempty.
  rewrite explore_backward_heap in Hempty.
  destruct (record_loop_recorded g (StallAtNode g false) (seed_target p) Hpos
              (StallAtNode_mono g false) false (search_fuel g) c (seed_target p) B
              (fun _ => False) (fun _ => False)
              (Inv_initial g false _ _ (seeded_seed_target p)) Hempty)
    as (H1 & H2 & H3).
  cbn zeta in *. unfold search_target_phantom.
  rewrite explore_backward_record, backward_heap_loop. split.
  - apply H3.
  - intros [Hr|(-> & Hn & ->)]; [now apply H1|]. apply H2; [exact Hn|tauto].
Qed.

Lemma search_targets_recorded (targets : list PhantomNode) :
  forall (c0 : N) (B0 : SearchSpaceWithBuckets) (n c : N) (w : Z),
  recorded (search_targets g c0 targets B0) n c w <->
  recorded B0 n c w \/
  exists k p,
    targets !! k = Some p /\ c = row_index c0 k /\
    WasInserted (backward_heap g p) n = true /\ w = GetKey (backward_heap g p) n.
Proof.
  induction targets as [|p targets IH]; intros c0 B0 n c w; cbn [search_targets].
  - split; [now left|]. intros [H|(k & p & Hk & _)]; [exact H|discriminate].
  - rewrite IH, search_target_phantom_recorded. split.
    + intros [[H|(-> & Hn & ->)]|(k & p' & Hk & -> & Hn & ->)].
      * now left.
      * right. exists 0%nat, p. auto.
      * right. exists (Datatypes.S k), p'. auto.
    + intros [H|(k & p' & Hk & -> & Hn & ->)]; [left; now left|].
      destruct k as [|k]; cbn in Hk.
      * injection Hk as <-. left. right. auto.
      * right. exists k, p'. auto.
Qed.

Lemma search_source_phantom_cell (r nt : N) (p : PhantomNode)
    (B : SearchSpaceWithBuckets) (T : list Z) (i : nat) :
  (i < length T)%nat ->
  let E := entry (search_source_phantom g r nt p B T) i in
  E <= entry T i /\
  (forall n c w v,
     recorded B n c w -> cell r nt c = i -> WasInserted (forward_heap g p) n = true ->
     offered g n (GetKey (forward_heap g p) n) w = Some v -> E <= v) /\
  (E = entry T i \/
   exists n c w v,
     recorded B n c w /\ cell r nt c = i /\ WasInserted (forward_heap g p) n = true /\
     offered g n (GetKey (forward_heap g p) n) w = Some v /\ E = v).
Proof.
  intros Hi. pose proof (explore_forward_exhausts g r nt p B T) as Hempty.
  rewrite explore_forward_heap in Hempty.
  destruct (explore_forward_cell g Hpos (seed_source p) (search_fuel g) r nt B i
              (seed_source p) T (fun _ => False) (fun _ => False)
              (Inv_initial g true _ _ (seeded_seed_source p)) Hi Hempty)
    as (H1 & H2 & H3).
  cbn zeta in *. rewrite forward_heap_loop. unfold search_source_phantom.
  split; [exact H1|]. split; [|exact H3].
  intros n c w v Hr Hc Hn Hv. apply (H2 n c w v Hr Hc Hn); [tauto|exact Hv].
Qed.

Lemma search_source_phantom_length (r nt : N) (p : PhantomNode)
    (B : SearchSpaceWithBuckets) (T : list Z) :
  length (search_source_phantom g r nt p B T) = length T.
Proof. apply explore_forward_length. Qed.

(** The cell of row [j] after all the forward sweeps: only the sweep of
    row [j] writes to it. *)
Lemma search_sources_cell (nt : N) (B : SearchSpaceWithBuckets) (i : nat)
    (sources : list PhantomNode) :
  forall (r : N) (T : list Z) (j : nat) (p : PhantomNode),
  sources !! j = Some p ->
  (i < length T)%nat ->
  (forall j' n c w, j' <> j -> (j' < length sources)%nat -> recorded B n c w ->
     cell (row_index r j') nt c <> i) ->
  let E := entry (search_sources g r nt sources B T) i in
  E <= entry T i /\
  (forall n c w v,
     recorded B n c w -> cell (row_index r j) nt c = i ->
     WasInserted (forward_heap g p) n = true ->
     offered g n (GetKey (forward_heap g p) n) w = Some v -> E <= v) /\
  (E = entry T i \/
   exists n c w v,
     recorded B n c w /\ cell (row_index r j) nt c = i /\
     WasInserted (forward_heap g p) n = true /\
     offered g n (GetKey (forward_heap g p) n) w = Some v /\ E = v).
Proof.
  induction sources as [|p0 sources IH]; intros r T j p Hj Hi Hother; [discriminate|].
  cbn [search_sources]. destruct j as [|j]; cbn in Hj.
  - injection Hj as ->. cbn [row_index].
    assert (search_sources g (wrap32 (r + 1)) nt sources B
              (search_source_phantom g r nt p B T) !! i =
            search_source_phantom g r nt p B T !! i) as Hrest.
    { apply search_sources_untouched. intros j' p' n c w Hj' Hr _.
      apply (Hother (Datatypes.S j') n c w); [lia| |exact Hr].
      cbn. apply lookup_lt_Some in Hj'. lia. }
    assert (entry (search_sources g (wrap32 (r + 1)) nt sources B
                     (search_source_phantom g r nt p B T)) i =
            entry (search_source_phantom g r nt p B T) i) as Heq
      by (unfold entry; now rewrite Hrest).
    cbn zeta. rewrite Heq.
    apply (search_source_phantom_cell r nt p B T i Hi).
  - assert (search_source_phantom g r nt p0 B T !! i = T !! i) as Hfirst.
    { unfold search_source_phantom. apply explore_forward_untouched.
      - intros n Hn. now apply seeded_seed_source.
      - intros n c w Hr _. apply (Hother 0%nat n c w); [lia|cbn; lia|exact Hr]. }
    destruct (IH (wrap32 (r + 1)) (search_source_phantom g r nt p0 B T) j p Hj)
      as (H1 & H2 & H3).
    + now rewrite search_source_phantom_length.
    + intros j' n c w Hne Hlt Hr.
      apply (Hother (Datatypes.S j') n c w); [lia|cbn; lia|exact Hr].
    + assert (entry (search_source_phantom g r nt p0 B T) i = entry T i) as Heq
        by (unfold entry; now rewrite Hfirst).
      cbn zeta in *. cbn [row_index]. rewrite Heq in H1, H3.
      split; [exact H1|]. split; [exact H2|exact H3].
Qed.

End TableCells.

Section TableTheorem.
Import Typedefs StaticGraph QueryHeap ManyToMany SweepInvariant TableEntries.
Variable g : Graph.

Lemma length_selected (ps : list PhantomNode) (indices : list nat) :
  length (selected ps indices) = number_selected ps indices.
Proof. destruct indices; [reflexivity|]. cbn [selected number_selected]. apply length_map. Qed.

Lemma row_index_small (j : nat) :
  (N.of_nat j < 4294967296)%N -> row_index 0 j = N.of_nat j.
Proof.
  intros Hj. rewrite row_index_wrap by reflexivity. unfold wrap32.
  rewrite N.add_0_l. apply N.mod_small. lia.
Qed.

Lemma cell_small (j nt k : nat) :
  (N.of_nat (j * nt + k) < 4294967296)%N ->
  cell (N.of_nat j) (N.of_nat nt) (N.of_nat k) = (j * nt + k)%nat.
Proof.
  intros H. unfold cell, wrap32. rewrite N.mod_small by lia. lia.
Qed.

Lemma many_to_many_cell (ps : list PhantomNode)
    (source_indices target_indices : list nat) (j k : nat) (source target : PhantomNode) :
  positive_weights g = true ->
  let sources := selected ps source_indices in
  let targets := selected ps target_indices in
  (N.of_nat (length sources * length targets) < 4294967296)%N ->
  sources !! j = Some source ->
  targets !! k = Some target ->
  let Qf := forward_heap g source in
  let Qb := backward_heap g target in
  let E := entry (many_to_many g ps source_indices target_indices)
             (j * length targets + k) in
  (forall n v,
     WasInserted Qf n = true -> WasInserted Qb n = true ->
     offered g n (GetKey Qf n) (GetKey Qb n) = Some v -> E <= v) /\
  (E = INT_MAX \/
   exists n v,
     WasInserted Qf n = true /\ WasInserted Qb n = true /\
     offered g n (GetKey Qf n) (GetKey Qb n) = Some v /\ E = v).
Proof.
  intros Hpos sources targets Hsize Hj Hk Qf Qb E.
  pose proof (lookup_lt_Some _ _ _ Hj) as Hjlt.
  pose proof (lookup_lt_Some _ _ _ Hk) as Hklt.
  set (ns := length sources) in *. set (nt := length targets) in *.
  set (B := search_targets g 0 targets ∅).
  set (T0 := replicate (ns * nt) INT_MAX).
  assert (many_to_many g ps source_indices target_indices =
          search_sources g 0 (N.of_nat nt) sources B T0) as Hmm.
  { unfold many_to_many. rewrite <- !length_selected. fold sources targets ns nt B T0.
    f_equal. unfold wrap32. apply N.mod_small. nia. }
  assert (forall n c w, recorded B n c w <->
            exists k' p, targets !! k' = Some p /\ c = N.of_nat k' /\
              WasInserted (backward_heap g p) n = true /\
              w = GetKey (backward_heap g p) n) as HB.
  { intros n c w. unfold B. rewrite (search_targets_recorded g Hpos). split.
    - intros [(l & Hl & _)|(k' & p & Hk' & -> & H)]; [discriminate|].
      exists k', p. split; [exact Hk'|]. split; [|exact H].
      apply row_index_small. apply lookup_lt_Some in Hk'. fold nt in Hk'. nia.
    - intros (k' & p & Hk' & -> & H). right. exists k', p.
      split; [exact Hk'|]. split; [|exact H].
      symmetry. apply row_index_small. apply lookup_lt_Some in Hk'. fold nt in Hk'. nia. }
  assert (forall j' n c w, (j' < ns)%nat -> recorded B n c w ->
            exists k', (k' < nt)%nat /\ c = N.of_nat k' /\
              cell (row_index 0 j') (N.of_nat nt) c = (j' * nt + k')%nat) as Hcell.
  { intros j' n c w Hj' Hr. apply HB in Hr as (k' & p & Hk' & -> & _).
    apply lookup_lt_Some in Hk'. fold nt in Hk'.
    exists k'. split; [exact Hk'|]. split; [reflexivity|].
    rewrite row_index_small by nia. apply cell_small. nia. }
  assert (entry T0 (j * nt + k) = INT_MAX) as HT0.
  { unfold entry, T0. rewrite lookup_replicate_2 by nia. reflexivity. }
  destruct (search_sources_cell g Hpos (N.of_nat nt) B (j * nt + k) sources 0 T0 j source Hj)
    as (H1 & H2 & H3).
  { unfold T0. rewrite length_replicate. nia. }
  { intros j' n c w Hne Hlt Hr.
    destruct (Hcell j' n c w Hlt Hr) as (k' & Hk' & _ & ->). nia. }
  cbn zeta in *. unfold E. rewrite Hmm. fold Qf in H2, H3. split.
  - intros n v Hnf Hnb Hv.
    apply (H2 n (N.of_nat k) (GetKey Qb n) v); [| |exact Hnf|exact Hv].
    + apply HB. exists k, target. auto.
    + rewrite row_index_small by nia. apply cell_small. nia.
  - destruct H3 as [H3|(n & c & w & v & Hr & Hc & Hnf & Hv & Heq)].
    + left. now rewrite H3.
    + right. destruct (Hcell j n c w Hjlt Hr) as (k' & Hk' & -> & Hc').
      rewrite Hc' in Hc. assert (k' = k) as -> by nia.
      apply HB in Hr as (k'' & p & Hk'' & Hkk & Hnb & ->).
      apply Nat2N.inj in Hkk. subst k''. rewrite Hk in Hk''.
      injection Hk'' as <-. exists n, v. auto.
Qed.

(** X3: The entry of the table for a source and a target is the least weight
    that the two sweeps offer at a node both have reached, and the maximal
    weight when they offer none. *)
Theorem table_entry_is_least_offer (ps : list PhantomNode)
    (source_indices target_indices : list nat) (j k : nat) (source target : PhantomNode) :
  positive_weights g = true ->
  let sources := selected ps source_indices in
  let targets := selected ps target_indices in
  (N.of_nat (length sources * length targets) < 4294967296)%N ->
  sources !! j = Some source ->
  targets !! k = Some target ->
  let Qf := forward_heap g source in
  let Qb := backward_heap g target in
  let E := entry (many_to_many g ps source_indices target_indices)
             (j * length targets + k) in
  (forall n v,
     WasInserted Qf n = true -> WasInserted Qb n = true ->
     offered g n (GetKey Qf n) (GetKey Qb n) = Some v -> E <= v) /\
  (E = INT_MAX \/
   exists n v,
     WasInserted Qf n = true /\ WasInserted Qb n = true /\
     offered g n (GetKey Qf n) (GetKey Qb n) = Some v /\ E = v).
Proof.
  intros Hpos sources targets Hsize Hj Hk Qf Qb E.
  destruct (many_to_many_cell ps source_indices target_indices j k source target
              Hpos Hsize Hj Hk) as [Hbound Hattained].
  split; [exact Hbound|exact Hattained].
Qed.

Lemma single_seed_key (fwd : bool) (Q0 : t) (s : N) :
  positive_weights g = true ->
  seeded Q0 -> queue Q0 = [s] ->
  let Qf := settle_loop g fwd (StallAtNode g fwd) (search_fuel g) Q0 in
  WasInserted Qf s = true /\ GetKey Qf s = GetKey Q0 s.
Proof.
  intros Hpos Hseeded Hq. unfold search_fuel. cbn [Nat.add settle_loop].
  assert (Empty Q0 = false) as He by (unfold Empty; now rewrite Hq).
  assert (Min Q0 = s) as Hmin by (unfold Min; now rewrite Hq).
  rewrite He.
  destruct (settled_key g (StallAtNode g fwd) Q0 Hpos (StallAtNode_mono g fwd) fwd Q0
              (fun _ => False) (fun _ => False)
              (Datatypes.S (length (edge_array g)))
              (Inv_initial g fwd _ Q0 Hseeded) He) as [H1 H2].
  rewrite Hmin in H1, H2. split; assumption.
Qed.

(** X4: The way from a phantom with one enabled segment to itself has weight 0. *)
Theorem table_diagonal_is_zero (ps : list PhantomNode)
    (source_indices target_indices : list nat) (j k : nat) (phantom : PhantomNode) :
  positive_weights g = true ->
  let sources := selected ps source_indices in
  let targets := selected ps target_indices in
  (N.of_nat (length sources * length targets) < 4294967296)%N ->
  sources !! j = Some phantom ->
  targets !! k = Some phantom ->
  xorb (enabled (forward_segment_id phantom)) (enabled (reverse_segment_id phantom)) = true ->
  many_to_many g ps source_indices target_indices !! (j * length targets + k)%nat = Some 0.
Proof.
  intros Hpos sources targets Hsize Hj Hk Hone.
  destruct (many_to_many_cell ps source_indices target_indices j k phantom phantom
              Hpos Hsize Hj Hk) as [Hbound _].
  cbn zeta in Hbound. fold sources targets in Hbound.
  set (i := (j * length targets + k)%nat) in *.
  set (T := many_to_many g ps source_indices target_indices) in *.
  assert (exists s w,
            queue (seed_source phantom) = [s] /\ GetKey (seed_source phantom) s = - w /\
            queue (seed_target phantom) = [s] /\ GetKey (seed_target phantom) s = w)
    as (s & w & Hqs & Hks & Hqt & Hkt).
  { unfold seed_source, seed_target.
    destruct (enabled (forward_segment_id phantom)),
      (enabled (reverse_segment_id phantom)); try discriminate Hone.
    - exists (seg_id (forward_segment_id phantom)), (GetForwardWeightPlusOffset phantom).
      rewrite !GetKey_Insert, !N.eqb_refl. auto.
    - exists (seg_id (reverse_segment_id phantom)), (GetReverseWeightPlusOffset phantom).
      rewrite !GetKey_Insert, !N.eqb_refl. auto. }
  destruct (single_seed_key true _ s Hpos (seeded_seed_source phantom) Hqs) as [Hif Hkf].
  destruct (single_seed_key false _ s Hpos (seeded_seed_target phantom) Hqt) as [Hib Hkb].
  cbn zeta in *. rewrite <- forward_heap_loop in Hif, Hkf.
  rewrite <- backward_heap_loop in Hib, Hkb.
  assert (entry T i <= 0) as Hle.
  { apply (Hbound s 0 Hif Hib). rewrite Hkf, Hkb, Hks, Hkt. unfold offered.
    replace (- w + w) with 0 by lia. reflexivity. }
  assert (i < length T)%nat as Hi.
  { unfold T, many_to_many. rewrite search_sources_length, length_replicate.
    rewrite <- !length_selected. fold sources targets.
    apply lookup_lt_Some in Hj, Hk. unfold i. nia. }
  destruct (lookup_lt_is_Some_2 T i Hi) as [x Hx]. rewrite Hx. f_equal.
  assert (in_range x) as Hr.
  { eapply Forall_lookup_1; [|exact Hx]. unfold T, many_to_many.
    apply search_sources_in_range, Forall_replicate. unfold in_range, INT_MAX. lia. }
  unfold entry in Hle. rewrite Hx in Hle. cbn in Hle. unfold in_range in Hr. lia.
Qed.

End TableTheorem.

Section TableWitnesses.
Import Typedefs StaticGraph QueryHeap ManyToMany SweepInvariant TableEntries.

(** The theorem at [stall_graph]: node 3 is reached with key 105. *)
Lemma backward_sweep_buckets_witness :
  positive_weights stall_graph = true /\
  distinct_segments stall_target /\
  search_target_phantom stall_graph 0 stall_target ∅ !! 3%N =
    Some [{| target_id := 0; bucket_distance := 105 |}].
Proof.
  assert (distinct_segments stall_target) as Hd by (intros _ H; discriminate H).
  split; [reflexivity|]. split; [exact Hd|].
  etransitivity;
    [apply (backward_sweep_buckets stall_graph 0 stall_target ∅ 3 eq_refl Hd)|].
  vm_compute. reflexivity.
Defined.

(** The theorem at [line_graph], from A to C. *)
Lemma table_entry_is_least_offer_witness :
  let g := line_graph in
  let ps := [phantom_at 0; phantom_at 1; phantom_at 2] in
  positive_weights g = true /\
  (N.of_nat (length (selected ps []) * length (selected ps [])) < 4294967296)%N /\
  selected ps [] !! 0%nat = Some (phantom_at 0) /\
  selected ps [] !! 2%nat = Some (phantom_at 2) /\
  let Qf := forward_heap g (phantom_at 0) in
  let Qb := backward_heap g (phantom_at 2) in
  let E := entry (many_to_many g ps [] []) 2 in
  (forall n v,
     WasInserted Qf n = true -> WasInserted Qb n = true ->
     offered g n (GetKey Qf n) (GetKey Qb n) = Some v -> E <= v) /\
  (E = INT_MAX \/
   exists n v,
     WasInserted Qf n = true /\ WasInserted Qb n = true /\
     offered g n (GetKey Qf n) (GetKey Qb n) = Some v /\ E = v).
Proof.
  intros g ps. split; [reflexivity|]. split; [vm_compute; reflexivity|].
  split; [reflexivity|]. split; [reflexivity|].
  apply (table_entry_is_least_offer g ps [] [] 0 2 (phantom_at 0) (phantom_at 2));
    [reflexivity|vm_compute; reflexivity|reflexivity|reflexivity].
Defined.

(** The theorem at [line_graph], for the phantom on B. *)
Lemma table_diagonal_is_zero_witness :
  let g := line_graph in
  let ps := [phantom_at 0; phantom_on 1 4; phantom_at 2] in
  positive_weights g = true /\
  (N.of_nat (length (selected ps []) * length (selected ps [])) < 4294967296)%N /\
  selected ps [] !! 1%nat = Some (phantom_on 1 4) /\
  xorb (enabled (forward_segment_id (phantom_on 1 4)))
       (enabled (reverse_segment_id (phantom_on 1 4))) = true /\
  many_to_many g ps [] [] !! 4%nat = Some 0.
Proof.
  intros g ps. split; [reflexivity|]. split; [vm_compute; reflexivity|].
  split; [reflexivity|]. split; [reflexivity|].
  apply (table_diagonal_is_zero g ps [] [] 1 1 (phantom_on 1 4));
    [reflexivity|vm_compute; reflexivity|reflexivity|reflexivity|reflexivity].
Defined.

End TableWitnesses.

Section ForwardSweep.
Import Typedefs StaticGraph QueryHeap ManyToMany SweepInvariant TableEntries.
Variable g : Graph.






End ForwardSweep.

Section TableSelection.
Import Typedefs StaticGraph QueryHeap ManyToMany SweepInvariant TableEntries.
Variable g : Graph.

Lemma selected_lookup (ps : list PhantomNode) (indices : list nat) (j index : nat) :
  indices !! j = Some index ->
  selected ps indices !! j = Some (default invalid_phantom (ps !! index)).
Proof.
  intros Hj. destruct indices as [|i0 indices]; [discriminate|].
  cbn [selected]. revert Hj. generalize (i0 :: indices). clear i0 indices.
  intros l. revert j. induction l as [|x l IH]; intros j Hj; [discriminate|].
  destruct j as [|j]; cbn in *.
  - now injection Hj as ->.
  - apply IH, Hj.
Qed.

(** C8: an empty list of source (target) indices makes every phantom node
    of the input a source (target), in the order of the input, and a list
    that is not empty the phantom nodes at its indices; it stands for the
    list of all indices.  Every sweep runs until its queue is empty.  The
    table has one entry for every pair of a source and a target; an entry
    that no forward sweep reaches through a bucket of a node it settles
    holds the maximal weight it was initialised with, and the entry of row
    [j] and column [k] is what the sweeps from source [j] and target [k]
    offer: the least weight at a node both have reached. *)
Theorem many_to_many_table (ps : list PhantomNode)
    (source_indices target_indices : list nat) :
  let sources := selected ps source_indices in
  let targets := selected ps target_indices in
  let table := many_to_many g ps source_indices target_indices in
  (source_indices = [] -> sources = ps) /\
  (target_indices = [] -> targets = ps) /\
  (forall j index, source_indices !! j = Some index ->
     sources !! j = Some (default invalid_phantom (ps !! index))) /\
  (forall k index, target_indices !! k = Some index ->
     targets !! k = Some (default invalid_phantom (ps !! index))) /\
  length sources = (if decide (source_indices = []) then length ps
                    else length source_indices) /\
  length targets = (if decide (target_indices = []) then length ps
                    else length target_indices) /\
  many_to_many g ps [] target_indices =
    many_to_many g ps (seq 0 (length ps)) target_indices /\
  many_to_many g ps source_indices [] =
    many_to_many g ps source_indices (seq 0 (length ps)) /\
  (forall (p : PhantomNode) (column_idx row_idx number_of_targets : N)
          (buckets : SearchSpaceWithBuckets) (T : list Z),
     Empty (fst (explore_backward g (search_fuel g) column_idx (seed_target p) buckets))
       = true /\
     Empty (fst (explore_forward g (search_fuel g) row_idx number_of_targets
                   (seed_source p) buckets T)) = true) /\
  length table = (length sources * length targets)%nat /\
  (forall i : nat,
     (i < length sources * length targets)%nat ->
     let number_of_targets := wrap32 (N.of_nat (length targets)) in
     let buckets := search_targets g 0 targets ∅ in
     (forall j p n c w,
        sources !! j = Some p ->
        recorded buckets n c w ->
        WasInserted (forward_heap g p) n = true ->
        cell (wrap32 (N.of_nat j)) number_of_targets c <> i) ->
     table !! i = Some INT_MAX) /\
  (positive_weights g = true ->
   (N.of_nat (length sources * length targets) < 4294967296)%N ->
   forall (j k : nat) (source target : PhantomNode),
     sources !! j = Some source ->
     targets !! k = Some target ->
     let Qf := forward_heap g source in
     let Qb := backward_heap g target in
     let E := entry table (j * length targets + k) in
     (forall n v,
        WasInserted Qf n = true -> WasInserted Qb n = true ->
        offered g n (GetKey Qf n) (GetKey Qb n) = Some v -> E <= v) /\
     (E = INT_MAX \/
      exists n v,
        WasInserted Qf n = true /\ WasInserted Qb n = true /\
        offered g n (GetKey Qf n) (GetKey Qb n) = Some v /\ E = v)).
Proof.
  intros sources targets table.
  destruct (selected_all ps) as [Hsel Hnum].
  split; [intros ->; reflexivity|]. split; [intros ->; reflexivity|].
  split; [intros j index; apply selected_lookup|].
  split; [intros k index; apply selected_lookup|].
  split.
  { unfold sources. rewrite length_selected.
    destruct source_indices; [reflexivity|]. now rewrite decide_False by discriminate. }
  split.
  { unfold targets. rewrite length_selected.
    destruct target_indices; [reflexivity|]. now rewrite decide_False by discriminate. }
  split; [unfold many_to_many; now rewrite Hsel, Hnum|].
  split; [unfold many_to_many; now rewrite Hsel, Hnum|].
  split.
  { intros p c r nt B T. split;
      [apply explore_backward_exhausts|apply explore_forward_exhausts]. }
  assert (length table = (length sources * length targets)%nat) as Hlen.
  { unfold table, many_to_many. rewrite search_sources_length, length_replicate.
    unfold sources, targets. now rewrite !length_selected. }
  split; [exact Hlen|]. split.
  - intros i Hi nt B Hun.
    assert (table !! i = replicate (length sources * length targets) INT_MAX !! i) as ->.
    { unfold table, many_to_many. rewrite <- !length_selected.
      fold sources targets nt B. apply search_sources_untouched.
      intros j p n c w Hj Hr Hn. rewrite row_index_wrap by reflexivity.
      rewrite N.add_0_l. apply (Hun j p n c w Hj Hr). now rewrite forward_heap_loop. }
    now apply lookup_replicate_2.
  - intros Hpos Hsize j k source target Hj Hk.
    apply (many_to_many_cell g ps source_indices target_indices j k source target
             Hpos Hsize Hj Hk).
Qed.

End TableSelection.

Section TableClaimWitnesses.
Import Typedefs StaticGraph QueryHeap ManyToMany SweepInvariant TableEntries.


(** The theorem at [line_graph], from A to C: the two sweeps meet at B. *)
Lemma many_to_many_table_witness :
  let ps := [phantom_at 0; phantom_at 1; phantom_at 2] in
  positive_weights line_graph = true /\
  (N.of_nat (length (selected ps []) * length (selected ps [])) < 4294967296)%N /\
  selected ps [] = ps /\
  entry (many_to_many line_graph ps [] []) 2 <= 10.
Proof.
  intros ps.
  destruct (many_to_many_table line_graph ps [] [])
    as (Hs & _ & _ & _ & _ & _ & _ & _ & _ & _ & _ & Hcell).
  split; [reflexivity|]. split; [vm_compute; reflexivity|].
  split; [apply Hs; reflexivity|].
  destruct (Hcell eq_refl) with (j := 0%nat) (k := 2%nat)
    (source := phantom_at 0) (target := phantom_at 2) as [Hbound _];
    [vm_compute; reflexivity|reflexivity|reflexivity|].
  apply (Hbound 1%N 10); vm_compute; reflexivity.
Defined.

End TableClaimWitnesses.

Section NodeNumbering.
Import Typedefs Exceptions ExtractionContainers.

Lemma number_nodes_nil_l (refs : list N) (i : N) (m : gmap N N) :
  number_nodes [] refs i m = (m, i).
Proof. destruct refs; reflexivity. Qed.

Lemma number_nodes_nil_r (nodes : list ExternalMemoryNode) (i : N) (m : gmap N N) :
  number_nodes nodes [] i m = (m, i).
Proof. destruct nodes; reflexivity. Qed.

Lemma number_nodes_cons (node : ExternalMemoryNode) (nodes : list ExternalMemoryNode)
    (ref : N) (refs : list N) (i : N) (m : gmap N N) :
  number_nodes (node :: nodes) (ref :: refs) i m =
  if N.ltb (node_id node) ref then number_nodes nodes (ref :: refs) i m
  else if N.ltb ref (node_id node) then number_nodes (node :: nodes) refs i m
  else number_nodes nodes refs (i + 1) (<[ref := wrap32 i]> m).
Proof. reflexivity. Qed.

Lemma used_nodes_nil_l (refs : list N) : used_nodes [] refs = [].
Proof. destruct refs; reflexivity. Qed.

Lemma used_nodes_nil_r (nodes : list ExternalMemoryNode) : used_nodes nodes [] = [].
Proof. destruct nodes; reflexivity. Qed.

Lemma used_nodes_cons (node : ExternalMemoryNode) (nodes : list ExternalMemoryNode)
    (ref : N) (refs : list N) :
  used_nodes (node :: nodes) (ref :: refs) =
  if N.ltb ref (node_id node) then used_nodes (node :: nodes) refs
  else if N.ltb (node_id node) ref then used_nodes nodes (ref :: refs)
  else node :: used_nodes nodes refs.
Proof. reflexivity. Qed.

Lemma common_ids_cons_r (nodes : list ExternalMemoryNode) (ref : N) (refs : list N) :
  common_ids nodes (ref :: refs) =
  if bool_decide (ref ∈ map node_id nodes)
  then ref :: common_ids nodes refs else common_ids nodes refs.
Proof. reflexivity. Qed.

(** A node below all the references matches none of them. *)
Lemma common_ids_skip_node (node : ExternalMemoryNode) (nodes : list ExternalMemoryNode)
    (refs : list N) :
  Forall (fun ref => (node_id node < ref)%N) refs ->
  common_ids (node :: nodes) refs = common_ids nodes refs.
Proof.
  induction 1 as [|ref refs Href _ IH]; [reflexivity|].
  rewrite !common_ids_cons_r, IH. cbn [map].
  destruct (bool_decide (ref ∈ map node_id nodes)) eqn:H1.
  - rewrite bool_decide_eq_true_2; [reflexivity|].
    apply bool_decide_eq_true in H1. now right.
  - rewrite bool_decide_eq_false_2; [reflexivity|].
    apply bool_decide_eq_false in H1. rewrite elem_of_cons. intros [E|H]; [lia|contradiction].
Qed.

Lemma sorted_nodes_tail (node : ExternalMemoryNode) (nodes : list ExternalMemoryNode) :
  StronglySorted by_id (node :: nodes) ->
  StronglySorted by_id nodes /\ Forall (fun id => (node_id node <= id)%N) (map node_id nodes).
Proof.
  intros H. apply StronglySorted_inv in H as [H1 H2]. split; [exact H1|].
  apply Forall_fmap. exact H2.
Qed.

Lemma sorted_refs_tail (ref : N) (refs : list N) :
  StronglySorted N.lt (ref :: refs) ->
  StronglySorted N.lt refs /\ Forall (fun r => (ref < r)%N) refs.
Proof. apply StronglySorted_inv. Qed.

(** On sorted lists the loop numbers the common ids in their order. *)
Lemma number_nodes_assign (nodes : list ExternalMemoryNode) :
  forall (refs : list N) (i : N) (m : gmap N N),
  StronglySorted by_id nodes ->
  StronglySorted N.lt refs ->
  number_nodes nodes refs i m = assign_ids (common_ids nodes refs) i m.
Proof.
  induction nodes as [|node nodes IHn]; intros refs i m Hn Hr.
  - rewrite number_nodes_nil_l.
    assert (common_ids [] refs = []) as ->; [|reflexivity].
    unfold common_ids. induction refs as [|r refs IH]; [reflexivity|]. cbn.
    rewrite bool_decide_eq_false_2 by apply not_elem_of_nil.
    apply IH. now apply sorted_refs_tail in Hr.
  - destruct (sorted_nodes_tail _ _ Hn) as [Hn' Hle].
    revert i m. induction refs as [|ref refs IHr]; intros i m.
    + now rewrite number_nodes_nil_r.
    + destruct (sorted_refs_tail _ _ Hr) as [Hr' Hlt].
      rewrite number_nodes_cons.
      destruct (N.ltb_spec (node_id node) ref) as [H1|H1].
      * rewrite IHn by assumption. f_equal. symmetry. apply common_ids_skip_node.
        constructor; [exact H1|]. eapply Forall_impl; [exact Hlt|]. cbn. intros; lia.
      * destruct (N.ltb_spec ref (node_id node)) as [H2|H2].
        -- rewrite IHr by assumption. rewrite common_ids_cons_r.
           rewrite bool_decide_eq_false_2; [reflexivity|].
           cbn [map]. rewrite elem_of_cons. intros [E|H]; [lia|].
           rewrite Forall_forall in Hle. apply Hle in H. lia.
        -- assert (ref = node_id node) as E by lia.
           rewrite IHn by assumption. rewrite common_ids_cons_r.
           rewrite bool_decide_eq_true_2 by (cbn [map]; rewrite E; now left).
           cbn [assign_ids]. f_equal. symmetry. apply common_ids_skip_node.
           eapply Forall_impl; [exact Hlt|]. cbn. intros; lia.
Qed.

Lemma used_nodes_ids (nodes : list ExternalMemoryNode) :
  forall refs : list N,
  StronglySorted by_id nodes ->
  StronglySorted N.lt refs ->
  map node_id (used_nodes nodes refs) = common_ids nodes refs.
Proof.
  induction nodes as [|node nodes IHn]; intros refs Hn Hr.
  - rewrite used_nodes_nil_l.
    unfold common_ids. induction refs as [|r refs IH]; [reflexivity|]. cbn.
    rewrite bool_decide_eq_false_2 by apply not_elem_of_nil.
    apply IH. now apply sorted_refs_tail in Hr.
  - destruct (sorted_nodes_tail _ _ Hn) as [Hn' Hle].
    induction refs as [|ref refs IHr].
    + now rewrite used_nodes_nil_r.
    + destruct (sorted_refs_tail _ _ Hr) as [Hr' Hlt].
      rewrite used_nodes_cons.
      destruct (N.ltb_spec ref (node_id node)) as [H2|H2].
      * rewrite IHr by assumption. rewrite common_ids_cons_r.
        rewrite bool_decide_eq_false_2; [reflexivity|].
        cbn [map]. rewrite elem_of_cons. intros [E|H]; [lia|].
        rewrite Forall_forall in Hle. apply Hle in H. lia.
      * destruct (N.ltb_spec (node_id node) ref) as [H1|H1].
        -- rewrite IHn by assumption. symmetry. apply common_ids_skip_node.
           constructor; [exact H1|]. eapply Forall_impl; [exact Hlt|]. cbn. intros; lia.
        -- assert (ref = node_id node) as E by lia.
           cbn [map]. rewrite IHn by assumption. rewrite common_ids_cons_r.
           rewrite bool_decide_eq_true_2 by (cbn [map]; rewrite E; now left).
           rewrite E. f_equal. symmetry. apply common_ids_skip_node.
           eapply Forall_impl; [exact Hlt|]. cbn. intros; lia.
Qed.

Lemma used_nodes_incl (nodes : list ExternalMemoryNode) :
  forall (refs : list N) (n : ExternalMemoryNode),
  In n (used_nodes nodes refs) -> In n nodes.
Proof.
  induction nodes as [|x nodes IHn]; intros refs n;
    [rewrite used_nodes_nil_l; intros []|].
  induction refs as [|r refs IHr]; [rewrite used_nodes_nil_r; intros []|].
  rewrite used_nodes_cons.
  destruct (N.ltb r (node_id x)); [exact IHr|].
  destruct (N.ltb (node_id x) r).
  - intros H. right. eapply IHn. exact H.
  - intros [<-|H]; [now left|right; eapply IHn; exact H].
Qed.

Lemma assign_ids_spec (ids : list N) :
  forall (i : N) (m : gmap N N),
  NoDup ids ->
  snd (assign_ids ids i m) = (i + N.of_nat (length ids))%N /\
  (forall k id, ids !! k = Some id ->
     fst (assign_ids ids i m) !! id = Some (wrap32 (i + N.of_nat k))) /\
  (forall id, id ∉ ids -> fst (assign_ids ids i m) !! id = m !! id).
Proof.
  induction ids as [|x ids IH]; intros i m Hnd; cbn [assign_ids].
  - cbn. split; [lia|]. split; [intros k id H; discriminate|reflexivity].
  - apply NoDup_cons in Hnd as [Hx Hnd].
    destruct (IH (i + 1)%N (<[x := wrap32 i]> m) Hnd) as (H1 & H2 & H3).
    split; [|split].
    + rewrite H1. cbn [length]. lia.
    + intros [|k] id Hk; cbn in Hk.
      * injection Hk as <-. rewrite H3 by exact Hx. rewrite lookup_insert_eq.
        do 2 f_equal. lia.
      * rewrite (H2 k id Hk). do 2 f_equal. lia.
    + intros id Hid. apply not_elem_of_cons in Hid as [Hne Hid].
      rewrite H3 by exact Hid. now rewrite lookup_insert_ne.
Qed.

Lemma unique_from_spec (l : list N) :
  forall previous,
  StronglySorted N.le (previous :: l) ->
  StronglySorted N.lt (previous :: unique_from previous l) /\
  (forall x, x ∈ previous :: unique_from previous l <-> x ∈ previous :: l).
Proof.
  induction l as [|y l IH]; intros previous Hs; cbn [unique_from].
  - split; [constructor; constructor|reflexivity].
  - apply StronglySorted_inv in Hs as [Hs Hall].
    apply Forall_cons in Hall as [Hpy Hall].
    destruct (N.eqb_spec y previous) as [->|Hne].
    + destruct (IH previous) as [H1 H2]; [constructor; [|exact Hall]|].
      * now apply StronglySorted_inv in Hs.
      * split; [exact H1|]. intros x. rewrite H2, !elem_of_cons. tauto.
    + destruct (IH y Hs) as [H1 H2]. split.
      * constructor; [exact H1|].
        apply StronglySorted_inv in H1 as [_ H1]. constructor; [lia|].
        eapply Forall_impl; [exact H1|]. cbn. intros; lia.
      * intros x. rewrite elem_of_cons, H2, !elem_of_cons. tauto.
Qed.

Lemma unique_spec (l : list N) :
  StronglySorted N.le l ->
  StronglySorted N.lt (unique l) /\ (forall x, x ∈ unique l <-> x ∈ l).
Proof.
  destruct l as [|x l]; [intros _; split; [constructor|reflexivity]|].
  apply unique_from_spec.
Qed.

Lemma StronglySorted_lt_NoDup (l : list N) : StronglySorted N.lt l -> NoDup l.
Proof.
  induction 1 as [|x l _ IH Hall]; [constructor|].
  constructor; [|exact IH]. intros Hin. rewrite Forall_forall in Hall.
  apply Hall in Hin. lia.
Qed.

Lemma StronglySorted_filter {A : Type} (R : A -> A -> Prop) (f : A -> bool) (l : list A) :
  StronglySorted R l -> StronglySorted R (List.filter f l).
Proof.
  induction 1 as [|x l _ IH Hall]; cbn; [constructor|].
  destruct (f x); [|exact IH]. constructor; [exact IH|].
  rewrite Forall_forall in *. intros y Hy.
  apply list_elem_of_In, filter_In in Hy as [Hy _]. apply Hall, list_elem_of_In, Hy.
Qed.

Lemma elem_of_common_ids (nodes : list ExternalMemoryNode) (refs : list N) (id : N) :
  id ∈ common_ids nodes refs <-> id ∈ refs /\ id ∈ map node_id nodes.
Proof.
  unfold common_ids. rewrite list_elem_of_In, filter_In, bool_decide_eq_true.
  now rewrite <- list_elem_of_In.
Qed.

Section WithSort.
Variable sort_ids : list N -> list N.
Variable sort_nodes : list ExternalMemoryNode -> list ExternalMemoryNode.
Hypothesis sort_ids_sorted : forall l, StronglySorted N.le (sort_ids l).
Hypothesis sort_ids_perm : forall l, sort_ids l ≡ₚ l.
Hypothesis sort_nodes_sorted : forall l, StronglySorted by_id (sort_nodes l).
Hypothesis sort_nodes_perm : forall l, sort_nodes l ≡ₚ l.

(** X5: [PrepareNodes] numbers the referenced ids for which there is a node:
    the one that is k-th in ascending order gets the internal id [k], the
    others none; the count of them is stored, and the method throws when
    that count does not fit a [NodeID]. *)
Theorem PrepareNodes_numbers_common_ids (data : NodeData) :
  external_to_internal_node_id_map data = ∅ ->
  let common :=
    common_ids (sort_nodes (all_nodes_list data))
      (unique (sort_ids (used_node_id_list data))) in
  StronglySorted N.lt common /\
  (forall id, id ∈ common <->
     id ∈ used_node_id_list data /\ id ∈ map node_id (all_nodes_list data)) /\
  match PrepareNodes sort_ids sort_nodes data with
  | Throw _ => (UINT_MAX < N.of_nat (length common))%N
  | Ok data' =>
      (N.of_nat (length common) <= UINT_MAX)%N /\
      max_internal_node_id data' = N.of_nat (length common) /\
      (forall k id, common !! k = Some id ->
         external_to_internal_node_id_map data' !! id = Some (N.of_nat k)) /\
      (forall id, id ∉ common -> external_to_internal_node_id_map data' !! id = Datatypes.None)
  end.
Proof.
  intros Hempty common.
  destruct (unique_spec _ (sort_ids_sorted (used_node_id_list data))) as [Hu1 Hu2].
  assert (StronglySorted N.lt common) as Hsorted by now apply StronglySorted_filter.
  split; [exact Hsorted|]. split.
  - intros id. unfold common. rewrite elem_of_common_ids, Hu2.
    rewrite (sort_ids_perm (used_node_id_list data)).
    now rewrite (sort_nodes_perm (all_nodes_list data)).
  - unfold PrepareNodes.
    rewrite number_nodes_assign by (auto using sort_nodes_sorted).
    fold common.
    destruct (assign_ids_spec common 0 (external_to_internal_node_id_map data)
                (StronglySorted_lt_NoDup _ Hsorted)) as (H1 & H2 & H3).
    destruct (assign_ids common 0 (external_to_internal_node_id_map data))
      as [id_map internal_id] eqn:Ha.
    cbn [fst snd] in *. rewrite N.add_0_l in H1. subst internal_id.
    destruct (N.ltb_spec UINT_MAX (N.of_nat (length common))) as [Hbig|Hfits];
      [exact Hbig|].
    split; [exact Hfits|]. split; [reflexivity|]. cbn. split.
    + intros k id Hk. rewrite (H2 k id Hk). f_equal. unfold wrap32.
      apply N.mod_small. apply lookup_lt_Some in Hk. unfold UINT_MAX in Hfits. lia.
    + intros id Hid. rewrite (H3 id Hid), Hempty. apply lookup_empty.
Qed.

(** X6: [WriteNodes] writes, behind the count of [PrepareNodes], exactly that
    many nodes, and the node written at position [k] is one whose id has
    the internal id [k]. *)
Theorem WriteNodes_follows_numbering (data data' : NodeData) :
  external_to_internal_node_id_map data = ∅ ->
  PrepareNodes sort_ids sort_nodes data = Ok data' ->
  let '(count, written) := WriteNodes data' in
  count = N.of_nat (length written) /\
  (forall k node, written !! k = Some node ->
     In node (all_nodes_list data) /\
     external_to_internal_node_id_map data' !! node_id node = Some (N.of_nat k)) /\
  (forall id, is_Some (external_to_internal_node_id_map data' !! id) ->
     id ∈ map node_id written).
Proof.
  intros Hempty Hok.
  destruct (unique_spec _ (sort_ids_sorted (used_node_id_list data))) as [Hu1 Hu2].
  pose proof (used_nodes_ids (sort_nodes (all_nodes_list data))
                (unique (sort_ids (used_node_id_list data)))
                (sort_nodes_sorted _) Hu1) as Hids.
  set (common := common_ids (sort_nodes (all_nodes_list data))
                   (unique (sort_ids (used_node_id_list data)))) in *.
  assert (StronglySorted N.lt common) as Hsorted by now apply StronglySorted_filter.
  unfold PrepareNodes in Hok.
  rewrite number_nodes_assign in Hok by (auto using sort_nodes_sorted).
  fold common in Hok.
  destruct (assign_ids_spec common 0 (external_to_internal_node_id_map data)
              (StronglySorted_lt_NoDup _ Hsorted)) as (H1 & H2 & H3).
  destruct (assign_ids common 0 (external_to_internal_node_id_map data))
    as [id_map internal_id] eqn:Ha.
  cbn [fst snd] in *. rewrite N.add_0_l in H1. subst internal_id.
  destruct (N.ltb_spec UINT_MAX (N.of_nat (length common))) as [Hbig|Hfits];
    [discriminate|].
  injection Hok as <-. unfold WriteNodes. cbn.
  set (written := used_nodes (sort_nodes (all_nodes_list data))
                    (unique (sort_ids (used_node_id_list data)))) in *.
  assert (length written = length common) as Hlen
    by (rewrite <- Hids; now rewrite length_map).
  split; [now rewrite Hlen|]. split.
  - intros k node Hk. split.
    + pose proof (list_elem_of_lookup_2 _ _ _ Hk) as Hin.
      apply list_elem_of_In, used_nodes_incl, list_elem_of_In in Hin.
      rewrite (sort_nodes_perm (all_nodes_list data)) in Hin.
      now apply list_elem_of_In.
    + assert (common !! k = Some (node_id node)) as Hc.
      { rewrite <- Hids. now apply lookup_map. }
      rewrite (H2 k _ Hc). f_equal. unfold wrap32.
      apply N.mod_small. apply lookup_lt_Some in Hc. unfold UINT_MAX in Hfits. lia.
  - intros id [v Hv]. rewrite Hids.
    destruct (decide (id ∈ common)) as [Hin|Hnot]; [exact Hin|].
    rewrite (H3 id Hnot), Hempty, lookup_empty in Hv. discriminate.
Qed.

End WithSort.

End NodeNumbering.

Section NameData.
Import Typedefs Exceptions ExtractionContainers.

Lemma written_chars_app (a b : list Written) :
  written_chars (a ++ b) = written_chars a ++ written_chars b.
Proof.
  induction a as [|[l|n|block] a IH]; cbn; [reflexivity|exact IH|exact IH|].
  now rewrite IH, app_assoc.
Qed.

Lemma write_chars_spec (data : list N) :
  forall (buffer : list N) (blocks : list Written),
  (N.of_nat (length buffer) < WRITE_BLOCK_BUFFER_SIZE)%N ->
  Forall full_block blocks ->
  let '(buffer', blocks') := write_chars data buffer blocks in
  (N.of_nat (length buffer') < WRITE_BLOCK_BUFFER_SIZE)%N /\
  Forall full_block blocks' /\
  written_chars blocks' ++ buffer' = written_chars blocks ++ buffer ++ data /\
  (N.of_nat (length blocks') * WRITE_BLOCK_BUFFER_SIZE + N.of_nat (length buffer') =
   N.of_nat (length blocks) * WRITE_BLOCK_BUFFER_SIZE + N.of_nat (length buffer)
   + N.of_nat (length data))%N.
Proof.
  induction data as [|c data IH]; intros buffer blocks Hb Hf; cbn [write_chars].
  - rewrite !app_nil_r. cbn. split; [exact Hb|]. split; [exact Hf|]. split; [reflexivity|lia].
  - cbn zeta.
    destruct (N.leb_spec WRITE_BLOCK_BUFFER_SIZE (N.of_nat (length (buffer ++ [c]))))
      as [Hfull|Hroom].
    + assert (N.of_nat (length (buffer ++ [c])) = WRITE_BLOCK_BUFFER_SIZE) as Hlen
        by (rewrite length_app in *; cbn in *; lia).
      assert (take (N.to_nat WRITE_BLOCK_BUFFER_SIZE) (buffer ++ [c]) = buffer ++ [c])
        as Htake by (apply take_ge; lia).
      rewrite Htake.
      specialize (IH [] (blocks ++ [Chars (buffer ++ [c])])).
      destruct (write_chars data [] (blocks ++ [Chars (buffer ++ [c])]))
        as [buffer' blocks'].
      destruct IH as (H1 & H2 & H3 & H4).
      * cbn. unfold WRITE_BLOCK_BUFFER_SIZE. lia.
      * apply Forall_app. split; [exact Hf|]. constructor; [exact Hlen|constructor].
      * split; [exact H1|]. split; [exact H2|]. split.
        -- rewrite H3, written_chars_app. cbn. rewrite !app_nil_r, <- !app_assoc. reflexivity.
        -- rewrite H4. rewrite !length_app in *. cbn [length] in *. lia.
    + specialize (IH (buffer ++ [c]) blocks Hroom Hf).
      destruct (write_chars data (buffer ++ [c]) blocks) as [buffer' blocks'].
      destruct IH as (H1 & H2 & H3 & H4).
      split; [exact H1|]. split; [exact H2|]. split.
      * rewrite H3, <- !app_assoc. reflexivity.
      * rewrite H4, length_app. cbn [length]. lia.
Qed.

Lemma offsets_to_lengths_spec (offsets : list N) :
  Forall (fun x => (x < 4294967296)%N) offsets ->
  StronglySorted N.le offsets ->
  offsets <> [] ->
  prefix_sums (List.hd 0%N offsets) (removelast (offsets_to_lengths offsets)) = offsets /\
  List.last (offsets_to_lengths offsets) 0%N = List.last offsets 0%N /\
  length (removelast (offsets_to_lengths offsets)) = (length offsets - 1)%nat.
Proof.
  induction offsets as [|a [|b rest] IH]; intros Hsmall Hs Hne; [contradiction| |].
  - cbn. auto.
  - apply Forall_cons in Hsmall as [Ha Hsmall].
    apply StronglySorted_inv in Hs as [Hs Hle].
    destruct (IH Hsmall Hs) as (H1 & H2 & H3); [discriminate|].
    assert (wrap32 (b + 4294967296 - a) = (b - a)%N) as Hw.
    { apply Forall_cons in Hle as [Hab _]. apply Forall_cons in Hsmall as [Hb _].
      unfold wrap32.
      replace (b + 4294967296 - a)%N with ((b - a) + 1 * 4294967296)%N by lia.
      rewrite N.Div0.mod_add. apply N.mod_small. lia. }
    change (offsets_to_lengths (a :: b :: rest))
      with (wrap32 (b + 4294967296 - a) :: offsets_to_lengths (b :: rest)).
    rewrite Hw.
    assert (offsets_to_lengths (b :: rest) <> []) as Hne'.
    { destruct rest; cbn; discriminate. }
    destruct (offsets_to_lengths (b :: rest)) as [|x l] eqn:Hl; [contradiction|].
    change (removelast ((b - a)%N :: x :: l)) with ((b - a)%N :: removelast (x :: l)).
    change (List.last ((b - a)%N :: x :: l) 0%N) with (List.last (x :: l) 0%N).
    cbn [prefix_sums List.hd length] in *.
    split; [|split].
    + f_equal. apply Forall_cons in Hle as [Hab _].
      replace (a + (b - a))%N with b by lia. exact H1.
    + exact H2.
    + rewrite H3. lia.
Qed.

(** X7: [WriteCharData] keeps the names: the lengths it writes give the offsets
    back as their running sums, the total is the last offset, and the
    blocks of characters, each of the buffer size but the last, which is
    shorter, are the character data without a loss. *)
Theorem WriteCharData_keeps_names (name_offsets name_char_data : list N) :
  name_offsets <> [] ->
  Forall (fun offset => (offset < 4294967296)%N) name_offsets ->
  StronglySorted N.le name_offsets ->
  let '(lengths, stream) := WriteCharData name_offsets name_char_data in
  prefix_sums (List.hd 0%N name_offsets) lengths = name_offsets /\
  length lengths = (length name_offsets - 1)%nat /\
  exists blocks last_block,
    stream =
      [IndexRange lengths; TotalLength (List.last name_offsets 0%N)] ++
      map Chars blocks ++ [Chars last_block] /\
    concat blocks ++ last_block = name_char_data /\
    Forall (fun block => N.of_nat (length block) = WRITE_BLOCK_BUFFER_SIZE) blocks /\
    (N.of_nat (length last_block) < WRITE_BLOCK_BUFFER_SIZE)%N.
Proof.
  intros Hne Hsmall Hsorted. unfold WriteCharData.
  destruct (offsets_to_lengths_spec name_offsets Hsmall Hsorted Hne) as (H1 & H2 & H3).
  pose proof (write_chars_spec name_char_data [] []) as Hw.
  destruct (write_chars name_char_data [] []) as [buffer blocks].
  destruct Hw as (Hb & Hf & Hc & _); [cbn; unfold WRITE_BLOCK_BUFFER_SIZE; lia|constructor|].
  split; [exact H1|]. split; [exact H3|].
  assert (exists bs, blocks = map Chars bs /\ written_chars blocks = concat bs /\
            Forall (fun block => N.of_nat (length block) = WRITE_BLOCK_BUFFER_SIZE) bs)
    as (bs & -> & Hbs & Hfull).
  { clear Hc. induction Hf as [|[l|n|block] blocks Hx _ IH]; try contradiction.
    - exists []. split; [reflexivity|]. split; [reflexivity|constructor].
    - destruct IH as (bs & -> & H4 & H5). exists (block :: bs).
      split; [reflexivity|]. split; [cbn; now rewrite H4|]. constructor; assumption. }
  exists bs, buffer. rewrite H2. split; [reflexivity|].
  split; [|split; [exact Hfull|exact Hb]].
  rewrite <- Hbs, Hc. reflexivity.
Qed.

End NameData.

Section EdgeOrder.
Import Typedefs Exceptions ExtractionContainers.

Lemma lexicographical_compare_irrefl (a : list N) : lexicographical_compare a a = false.
Proof.
  induction a as [|x a IH]; [reflexivity|]. cbn. now rewrite N.ltb_irrefl.
Qed.

Lemma lexicographical_compare_trans (a : list N) :
  forall b c,
  lexicographical_compare a b = true -> lexicographical_compare b c = true ->
  lexicographical_compare a c = true.
Proof.
  induction a as [|x a IH]; intros [|y b] [|z c]; cbn; try discriminate; try reflexivity.
  destruct (N.ltb_spec x y), (N.ltb_spec y x), (N.ltb_spec y z), (N.ltb_spec z y),
    (N.ltb_spec x z), (N.ltb_spec z x);
    try discriminate; try reflexivity; try lia.
  apply IH.
Qed.

Lemma lexicographical_compare_between (a : list N) :
  forall b c,
  lexicographical_compare a c = true ->
  lexicographical_compare a b = true \/ lexicographical_compare b c = true.
Proof.
  induction a as [|x a IH]; intros [|y b] [|z c]; cbn; try discriminate; auto.
  destruct (N.ltb_spec x y), (N.ltb_spec y x), (N.ltb_spec y z), (N.ltb_spec z y),
    (N.ltb_spec x z), (N.ltb_spec z x);
    try discriminate; auto; try lia.
Qed.

Lemma lexicographical_compare_asym (a b : list N) :
  lexicographical_compare a b = true -> lexicographical_compare b a = true -> False.
Proof.
  intros Hab Hba. pose proof (lexicographical_compare_trans _ _ _ Hab Hba) as Haa.
  now rewrite lexicographical_compare_irrefl in Haa.
Qed.

Variables name_data name_offsets : list N.

#[local] Abbreviation less := (CmpEdgeByInternalSourceTargetAndName name_data name_offsets).
#[local] Abbreviation chars := (name_chars name_data name_offsets).

Lemma less_spec (a b : Edge) :
  less a b = true <->
  (source a < source b)%N \/
  (source a = source b /\
   ((target a < target b)%N \/
    (target a = target b /\ source a <> SPECIAL_NODEID /\
     name_before name_data name_offsets (name_id a) (name_id b)))).
Proof.
  unfold CmpEdgeByInternalSourceTargetAndName, name_before.
  destruct (N.eqb_spec (source a) (source b)) as [Hs|Hs]; cbn [negb].
  - destruct (N.eqb_spec (target a) (target b)) as [Ht|Ht]; cbn [negb].
    + destruct (N.eqb_spec (source a) SPECIAL_NODEID) as [Hx|Hx];
        [split; [discriminate|intros [H|(_ & [H|(_ & H & _)])]; [lia|lia|contradiction]]|].
      destruct (N.eqb_spec (name_id a) (name_id b)) as [Hn|Hn];
        [split; [discriminate|intros [H|(_ & [H|(_ & _ & H & _)])]; [lia|lia|contradiction]]|].
      destruct (N.eqb_spec (name_id a) EMPTY_NAMEID) as [He|He];
        [split; [discriminate|
                 intros [H|(_ & [H|(_ & _ & _ & H & _)])]; [lia|lia|contradiction]]|].
      destruct (N.eqb_spec (name_id b) EMPTY_NAMEID) as [Hf|Hf].
      * split; [intros _; right; auto 10|reflexivity].
      * split.
        -- intros H. right. auto 10.
        -- intros [H|(_ & [H|(_ & _ & _ & _ & [H|H])])]; [lia|lia|contradiction|exact H].
    + rewrite N.ltb_lt. split; [intros H; right; auto|].
      intros [H|(_ & [H|(H & _)])]; [lia|exact H|contradiction].
  - rewrite N.ltb_lt. split; [auto|]. intros [H|(H & _)]; [exact H|contradiction].
Qed.

Lemma name_before_irrefl (n : N) : ~ name_before name_data name_offsets n n.
Proof. intros (H & _). contradiction. Qed.

Lemma name_before_asym (n1 n2 : N) :
  name_before name_data name_offsets n1 n2 -> ~ name_before name_data name_offsets n2 n1.
Proof.
  intros (_ & H1 & [H2|H2]) (_ & H3 & [H4|H4]); try contradiction.
  exact (lexicographical_compare_asym _ _ H2 H4).
Qed.

Lemma name_before_trans (n1 n2 n3 : N) :
  name_before name_data name_offsets n1 n2 -> name_before name_data name_offsets n2 n3 ->
  name_before name_data name_offsets n1 n3.
Proof.
  intros (Hne & H1 & [H2|H2]) (Hne' & H3 & [H4|H4]); try contradiction.
  - split; [congruence|]. split; [exact H1|now left].
  - pose proof (lexicographical_compare_trans _ _ _ H2 H4) as H.
    split; [|split; [exact H1|now right]].
    intros ->. now rewrite lexicographical_compare_irrefl in H.
Qed.

Lemma name_before_between (n1 n2 n3 : N) :
  name_before name_data name_offsets n1 n3 ->
  name_before name_data name_offsets n1 n2 \/ name_before name_data name_offsets n2 n3.
Proof.
  intros (Hne & H1 & H).
  destruct (N.eq_dec n2 EMPTY_NAMEID) as [E2|E2].
  { left. split; [congruence|]. split; [exact H1|now left]. }
  destruct (N.eq_dec n1 n2) as [<-|H12].
  { right. split; [exact Hne|]. split; [exact H1|exact H]. }
  destruct (N.eq_dec n2 n3) as [->|H23].
  { left. split; [exact H12|]. split; [exact H1|exact H]. }
  destruct H as [H|H].
  - right. split; [exact H23|]. split; [exact E2|now left].
  - destruct (lexicographical_compare_between _ (chars n2) _ H) as [H'|H'].
    + left. split; [exact H12|]. split; [exact H1|now right].
    + right. split; [exact H23|]. split; [exact E2|now right].
Qed.

(** X8: The comparator that sorts the edges is a strict weak ordering, as
    sorting requires: no edge is before itself, before is transitive, and
    an edge before another is before, or the other behind, every third
    edge. *)
Theorem CmpEdge_is_strict_weak_ordering (a b c : Edge) :
  let before := CmpEdgeByInternalSourceTargetAndName name_data name_offsets in
  before a a = false /\
  (before a b = true -> before b a = false) /\
  (before a b = true -> before b c = true -> before a c = true) /\
  (before a c = true -> before a b = true \/ before b c = true).
Proof.
  cbv zeta. split; [|split; [|split]].
  - apply not_true_is_false. rewrite less_spec.
    intros [H|(_ & [H|(_ & _ & H)])]; [lia|lia|].
    exact (name_before_irrefl _ H).
  - intros Hab. apply not_true_is_false. revert Hab. rewrite !less_spec.
    intros [H|(Hs & [H|(Ht & _ & H)])] [H'|(Hs' & [H'|(Ht' & _ & H')])]; try lia.
    exact (name_before_asym _ _ H H').
  - rewrite !less_spec.
    intros [H|(Hs & [H|(Ht & Hx & H)])] [H'|(Hs' & [H'|(Ht' & Hx' & H')])];
      try (left; lia); try (right; split; [lia|left; lia]).
    right. split; [lia|]. right. split; [lia|]. split; [exact Hx|].
    eapply name_before_trans; eassumption.
  - rewrite !less_spec. intros [H|(Hs & [H|(Ht & Hx & H)])].
    + destruct (N.lt_trichotomy (source a) (source b)) as [Hab|[Hab|Hab]];
        [left; now left|right; left; lia|right; left; lia].
    + destruct (N.lt_trichotomy (source a) (source b)) as [Hab|[Hab|Hab]];
        [left; now left| |right; left; lia].
      destruct (N.lt_trichotomy (target a) (target b)) as [Htb|[Htb|Htb]].
      * left. right. auto.
      * right. right. split; [lia|]. left. lia.
      * right. right. split; [lia|]. left. lia.
    + destruct (N.lt_trichotomy (source a) (source b)) as [Hab|[Hab|Hab]];
        [left; now left| |right; left; lia].
      destruct (N.lt_trichotomy (target a) (target b)) as [Htb|[Htb|Htb]].
      * left. right. auto.
      * destruct (name_before_between _ (name_id b) _ H) as [H'|H'].
        -- left. right. split; [exact Hab|]. right. auto.
        -- right. right. split; [lia|]. right. split; [lia|]. split; [congruence|exact H'].
      * right. right. split; [lia|]. left. lia.
Qed.

End EdgeOrder.

Section EdgeFile.
Import Typedefs Exceptions ExtractionContainers.

Lemma fold_write_edge (edges : list Edge) :
  forall (stream : list Item) (counter : N),
  fold_left write_edge edges (stream, counter) =
  (stream ++ map (fun e => EdgeRecord (base e)) (List.filter is_used edges),
   (counter + N.of_nat (length (List.filter is_used edges)))%N).
Proof.
  induction edges as [|e edges IH]; intros stream counter; cbn [fold_left List.filter].
  - cbn. rewrite app_nil_r. f_equal. lia.
  - assert (Hstep : write_edge (stream, counter) e =
      if is_used e then (stream ++ [EdgeRecord (base e)], (counter + 1)%N)
      else (stream, counter)).
    { unfold write_edge, is_used.
      now destruct (N.eqb (source e) SPECIAL_NODEID || N.eqb (target e) SPECIAL_NODEID). }
    rewrite Hstep. destruct (is_used e).
    + rewrite IH. cbn [map length]. rewrite <- app_assoc. f_equal. lia.
    + apply IH.
Qed.

(** X9: [WriteEdges] writes the edges that have both ends, in their order, and
    none else; when it returns, the count it has put in front of them is
    their number, and it throws, with the count left at 0, exactly when
    that number does not fit 32 bits. *)
Theorem WriteEdges_counts_used_edges (stream : list Item) (all_edges_list : list Edge) :
  let used := List.filter is_used all_edges_list in
  let records := map (fun e => EdgeRecord (base e)) used in
  match WriteEdges stream all_edges_list with
  | (stream', Ok _) =>
      (N.of_nat (length used) <= UINT_MAX)%N /\
      stream' = stream ++ [Count (N.of_nat (length used))] ++ records
  | (stream', Throw _) =>
      (UINT_MAX < N.of_nat (length used))%N /\
      stream' = stream ++ [Count 0%N] ++ records
  end.
Proof.
  intros used records. unfold WriteEdges. rewrite fold_write_edge. fold used records.
  rewrite N.add_0_l.
  destruct (N.ltb_spec UINT_MAX (N.of_nat (length used))) as [Hbig|Hfits].
  - split; [exact Hbig|]. now rewrite <- app_assoc.
  - split; [exact Hfits|].
    rewrite <- app_assoc. rewrite insert_app_r_alt by lia.
    rewrite Nat.sub_diag. cbn. do 3 f_equal. unfold wrap32. apply N.mod_small.
    unfold UINT_MAX in Hfits. lia.
Qed.

End EdgeFile.

Section ExtractionWitnesses.
Import Typedefs Exceptions ExtractionContainers.

Lemma by_id_trans : Transitive by_id.
Proof. intros a b c. unfold by_id. lia. Qed.

Lemma by_id_total : Total by_id.
Proof. intros a b. unfold by_id. lia. Qed.

Lemma sort_ids_sorted (l : list N) : StronglySorted N.le (sort_ids l).
Proof. apply (StronglySorted_merge_sort N.le). Qed.

Lemma sort_ids_perm (l : list N) : sort_ids l ≡ₚ l.
Proof. apply merge_sort_Permutation. Qed.

Lemma sort_nodes_sorted (l : list ExternalMemoryNode) : StronglySorted by_id (sort_nodes l).
Proof.
  pose proof by_id_trans. pose proof by_id_total.
  apply (StronglySorted_merge_sort by_id).
Qed.

Lemma sort_nodes_perm (l : list ExternalMemoryNode) : sort_nodes l ≡ₚ l.
Proof. apply merge_sort_Permutation. Qed.

(** The theorem with merge sort for [stxxl::sort]: the ids 5, 3, 9, 3 are
    referenced, and there are nodes 7, 1, 5 and 3. *)
Lemma PrepareNodes_numbers_common_ids_witness :
  let data := {| used_node_id_list := [5; 3; 9; 3]%N;
                 all_nodes_list := map (fun id => {| node_id := id; lat := 0; lon := 0 |})
                                     [7; 1; 5; 3]%N;
                 external_to_internal_node_id_map := ∅;
                 max_internal_node_id := 0%N |} in
  let common :=
    common_ids (sort_nodes (all_nodes_list data))
      (unique (sort_ids (used_node_id_list data))) in
  common = [3; 5]%N /\
  StronglySorted N.lt common /\
  (forall id, id ∈ common <->
     id ∈ used_node_id_list data /\ id ∈ map node_id (all_nodes_list data)) /\
  match PrepareNodes sort_ids sort_nodes data with
  | Throw _ => (UINT_MAX < N.of_nat (length common))%N
  | Ok data' =>
      (N.of_nat (length common) <= UINT_MAX)%N /\
      max_internal_node_id data' = N.of_nat (length common) /\
      (forall k id, common !! k = Some id ->
         external_to_internal_node_id_map data' !! id = Some (N.of_nat k)) /\
      (forall id, id ∉ common -> external_to_internal_node_id_map data' !! id = Datatypes.None)
  end.
Proof.
  intros data. split; [vm_compute; reflexivity|].
  apply (PrepareNodes_numbers_common_ids sort_ids sort_nodes
           sort_ids_sorted sort_ids_perm sort_nodes_sorted sort_nodes_perm data).
  reflexivity.
Defined.

(** The same containers, prepared and written. *)
Lemma WriteNodes_follows_numbering_witness :
  let node := fun id => {| node_id := id; lat := 0; lon := 0 |} in
  let data := {| used_node_id_list := [5; 3; 9; 3]%N;
                 all_nodes_list := map node [7; 1; 5; 3]%N;
                 external_to_internal_node_id_map := ∅;
                 max_internal_node_id := 0%N |} in
  let data' := {| used_node_id_list := [3; 5; 9]%N;
                  all_nodes_list := map node [1; 3; 5; 7]%N;
                  external_to_internal_node_id_map := <[5%N := 1%N]> (<[3%N := 0%N]> ∅);
                  max_internal_node_id := 2%N |} in
  PrepareNodes sort_ids sort_nodes data = Ok data' /\
  let '(count, written) := WriteNodes data' in
  count = N.of_nat (length written) /\
  (forall k node, written !! k = Some node ->
     In node (all_nodes_list data) /\
     external_to_internal_node_id_map data' !! node_id node = Some (N.of_nat k)) /\
  (forall id, is_Some (external_to_internal_node_id_map data' !! id) ->
     id ∈ map node_id written).
Proof.
  intros node data data'.
  assert (PrepareNodes sort_ids sort_nodes data = Ok data') as Hok
    by (vm_compute; reflexivity).
  split; [exact Hok|].
  apply (WriteNodes_follows_numbering sort_ids sort_nodes
           sort_ids_sorted sort_nodes_sorted sort_nodes_perm data data');
    [reflexivity|exact Hok].
Defined.

(** Three names of 3, 0 and 2 characters. *)
Lemma WriteCharData_keeps_names_witness :
  let name_offsets := [0; 3; 3; 5]%N in
  let name_char_data := [97; 98; 99; 100; 101]%N in
  name_offsets <> [] /\
  Forall (fun offset => (offset < 4294967296)%N) name_offsets /\
  StronglySorted N.le name_offsets /\
  let '(lengths, stream) := WriteCharData name_offsets name_char_data in
  prefix_sums (List.hd 0%N name_offsets) lengths = name_offsets /\
  length lengths = (length name_offsets - 1)%nat /\
  exists blocks last_block,
    stream =
      [IndexRange lengths; TotalLength (List.last name_offsets 0%N)] ++
      map Chars blocks ++ [Chars last_block] /\
    concat blocks ++ last_block = name_char_data /\
    Forall (fun block => N.of_nat (length block) = WRITE_BLOCK_BUFFER_SIZE) blocks /\
    (N.of_nat (length last_block) < WRITE_BLOCK_BUFFER_SIZE)%N.
Proof.
  intros name_offsets name_char_data.
  assert (name_offsets <> []) as H1 by discriminate.
  assert (Forall (fun offset => (offset < 4294967296)%N) name_offsets) as H2
    by (repeat constructor).
  assert (StronglySorted N.le name_offsets) as H3
    by (repeat constructor; unfold N.le; cbn; discriminate).
  split; [exact H1|]. split; [exact H2|]. split; [exact H3|].
  apply (WriteCharData_keeps_names name_offsets name_char_data H1 H2 H3).
Defined.

End ExtractionWitnesses.

Section MultiEdgeFacts.
Import Typedefs ExtractionContainers MultiEdges.

Lemma note_minimal_idx (edge : Edge) (i : N) (m : Minima) :
  (min_forward_idx (note_minimal edge i m) = min_forward_idx m \/
   min_forward_idx (note_minimal edge i m) = i) /\
  (min_backward_idx (note_minimal edge i m) = min_backward_idx m \/
   min_backward_idx (note_minimal edge i m) = i).
Proof.
  unfold note_minimal.
  destruct (forward edge && Z.ltb (weight edge) (min_forward_weight m));
    destruct (backward edge && Z.ltb (weight edge) _); cbn; auto.
Qed.

Lemma find_minimal_spec (source_id target_id : N) (from_i : list Edge) :
  forall (i : N) (m : Minima),
  (i + N.of_nat (length from_i) < 4294967296)%N ->
  find_minimal from_i i source_id target_id m = OutOfRange (i + N.of_nat (length from_i)) \/
  exists (k : nat) (m' : Minima),
    (k < length from_i)%nat /\
    find_minimal from_i i source_id target_id m = Done ((i + N.of_nat k)%N, m') /\
    (forall edge, from_i !! 0%nat = Some edge ->
       parallel source_id target_id edge = true -> (1 <= k)%nat) /\
    (min_forward_idx m' = min_forward_idx m \/
     (i <= min_forward_idx m' < i + N.of_nat k)%N) /\
    (min_backward_idx m' = min_backward_idx m \/
     (i <= min_backward_idx m' < i + N.of_nat k)%N).
Proof.
  induction from_i as [|edge rest IH]; intros i m Hfit.
  - left. cbn. f_equal. lia.
  - cbn [length] in Hfit. cbn [find_minimal].
    destruct (parallel source_id target_id edge) eqn:Hp.
    + assert (wrap32 (i + 1) = (i + 1)%N) as ->
        by (unfold wrap32; apply N.mod_small; lia).
      destruct (note_minimal_idx edge i m) as [Hf Hb].
      destruct (IH (i + 1)%N (note_minimal edge i m))
        as [Hout|(k & m' & Hk & Hdone & _ & Hf' & Hb')]; [lia| |].
      * left. rewrite Hout. f_equal. cbn [length]. lia.
      * right. exists (S k), m'. split; [cbn [length]; lia|]. split.
        { rewrite Hdone. do 2 f_equal. lia. }
        split; [intros; lia|]. split.
        { destruct Hf' as [Hf'|Hf']; [|right; lia].
          rewrite Hf'. destruct Hf as [->| ->]; [now left|right; lia]. }
        { destruct Hb' as [Hb'|Hb']; [|right; lia].
          rewrite Hb'. destruct Hb as [->| ->]; [now left|right; lia]. }
    + right. exists 0%nat, m. split; [cbn [length]; lia|]. split.
      { do 2 f_equal. lia. }
      split; [|split; now left].
      intros edge' [= <-] Hp'. congruence.
Qed.

Lemma at_index_lookup (edges : list Edge) (idx : N) :
  at_index edges idx = edges !! N.to_nat idx.
Proof.
  unfold at_index. destruct (N.ltb_spec idx (N.of_nat (length edges))); [reflexivity|].
  symmetry. apply lookup_ge_None. lia.
Qed.

Lemma update_edge_spec (edges : list Edge) (idx : N) (f : NodeBasedEdge -> NodeBasedEdge) :
  (update_edge edges idx f = OutOfRange idx /\ (N.of_nat (length edges) <= idx)%N) \/
  exists edges',
    update_edge edges idx f = Done edges' /\ length edges' = length edges /\
    (idx < N.of_nat (length edges))%N /\
    forall k, k <> N.to_nat idx -> edges' !! k = edges !! k.
Proof.
  unfold update_edge. rewrite at_index_lookup.
  destruct (edges !! N.to_nat idx) as [edge|] eqn:He.
  - right. eexists. split; [reflexivity|]. split; [apply length_insert|].
    apply lookup_lt_Some in He. split; [lia|].
    intros k Hk. now apply list_lookup_insert_ne.
  - left. split; [reflexivity|]. apply lookup_ge_None in He. lia.
Qed.

Lemma update_if_spec (update : bool) (edges : list Edge) (idx i : N)
    (f : NodeBasedEdge -> NodeBasedEdge) :
  (update = true -> (idx < i)%N) ->
  (exists index,
     (if update then update_edge edges idx f else Done edges) = OutOfRange index /\
     (N.of_nat (length edges) <= index)%N) \/
  exists edges',
    (if update then update_edge edges idx f else Done edges) = Done edges' /\
    length edges' = length edges /\
    forall k, (N.to_nat i <= k)%nat -> edges' !! k = edges !! k.
Proof.
  intros Hidx. destruct update.
  - destruct (update_edge_spec edges idx f) as [[-> Hout]|(edges' & -> & Hlen & _ & Hsame)].
    + left. eexists. split; [reflexivity|exact Hout].
    + right. exists edges'. split; [reflexivity|]. split; [exact Hlen|].
      intros k Hk. apply Hsame. specialize (Hidx eq_refl). lia.
  - right. exists edges. repeat split.
Qed.

Lemma keep_minimal_spec (edges : list Edge) (m : Minima) (i : N) :
  (N.of_nat (length edges) <= UINT_MAX)%N ->
  (min_forward_idx m = UINT_MAX \/ (min_forward_idx m < i)%N) ->
  (min_backward_idx m = UINT_MAX \/ (min_backward_idx m < i)%N) ->
  (exists index,
     keep_minimal edges m = OutOfRange index /\ (N.of_nat (length edges) <= index)%N) \/
  exists edges',
    keep_minimal edges m = Done edges' /\ length edges' = length edges /\
    forall k, (N.to_nat i <= k)%nat -> edges' !! k = edges !! k.
Proof.
  intros Hn Hf Hb. unfold keep_minimal.
  destruct (N.eqb (min_backward_idx m) (min_forward_idx m)).
  - destruct (update_edge_spec edges (min_forward_idx m)
                (fun edge => set_directions (source edge) (target edge) true true false edge))
      as [[-> Hout]|(edges' & -> & Hlen & Hin & Hsame)].
    + left. eexists. split; [reflexivity|exact Hout].
    + right. exists edges'. split; [reflexivity|]. split; [exact Hlen|].
      intros k Hk. apply Hsame.
      destruct Hf as [Hf|Hf]; lia.
  - cbv zeta.
    destruct (update_if_spec (negb (N.eqb (min_forward_idx m) UINT_MAX)) edges
                (min_forward_idx m) i
                (fun edge =>
                   set_directions (source edge) (target edge) true false
                     (negb (N.eqb (min_backward_idx m) UINT_MAX)) edge))
      as [(index & -> & Hout)|(edges1 & -> & Hlen1 & Hsame1)].
    { intros Hc. apply negb_true_iff, N.eqb_neq in Hc. destruct Hf; [contradiction|easy]. }
    + left. exists index. split; [reflexivity|exact Hout].
    + destruct (update_if_spec (negb (N.eqb (min_backward_idx m) UINT_MAX)) edges1
                  (min_backward_idx m) i
                  (fun edge =>
                     set_directions (target edge) (source edge) true false
                       (negb (N.eqb (min_forward_idx m) UINT_MAX)) edge))
        as [(index & -> & Hout)|(edges2 & -> & Hlen2 & Hsame2)].
      { intros Hc. apply negb_true_iff, N.eqb_neq in Hc. destruct Hb; [contradiction|easy]. }
      * left. exists index. split; [reflexivity|]. now rewrite <- Hlen1.
      * right. exists edges2. split; [reflexivity|]. split; [congruence|].
        intros k Hk. rewrite Hsame2 by exact Hk. now apply Hsame1.
Qed.

Lemma invalidate_unused_spec (edges : list Edge) (start_idx i : N) (m : Minima) :
  length (invalidate_unused edges start_idx i m) = length edges /\
  forall k,
    (k < N.to_nat start_idx)%nat \/ (N.to_nat i <= k)%nat \/
    N.of_nat k = min_forward_idx m \/ N.of_nat k = min_backward_idx m ->
    invalidate_unused edges start_idx i m !! k = edges !! k.
Proof.
  unfold invalidate_unused.
  assert (forall (js : list nat) (cur : list Edge),
            Forall (fun j => (N.to_nat start_idx <= j < N.to_nat i)%nat) js ->
            let step := fun (edges : list Edge) (j : nat) =>
              if N.eqb (N.of_nat j) (min_forward_idx m) ||
                 N.eqb (N.of_nat j) (min_backward_idx m)
              then edges
              else
                match (edges !! j : option Edge) with
                | Some edge =>
                    <[j := {| base :=
                                set_directions SPECIAL_NODEID SPECIAL_NODEID (forward edge)
                                  (backward edge) (is_split edge) edge;
                              osm_source_id := osm_source_id edge;
                              osm_target_id := osm_target_id edge |}]> edges
                | Datatypes.None => edges
                end in
            length (fold_left step js cur) = length cur /\
            forall k,
              (k < N.to_nat start_idx)%nat \/ (N.to_nat i <= k)%nat \/
              N.of_nat k = min_forward_idx m \/ N.of_nat k = min_backward_idx m ->
              fold_left step js cur !! k = cur !! k) as H.
  { induction js as [|j js IH]; intros cur Hjs step; [split; reflexivity|].
    cbn [fold_left]. apply Forall_cons in Hjs as [Hj Hjs].
    destruct (IH (step cur j) Hjs) as [H1 H2]. fold step in H1, H2.
    assert (length (step cur j) = length cur /\
            forall k,
              (k < N.to_nat start_idx)%nat \/ (N.to_nat i <= k)%nat \/
              N.of_nat k = min_forward_idx m \/ N.of_nat k = min_backward_idx m ->
              step cur j !! k = cur !! k) as [H3 H4].
    { unfold step.
      destruct (N.eqb_spec (N.of_nat j) (min_forward_idx m)) as [Hjf|Hjf];
        [split; reflexivity|].
      destruct (N.eqb_spec (N.of_nat j) (min_backward_idx m)) as [Hjb|Hjb];
        [split; reflexivity|]. cbn [orb].
      destruct (cur !! j : option Edge); [|split; reflexivity].
      split; [apply length_insert|]. intros k Hk. apply list_lookup_insert_ne.
      intros ->. destruct Hk as [Hk|[Hk|[Hk|Hk]]]; try lia; contradiction. }
    split; [congruence|]. intros k Hk. rewrite H2 by exact Hk. now apply H4. }
  apply H. apply Forall_forall. intros j Hj. apply elem_of_seq in Hj. lia.
Qed.

Section BehindTheEnd.
Variable all_edges_list : list Edge.
Variable last_edge : Edge.
Hypothesis size_fits : (N.of_nat (length all_edges_list) < 4294967296)%N.
Hypothesis sources_valid :
  Forall (fun edge : Edge => source edge <> SPECIAL_NODEID) all_edges_list.
Hypothesis ends_with : last all_edges_list = Some last_edge.
Hypothesis last_target_valid : target last_edge <> SPECIAL_NODEID.

Lemma remove_from_behind_end (fuel : nat) :
  forall (edges : list Edge) (i : N),
  length edges = length all_edges_list ->
  (i < N.of_nat (length all_edges_list))%N ->
  (length all_edges_list - N.to_nat i < fuel)%nat ->
  (forall k, (N.to_nat i <= k)%nat -> edges !! k = all_edges_list !! k) ->
  exists index,
    remove_from fuel edges i = OutOfRange index /\
    (N.of_nat (length all_edges_list) <= index)%N.
Proof.
  induction fuel as [|fuel IH]; intros edges i Hlen Hi Hfuel Hsame; [lia|].
  cbn [remove_from]. rewrite Hlen.
  destruct (N.ltb_spec i (N.of_nat (length all_edges_list))) as [_|Hge]; [|lia].
  cbn [negb].
  assert (N.to_nat i < length all_edges_list)%nat as Hin by lia.
  destruct (lookup_lt_is_Some_2 all_edges_list _ Hin) as [edge Hedge].
  assert (edges !! N.to_nat i = Some edge) as Hcur by (rewrite Hsame by lia; exact Hedge).
  rewrite Hcur.
  pose proof (Forall_lookup_1 _ _ _ _ sources_valid Hedge) as Hsource. cbn beta in Hsource.
  apply N.eqb_neq in Hsource. rewrite Hsource.
  destruct (N.eqb_spec (target edge) SPECIAL_NODEID) as [Htarget|Htarget].
  - (* an edge without a target is not the last one *)
    assert (N.to_nat i <> Init.Nat.pred (length all_edges_list)) as Hnot_last.
    { intros Heq. rewrite last_lookup, <- Heq, Hedge in ends_with.
      injection ends_with as <-. contradiction. }
    assert (wrap32 (i + 1) = (i + 1)%N) as ->
      by (unfold wrap32; apply N.mod_small; lia).
    apply IH; [exact Hlen|lia|lia|].
    intros k Hk. apply Hsame. lia.
  - destruct (find_minimal_spec (source edge) (target edge) (drop (N.to_nat i) edges)
                i no_minima)
      as [Hout|(k & m & Hk & Hdone & Hfirst & Hf & Hb)].
    + rewrite length_drop, Hlen. lia.
    + rewrite Hout. eexists. split; [reflexivity|]. rewrite length_drop, Hlen. lia.
    + rewrite Hdone. rewrite length_drop, Hlen in Hk.
      assert (1 <= k)%nat as Hk1.
      { apply (Hfirst edge).
        - rewrite lookup_drop, Nat.add_0_r. exact Hcur.
        - unfold parallel. now rewrite !N.eqb_refl. }
      destruct (keep_minimal_spec edges m (i + N.of_nat k))
        as [(index & -> & Hindex)|(edges' & -> & Hlen' & Hsame')].
      * rewrite Hlen. unfold UINT_MAX. lia.
      * destruct Hf as [->|Hf]; [now left|right; lia].
      * destruct Hb as [->|Hb]; [now left|right; lia].
      * exists index. split; [reflexivity|]. now rewrite <- Hlen.
      * destruct (invalidate_unused_spec edges' i (i + N.of_nat k) m) as [Hlen2 Hsame2].
        apply IH.
        -- congruence.
        -- lia.
        -- lia.
        -- intros j Hj. rewrite Hsame2 by (right; left; exact Hj).
           rewrite Hsame' by exact Hj. apply Hsame. lia.
Qed.

End BehindTheEnd.

(** X10: When no edge of the list has lost its source and the last edge has
    its target, the loop that removes the parallel edges goes on to an
    element that the list does not have. *)
Theorem remove_parallel_edges_leaves_the_list (all_edges_list : list Edge)
    (last_edge : Edge) :
  (N.of_nat (length all_edges_list) < 4294967296)%N ->
  Forall (fun edge : Edge => source edge <> SPECIAL_NODEID) all_edges_list ->
  last all_edges_list = Some last_edge ->
  target last_edge <> SPECIAL_NODEID ->
  exists index,
    remove_parallel_edges all_edges_list = OutOfRange index /\
    (N.of_nat (length all_edges_list) <= index)%N.
Proof.
  intros Hfits Hsources Hlast Htarget. unfold remove_parallel_edges.
  apply (remove_from_behind_end all_edges_list last_edge Hfits Hsources Hlast Htarget).
  - reflexivity.
  - destruct all_edges_list; [discriminate Hlast|]. cbn [length]. lia.
  - lia.
  - reflexivity.
Qed.

End MultiEdgeFacts.

Section MinimalEdges.
Import Typedefs ExtractionContainers MultiEdges.

Lemma minima_of_nil (start_idx : N) : minima_of no_minima start_idx [].
Proof.
  unfold minima_of, no_minima. cbn.
  split; [intros e He; now apply elem_of_nil in He|].
  split; [intros e He; now apply elem_of_nil in He|].
  split; left; split; reflexivity.
Qed.

Lemma note_minimal_forward (edge : Edge) (i : N) (m : Minima) :
  (min_forward_weight (note_minimal edge i m), min_forward_idx (note_minimal edge i m)) =
  if forward edge && Z.ltb (weight edge) (min_forward_weight m)
  then (weight edge, i) else (min_forward_weight m, min_forward_idx m).
Proof.
  unfold note_minimal.
  destruct (forward edge && Z.ltb (weight edge) (min_forward_weight m));
    destruct (backward edge && Z.ltb (weight edge) _); reflexivity.
Qed.

Lemma note_minimal_backward (edge : Edge) (i : N) (m : Minima) :
  (min_backward_weight (note_minimal edge i m), min_backward_idx (note_minimal edge i m)) =
  if backward edge && Z.ltb (weight edge) (min_backward_weight m)
  then (weight edge, i) else (min_backward_weight m, min_backward_idx m).
Proof.
  unfold note_minimal.
  destruct (forward edge && Z.ltb (weight edge) (min_forward_weight m));
    cbn [min_backward_weight min_backward_idx];
    destruct (backward edge && Z.ltb (weight edge) _); reflexivity.
Qed.

(** One direction of [minima_of], for the flag [towards] of the edges. *)
Lemma minimum_note (towards : Edge -> bool) (start_idx : N) (run : list Edge)
    (edge : Edge) (min_weight : Z) (min_idx : N) :
  (forall e : Edge, e ∈ run -> towards e = true -> min_weight <= weight e) ->
  ((min_idx = UINT_MAX /\ min_weight = INT_MAX) \/
   exists (j : nat) (e : Edge),
     min_idx = (start_idx + N.of_nat j)%N /\ run !! j = Some e /\
     towards e = true /\ weight e = min_weight) ->
  let '(min_weight', min_idx') :=
    if towards edge && Z.ltb (weight edge) min_weight
    then (weight edge, (start_idx + N.of_nat (length run))%N)
    else (min_weight, min_idx) in
  (forall e : Edge, e ∈ run ++ [edge] -> towards e = true -> min_weight' <= weight e) /\
  ((min_idx' = UINT_MAX /\ min_weight' = INT_MAX) \/
   exists (j : nat) (e : Edge),
     min_idx' = (start_idx + N.of_nat j)%N /\ (run ++ [edge]) !! j = Some e /\
     towards e = true /\ weight e = min_weight').
Proof.
  intros Hmin Hidx.
  assert ((run ++ [edge]) !! length run = Some edge) as Hnew
    by (rewrite lookup_app_r by lia; now rewrite Nat.sub_diag).
  destruct (towards edge) eqn:Ht; cbn [andb].
  - destruct (Z.ltb_spec (weight edge) min_weight) as [Hlt|Hge].
    + split.
      * intros e He Hte. apply elem_of_app in He as [He|He].
        -- specialize (Hmin e He Hte). lia.
        -- apply list_elem_of_singleton in He. subst e. lia.
      * right. exists (length run), edge. repeat split; assumption.
    + split.
      * intros e He Hte. apply elem_of_app in He as [He|He].
        -- exact (Hmin e He Hte).
        -- apply list_elem_of_singleton in He. now subst e.
      * destruct Hidx as [Hidx|(j & e & H1 & H2 & H3 & H4)]; [now left|].
        right. exists j, e. repeat split; try assumption. now apply lookup_app_l_Some.
  - split.
    + intros e He Hte. apply elem_of_app in He as [He|He].
      * exact (Hmin e He Hte).
      * apply list_elem_of_singleton in He. subst e. congruence.
    + destruct Hidx as [Hidx|(j & e & H1 & H2 & H3 & H4)]; [now left|].
      right. exists j, e. repeat split; try assumption. now apply lookup_app_l_Some.
Qed.

Lemma minima_of_note (m : Minima) (start_idx : N) (run : list Edge) (edge : Edge) :
  minima_of m start_idx run ->
  minima_of (note_minimal edge (start_idx + N.of_nat (length run)) m) start_idx
    (run ++ [edge]).
Proof.
  intros (Hf & Hb & Hfi & Hbi). unfold minima_of.
  pose proof (minimum_note (fun e : Edge => forward e) start_idx run edge _ _ Hf Hfi) as H1.
  pose proof (minimum_note (fun e : Edge => backward e) start_idx run edge _ _ Hb Hbi) as H2.
  cbv beta in H1, H2.
  pose proof (note_minimal_forward edge (start_idx + N.of_nat (length run)) m) as E1.
  pose proof (note_minimal_backward edge (start_idx + N.of_nat (length run)) m) as E2.
  destruct (forward edge && Z.ltb (weight edge) (min_forward_weight m));
    destruct (backward edge && Z.ltb (weight edge) (min_backward_weight m));
    injection E1 as -> ->; injection E2 as -> ->;
    destruct H1 as [H1 H1']; destruct H2 as [H2 H2']; repeat split; assumption.
Qed.

Lemma find_minimal_run (source_id target_id start_idx : N) (from_i : list Edge) :
  forall (run : list Edge) (m : Minima) (j : nat) (stop : Edge),
  minima_of m start_idx run ->
  (start_idx + N.of_nat (length run) + N.of_nat (length from_i) < 4294967296)%N ->
  from_i !! j = Some stop -> parallel source_id target_id stop = false ->
  exists (k : nat) (m' : Minima),
    (k <= j)%nat /\
    find_minimal from_i (start_idx + N.of_nat (length run)) source_id target_id m =
      Done ((start_idx + N.of_nat (length run + k))%N, m') /\
    Forall (fun edge => parallel source_id target_id edge = true) (take k from_i) /\
    minima_of m' start_idx (run ++ take k from_i).
Proof.
  induction from_i as [|edge rest IH]; intros run m j stop Hm Hfit Hj Hstop;
    [discriminate Hj|].
  cbn [find_minimal]. destruct (parallel source_id target_id edge) eqn:Hp.
  - destruct j as [|j]; [injection Hj as <-; congruence|].
    cbn [length] in Hfit.
    assert (wrap32 (start_idx + N.of_nat (length run) + 1) =
            (start_idx + N.of_nat (length (run ++ [edge])))%N) as ->.
    { rewrite length_app. cbn [length]. unfold wrap32.
      rewrite N.mod_small by lia. lia. }
    destruct (IH (run ++ [edge])
                (note_minimal edge (start_idx + N.of_nat (length run)) m) j stop)
      as (k & m' & Hk & Hdone & Hall & Hm').
    + now apply minima_of_note.
    + rewrite length_app. cbn [length]. lia.
    + exact Hj.
    + exact Hstop.
    + exists (S k), m'. split; [lia|]. split.
      * rewrite Hdone. do 3 f_equal. rewrite length_app. cbn [length]. lia.
      * cbn [take]. split; [constructor; assumption|].
        now rewrite <- app_assoc in Hm'.
  - exists 0%nat, m. split; [lia|]. split; [do 3 f_equal; lia|].
    cbn [take]. split; [constructor|]. now rewrite app_nil_r.
Qed.

#[local] Abbreviation with_result edge result :=
  {| base := result; osm_source_id := osm_source_id edge;
     osm_target_id := osm_target_id edge |}.

Lemma update_edge_at (edges : list Edge) (q : nat) (edge : Edge)
    (f : NodeBasedEdge -> NodeBasedEdge) :
  edges !! q = Some edge ->
  update_edge edges (N.of_nat q) f = Done (<[q := with_result edge (f (base edge))]> edges).
Proof. intros H. unfold update_edge. now rewrite at_index_lookup, Nat2N.id, H. Qed.

Lemma lookup_run (before run after : list Edge) (j : nat) (edge : Edge) :
  run !! j = Some edge -> (before ++ run ++ after) !! (length before + j)%nat = Some edge.
Proof.
  intros H. rewrite lookup_app_r by lia.
  replace (length before + j - length before)%nat with j by lia.
  now apply lookup_app_l_Some.
Qed.

Section Run.
Variables before run after : list Edge.
Variable m : Minima.
Variables source_id target_id : N.

#[local] Abbreviation cur := (before ++ run ++ after).
#[local] Abbreviation p := (length before).
#[local] Abbreviation k := (length run).

Hypothesis size_fits : (N.of_nat (length cur) < 4294967296)%N.
Hypothesis minima : minima_of m (N.of_nat p) run.
Hypothesis run_parallel :
  Forall (fun edge : Edge => parallel source_id target_id edge = true) run.
Hypothesis run_weights : Forall (fun edge : Edge => weight edge < INT_MAX) run.
Hypothesis run_directions :
  Forall (fun edge : Edge => forward edge || backward edge = true) run.
Hypothesis run_not_empty : run <> [].

Lemma run_ids (edge : Edge) :
  edge ∈ run -> source edge = source_id /\ target edge = target_id.
Proof.
  intros He. rewrite Forall_forall in run_parallel.
  specialize (run_parallel edge He). unfold parallel in run_parallel.
  apply andb_true_iff in run_parallel as [H1 H2].
  now apply N.eqb_eq in H1, H2.
Qed.

Lemma run_index (j : nat) (edge : Edge) :
  run !! j = Some edge ->
  (N.of_nat p + N.of_nat j = N.of_nat (p + j))%N /\
  (N.of_nat (p + j) <> UINT_MAX) /\ (p <= p + j < p + k)%nat /\
  cur !! (p + j)%nat = Some edge.
Proof.
  intros H. pose proof (lookup_lt_Some _ _ _ H) as Hj.
  rewrite !length_app in size_fits. unfold UINT_MAX.
  repeat split; try lia. now apply lookup_run.
Qed.

Lemma process_run :
  exists cur1,
    keep_minimal cur m = Done cur1 /\
    let cur2 :=
      invalidate_unused cur1 (N.of_nat p) (N.of_nat (p + k)) m in
    length cur2 = length cur /\
    (forall q, (q < p \/ p + k <= q)%nat -> cur2 !! q = cur !! q) /\
    forall edge : Edge, edge ∈ run ->
      (forward edge = true ->
       exists (q : nat) (kept : Edge),
         (p <= q < p + k)%nat /\ cur2 !! q = Some kept /\ serves_forward kept edge) /\
      (backward edge = true ->
       exists (q : nat) (kept : Edge),
         (p <= q < p + k)%nat /\ cur2 !! q = Some kept /\ serves_backward kept edge).
Proof.
  destruct minima as (Hf & Hb & Hfi & Hbi).
  rewrite Forall_forall in run_weights, run_directions.
  assert (Hno_f : min_forward_weight m = INT_MAX ->
                  forall edge : Edge, edge ∈ run -> forward edge = false).
  { intros Hmax edge He. destruct (forward edge) eqn:Hfw; [|reflexivity].
    specialize (Hf edge He Hfw). specialize (run_weights edge He). lia. }
  assert (Hno_b : min_backward_weight m = INT_MAX ->
                  forall edge : Edge, edge ∈ run -> backward edge = false).
  { intros Hmax edge He. destruct (backward edge) eqn:Hbw; [|reflexivity].
    specialize (Hb edge He Hbw). specialize (run_weights edge He). lia. }
  unfold keep_minimal.
  destruct Hfi as [[Hfi Hfw]|(jf & ef & Hfi & Hjf & Hef & Hwf)];
    destruct Hbi as [[Hbi Hbw]|(jb & eb & Hbi & Hjb & Heb & Hwb)].
  - (* an edge has a direction *)
    exfalso. destruct run as [|edge run']; [contradiction|].
    assert (edge ∈ edge :: run') as He by now left.
    specialize (run_directions edge He).
    rewrite (Hno_f Hfw edge He), (Hno_b Hbw edge He) in run_directions. discriminate.
  - (* backward only *)
    destruct (run_index jb eb Hjb) as (Hidx & Hmax & Hrange & Hcur).
    rewrite Hidx in Hbi. rewrite Hfi, Hbi.
    apply N.eqb_neq in Hmax. rewrite Hmax. cbn [negb]. rewrite N.eqb_refl. cbn [negb].
    rewrite (update_edge_at _ _ _ _ Hcur). eexists. split; [reflexivity|]. cbv zeta.
    match goal with |- context [invalidate_unused ?c ?a ?b m] =>
      destruct (invalidate_unused_spec c a b m) as [Hlen Hsame] end.
    rewrite !Nat2N.id in Hsame.
    split; [now rewrite Hlen, length_insert|]. split.
    + intros q Hq. rewrite Hsame by lia. apply list_lookup_insert_ne. lia.
    + intros edge He. destruct (run_ids edge He) as [Hs Ht].
      destruct (run_ids eb (list_elem_of_lookup_2 _ _ _ Hjb)) as [Hsb Htb].
      split; [intros Hfe; rewrite (Hno_f Hfw edge He) in Hfe; discriminate|].
      intros Hbe. eexists (p + jb)%nat, _. split; [exact Hrange|]. split.
      * rewrite Hsame by (right; right; right; now rewrite Hbi).
        apply list_lookup_insert_eq. now apply lookup_lt_Some in Hcur.
      * unfold serves_backward. cbn. split; [rewrite Hwb; now apply Hb|].
        right. repeat split; congruence.
  - (* forward only *)
    destruct (run_index jf ef Hjf) as (Hidx & Hmax & Hrange & Hcur).
    rewrite Hidx in Hfi. rewrite Hfi, Hbi.
    assert (N.eqb UINT_MAX (N.of_nat (p + jf)) = false) as ->
      by (apply N.eqb_neq; congruence).
    apply N.eqb_neq in Hmax. rewrite Hmax. cbn [negb]. rewrite N.eqb_refl. cbn [negb].
    rewrite (update_edge_at _ _ _ _ Hcur). eexists. split; [reflexivity|]. cbv zeta.
    match goal with |- context [invalidate_unused ?c ?a ?b m] =>
      destruct (invalidate_unused_spec c a b m) as [Hlen Hsame] end.
    rewrite !Nat2N.id in Hsame.
    split; [now rewrite Hlen, length_insert|]. split.
    + intros q Hq. rewrite Hsame by lia. apply list_lookup_insert_ne. lia.
    + intros edge He. destruct (run_ids edge He) as [Hs Ht].
      destruct (run_ids ef (list_elem_of_lookup_2 _ _ _ Hjf)) as [Hsf Htf].
      split; [|intros Hbe; rewrite (Hno_b Hbw edge He) in Hbe; discriminate].
      intros Hfe. eexists (p + jf)%nat, _. split; [exact Hrange|]. split.
      * rewrite Hsame by (right; right; left; now rewrite Hfi).
        apply list_lookup_insert_eq. now apply lookup_lt_Some in Hcur.
      * unfold serves_forward. cbn. repeat split; try congruence.
        rewrite Hwf. now apply Hf.
  - (* both directions *)
    destruct (run_index jf ef Hjf) as (Hidxf & Hmaxf & Hrangef & Hcurf).
    destruct (run_index jb eb Hjb) as (Hidxb & Hmaxb & Hrangeb & Hcurb).
    rewrite Hidxf in Hfi. rewrite Hidxb in Hbi. rewrite Hfi, Hbi.
    destruct (run_ids ef (list_elem_of_lookup_2 _ _ _ Hjf)) as [Hsf Htf].
    destruct (run_ids eb (list_elem_of_lookup_2 _ _ _ Hjb)) as [Hsb Htb].
    destruct (N.eqb_spec (N.of_nat (p + jb)) (N.of_nat (p + jf))) as [Heq|Hne].
    + (* one edge is minimal in both *)
      assert (jb = jf) as -> by lia. rewrite Hjf in Hjb. injection Hjb as <-.
      rewrite (update_edge_at _ _ _ _ Hcurf). eexists. split; [reflexivity|]. cbv zeta.
      match goal with |- context [invalidate_unused ?c ?a ?b m] =>
        destruct (invalidate_unused_spec c a b m) as [Hlen Hsame] end.
      rewrite !Nat2N.id in Hsame.
      split; [now rewrite Hlen, length_insert|]. split.
      * intros q Hq. rewrite Hsame by lia. apply list_lookup_insert_ne. lia.
      * intros edge He. destruct (run_ids edge He) as [Hs Ht].
        assert (invalidate_unused
                  (<[(p + jf)%nat :=
                       with_result ef
                         (set_directions (source ef) (target ef) true true false ef)]> cur)
                  (N.of_nat p) (N.of_nat (p + k)) m !! (p + jf)%nat =
                Some (with_result ef
                        (set_directions (source ef) (target ef) true true false ef)))
          as Hkept.
        { rewrite Hsame by (right; right; left; now rewrite Hfi).
          apply list_lookup_insert_eq. now apply lookup_lt_Some in Hcurf. }
        split.
        -- intros Hfe. eexists (p + jf)%nat, _. split; [exact Hrangef|].
           split; [exact Hkept|]. unfold serves_forward. cbn.
           repeat split; try congruence. rewrite Hwf. now apply Hf.
        -- intros Hbe. eexists (p + jf)%nat, _. split; [exact Hrangef|].
           split; [exact Hkept|]. unfold serves_backward. cbn.
           split; [rewrite Hwb; now apply Hb|]. left. repeat split; congruence.
    + apply N.eqb_neq in Hmaxf, Hmaxb. rewrite Hmaxf, Hmaxb. cbn [negb].
      rewrite (update_edge_at _ _ _ _ Hcurf).
      assert (<[(p + jf)%nat :=
                  with_result ef
                    (set_directions (source ef) (target ef) true false true ef)]> cur
                !! (p + jb)%nat = Some eb) as Hcurb'
        by (rewrite list_lookup_insert_ne by lia; exact Hcurb).
      rewrite (update_edge_at _ _ _ _ Hcurb').
      eexists. split; [reflexivity|]. cbv zeta.
      match goal with |- context [invalidate_unused ?c ?a ?b m] =>
        destruct (invalidate_unused_spec c a b m) as [Hlen Hsame] end.
      rewrite !Nat2N.id in Hsame.
      split; [now rewrite Hlen, !length_insert|]. split.
      * intros q Hq. rewrite Hsame by lia. rewrite !list_lookup_insert_ne by lia.
        reflexivity.
      * intros edge He. destruct (run_ids edge He) as [Hs Ht]. split.
        -- intros Hfe. eexists (p + jf)%nat, _. split; [exact Hrangef|]. split.
           ++ rewrite Hsame by (right; right; left; now rewrite Hfi).
              rewrite list_lookup_insert_ne by lia.
              apply list_lookup_insert_eq. now apply lookup_lt_Some in Hcurf.
           ++ unfold serves_forward. cbn. repeat split; try congruence.
              rewrite Hwf. now apply Hf.
        -- intros Hbe. eexists (p + jb)%nat, _. split; [exact Hrangeb|]. split.
           ++ rewrite Hsame by (right; right; right; now rewrite Hbi).
              apply list_lookup_insert_eq. rewrite length_insert.
              now apply lookup_lt_Some in Hcurb.
           ++ unfold serves_backward. cbn. split; [rewrite Hwb; now apply Hb|].
              right. repeat split; congruence.
Qed.

End Run.

Section Kept.
Variable all_edges_list : list Edge.
Variable first_invalid : nat.
Variable invalid_edge : Edge.
Hypothesis size_fits : (N.of_nat (length all_edges_list) < 4294967296)%N.
Hypothesis invalid_at : all_edges_list !! first_invalid = Some invalid_edge.
Hypothesis invalid_source : source invalid_edge = SPECIAL_NODEID.
Hypothesis sources_before :
  forall (q : nat) (edge : Edge),
  (q < first_invalid)%nat -> all_edges_list !! q = Some edge ->
  source edge <> SPECIAL_NODEID.
Hypothesis edges_before :
  forall (q : nat) (edge : Edge),
  (q < first_invalid)%nat -> all_edges_list !! q = Some edge ->
  target edge <> SPECIAL_NODEID ->
  weight edge < INT_MAX /\ forward edge || backward edge = true.

Lemma remove_from_done (fuel : nat) :
  forall (edges : list Edge) (position : nat),
  length edges = length all_edges_list ->
  (position <= first_invalid)%nat ->
  (first_invalid - position < fuel)%nat ->
  (forall q, (position <= q)%nat -> edges !! q = all_edges_list !! q) ->
  exists edges',
    remove_from fuel edges (N.of_nat position) = Done edges' /\
    length edges' = length all_edges_list /\
    (forall q, (q < position \/ first_invalid <= q)%nat -> edges' !! q = edges !! q) /\
    forall (q : nat) (edge : Edge),
      (position <= q < first_invalid)%nat -> all_edges_list !! q = Some edge ->
      target edge <> SPECIAL_NODEID ->
      (forward edge = true ->
       exists (q' : nat) (kept : Edge),
         (q' < first_invalid)%nat /\ edges' !! q' = Some kept /\
         serves_forward kept edge) /\
      (backward edge = true ->
       exists (q' : nat) (kept : Edge),
         (q' < first_invalid)%nat /\ edges' !! q' = Some kept /\
         serves_backward kept edge).
Proof.
  pose proof (lookup_lt_Some _ _ _ invalid_at) as Hbn.
  induction fuel as [|fuel IH]; intros edges position Hlen Hpos Hfuel Hsame; [lia|].
  cbn [remove_from]. rewrite Hlen.
  destruct (N.ltb_spec (N.of_nat position) (N.of_nat (length all_edges_list)))
    as [_|Hge]; [|lia].
  cbn [negb]. rewrite Nat2N.id.
  assert (position < length all_edges_list)%nat as Hin by lia.
  destruct (lookup_lt_is_Some_2 all_edges_list _ Hin) as [edge Hedge].
  assert (edges !! position = Some edge) as Hcur by (rewrite Hsame by lia; exact Hedge).
  rewrite Hcur.
  destruct (decide (position = first_invalid)) as [->|Hbefore].
  { (* the loop ends at the first edge without a source *)
    rewrite invalid_at in Hedge. injection Hedge as <-.
    rewrite invalid_source, N.eqb_refl.
    exists edges. split; [reflexivity|]. split; [exact Hlen|].
    split; [reflexivity|]. intros q e Hq. lia. }
  assert (position < first_invalid)%nat as Hlt by lia.
  pose proof (sources_before position edge Hlt Hedge) as Hsource.
  apply N.eqb_neq in Hsource. rewrite Hsource.
  destruct (N.eqb_spec (target edge) SPECIAL_NODEID) as [Htarget|Htarget].
  - (* an edge without a target is passed by *)
    assert (wrap32 (N.of_nat position + 1) = N.of_nat (S position)) as ->
      by (unfold wrap32; rewrite N.mod_small by lia; lia).
    destruct (IH edges (S position)) as (edges' & Hdone & Hlen' & Hkeep & Hserve);
      [exact Hlen|lia|lia|intros q Hq; apply Hsame; lia|].
    exists edges'. split; [exact Hdone|]. split; [exact Hlen'|].
    split; [intros q Hq; apply Hkeep; lia|].
    intros q e Hq He Ht. destruct (decide (q = position)) as [->|Hne].
    + rewrite Hedge in He. injection He as <-. contradiction.
    + apply (Hserve q e); [lia|exact He|exact Ht].
  - (* a run of parallel edges *)
    pose proof (take_drop_middle _ _ _ Hcur) as Hsplit.
    assert (drop position edges = edge :: drop (S position) edges) as Hdrop
      by now apply drop_S.
    rewrite Hdrop. cbn [find_minimal].
    assert (parallel (source edge) (target edge) edge = true) as Hp
      by (unfold parallel; now rewrite !N.eqb_refl).
    rewrite Hp.
    assert (wrap32 (N.of_nat position + 1) =
            (N.of_nat position + N.of_nat (length [edge]))%N) as ->
      by (unfold wrap32; rewrite N.mod_small by (cbn [length]; lia); cbn [length]; lia).
    assert (note_minimal edge (N.of_nat position) no_minima =
            note_minimal edge (N.of_nat position + N.of_nat (length (@nil Edge))) no_minima)
      as -> by (cbn [length]; now rewrite N.add_0_r).
    destruct (find_minimal_run (source edge) (target edge) (N.of_nat position)
                (drop (S position) edges) [edge]
                (note_minimal edge (N.of_nat position + N.of_nat (length (@nil Edge)))
                   no_minima)
                (first_invalid - S position) invalid_edge)
      as (k & m & Hk & Hdone & Hall & Hm).
    { apply (minima_of_note no_minima (N.of_nat position) [] edge), minima_of_nil. }
    { rewrite length_drop, Hlen. cbn [length]. lia. }
    { rewrite lookup_drop. replace (S position + (first_invalid - S position))%nat
        with first_invalid by lia.
      rewrite Hsame by lia. exact invalid_at. }
    { unfold parallel. rewrite invalid_source.
      apply N.eqb_neq in Hsource. apply andb_false_iff. left. apply N.eqb_neq.
      congruence. }
    rewrite Hdone. clear Hdone.
    set (run := [edge] ++ take k (drop (S position) edges)) in *.
    assert (length (take k (drop (S position) edges)) = k) as Hktake.
    { rewrite length_take, length_drop, Hlen. lia. }
    assert (length run = S k) as Hrun by (unfold run; rewrite length_app, Hktake; reflexivity).
    assert (edges = take position edges ++ run ++ drop (S position + k) edges) as Hparts.
    { unfold run. rewrite <- app_assoc. cbn [app].
      rewrite <- (take_drop k (drop (S position) edges)) in Hsplit.
      rewrite drop_drop in Hsplit. now symmetry. }
    assert (length (take position edges) = position) as Hbefore_len
      by (rewrite length_take; lia).
    assert (Hin_run : forall (j : nat) (e : Edge),
              run !! j = Some e -> all_edges_list !! (position + j)%nat = Some e).
    { intros j e Hj. rewrite <- Hsame by lia. rewrite Hparts.
      rewrite <- Hbefore_len at 1. now apply lookup_run. }
    assert (Forall (fun e : Edge => parallel (source edge) (target edge) e = true) run)
      as Hparallel
      by (unfold run; apply Forall_app; split; [repeat constructor; exact Hp|exact Hall]).
    assert (Hgood : forall e : Edge, e ∈ run ->
              weight e < INT_MAX /\ forward e || backward e = true).
    { intros e He. apply list_elem_of_lookup in He as [j Hj].
      pose proof (lookup_lt_Some _ _ _ Hj) as Hjk.
      apply (edges_before (position + j)%nat e); [lia|now apply Hin_run|].
      rewrite Forall_forall in Hparallel.
      specialize (Hparallel e (list_elem_of_lookup_2 _ _ _ Hj)).
      unfold parallel in Hparallel. apply andb_true_iff in Hparallel as [_ Ht].
      apply N.eqb_eq in Ht. congruence. }
    destruct (process_run (take position edges) run (drop (S position + k) edges) m
                (source edge) (target edge))
      as (edges1 & Hkeep1 & Hlen2 & Hsame2 & Hserve2).
    { rewrite <- Hparts, Hlen. exact size_fits. }
    { rewrite Hbefore_len. exact Hm. }
    { exact Hparallel. }
    { apply Forall_forall. intros e He. now apply Hgood. }
    { apply Forall_forall. intros e He. now apply Hgood. }
    { unfold run. discriminate. }
    rewrite <- Hparts in Hkeep1, Hlen2, Hsame2. rewrite Hkeep1.
    rewrite Hbefore_len, Hrun in Hlen2, Hsame2, Hserve2.
    assert ((N.of_nat position + N.of_nat (length [edge] + k))%N =
            N.of_nat (position + S k)) as -> by (cbn [length]; lia).
    set (edges2 := invalidate_unused edges1 (N.of_nat position)
                     (N.of_nat (position + S k)) m) in *.
    destruct (IH edges2 (position + S k)%nat) as (edges' & Hdone & Hlen' & Hkeep & Hserve).
    { congruence. }
    { lia. }
    { lia. }
    { intros q Hq. rewrite Hsame2 by lia. apply Hsame. lia. }
    exists edges'. split; [exact Hdone|]. split; [exact Hlen'|]. split.
    + intros q Hq. rewrite Hkeep by lia. apply Hsame2. lia.
    + intros q e Hq He Ht. destruct (decide (q < position + S k)%nat) as [Hq'|Hq'].
      * assert (e ∈ run) as Hrun_e.
        { apply list_elem_of_lookup. exists (q - position)%nat.
          rewrite <- Hsame in He by lia. rewrite Hparts in He.
          rewrite lookup_app_r in He by lia. rewrite Hbefore_len in He.
          rewrite lookup_app_l in He by lia. exact He. }
        destruct (Hserve2 e Hrun_e) as [Hfw Hbw]. split.
        -- intros Hfe. destruct (Hfw Hfe) as (q' & kept & Hq2 & Hkept & Hs).
           exists q', kept. split; [lia|]. split; [|exact Hs].
           rewrite Hkeep by lia. exact Hkept.
        -- intros Hbe. destruct (Hbw Hbe) as (q' & kept & Hq2 & Hkept & Hs).
           exists q', kept. split; [lia|]. split; [|exact Hs].
           rewrite Hkeep by lia. exact Hkept.
      * apply (Hserve q e); [lia|exact He|exact Ht].
Qed.

End Kept.

(** X11: When the list has an edge without a source, and the edges before the
    first such have a source and, if they have a target as well, a
    direction and a weight below the greatest, the loop that removes the
    parallel edges ends at that edge and keeps, for every direction of
    every edge with source and target, an edge that serves it and is not
    heavier; the edges from the first without a source on are left as they
    are. *)
Theorem remove_parallel_edges_keeps_minimal (all_edges_list : list Edge)
    (first_invalid : nat) (invalid_edge : Edge) :
  (N.of_nat (length all_edges_list) < 4294967296)%N ->
  all_edges_list !! first_invalid = Some invalid_edge ->
  source invalid_edge = SPECIAL_NODEID ->
  (forall (q : nat) (edge : Edge),
     (q < first_invalid)%nat -> all_edges_list !! q = Some edge ->
     source edge <> SPECIAL_NODEID) ->
  (forall (q : nat) (edge : Edge),
     (q < first_invalid)%nat -> all_edges_list !! q = Some edge ->
     target edge <> SPECIAL_NODEID ->
     weight edge < INT_MAX /\ forward edge || backward edge = true) ->
  exists edges',
    remove_parallel_edges all_edges_list = Done edges' /\
    length edges' = length all_edges_list /\
    (forall q, (first_invalid <= q)%nat -> edges' !! q = all_edges_list !! q) /\
    forall (q : nat) (edge : Edge),
      (q < first_invalid)%nat -> all_edges_list !! q = Some edge ->
      target edge <> SPECIAL_NODEID ->
      (forward edge = true ->
       exists (q' : nat) (kept : Edge),
         (q' < first_invalid)%nat /\ edges' !! q' = Some kept /\
         serves_forward kept edge) /\
      (backward edge = true ->
       exists (q' : nat) (kept : Edge),
         (q' < first_invalid)%nat /\ edges' !! q' = Some kept /\
         serves_backward kept edge).
Proof.
  intros Hfits Hat Hsource Hsources Hedges. unfold remove_parallel_edges.
  pose proof (lookup_lt_Some _ _ _ Hat) as Hbn.
  destruct (remove_from_done all_edges_list first_invalid invalid_edge Hfits Hat Hsource
              Hsources Hedges (S (length all_edges_list)) all_edges_list 0)
    as (edges' & Hdone & Hlen & Hkeep & Hserve); [reflexivity|lia|lia|reflexivity|].
  exists edges'. split; [exact Hdone|]. split; [exact Hlen|].
  split; [intros q Hq; apply Hkeep; now right|].
  intros q edge Hq. apply Hserve. lia.
Qed.

End MinimalEdges.

Section MultiEdgeWitnesses.
Import Typedefs ExtractionContainers MultiEdges.

(** The theorem at the first four of [parallel_edges], which all have
    their nodes. *)
Lemma remove_parallel_edges_leaves_the_list_witness :
  let edges := take 4 parallel_edges in
  Forall (fun edge : Edge => source edge <> SPECIAL_NODEID) edges /\
  last edges = Some (example_edge 1 3 4 true true) /\
  exists index,
    remove_parallel_edges edges = OutOfRange index /\ (4 <= index)%N.
Proof.
  intros edges.
  assert (Forall (fun edge : Edge => source edge <> SPECIAL_NODEID) edges) as H
    by (repeat constructor; discriminate).
  split; [exact H|]. split; [reflexivity|].
  apply (remove_parallel_edges_leaves_the_list edges (example_edge 1 3 4 true true));
    [vm_compute; reflexivity|exact H|reflexivity|discriminate].
Defined.

(** The theorem at [parallel_edges], whose last edge has lost its nodes:
    of the three edges between 1 and 2, the second serves the forward
    direction of the first. *)
Lemma remove_parallel_edges_keeps_minimal_witness :
  parallel_edges !! 4%nat = Some (example_edge SPECIAL_NODEID SPECIAL_NODEID 1 true true) /\
  exists edges',
    remove_parallel_edges parallel_edges = Done edges' /\
    length edges' = 5%nat /\
    exists (q' : nat) (kept : Edge),
      (q' < 4)%nat /\ edges' !! q' = Some kept /\
      serves_forward kept (example_edge 1 2 10 true true).
Proof.
  split; [reflexivity|].
  destruct (remove_parallel_edges_keeps_minimal parallel_edges 4
              (example_edge SPECIAL_NODEID SPECIAL_NODEID 1 true true))
    as (edges' & Hdone & Hlen & _ & Hserve).
  - vm_compute. reflexivity.
  - reflexivity.
  - reflexivity.
  - intros q edge Hq Hedge.
    do 4 (destruct q as [|q]; [injection Hedge as <-; discriminate|]). lia.
  - intros q edge Hq Hedge _.
    do 4 (destruct q as [|q];
          [injection Hedge as <-; split; [reflexivity|reflexivity]|]). lia.
  - exists edges'. split; [exact Hdone|]. split; [exact Hlen|].
    destruct (Hserve 0%nat (example_edge 1 2 10 true true)) as [Hforward _];
      [lia|reflexivity|discriminate|].
    exact (Hforward eq_refl).
Defined.

End MultiEdgeWitnesses.

Section StartpointFacts.
Import Exceptions Extractor.
Context {EdgeBasedNode : Type}.

Lemma startpoints_snoc (edges : list EdgeBasedNode) :
  forall (flags : list bool) (edge : EdgeBasedNode) (flag : bool),
  length edges = length flags ->
  startpoints (edges ++ [edge]) (flags ++ [flag]) =
  startpoints edges flags ++ (if flag then [edge] else []).
Proof.
  induction edges as [|e edges IH]; intros [|f flags] edge flag Hlen;
    try discriminate Hlen.
  - cbn. now destruct flag.
  - cbn [app startpoints]. injection Hlen as Hlen. rewrite (IH _ _ _ Hlen).
    now destruct f.
Qed.

Lemma startpoints_length (edges : list EdgeBasedNode) :
  forall flags : list bool, (length (startpoints edges flags) <= length edges)%nat.
Proof.
  induction edges as [|e edges IH]; intros [|[|] flags]; cbn; try lia;
    specialize (IH flags); lia.
Qed.

Lemma filter_loop (edges : list EdgeBasedNode) (flags : list bool) :
  length flags = length edges ->
  forall (m k : nat) (l : list EdgeBasedNode) (out_iter : nat),
  (k + m = length flags)%nat ->
  length l = length edges ->
  take out_iter l = startpoints (take k edges) (take k flags) ->
  out_iter = length (startpoints (take k edges) (take k flags)) ->
  drop k l = drop k edges ->
  exists l' in_iter,
    fold_left (filter_step flags) (seq k m) (l, out_iter, k) =
      (l', length (startpoints edges flags), in_iter) /\
    take (length (startpoints edges flags)) l' = startpoints edges flags.
Proof.
  intros Hlen m. induction m as [|m IH]; intros k l out_iter Hk Hl Htake Hout Hdrop.
  - cbn. exists l, k. rewrite Nat.add_0_r in Hk. subst k.
    rewrite firstn_all in Htake, Hout. rewrite Hlen, firstn_all in Htake, Hout.
    subst out_iter. split; [reflexivity|exact Htake].
  - cbn [seq fold_left].
    assert (k < length flags)%nat as Hkf by lia.
    destruct (lookup_lt_is_Some_2 flags k Hkf) as [flag Hflag].
    assert (k < length edges)%nat as Hke by lia.
    destruct (lookup_lt_is_Some_2 edges k Hke) as [edge Hedge].
    assert (l !! k = Some edge) as Hlk.
    { rewrite <- (Nat.add_0_r k) at 1. rewrite <- lookup_drop, Hdrop, lookup_drop.
      now rewrite Nat.add_0_r. }
    assert (out_iter <= k)%nat as Hle.
    { subst out_iter. etransitivity; [apply startpoints_length|].
      rewrite length_take. lia. }
    assert (startpoints (take (S k) edges) (take (S k) flags) =
            startpoints (take k edges) (take k flags) ++ (if flag then [edge] else []))
      as Hsnoc.
    { rewrite (take_S_r _ _ _ Hedge), (take_S_r _ _ _ Hflag).
      apply startpoints_snoc. rewrite !length_take. lia. }
    unfold filter_step at 2. rewrite Hflag. cbn [default]. destruct flag.
    + rewrite Hlk. apply IH.
      * lia.
      * now rewrite length_insert.
      * rewrite Hsnoc, <- Htake.
        assert (out_iter < length l)%nat as Hol by lia.
        rewrite (take_S_r (<[out_iter := edge]> l) out_iter edge)
          by (apply list_lookup_insert_eq; exact Hol).
        now rewrite take_insert_ge by lia.
      * rewrite Hsnoc, length_app. cbn. lia.
      * rewrite drop_insert_lt by lia.
        replace (S k) with (k + 1)%nat by lia.
        rewrite <- !drop_drop. now rewrite Hdrop.
    + apply IH.
      * lia.
      * exact Hl.
      * now rewrite Hsnoc, app_nil_r.
      * now rewrite Hsnoc, app_nil_r.
      * replace (S k) with (k + 1)%nat by lia.
        rewrite <- !drop_drop. now rewrite Hdrop.
Qed.

(** X12: [BuildRTree] builds the r-tree of the edges that are start points, in
    their order, and throws exactly when there is none. *)
Theorem BuildRTree_keeps_startpoints (node_based_edge_list : list EdgeBasedNode)
    (node_is_startpoint : list bool) :
  length node_is_startpoint = length node_based_edge_list ->
  match BuildRTree node_based_edge_list node_is_startpoint with
  | Ok edges =>
      edges = startpoints node_based_edge_list node_is_startpoint /\ edges <> []
  | Throw _ => startpoints node_based_edge_list node_is_startpoint = []
  end.
Proof.
  intros Hlen. unfold BuildRTree.
  destruct (filter_loop node_based_edge_list node_is_startpoint Hlen
              (length node_is_startpoint) 0 node_based_edge_list 0)
    as (l' & in_iter & Hfold & Htake); try reflexivity.
  rewrite Hfold.
  destruct (startpoints node_based_edge_list node_is_startpoint) as [|e kept] eqn:Hkept.
  - reflexivity.
  - cbn [length Nat.eqb] in *. rewrite Htake. split; [reflexivity|discriminate].
Qed.

End StartpointFacts.

Section LaneArrays.
Import Typedefs Extractor DataFacade.

Lemma sumN_cons (x : N) (l : list N) : sumN (x :: l) = (x + sumN l)%N.
Proof. reflexivity. Qed.

Lemma sumN_app (a b : list N) : sumN (a ++ b) = (sumN a + sumN b)%N.
Proof.
  induction a as [|x a IH]; [reflexivity|].
  rewrite <- app_comm_cons, !sumN_cons, IH. lia.
Qed.

Lemma sumN_take_le (l : list N) (a b : nat) :
  (a <= b)%nat -> (sumN (take a l) <= sumN (take b l))%N.
Proof.
  intros Hab. rewrite <- (take_drop a (take b l)), sumN_app.
  rewrite take_take, Nat.min_l by exact Hab. lia.
Qed.

Lemma sumN_take (l : list N) (a : nat) : (sumN (take a l) <= sumN l)%N.
Proof. rewrite <- (take_drop a l) at 2. rewrite sumN_app. lia. Qed.

Lemma sumN_take_S (l : list N) (j : nat) (x : N) :
  l !! j = Some x -> sumN (take (S j) l) = (sumN (take j l) + x)%N.
Proof. intros H. rewrite (take_S_r _ _ _ H), sumN_app, sumN_cons. cbn. lia. Qed.

Lemma sumN_insert_le (l : list N) :
  forall (i : nat) (v : N), (sumN (<[i := v]> l) <= sumN l + v)%N.
Proof.
  induction l as [|x l IH]; intros [|i] v.
  - cbn. lia.
  - cbn. lia.
  - change (<[0%nat := v]> (x :: l)) with (v :: l). rewrite !sumN_cons. lia.
  - change (<[S i := v]> (x :: l)) with (x :: <[i := v]> l). rewrite !sumN_cons.
    specialize (IH i v). lia.
Qed.

Lemma sumN_replicate_0 (n : nat) : sumN (replicate n 0%N) = 0%N.
Proof. induction n as [|n IH]; cbn; [reflexivity|exact IH]. Qed.

Lemma sumN_elem (l : list N) (x : N) : x ∈ l -> (x <= sumN l)%N.
Proof.
  induction 1 as [x l|x y l _ IH]; rewrite sumN_cons; lia.
Qed.

Lemma wrap32_le (n : N) : (wrap32 n <= n)%N.
Proof. unfold wrap32. apply N.Div0.mod_le. Qed.

Lemma partial_sum_from_length (values : list N) :
  forall sum, length (partial_sum_from sum values) = length values.
Proof. induction values as [|v values IH]; intros sum; cbn; [reflexivity|]. now rewrite IH. Qed.

Lemma partial_sum_length (values : list N) : length (partial_sum values) = length values.
Proof. destruct values; cbn; [reflexivity|]. now rewrite partial_sum_from_length. Qed.

Lemma partial_sum_from_lookup (values : list N) :
  forall (sum : N) (j : nat),
  (sum + sumN values < 4294967296)%N -> (j < length values)%nat ->
  partial_sum_from sum values !! j = Some (sum + sumN (take (S j) values))%N.
Proof.
  induction values as [|v values IH]; intros sum j Hsmall Hj; [cbn in Hj; lia|].
  rewrite sumN_cons in Hsmall.
  assert (wrap32 (sum + v) = (sum + v)%N) as Hw
    by (unfold wrap32; apply N.mod_small; lia).
  cbn [partial_sum_from]. rewrite Hw. destruct j as [|j].
  - change (take 1 (v :: values)) with [v]. rewrite sumN_cons.
    change (sumN []) with 0%N. now rewrite N.add_0_r.
  - change ((?x :: ?l) !! S j) with (l !! j).
    rewrite IH by (cbn in Hj; lia). f_equal.
    change (take (S (S j)) (v :: values)) with (v :: take (S j) values).
    rewrite sumN_cons. lia.
Qed.

Lemma partial_sum_lookup (values : list N) (j : nat) :
  (sumN values < 4294967296)%N -> (j < length values)%nat ->
  partial_sum values !! j = Some (sumN (take (S j) values)).
Proof.
  destruct values as [|first rest]; intros Hsmall Hj; [cbn in Hj; lia|].
  rewrite sumN_cons in Hsmall. destruct j as [|j].
  - change (take 1 (first :: rest)) with [first]. rewrite sumN_cons.
    change (sumN []) with 0%N. now rewrite N.add_0_r.
  - cbn [partial_sum]. change ((?x :: ?l) !! S j) with (l !! j).
    rewrite partial_sum_from_lookup by (cbn in Hj; lia).
    f_equal.
Qed.

(** The two loops over the entries of the map. *)
#[local] Abbreviation set_length :=
  (fun (offsets : list N) (entry : list N * N) =>
     <[N.to_nat (snd entry + 1) := wrap32 (N.of_nat (length (fst entry)))]> offsets).

#[local] Abbreviation copy_entry offsets :=
  (fun (masks : list N) (entry : list N * N) =>
     copy (fst entry) masks (N.to_nat (default 0%N (offsets !! N.to_nat (snd entry))))).

#[local] Abbreviation lengths entries :=
  (map (fun entry : list N * N => N.of_nat (length (fst entry))) entries).

Lemma fold_set_length_length (entries : list (list N * N)) :
  forall init, length (fold_left set_length entries init) = length init.
Proof.
  induction entries as [|e entries IH]; intros init; cbn; [reflexivity|].
  now rewrite IH, length_insert.
Qed.

Lemma fold_set_length_sum (entries : list (list N * N)) :
  forall init,
  (sumN (fold_left set_length entries init) <= sumN init + sumN (lengths entries))%N.
Proof.
  induction entries as [|e entries IH]; intros init; cbn [fold_left map]; [cbn; lia|].
  etransitivity; [apply IH|].
  pose proof (sumN_insert_le init (N.to_nat (snd e + 1))
                (wrap32 (N.of_nat (length (fst e))))) as H1.
  pose proof (wrap32_le (N.of_nat (length (fst e)))) as H2.
  rewrite sumN_cons. lia.
Qed.

Lemma fold_set_length_other (entries : list (list N * N)) (id : N) :
  forall init,
  (forall e, e ∈ entries -> snd e <> id) ->
  fold_left set_length entries init !! N.to_nat (id + 1) = init !! N.to_nat (id + 1).
Proof.
  induction entries as [|e entries IH]; intros init Hother; cbn [fold_left]; [reflexivity|].
  rewrite IH by (intros e' He'; apply Hother; now right).
  apply list_lookup_insert_ne. intros Heq.
  apply (Hother e); [now left|]. lia.
Qed.

Lemma fold_set_length_lookup (entries : list (list N * N)) (desc : list N) (id : N) :
  forall init,
  NoDup (map snd entries) -> (desc, id) ∈ entries ->
  (N.to_nat (id + 1) < length init)%nat ->
  fold_left set_length entries init !! N.to_nat (id + 1) =
  Some (wrap32 (N.of_nat (length desc))).
Proof.
  induction entries as [|e entries IH]; intros init Hnd Hin Hlen;
    [now apply elem_of_nil in Hin|].
  cbn [fold_left]. cbn [map] in Hnd. apply NoDup_cons in Hnd as [Hfresh Hnd].
  apply elem_of_cons in Hin as [<-|Hin].
  - rewrite fold_set_length_other.
    + cbn [fst snd]. now apply list_lookup_insert_eq.
    + intros e' He' Heq. apply Hfresh. cbn [snd]. rewrite <- Heq.
      apply list_elem_of_In, in_map, list_elem_of_In, He'.
  - apply IH; [exact Hnd|exact Hin|now rewrite length_insert].
Qed.

Lemma copy_length (from : list N) :
  forall (to : list N) (position : nat), length (copy from to position) = length to.
Proof.
  induction from as [|x from IH]; intros to position; cbn; [reflexivity|].
  now rewrite IH, length_insert.
Qed.

Lemma copy_lookup_outside (from : list N) :
  forall (to : list N) (position j : nat),
  (j < position \/ position + length from <= j)%nat ->
  copy from to position !! j = to !! j.
Proof.
  induction from as [|x from IH]; intros to position j Hj; cbn [copy]; [reflexivity|].
  cbn [length] in Hj. rewrite IH by lia. apply list_lookup_insert_ne. lia.
Qed.

Lemma copy_lookup_inside (from : list N) :
  forall (to : list N) (position t : nat),
  (position + length from <= length to)%nat -> (t < length from)%nat ->
  copy from to position !! (position + t)%nat = from !! t.
Proof.
  induction from as [|x from IH]; intros to position t Hfit Ht; [cbn in Ht; lia|].
  cbn [copy]. cbn [length] in Hfit, Ht. destruct t as [|t].
  - rewrite Nat.add_0_r, copy_lookup_outside by lia.
    cbn. apply list_lookup_insert_eq. lia.
  - replace (position + S t)%nat with (S position + t)%nat by lia.
    rewrite IH; [reflexivity| |lia]. rewrite length_insert. lia.
Qed.

Section Copies.
Variable offsets : list N.

#[local] Abbreviation position entry :=
  (N.to_nat (default 0%N (offsets !! N.to_nat (snd (entry : list N * N))))).

Lemma fold_copy_length (entries : list (list N * N)) :
  forall masks, length (fold_left (copy_entry offsets) entries masks) = length masks.
Proof.
  induction entries as [|e entries IH]; intros masks; cbn [fold_left]; [reflexivity|].
  now rewrite IH, copy_length.
Qed.

Lemma fold_copy_outside (entries : list (list N * N)) :
  forall (masks : list N) (j : nat),
  (forall e, e ∈ entries ->
     (j < position e \/ position e + length (fst e) <= j)%nat) ->
  fold_left (copy_entry offsets) entries masks !! j = masks !! j.
Proof.
  induction entries as [|e entries IH]; intros masks j Hout; cbn [fold_left];
    [reflexivity|].
  rewrite IH by (intros e' He'; apply Hout; now right).
  apply copy_lookup_outside, Hout. now left.
Qed.

Lemma fold_copy_inside (entries : list (list N * N)) :
  forall masks : list N,
  NoDup (map snd entries) ->
  (forall e e', e ∈ entries -> e' ∈ entries -> snd e <> snd e' ->
     (position e + length (fst e) <= position e' \/
      position e' + length (fst e') <= position e)%nat) ->
  (forall e, e ∈ entries -> (position e + length (fst e) <= length masks)%nat) ->
  forall (e : list N * N) (t : nat),
  e ∈ entries -> (t < length (fst e))%nat ->
  fold_left (copy_entry offsets) entries masks !! (position e + t)%nat = fst e !! t.
Proof.
  induction entries as [|e0 entries IH]; intros masks Hnd Hdisjoint Hfit e t Hin Ht;
    [now apply elem_of_nil in Hin|].
  cbn [fold_left]. cbn [map] in Hnd. apply NoDup_cons in Hnd as [Hfresh Hnd].
  apply elem_of_cons in Hin as [->|Hin].
  - rewrite fold_copy_outside.
    + apply copy_lookup_inside; [apply Hfit; now left|exact Ht].
    + intros e' He'.
      assert (snd e0 <> snd e') as Hne.
      { intros Heq. apply Hfresh. rewrite Heq.
        apply list_elem_of_In, in_map, list_elem_of_In, He'. }
      destruct (Hdisjoint e0 e') as [H|H]; [now left|now right|exact Hne| |]; lia.
  - apply IH; try assumption.
    + intros a b Ha Hb. apply Hdisjoint; now right.
    + intros a Ha. rewrite copy_length. apply Hfit. now right.
Qed.

End Copies.

Lemma arrays_round_trip (entries : list (list N * N)) (s : nat) :
  NoDup (map snd entries) ->
  (forall e, e ∈ entries -> (N.to_nat (snd e) <= s)%nat) ->
  (sumN (lengths entries) < 4294967296)%N ->
  let turn_lane_offsets :=
    partial_sum (fold_left set_length entries (replicate (s + 2) 0%N)) in
  let turn_lane_masks :=
    fold_left (copy_entry turn_lane_offsets) entries
      (replicate (N.to_nat (default 0%N (last turn_lane_offsets))) 0%N) in
  forall (desc : list N) (id : N),
  (desc, id) ∈ entries -> id <> INVALID_LANE_DESCRIPTIONID ->
  GetTurnDescription turn_lane_offsets turn_lane_masks id = desc.
Proof.
  intros Hnd Hids Htotal.
  set (off0 := fold_left set_length entries (replicate (s + 2) 0%N)).
  assert (length off0 = (s + 2)%nat) as Hlen0
    by (unfold off0; now rewrite fold_set_length_length, length_replicate).
  assert (sumN off0 < 4294967296)%N as Hsum0.
  { pose proof (fold_set_length_sum entries (replicate (s + 2) 0%N)) as H.
    rewrite sumN_replicate_0 in H. fold off0 in H. lia. }
  assert (Hlookup0 : forall d i, (d, i) ∈ entries ->
            off0 !! S (N.to_nat i) = Some (N.of_nat (length d))).
  { intros d i Hin. replace (S (N.to_nat i)) with (N.to_nat (i + 1)) by lia.
    unfold off0. rewrite (fold_set_length_lookup entries d i); [|exact Hnd|exact Hin|].
    - f_equal. unfold wrap32. apply N.mod_small.
      assert (N.of_nat (length d) ∈ lengths entries) as Hel.
      { apply list_elem_of_In.
        apply (in_map (fun entry : list N * N => N.of_nat (length (fst entry)))
                 entries (d, i)).
        now apply list_elem_of_In. }
      apply sumN_elem in Hel. lia.
    - rewrite length_replicate. specialize (Hids _ Hin). cbn in Hids. lia. }
  intros offsets masks. 
  assert (Hoff : forall j, (j < s + 2)%nat ->
            offsets !! j = Some (sumN (take (S j) off0))).
  { intros j Hj. unfold offsets. fold off0. apply partial_sum_lookup; [exact Hsum0|lia]. }
  assert (Hfirst : forall d i, (d, i) ∈ entries ->
            N.to_nat (default 0%N (offsets !! N.to_nat i)) =
            N.to_nat (sumN (take (S (N.to_nat i)) off0))).
  { intros d i Hin. specialize (Hids _ Hin). cbn in Hids.
    rewrite Hoff by lia. reflexivity. }
  assert (Hlast : forall d i, (d, i) ∈ entries ->
            N.to_nat (default 0%N (offsets !! N.to_nat (i + 1))) =
            (N.to_nat (sumN (take (S (N.to_nat i)) off0)) + length d)%nat).
  { intros d i Hin. pose proof (Hids _ Hin) as Hi. cbn in Hi.
    replace (N.to_nat (i + 1)) with (S (N.to_nat i)) by lia.
    rewrite Hoff by lia. cbn [default from_option id].
    rewrite (sumN_take_S off0 (S (N.to_nat i)) _ (Hlookup0 d i Hin)).
    lia. }
  assert (length masks = N.to_nat (sumN off0)) as Hmasks.
  { unfold masks. rewrite fold_copy_length, length_replicate.
    rewrite last_lookup. unfold offsets at 1. fold off0.
    rewrite partial_sum_length, Hlen0.
    replace (Init.Nat.pred (s + 2)) with (s + 1)%nat by lia.
    rewrite Hoff by lia. cbn [default from_option id].
    replace (S (s + 1)) with (length off0) by lia. now rewrite firstn_all. }
  assert (Hfit : forall e, e ∈ entries ->
            (N.to_nat (default 0%N (offsets !! N.to_nat (snd e))) + length (fst e)
             <= length masks)%nat).
  { intros [d i] Hin. cbn [fst snd]. rewrite (Hfirst d i Hin), Hmasks.
    pose proof (sumN_take_S off0 (S (N.to_nat i)) _ (Hlookup0 d i Hin)) as H1.
    pose proof (sumN_take off0 (S (S (N.to_nat i)))) as H2. lia. }
  assert (Hdisjoint : forall e e', e ∈ entries -> e' ∈ entries -> snd e <> snd e' ->
            (N.to_nat (default 0%N (offsets !! N.to_nat (snd e))) + length (fst e)
               <= N.to_nat (default 0%N (offsets !! N.to_nat (snd e'))) \/
             N.to_nat (default 0%N (offsets !! N.to_nat (snd e'))) + length (fst e')
               <= N.to_nat (default 0%N (offsets !! N.to_nat (snd e))))%nat).
  { intros [d i] [d' i'] Hin Hin' Hne. cbn [fst snd] in *.
    rewrite (Hfirst d i Hin), (Hfirst d' i' Hin').
    pose proof (sumN_take_S off0 (S (N.to_nat i)) _ (Hlookup0 d i Hin)) as H1.
    pose proof (sumN_take_S off0 (S (N.to_nat i')) _ (Hlookup0 d' i' Hin')) as H1'.
    destruct (N.lt_total i i') as [Hlt|[Heq|Hgt]]; [|contradiction|].
    - left. pose proof (sumN_take_le off0 (S (S (N.to_nat i))) (S (N.to_nat i'))) as H2.
      lia.
    - right. pose proof (sumN_take_le off0 (S (S (N.to_nat i'))) (S (N.to_nat i))) as H2.
      lia. }
  intros desc id Hin Hvalid. unfold GetTurnDescription.
  apply N.eqb_neq in Hvalid. rewrite Hvalid.
  rewrite (Hlast desc id Hin), (Hfirst desc id Hin).
  replace (N.to_nat (sumN (take (S (N.to_nat id)) off0)) + length desc -
           N.to_nat (sumN (take (S (N.to_nat id)) off0)))%nat with (length desc) by lia.
  apply list_eq. intros t. rewrite lookup_take. case_decide as Ht.
  - rewrite lookup_drop.
    rewrite <- (Hfirst desc id Hin).
    apply (fold_copy_inside offsets entries _ Hnd Hdisjoint) with (e := (desc, id));
      [|exact Hin|exact Ht].
    intros e He. rewrite length_replicate.
    specialize (Hfit e He). unfold masks in Hfit.
    now rewrite fold_copy_length, length_replicate in Hfit.
  - symmetry. apply lookup_ge_None. lia.
Qed.

(** X13: The arrays that the extractor makes of the map of the lane
    descriptions give every description back: the facade returns, for the
    id of a description, that description. *)
Theorem lane_description_arrays_round_trip (turn_lane_map : LaneDescriptionMap)
    (description : list N) (id : N) :
  (forall d1 d2 i, turn_lane_map !! d1 = Some i -> turn_lane_map !! d2 = Some i -> d1 = d2) ->
  (forall d i, turn_lane_map !! d = Some i -> (N.to_nat i <= size turn_lane_map)%nat) ->
  (number_of_masks turn_lane_map < 4294967296)%N ->
  turn_lane_map !! description = Some id ->
  id <> INVALID_LANE_DESCRIPTIONID ->
  let '(turn_lane_offsets, turn_lane_masks) :=
    transformTurnLaneMapIntoArrays turn_lane_map in
  GetTurnDescription turn_lane_offsets turn_lane_masks id = description.
Proof.
  intros Hinj Hids Htotal Hin Hvalid. unfold transformTurnLaneMapIntoArrays.
  apply (arrays_round_trip (map_to_list turn_lane_map) (size turn_lane_map)).
  - change (map snd (map_to_list turn_lane_map)) with (snd <$> map_to_list turn_lane_map).
    apply NoDup_fmap_2_strong; [|apply NoDup_map_to_list].
    intros [d1 i1] [d2 i2] H1 H2 Heq. cbn in Heq. subst i2.
    apply elem_of_map_to_list in H1, H2. now rewrite (Hinj _ _ _ H1 H2).
  - intros [d i] He. apply elem_of_map_to_list in He. exact (Hids d i He).
  - exact Htotal.
  - now apply elem_of_map_to_list.
  - exact Hvalid.
Qed.

End LaneArrays.

Section ExtractorWitnesses.
Import Typedefs Exceptions Extractor DataFacade.

(** Three edges, of which the first and the last are start points. *)
Lemma BuildRTree_keeps_startpoints_witness :
  let edges := [10; 20; 30]%N in
  let flags := [true; false; true] in
  length flags = length edges /\
  match BuildRTree edges flags with
  | Ok kept => kept = startpoints edges flags /\ kept <> []
  | Throw _ => startpoints edges flags = []
  end.
Proof.
  intros edges flags. split; [reflexivity|].
  apply (BuildRTree_keeps_startpoints edges flags). reflexivity.
Defined.

(** Two descriptions: of one lane with the id 0 and of two lanes with the
    id 1. *)
Lemma lane_description_arrays_round_trip_witness :
  let turn_lane_map : LaneDescriptionMap := <[[4%N] := 0%N]> (<[[1; 2]%N := 1%N]> ∅) in
  turn_lane_map !! [1; 2]%N = Some 1%N /\
  let '(turn_lane_offsets, turn_lane_masks) :=
    transformTurnLaneMapIntoArrays turn_lane_map in
  GetTurnDescription turn_lane_offsets turn_lane_masks 1 = [1; 2]%N.
Proof.
  intros turn_lane_map.
  assert (Hentries : forall d i, turn_lane_map !! d = Some i ->
            (d = [4%N] /\ i = 0%N) \/ (d = [1; 2]%N /\ i = 1%N)).
  { intros d i H. unfold turn_lane_map in H.
    apply lookup_insert_Some in H as [[<- <-]|[_ H]]; [now left|].
    apply lookup_insert_Some in H as [[<- <-]|[_ H]]; [now right|].
    now apply lookup_empty_Some in H. }
  assert (size turn_lane_map = 2%nat) as Hsize by (vm_compute; reflexivity).
  assert (turn_lane_map !! [1; 2]%N = Some 1%N) as Hin by (vm_compute; reflexivity).
  split; [exact Hin|].
  apply (lane_description_arrays_round_trip turn_lane_map [1; 2]%N 1).
  - intros d1 d2 i H1 H2.
    destruct (Hentries _ _ H1) as [[-> ->]|[-> ->]],
             (Hentries _ _ H2) as [[-> Hi]|[-> Hi]];
      try reflexivity; discriminate Hi.
  - intros d i H. rewrite Hsize. destruct (Hentries _ _ H) as [[_ ->]|[_ ->]]; cbn; lia.
  - vm_compute. reflexivity.
  - exact Hin.
  - discriminate.
Defined.

End ExtractorWitnesses.

Section GuidanceIntersections.
Import Typedefs Guidance.
Context {toolkit : Toolkit}.

(** The intersections of the steps that the closing sweep keeps. *)
#[local] Abbreviation passed steps :=
  (concat (map intersections (removeNoTurnInstructions steps))).

Lemma passed_cons (step : RouteStep) (steps : list RouteStep) :
  passed (step :: steps) =
  (if not_is_valid step then [] else intersections step) ++ passed steps.
Proof. unfold removeNoTurnInstructions. cbn. now destruct (not_is_valid step). Qed.

Lemma passed_app (before after : list RouteStep) :
  passed (before ++ after) = passed before ++ passed after.
Proof.
  unfold removeNoTurnInstructions. now rewrite List.filter_app, map_app, concat_app.
Qed.

Lemma passed_valid (steps : list RouteStep) :
  Forall (fun step => not_is_valid step = false) steps ->
  passed steps = concat (map intersections steps).
Proof.
  induction 1 as [|step steps Hv _ IH]; [reflexivity|].
  rewrite passed_cons, Hv, IH. reflexivity.
Qed.

(** Replacing the step at a position. *)
Lemma passed_insert (steps : list RouteStep) (i : nat) (old new : RouteStep) :
  steps !! i = Some old ->
  passed steps =
    passed (take i steps) ++ (if not_is_valid old then [] else intersections old) ++
    passed (drop (S i) steps) /\
  passed (<[i := new]> steps) =
    passed (take i steps) ++ (if not_is_valid new then [] else intersections new) ++
    passed (drop (S i) steps).
Proof.
  intros Hi. split.
  - rewrite <- (take_drop_middle _ _ _ Hi) at 1. now rewrite passed_app, passed_cons.
  - rewrite insert_take_drop by (eapply lookup_lt_Some; exact Hi).
    now rewrite passed_app, passed_cons.
Qed.

Lemma passed_replace (steps : list RouteStep) (i : nat) (old new : RouteStep) :
  steps !! i = Some old ->
  not_is_valid new = not_is_valid old -> intersections new = intersections old ->
  passed (<[i := new]> steps) = passed steps.
Proof.
  intros Hi Hv Hx. destruct (passed_insert steps i old new Hi) as [-> ->].
  now rewrite Hv, Hx.
Qed.

(** Merging the step at [j] into an earlier one, and marking it for the
    sweep. *)
Lemma passed_merge (steps : list RouteStep) (i j : nat) (a b merged marked : RouteStep) :
  (i < j)%nat -> steps !! i = Some a -> steps !! j = Some b ->
  not_is_valid a = false -> not_is_valid b = false -> not_is_valid merged = false ->
  intersections merged ≡ₚ intersections a ++ intersections b ->
  not_is_valid marked = true ->
  passed (<[j := marked]> (<[i := merged]> steps)) ≡ₚ passed steps.
Proof.
  intros Hij Hi Hj Ha Hb Hm Hperm Hx.
  assert (<[i := merged]> steps !! j = Some b) as Hj'
    by (rewrite list_lookup_insert_ne by lia; exact Hj).
  destruct (passed_insert (<[i := merged]> steps) j b marked Hj') as [_ ->].
  destruct (passed_insert steps j b b Hj) as [-> _].
  rewrite Hx, Hb. cbn [app].
  rewrite take_insert_lt by exact Hij. rewrite drop_insert_lt by lia.
  assert (take j steps !! i = Some a) as Hi'.
  { rewrite lookup_take, decide_True by exact Hij. exact Hi. }
  destruct (passed_insert (take j steps) i a merged Hi') as [-> ->].
  rewrite Ha, Hm, Hperm. rewrite <- !app_assoc.
  apply Permutation_app_head, Permutation_app_head.
  rewrite !app_assoc. apply Permutation_app_tail.
  apply Permutation_app_comm.
Qed.

Lemma elongate_valid (step by_step : RouteStep) :
  not_is_valid step = false -> not_is_valid by_step = false ->
  not_is_valid (elongate step by_step) = false.
Proof. unfold elongate, not_is_valid. now destruct (N.eqb _ _). Qed.

Lemma elongate_intersections (step by_step : RouteStep) :
  intersections (elongate step by_step) ≡ₚ intersections step ++ intersections by_step.
Proof.
  unfold elongate. destruct (N.eqb _ _); cbn [intersections]; [reflexivity|].
  apply Permutation_app_comm.
Qed.

Lemma step_at_lookup (steps : list RouteStep) (i : nat) (step : RouteStep) :
  steps !! i = Some step -> step_at steps i = step.
Proof. unfold step_at. now intros ->. Qed.

Lemma typed_is_valid (step : RouteStep) :
  type (instruction (maneuver step)) <> NoTurn -> not_is_valid step = false.
Proof.
  intros Ht. destruct (not_is_valid step) eqn:H; [|reflexivity].
  apply not_is_valid_spec in H as [H _]. rewrite H in Ht. now contradiction Ht.
Qed.

(** *** [buildIntersections] *)

Section Build.
Variable steps : list RouteStep.
Hypothesis steps_valid : Forall (fun step => not_is_valid step = false) steps.
Hypothesis suppressed_inside :
  Forall (fun step => type (instruction (maneuver step)) = Suppressed ->
                      waypoint_type (maneuver step) = None') steps.
Hypothesis departs : type (instruction (maneuver (step_at steps 0))) <> Suppressed.

Lemma build_loop (m : nat) :
  forall (k : nat) (cur : list RouteStep) (last_valid_instruction : nat),
  (k + m = length steps)%nat ->
  length cur = length steps ->
  (forall i, (k <= i)%nat -> cur !! i = steps !! i) ->
  (last_valid_instruction = 0 \/ last_valid_instruction < k)%nat ->
  ((0 < length steps)%nat -> not_is_valid (step_at cur last_valid_instruction) = false) ->
  passed cur ≡ₚ passed steps ->
  passed (fst (fold_left build_at (seq k m) (cur, last_valid_instruction))) ≡ₚ
  passed steps.
Proof.
  induction m as [|m IH]; intros k cur lv Hk Hlen Hrest Hlv Hvalid Hperm;
    [exact Hperm|].
  cbn [seq fold_left].
  assert (k < length steps)%nat as Hkl by lia.
  destruct (lookup_lt_is_Some_2 steps k Hkl) as [sk Hsk].
  assert (cur !! k = Some sk) as Hck by (rewrite Hrest by lia; exact Hsk).
  pose proof (Forall_lookup_1 _ _ _ _ steps_valid Hsk) as Hskv. cbn beta in Hskv.
  assert (lv < length cur)%nat as Hlvl by lia.
  destruct (lookup_lt_is_Some_2 cur lv Hlvl) as [a Ha].
  assert (not_is_valid a = false) as Hav
    by (rewrite <- (step_at_lookup _ _ _ Ha); apply Hvalid; lia).
  unfold build_at at 2. rewrite (step_at_lookup _ _ _ Hck).
  destruct (bool_decide (type (instruction (maneuver sk)) = Suppressed)) eqn:Hs.
  - apply bool_decide_eq_true in Hs.
    assert (k <> 0)%nat as Hk0.
    { intros ->. apply departs. now rewrite (step_at_lookup _ _ _ Hsk). }
    assert (lv < k)%nat as Hlt by lia.
    unfold update_step at 2. rewrite (step_at_lookup _ _ _ Ha).
    unfold update_step.
    assert (<[lv := elongate a sk]> cur !! k = Some sk) as Hck'
      by (rewrite list_lookup_insert_ne by lia; exact Hck).
    rewrite (step_at_lookup _ _ _ Hck').
    apply IH.
    + lia.
    + now rewrite !length_insert.
    + intros i Hi. rewrite !list_lookup_insert_ne by lia. apply Hrest. lia.
    + lia.
    + intros _. rewrite (step_at_lookup _ _ (elongate a sk)).
      * now apply elongate_valid.
      * rewrite list_lookup_insert_ne by lia. apply list_lookup_insert_eq. lia.
    + etransitivity; [|exact Hperm].
      apply (passed_merge cur lv k a sk); try assumption.
      * now apply elongate_valid.
      * apply elongate_intersections.
      * apply not_is_valid_spec. split; [reflexivity|].
        cbn. exact (Forall_lookup_1 _ _ _ _ suppressed_inside Hsk Hs).
  - apply bool_decide_eq_false in Hs.
    destruct (isSilent (instruction (maneuver sk))); cbn [negb].
    + apply IH; try assumption; try lia.
      intros i Hi. apply Hrest. lia.
    + assert (not_is_valid (set_type sk Turn) = false) as Htv
        by (apply typed_is_valid; cbn; discriminate).
      destruct (bool_decide (type (instruction (maneuver sk)) = EndOfRoad) &&
                Nat.ltb (length (intersections (step_at cur lv)))
                  MIN_END_OF_ROAD_INTERSECTIONS).
      * unfold update_step. rewrite (step_at_lookup _ _ _ Hck). apply IH.
        -- lia.
        -- now rewrite length_insert.
        -- intros i Hi. rewrite list_lookup_insert_ne by lia. apply Hrest. lia.
        -- lia.
        -- intros _. rewrite (step_at_lookup _ _ (set_type sk Turn)); [exact Htv|].
           apply list_lookup_insert_eq. lia.
        -- rewrite (passed_replace cur k sk); [exact Hperm|exact Hck| |reflexivity].
           now rewrite Htv, Hskv.
      * apply IH; try assumption; try lia.
        -- intros i Hi. apply Hrest. lia.
        -- intros _. now rewrite (step_at_lookup _ _ _ Hck).
Qed.

End Build.

(** X14: [buildIntersections] neither loses an intersection nor makes one up:
    the intersections of the steps it returns are those of the steps it
    was given, when none of these is swept, the first is not suppressed
    and the suppressed ones are no waypoints. *)
Theorem buildIntersections_keeps_intersections (steps : list RouteStep) :
  Forall (fun step => not_is_valid step = false) steps ->
  Forall (fun step => type (instruction (maneuver step)) = Suppressed ->
                      waypoint_type (maneuver step) = None') steps ->
  type (instruction (maneuver (step_at steps 0))) <> Suppressed ->
  concat (map intersections (buildIntersections steps)) ≡ₚ
  concat (map intersections steps).
Proof.
  intros Hvalid Hinside Hdeparts. unfold buildIntersections, buildIntersections_in_place.
  rewrite <- (passed_valid steps Hvalid).
  apply (build_loop steps Hvalid Hinside Hdeparts (length steps) 0 steps 0).
  - reflexivity.
  - reflexivity.
  - reflexivity.
  - now left.
  - intros Hlen. destruct steps as [|s steps']; [cbn in Hlen; lia|].
    now inversion Hvalid.
  - reflexivity.
Qed.

(** *** [collapseUseLane] *)

Lemma skip_NoTurn_spec (steps : list RouteStep) (index : nat) :
  (skip_NoTurn steps index <= index)%nat /\
  (skip_NoTurn steps index = 0%nat \/
   is_type (step_at steps (skip_NoTurn steps index)) NoTurn = false).
Proof.
  induction index as [|index IH]; cbn [skip_NoTurn]; [split; [lia|now left]|].
  destruct (is_type (step_at steps (S index)) NoTurn) eqn:Ht.
  - destruct IH as [H1 H2]. split; [lia|exact H2].
  - split; [lia|now right].
Qed.

Section UseLane.
Variable steps : list RouteStep.
Hypothesis steps_valid : Forall (fun step => not_is_valid step = false) steps.

Lemma use_lane_loop (m : nat) :
  forall (k : nat) (cur : list RouteStep),
  (1 <= k)%nat -> (k + m <= length steps)%nat ->
  length cur = length steps ->
  (forall i, (k <= i)%nat -> cur !! i = steps !! i) ->
  not_is_valid (step_at cur 0) = false ->
  passed cur ≡ₚ passed steps ->
  passed (fold_left use_lane_at (seq k m) cur) ≡ₚ passed steps.
Proof.
  induction m as [|m IH]; intros k cur Hk1 Hk Hlen Hrest Hfirst Hperm; [exact Hperm|].
  cbn [seq fold_left].
  assert (k < length steps)%nat as Hkl by lia.
  destruct (lookup_lt_is_Some_2 steps k Hkl) as [sk Hsk].
  assert (cur !! k = Some sk) as Hck by (rewrite Hrest by lia; exact Hsk).
  pose proof (Forall_lookup_1 _ _ _ _ steps_valid Hsk) as Hskv. cbn beta in Hskv.
  unfold use_lane_at at 2. rewrite (step_at_lookup _ _ _ Hck).
  destruct (is_type sk UseLane &&
            canCollapeUseLane (lanes (front (intersections sk)))
              (lane_description (front (intersections sk)))).
  - cbv zeta. unfold getPreviousIndex.
    destruct (skip_NoTurn_spec cur (k - 1)) as [Hp1 Hp2].
    set (previous := skip_NoTurn cur (k - 1)) in *.
    assert (previous < k)%nat as Hpk by lia.
    assert (previous < length cur)%nat as Hpl by lia.
    destruct (lookup_lt_is_Some_2 cur previous Hpl) as [a Ha].
    assert (not_is_valid a = false) as Hav.
    { destruct Hp2 as [Hp0|Hp2].
      - rewrite Hp0 in Ha. now rewrite <- (step_at_lookup _ _ _ Ha).
      - rewrite (step_at_lookup _ _ _ Ha) in Hp2. apply typed_is_valid.
        unfold is_type in Hp2. now apply bool_decide_eq_false in Hp2. }
    unfold invalidate, update_step. rewrite (step_at_lookup _ _ _ Ha).
    apply IH.
    + lia.
    + lia.
    + now rewrite !length_insert.
    + intros i Hi. rewrite !list_lookup_insert_ne by lia. apply Hrest. lia.
    + destruct (decide (previous = 0%nat)) as [Hp0|Hp0].
      * rewrite (step_at_lookup _ _ (elongate a sk)); [now apply elongate_valid|].
        rewrite list_lookup_insert_ne by lia. rewrite Hp0.
        apply list_lookup_insert_eq. lia.
      * unfold step_at. rewrite !list_lookup_insert_ne by lia. exact Hfirst.
    + etransitivity; [|exact Hperm].
      apply (passed_merge cur previous k a sk); try assumption.
      * now apply elongate_valid.
      * apply elongate_intersections.
      * reflexivity.
  - apply IH; try assumption; try lia.
    intros i Hi. apply Hrest. lia.
Qed.

End UseLane.

(** X15: [collapseUseLane] neither loses an intersection nor makes one up, when
    none of the steps it is given is swept. *)
Theorem collapseUseLane_keeps_intersections (steps : list RouteStep) :
  Forall (fun step => not_is_valid step = false) steps ->
  concat (map intersections (collapseUseLane steps)) ≡ₚ
  concat (map intersections steps).
Proof.
  intros Hvalid. unfold collapseUseLane, collapseUseLane_in_place.
  rewrite <- (passed_valid steps Hvalid).
  destruct steps as [|s steps']; [reflexivity|].
  apply (use_lane_loop (s :: steps') Hvalid).
  - lia.
  - cbn [length]. lia.
  - reflexivity.
  - reflexivity.
  - now inversion Hvalid.
  - reflexivity.
Qed.

(** *** [postProcess] away from roundabouts *)

Lemma scan_loop_unchanged (steps : list RouteStep) (indices : list nat) :
  Forall (fun step =>
            entersRoundabout (instruction (maneuver step)) = false /\
            type (instruction (maneuver step)) <> StayOnRoundabout /\
            leavesRoundabout (instruction (maneuver step)) = false) steps ->
  Forall (fun i => (i < length steps)%nat) indices ->
  fold_left scan_at indices
    {| scan_steps := steps; on_roundabout := false; has_entered_roundabout := false |} =
  {| scan_steps := steps; on_roundabout := false; has_entered_roundabout := false |}.
Proof.
  intros Hsteps. induction 1 as [|i indices Hi _ IH]; [reflexivity|].
  cbn [fold_left]. rewrite <- IH at 2. f_equal.
  destruct (lookup_lt_is_Some_2 steps i Hi) as [s Hs].
  destruct (Forall_lookup_1 _ _ _ _ Hsteps Hs) as (H1 & H2 & H3).
  unfold scan_at. cbn [scan_steps on_roundabout has_entered_roundabout].
  rewrite (step_at_lookup _ _ _ Hs), H1, H3.
  rewrite (bool_decide_eq_false_2 _ H2). reflexivity.
Qed.

(** X16: [postProcess] changes nothing in a leg none of whose steps enters,
    follows or leaves a roundabout: it returns the steps that its closing
    sweep keeps, and a leg of two steps as it is. *)
Theorem postProcess_away_from_roundabouts (steps : list RouteStep) :
  Forall (fun step =>
            entersRoundabout (instruction (maneuver step)) = false /\
            type (instruction (maneuver step)) <> StayOnRoundabout /\
            leavesRoundabout (instruction (maneuver step)) = false) steps ->
  postProcess steps =
  if Nat.eqb (length steps) 2 then steps else removeNoTurnInstructions steps.
Proof.
  intros Hsteps. unfold postProcess, postProcess_in_place.
  rewrite scan_loop_unchanged; [reflexivity|exact Hsteps|].
  apply Forall_forall. intros i Hi. apply elem_of_seq in Hi. lia.
Qed.

End GuidanceIntersections.

Section GuidanceIntersectionWitnesses.
Import Typedefs Guidance GuidanceLegs.

#[local] Existing Instance reference_toolkit.

(** The theorem at [crossing_leg]: the crossing is merged into the
    departure, which then has two intersections. *)
Lemma buildIntersections_keeps_intersections_witness :
  Forall (fun step => not_is_valid step = false) crossing_leg /\
  Forall (fun step => type (instruction (maneuver step)) = Suppressed ->
                      waypoint_type (maneuver step) = None') crossing_leg /\
  type (instruction (maneuver (step_at crossing_leg 0))) <> Suppressed /\
  map (fun step => length (intersections step)) (buildIntersections crossing_leg) =
    [2; 1; 1]%nat /\
  concat (map intersections (buildIntersections crossing_leg)) ≡ₚ
  concat (map intersections crossing_leg).
Proof.
  assert (Forall (fun step => not_is_valid step = false) crossing_leg) as H1
    by (repeat constructor).
  assert (Forall (fun step => type (instruction (maneuver step)) = Suppressed ->
                              waypoint_type (maneuver step) = None') crossing_leg) as H2
    by (repeat constructor; cbn; try reflexivity; discriminate).
  assert (type (instruction (maneuver (step_at crossing_leg 0))) <> Suppressed) as H3
    by (cbn; discriminate).
  split; [exact H1|]. split; [exact H2|]. split; [exact H3|].
  split; [vm_compute; reflexivity|].
  apply (buildIntersections_keeps_intersections crossing_leg H1 H2 H3).
Defined.

(** The theorem at [lane_leg]: the step with the lanes is merged into the
    departure. *)
Lemma collapseUseLane_keeps_intersections_witness :
  Forall (fun step => not_is_valid step = false) lane_leg /\
  map (fun step => length (intersections step)) (collapseUseLane lane_leg) =
    [2; 1; 1]%nat /\
  concat (map intersections (collapseUseLane lane_leg)) ≡ₚ
  concat (map intersections lane_leg).
Proof.
  assert (Forall (fun step => not_is_valid step = false) lane_leg) as H1
    by (repeat constructor).
  split; [exact H1|]. split; [vm_compute; reflexivity|].
  apply (collapseUseLane_keeps_intersections lane_leg H1).
Defined.

(** The theorem at [oscillation_leg], which has four steps and no
    roundabout. *)
Lemma postProcess_away_from_roundabouts_witness :
  Forall (fun step =>
            entersRoundabout (instruction (maneuver step)) = false /\
            type (instruction (maneuver step)) <> StayOnRoundabout /\
            leavesRoundabout (instruction (maneuver step)) = false) oscillation_leg /\
  postProcess oscillation_leg = removeNoTurnInstructions oscillation_leg.
Proof.
  assert (Forall (fun step =>
            entersRoundabout (instruction (maneuver step)) = false /\
            type (instruction (maneuver step)) <> StayOnRoundabout /\
            leavesRoundabout (instruction (maneuver step)) = false) oscillation_leg) as H1
    by (repeat constructor; cbn; discriminate).
  split; [exact H1|].
  exact (postProcess_away_from_roundabouts oscillation_leg H1).
Defined.

End GuidanceIntersectionWitnesses.

Section LegInvariant.
Import Typedefs Guidance.
Context {toolkit : Toolkit}.

(** *** The sweep keeps the greatest list of valid steps *)




(** *** Steps that keep their shape *)








(** *** [buildIntersections] *)

Section BuildShape.
Variable steps : list RouteStep.
Hypothesis shaped : leg_shape steps = true.
Hypothesis linked : chained steps = true.
Hypothesis departs : type (instruction (maneuver (step_at steps 0))) <> Suppressed.
Hypothesis arrives :
  type (instruction (maneuver (step_at steps (length steps - 1)))) <> Suppressed.
Hypothesis announced :
  forall i step, (0 < i < length steps - 1)%nat -> steps !! i = Some step ->
    type (instruction (maneuver step)) = Suppressed \/
    isSilent (instruction (maneuver step)) = false.



End BuildShape.

(** *** [collapseUseLane] *)


Section UseLaneShape.
Variable steps : list RouteStep.
Hypothesis shaped : leg_shape steps = true.
Hypothesis linked : chained steps = true.
Hypothesis arrives :
  type (instruction (maneuver (step_at steps (length steps - 1)))) <> UseLane.
Hypothesis swept :
  forall i step, (0 < i < length steps - 1)%nat -> steps !! i = Some step ->
    type (instruction (maneuver step)) <> NoTurn.



End UseLaneShape.


End LegInvariant.

Section LegInvariantScenarios.
Import Typedefs Guidance GuidanceLegs.
#[local] Existing Instance reference_toolkit.



End LegInvariantScenarios.

Section ParametersGrammarFacts.
Import ParametersGrammar.

Lemma equal_prefix (range other : list ascii) :
  equal range other = true <-> range `prefix_of` other.
Proof.
  revert other. induction range as [|c range IH]; intros other.
  - split; [intros _; apply prefix_nil|reflexivity].
  - destruct other as [|d other]; cbn [equal].
    + split; [discriminate|]. intros H. now apply prefix_nil_inv in H.
    + rewrite andb_true_iff, IH, Ascii.eqb_eq. split.
      * intros [-> H]. now apply prefix_cons.
      * intros H. split; [now apply prefix_cons_inv_1 in H|now apply prefix_cons_inv_2 in H].
Qed.

(** X17: [parse_dot] takes a dot, and nothing but the dot, exactly when the
    input begins with a dot that the format does not follow; otherwise it
    takes nothing. *)
Theorem parse_dot_refuses_format (fmt input : list ascii) :
  (forall rest, parse_dot fmt input = (true, rest) <->
     input = "."%char :: rest /\ ~ fmt `prefix_of` rest) /\
  (forall rest, parse_dot fmt input = (false, rest) -> rest = input).
Proof.
  split; intros rest; unfold parse_dot.
  - destruct input as [|c tail].
    + split; [discriminate|]. intros [H _]. discriminate H.
    + destruct (Ascii.eqb_spec c ".") as [->|Hc]; cbn [negb].
      * destruct (equal fmt tail) eqn:He.
        -- assert (Nat.ltb (length fmt) (length ("."%char :: tail)) = true) as ->.
           { apply equal_prefix, prefix_length in He. apply Nat.ltb_lt. cbn. lia. }
           cbn [andb]. split; [discriminate|]. intros [[= ->] Hn].
           contradiction Hn. now apply equal_prefix.
        -- rewrite andb_false_r. split.
           ++ intros [= ->]. split; [reflexivity|].
              intros Hp. apply equal_prefix in Hp. congruence.
           ++ now intros [[= ->] _].
      * split; [discriminate|]. intros [[= -> _] _]. now contradiction Hc.
  - destruct input as [|c tail]; [now intros [= <-]|].
    destruct (negb (Ascii.eqb c ".")); [now intros [= <-]|].
    destruct (Nat.ltb _ _ && equal fmt tail); [now intros [= <-]|discriminate].
Qed.

End ParametersGrammarFacts.

Section ToolsFacts.
Import Tools.

(** X18: Neither tool starts its work unless the command line parses, asks for
    neither the version nor the help text, names an input that is a
    regular file and asks for at least one thread; osrm-extract wants its
    profile to be a regular file as well. *)
Theorem tools_run_on_checked_input (cl : CommandLine) (env : Environment)
    (path : string) (threads : N) :
  (contract_main cl env = Runs path threads <->
     parse_throws cl = false /\ has_version cl = false /\ has_help cl = false /\
     input cl = Some path /\ is_regular_file env path = true /\
     threads = requested_num_threads cl /\ (1 <= threads)%N) /\
  (extract_main cl env = Runs path threads <->
     contract_main cl env = Runs path threads /\
     is_regular_file env (profile_path cl) = true).
Proof.
  unfold extract_main, contract_main, extract_parseArguments, contract_parseArguments,
    count_input, input_path.
  destruct (parse_throws cl), (has_version cl), (has_help cl), (input cl) as [p|];
    cbn; try (intuition discriminate).
  destruct (N.ltb_spec (requested_num_threads cl) 1) as [Hlt|Hge]; cbn.
  { split; split; [discriminate|intros (_ & _ & _ & _ & _ & -> & H); lia|discriminate|
                   intros [H _]; discriminate H]. }
  destruct (is_regular_file env p) eqn:Hp; cbn.
  - split.
    + split; [intros [= <- <-]; repeat split; trivial|].
      intros (_ & _ & _ & [= <-] & _ & -> & _). reflexivity.
    + destruct (is_regular_file env (profile_path cl)); cbn; [tauto|].
      split; [discriminate|]. intros [_ H]. discriminate H.
  - split; split; [discriminate| |discriminate|intros [H _]; discriminate H].
    intros (_ & _ & _ & [= <-] & H & _). congruence.
Qed.

(** X19: A command line without an input, which asks for neither the version
    nor the help text, makes osrm-contract fail and osrm-extract succeed:
    both print the usage text and do nothing. *)
Theorem tools_disagree_on_missing_input (cl : CommandLine) (env : Environment) :
  parse_throws cl = false -> input cl = Datatypes.None ->
  has_version cl = false -> has_help cl = false ->
  contract_main cl env = Returns EXIT_FAILURE /\
  extract_main cl env = Returns EXIT_SUCCESS.
Proof.
  intros Hp Hi Hv Hh.
  unfold extract_main, contract_main, extract_parseArguments, contract_parseArguments,
    count_input.
  rewrite Hp, Hi, Hv, Hh. split; reflexivity.
Qed.

(** The theorem at the command line that names nothing. *)
Lemma tools_disagree_on_missing_input_witness :
  let cl := {| parse_throws := false; has_version := false; has_help := false;
               input := Datatypes.None; requested_num_threads := 4%N;
               profile_path := "profile.lua" |} in
  let env := {| is_regular_file := fun _ => true |} in
  contract_main cl env = Returns EXIT_FAILURE /\ extract_main cl env = Returns EXIT_SUCCESS.
Proof.
  intros cl env.
  apply (tools_disagree_on_missing_input cl env); reflexivity.
Defined.

End ToolsFacts.

Section JsonFactoryFacts.
Import Typedefs Guidance Json JsonFactory.
Context {helpers : Helpers}.

Lemma lanes_loop (intersection : Intersection) (descriptions : list N) :
  forall result : list Value,
  (length descriptions <= 256)%nat ->
  fst (fold_left (lane_at intersection) descriptions
         (result, wrap8 (N.of_nat (length descriptions)))) =
  result ++
  imap (fun k lane_desc =>
          Object (lane_object intersection lane_desc
                    (N.of_nat (length descriptions - 1 - k)))) descriptions.
Proof.
  induction descriptions as [|d descriptions IH]; intros result Hn.
  - cbn. now rewrite app_nil_r.
  - cbn [length] in Hn. cbn [fold_left]. unfold lane_at at 2.
    assert (wrap8 (wrap8 (N.of_nat (length (d :: descriptions))) + 255) =
            N.of_nat (length descriptions)) as Hid.
    { unfold wrap8. cbn [length].
      destruct (decide (length descriptions = 255%nat)) as [H255|H255].
      - rewrite H255. reflexivity.
      - rewrite (N.mod_small (N.of_nat (S (length descriptions)))) by lia.
        replace (N.of_nat (S (length descriptions)) + 255)%N
          with (N.of_nat (length descriptions) + 1 * 256)%N by lia.
        rewrite N.Div0.mod_add. apply N.mod_small. lia. }
    rewrite Hid.
    assert (N.of_nat (length descriptions) = wrap8 (N.of_nat (length descriptions))) as Hw
      by (unfold wrap8; symmetry; apply N.mod_small; lia).
    rewrite Hw at 2. rewrite IH by lia. rewrite <- app_assoc. f_equal.
    cbn [imap app length]. f_equal.
    + do 3 f_equal. lia.
    + apply imap_ext. intros k x _. cbn. do 3 f_equal. lia.
Qed.

(** X20: [lanesFromIntersection] makes one object of every lane, from left to
    right, with the lane's indications, and marks as valid exactly the
    lanes whose number from the right lies in the range of the lanes of
    the turn. *)
Theorem lanesFromIntersection_marks_turn_lanes (intersection : Intersection)
    (k : nat) (lane_desc : N) :
  (length (lane_description intersection) <= 256)%nat ->
  lane_description intersection !! k = Some lane_desc ->
  let from_the_right := N.of_nat (length (lane_description intersection) - 1 - k) in
  let first := first_lane_from_the_right (lanes intersection) in
  length (lanesFromIntersection intersection) = length (lane_description intersection) /\
  exists lane,
    lanesFromIntersection intersection !! k = Some (Object lane) /\
    lane !! "indications"%string = Some (toJsonArray lane_desc) /\
    lane !! "valid"%string =
      Some (if bool_decide (first <= from_the_right <
                            first + lanes_in_turn (lanes intersection))%N
            then True' else False').
Proof.
  intros Hn Hk from_the_right first. unfold lanesFromIntersection.
  rewrite lanes_loop by exact Hn. cbn [app]. split; [apply length_imap|].
  exists (lane_object intersection lane_desc from_the_right). split.
  - rewrite list_lookup_imap, Hk. reflexivity.
  - unfold lane_object. fold first.
    destruct (N.leb_spec first from_the_right) as [H1|H1];
      destruct (N.ltb_spec from_the_right (first + lanes_in_turn (lanes intersection)))
        as [H2|H2]; cbn [andb].
    + rewrite bool_decide_eq_true_2 by lia.
      split; [now rewrite lookup_insert_ne, lookup_insert_eq|apply lookup_insert_eq].
    + rewrite bool_decide_eq_false_2 by lia.
      split; [now rewrite lookup_insert_ne, lookup_insert_eq|apply lookup_insert_eq].
    + rewrite bool_decide_eq_false_2 by lia.
      split; [now rewrite lookup_insert_ne, lookup_insert_eq|apply lookup_insert_eq].
    + rewrite bool_decide_eq_false_2 by lia.
      split; [now rewrite lookup_insert_ne, lookup_insert_eq|apply lookup_insert_eq].
Qed.

(** *** The legs and their geometries *)

Lemma steps_loop (route_steps : list RouteStep) :
  forall json_steps step_geometries : list Value,
  fold_left step_with_geometry route_steps (json_steps, step_geometries) =
  (json_steps ++
   imap (fun j step =>
           Object (makeRouteStep step (default Null (step_geometries !! j)))) route_steps,
   drop (length route_steps) step_geometries).
Proof.
  induction route_steps as [|step route_steps IH]; intros json_steps step_geometries.
  - cbn. now rewrite app_nil_r, drop_0.
  - cbn [fold_left]. unfold step_with_geometry at 2. rewrite IH.
    rewrite <- app_assoc. cbn [imap app length].
    destruct step_geometries as [|geometry step_geometries]; cbn [head tail default].
    + rewrite !drop_nil. f_equal.
    + reflexivity.
Qed.

Lemma steps_before_S (legs : list RouteLeg) (idx : nat) (leg : RouteLeg) :
  legs !! idx = Some leg ->
  steps_before legs (S idx) = (steps_before legs idx + length (steps leg))%nat.
Proof.
  intros H. unfold steps_before.
  rewrite (take_S_r _ _ _ H), map_app, concat_app, length_app. cbn.
  now rewrite app_nil_r.
Qed.

Lemma legs_loop (legs : list RouteLeg) (step_geometries : list Value)
    (annotations : list (gmap string Value)) (m : nat) :
  forall (k : nat) (json_legs : list Value),
  (k + m <= length legs)%nat ->
  let result :=
    fst (fold_left (leg_at legs annotations) (seq k m)
           (json_legs, drop (steps_before legs k) step_geometries)) in
  length result = (length json_legs + m)%nat /\
  (forall i, (i < length json_legs)%nat -> result !! i = json_legs !! i) /\
  (forall i leg, (k <= i < k + m)%nat -> legs !! i = Some leg ->
     result !! (length json_legs + (i - k))%nat =
     Some (json_leg legs step_geometries annotations i leg)).
Proof.
  induction m as [|m IH]; intros k json_legs Hk result.
  - subst result. cbn. split; [lia|]. split; [reflexivity|]. intros i leg Hi. lia.
  - subst result. cbn [seq fold_left].
    assert (k < length legs)%nat as Hkl by lia.
    destruct (lookup_lt_is_Some_2 legs k Hkl) as [leg Hleg].
    assert (leg_at legs annotations
              (json_legs, drop (steps_before legs k) step_geometries) k =
            (json_legs ++ [json_leg legs step_geometries annotations k leg],
             drop (steps_before legs (S k)) step_geometries)) as ->.
    { unfold leg_at, json_leg. rewrite Hleg, steps_loop. cbn [app].
      rewrite drop_drop, <- (steps_before_S legs k leg Hleg).
      assert (imap (fun j step =>
                      Object (makeRouteStep step
                                (default Null
                                   (drop (steps_before legs k) step_geometries !! j))))
                (steps leg) =
              imap (fun j step =>
                      Object (makeRouteStep step
                                (default Null
                                   (step_geometries !! (steps_before legs k + j)%nat))))
                (steps leg)) as ->.
      { apply imap_ext. intros j x _. cbn. now rewrite lookup_drop. }
      now destruct (Nat.ltb 0 (length annotations)). }
    set (made := json_leg legs step_geometries annotations k leg).
    destruct (IH (S k) (json_legs ++ [made])) as (H1 & H2 & H3); [lia|].
    rewrite length_app in H1, H2, H3. cbn [length] in H1, H2, H3.
    split; [lia|]. split.
    + intros i Hi. rewrite H2 by lia. apply lookup_app_l. exact Hi.
    + intros i leg' Hi Hleg'. destruct (decide (i = k)) as [->|Hne].
      * rewrite Nat.sub_diag, Nat.add_0_r, H2 by lia.
        rewrite Hleg in Hleg'. injection Hleg' as <-.
        rewrite lookup_app_r by lia. now rewrite Nat.sub_diag.
      * replace (length json_legs + (i - k))%nat
          with (length json_legs + 1 + (i - S k))%nat by lia.
        apply H3; [lia|exact Hleg'].
Qed.

(** X21: [makeRouteLegs] hands the geometries to the steps in their order over
    all the legs: the step [j] of the leg [i] gets the geometry at the
    number of the steps of the legs before, plus [j]. *)
Theorem makeRouteLegs_threads_geometries (legs : list RouteLeg)
    (step_geometries : list Value) (annotations : list (gmap string Value))
    (i j : nat) (leg : RouteLeg) (step : RouteStep) :
  (length (concat (map steps legs)) <= length step_geometries)%nat ->
  legs !! i = Some leg -> steps leg !! j = Some step ->
  length (makeRouteLegs legs step_geometries annotations) = length legs /\
  exists made geometry,
    makeRouteLegs legs step_geometries annotations !! i = Some made /\
    step_geometries !! (steps_before legs i + j)%nat = Some geometry /\
    steps_of made !! j = Some (Object (makeRouteStep step geometry)).
Proof.
  intros Hgeometries Hleg Hstep. unfold makeRouteLegs.
  destruct (legs_loop legs step_geometries annotations (length legs) 0 [])
    as (H1 & _ & H3); [lia|].
  unfold steps_before in H1, H3 at 1. cbn [take map concat length drop] in H1, H3.
  split; [exact H1|].
  assert (i < length legs)%nat as Hi by (eapply lookup_lt_Some; exact Hleg).
  specialize (H3 i leg ltac:(lia) Hleg). rewrite Nat.sub_0_r in H3. cbn [length] in H3.
  assert (steps_before legs i + j < length step_geometries)%nat as Hin.
  { apply lookup_lt_Some in Hstep.
    assert (steps_before legs (S i) <= length (concat (map steps legs)))%nat as Hle.
    { unfold steps_before. rewrite <- (take_drop (S i) legs) at 2.
      rewrite map_app, concat_app, length_app. lia. }
    rewrite (steps_before_S legs i leg Hleg) in Hle. lia. }
  destruct (lookup_lt_is_Some_2 step_geometries _ Hin) as [geometry Hgeometry].
  eexists _, geometry. split; [exact H3|]. split; [exact Hgeometry|].
  unfold json_leg, steps_of, member, makeRouteLeg_annotated, makeRouteLeg.
  destruct (Nat.ltb 0 (length annotations)).
  - rewrite lookup_insert_ne by discriminate. rewrite lookup_insert_eq.
    rewrite list_lookup_imap, Hstep. cbn. now rewrite Hgeometry.
  - rewrite lookup_insert_eq.
    rewrite list_lookup_imap, Hstep. cbn. now rewrite Hgeometry.
Qed.

End JsonFactoryFacts.

Section RelativeLocationFacts.
Import Typedefs Guidance Json JsonFactory RelativeLocations.
Context {helpers : Helpers} {geodesy : Geodesy}.

Lemma makeStepManeuver_modifier (maneuver : StepManeuver) :
  makeStepManeuver maneuver !! "modifier"%string =
  if isValidModifier maneuver
  then Some (String (instructionModifierToString
                       (direction_modifier (instruction maneuver))))
  else Datatypes.None.
Proof.
  unfold makeStepManeuver. cbv zeta.
  destruct (negb (N.eqb (Guidance.exit maneuver) 0));
    destruct (isValidModifier maneuver);
    destruct (bool_decide (waypoint_type maneuver = None'));
    repeat (rewrite lookup_insert_ne by discriminate);
    rewrite ?lookup_insert_eq, ?lookup_empty; reflexivity.
Qed.

(** X22: The answer has no modifier for the departure of a leg whose input
    location does not lie between 5 m and 300 m from the start of the
    geometry, and none for such an arrival; the steps between the two are
    as they were. *)
Theorem relative_location_out_of_range (steps : list RouteStep)
    (leg_geometry : LegGeometry) (source target : Coordinate) :
  (2 <= length steps)%nat ->
  let located := assignRelativeLocations steps leg_geometry source target in
  let first := step_at located 0 in
  let last := step_at located (length steps - 1) in
  let distance_to_start := haversineDistance source (location_at leg_geometry 0) in
  let distance_from_end :=
    haversineDistance target
      (location_at leg_geometry (length (locations leg_geometry) - 1)) in
  length located = length steps /\
  (forall i, (0 < i < length steps - 1)%nat -> located !! i = steps !! i) /\
  (waypoint_type (maneuver (step_at steps 0)) = Depart ->
   PrimFloat.leb MINIMAL_RELATIVE_DISTANCE distance_to_start &&
   PrimFloat.leb distance_to_start MAXIMAL_RELATIVE_DISTANCE = false ->
   makeStepManeuver (maneuver first) !! "modifier"%string = Datatypes.None) /\
  (waypoint_type (maneuver (step_at steps (length steps - 1))) = Arrive ->
   PrimFloat.leb MINIMAL_RELATIVE_DISTANCE distance_from_end &&
   PrimFloat.leb distance_from_end MAXIMAL_RELATIVE_DISTANCE = false ->
   makeStepManeuver (maneuver last) !! "modifier"%string = Datatypes.None).
Proof.
  intros Hn located first last distance_to_start distance_from_end.
  assert (0 < length steps)%nat as H0 by lia.
  destruct (lookup_lt_is_Some_2 steps 0 H0) as [s0 Hs0].
  assert (length steps - 1 < length steps)%nat as Hl by lia.
  destruct (lookup_lt_is_Some_2 steps _ Hl) as [sl Hsl].
  assert (step_at steps 0 = s0) as Hat0 by (unfold step_at; now rewrite Hs0).
  assert (step_at steps (length steps - 1) = sl) as Hatl
    by (unfold step_at; now rewrite Hsl).
  rewrite Hat0, Hatl.
  assert (exists initial_modifier final_modifier,
            located =
              <[(length steps - 1)%nat := set_modifier sl final_modifier]>
                (<[0%nat := set_modifier s0 initial_modifier]> steps) /\
            (PrimFloat.leb MINIMAL_RELATIVE_DISTANCE distance_to_start &&
             PrimFloat.leb distance_to_start MAXIMAL_RELATIVE_DISTANCE = false ->
             initial_modifier = UTurn) /\
            (PrimFloat.leb MINIMAL_RELATIVE_DISTANCE distance_from_end &&
             PrimFloat.leb distance_from_end MAXIMAL_RELATIVE_DISTANCE = false ->
             final_modifier = UTurn)) as (im & fm & Hlocated & Him & Hfm).
  { subst located. unfold assignRelativeLocations. cbv zeta.
    fold distance_to_start distance_from_end.
    eexists _, _. split.
    - unfold update_step. rewrite length_insert, Hat0. f_equal.
      unfold step_at. rewrite list_lookup_insert_ne by lia. now rewrite Hsl.
    - cbv beta. split; intros H; rewrite H; reflexivity. }
  subst first last. rewrite Hlocated. clear Hlocated located.
  split; [now rewrite !length_insert|]. split; [|split].
  - intros i Hi. rewrite !list_lookup_insert_ne by lia. reflexivity.
  - intros Hw Hd. rewrite (Him Hd). unfold step_at.
    rewrite list_lookup_insert_ne by lia. rewrite list_lookup_insert_eq by lia.
    cbn [default from_option id]. rewrite makeStepManeuver_modifier.
    unfold isValidModifier. cbn. rewrite Hw. reflexivity.
  - intros Hw Hd. rewrite (Hfm Hd). unfold step_at.
    rewrite list_lookup_insert_eq by (rewrite length_insert; lia).
    cbn [default from_option id]. rewrite makeStepManeuver_modifier.
    unfold isValidModifier. cbn. rewrite Hw. reflexivity.
Qed.

End RelativeLocationFacts.

Section FactoryWitnesses.
Import Typedefs Guidance GuidanceLegs Json JsonFactory RelativeLocations FactoryExamples.

#[local] Existing Instance example_helpers.
#[local] Existing Instance example_geodesy.

(** The theorem at the middle lane of [three_lanes], which is the lane 1
    from the right. *)
Lemma lanesFromIntersection_marks_turn_lanes_witness :
  lane_description three_lanes !! 1%nat = Some 64%N /\
  length (lanesFromIntersection three_lanes) = 3%nat /\
  exists lane,
    lanesFromIntersection three_lanes !! 1%nat = Some (Object lane) /\
    lane !! "indications"%string = Some (Array []) /\
    lane !! "valid"%string = Some True'.
Proof.
  split; [reflexivity|].
  exact (lanesFromIntersection_marks_turn_lanes three_lanes 1 64
           ltac:(cbn; lia) eq_refl).
Defined.

(** The theorem at the second step of the second of [two_legs], which is
    the sixth of all the steps. *)
Lemma makeRouteLegs_threads_geometries_witness :
  (length (concat (map steps two_legs)) <= length six_geometries)%nat /\
  length (makeRouteLegs two_legs six_geometries []) = 2%nat /\
  exists made geometry,
    makeRouteLegs two_legs six_geometries [] !! 1%nat = Some made /\
    six_geometries !! 5%nat = Some geometry /\
    steps_of made !! 1%nat = Some (Object (makeRouteStep (step_at direct_leg 1) geometry)).
Proof.
  assert (length (concat (map steps two_legs)) <= length six_geometries)%nat as H
    by (cbn; lia).
  split; [exact H|].
  exact (makeRouteLegs_threads_geometries two_legs six_geometries [] 1 1 _ _ H
           eq_refl eq_refl).
Defined.

(** The theorem at [direct_leg], whose input locations are 2 m from the
    road. *)
Lemma relative_location_out_of_range_witness :
  let located :=
    assignRelativeLocations direct_leg leg_locations
      {| lon := 0; lat := 1 |} {| lon := 10; lat := 1 |} in
  (2 <= length direct_leg)%nat /\
  length located = 2%nat /\
  makeStepManeuver (maneuver (step_at located 0)) !! "modifier"%string = Datatypes.None /\
  makeStepManeuver (maneuver (step_at located 1)) !! "modifier"%string = Datatypes.None.
Proof.
  intros located.
  assert (2 <= length direct_leg)%nat as H by (cbn; lia).
  split; [exact H|].
  destruct (relative_location_out_of_range direct_leg leg_locations
              {| lon := 0; lat := 1 |} {| lon := 10; lat := 1 |} H)
    as (H1 & _ & H3 & H4).
  split; [exact H1|]. split.
  - apply H3; [reflexivity|vm_compute; reflexivity].
  - apply H4; [reflexivity|vm_compute; reflexivity].
Defined.

End FactoryWitnesses.

Section TurnDiscoveryFacts.
Import Typedefs TurnDiscovery.
Context {surroundings : Surroundings}.

(** X23: When [findPreviousIntersection] finds an intersection, the edge it
    names can be driven, the intersection at its end has [via_edge] among
    its roads and [via_edge] is not longer than the cutoff; when it finds
    none, it leaves the node and the edge of its result as they were or
    sets both to the special ids. *)
Theorem findPreviousIntersection_result (node_v via_edge : N)
    (intersection : list ConnectedRoad) (outputs : Result) :
  let '(found, result) := findPreviousIntersection node_v via_edge intersection outputs in
  if found then
    reversed (result_via_edge result) = false /\
    PrimFloat.ltb COMBINE_DISTANCE_CUTOFF (distance via_edge) = false /\
    (exists road,
       In road (getIntersection (result_node result) (result_via_edge result)) /\
       eid road = via_edge) /\
    result_intersection result =
      assignTurnTypes (result_node result) (result_via_edge result)
        (getIntersection (result_node result) (result_via_edge result))
  else
    (result_node result = result_node outputs /\
     result_via_edge result = result_via_edge outputs) \/
    (result_node result = SPECIAL_NODEID /\ result_via_edge result = SPECIAL_EDGEID).
Proof.
  unfold findPreviousIntersection. cbv zeta.
  destruct (PrimFloat.ltb COMBINE_DISTANCE_CUTOFF (distance via_edge)) eqn:Hd;
    [now left|].
  destruct (PrimFloat.ltb GROUP_ANGLE _); [now left|].
  destruct (reversed _) eqn:Hr; [now right|].
  destruct (existsb _ _) eqn:He; cbn [negb]; [|now right].
  cbn [result_node result_via_edge result_intersection].
  split; [exact Hr|]. split; [reflexivity|]. split; [|reflexivity].
  apply existsb_exists in He as (road & Hin & Heq).
  exists road. split; [exact Hin|]. now apply N.eqb_eq.
Qed.

End TurnDiscoveryFacts.
